(** * startdue_valley: simulation core, shallow embedding and verification

    The TypeScript sources embedded here:
    - [src/simulation/movement.ts]      (module [Movement])
    - [src/simulation/schedule.ts]      (module [Schedule])
    - [src/simulation/replanning.ts] and the replan effect of the game page
                                        (module [Replanning])
    - the decision guardrail of the LLM adapter (module [Guardrail])
    - [src/simulation/snapshots.ts]     (module [Snapshots])
    - the pathfinding service, in its two revisions: the linear-scan
      open-set search and the binary-min-heap search (module [Pathfinding])
    - the simulation clock's [toSimulationTime] (module [Clock]), action
      execution (module [ActionExecution]), the resource inventory (module
      [Resources]) and the schedule index (module [ScheduleIndex])
    - [src/simulation/planning.ts] (module [MovementPlanning]) and the part
      of the game page's tick effect that moves a villager (module
      [VillagerWalk])
    - the prompt context assembler (module [ContextAssembler])
    - the decision validation of the LLM adapter (module [DecisionAdapter])
      and the decision check of the game page (module [DecisionClient])
    - villager animation (module [Animation]), and the interaction and
      resource effects of the game page (modules [Interactions], [Payout]).

    Conventions.  JavaScript integers are modelled by [Z]; an operation that
    throws returns [None] (or an error value); [undefined] is [None].
    Loops are written with an explicit fuel argument, and every loop comes
    with a lemma showing that the fuel handed to it is never exhausted. *)

From Stdlib Require Import ZArith List Lia Bool String Ascii QArith Qround Permutation Lqa.
From stdpp Require Import gmap strings list fin_maps sorting.

Local Open Scope string_scope.
Local Open Scope list_scope.
Local Open Scope Z_scope.

(* ===================================================================== *)
(** * Part I: definitions                                                 *)
(* ===================================================================== *)

(** ** Identifiers (src/domain/identifiers.ts) *)

Module Identifiers.

(** [TileId], [VillagerId] and [MemoryId] are template-literal string
    types; at run time they are plain strings. *)
Abbreviation TileId := string (only parsing).
Abbreviation VillagerId := string (only parsing).
Abbreviation MemoryId := string (only parsing).

(** JavaScript truthiness of a string: only the empty string is falsy. *)
Definition truthy (s : string) : bool :=
  match s with EmptyString => false | String _ _ => true end.

Fixpoint startsWith (prefix s : string) : bool :=
  match prefix, s with
  | EmptyString, _ => true
  | String a p, String b r => if Ascii.eqb a b then startsWith p r else false
  | String _ _, EmptyString => false
  end.

Definition isVillagerId (value : string) : bool :=
  startsWith "villager_" value && (String.length "villager_" <? String.length value)%nat.

Definition isMemoryId (value : string) : bool :=
  startsWith "memory_" value && (String.length "memory_" <? String.length value)%nat.

Definition isDigit (c : ascii) : bool :=
  let n := nat_of_ascii c in ((48 <=? n) && (n <=? 57))%nat.

(** Drops the longest prefix of decimal digits; the flag tells whether at
    least one digit was dropped ([\d+]). *)
Fixpoint dropDigits (s : string) : bool * string :=
  match s with
  | String c r => if isDigit c then (true, snd (dropDigits r)) else (false, s)
  | EmptyString => (false, s)
  end.

Fixpoint dropPrefix (prefix s : string) : option string :=
  match prefix, s with
  | EmptyString, _ => Some s
  | String a p, String b r => if Ascii.eqb a b then dropPrefix p r else None
  | String _ _, EmptyString => None
  end.

(** [/^tile_\d+_\d+$/.test(value)].  Greedy matching of [\d+] needs no
    backtracking here because the next character must be a non-digit. *)
Definition isTileId (value : string) : bool :=
  match dropPrefix "tile_" value with
  | None => false
  | Some r1 =>
      match dropDigits r1 with
      | (true, String "_" r2) =>
          match dropDigits r2 with
          | (true, EmptyString) => true
          | _ => false
          end
      | _ => false
      end
  end.

End Identifiers.
Export Identifiers.

(** ** Actions, states and roles (src/domain/actions.ts, jobs.ts) *)

Inductive VillagerActionType := Walk | Farm | Chat | Shop | Rest | Observe.
Inductive NpcState := Idle | Planning | Moving | Acting | Resting.
Inductive JobRole := Farmer | Merchant | Fisher | Builder | Caretaker.

Global Instance VillagerActionType_eq_dec : EqDecision VillagerActionType.
Proof. solve_decision. Defined.
Global Instance NpcState_eq_dec : EqDecision NpcState.
Proof. solve_decision. Defined.
Global Instance JobRole_eq_dec : EqDecision JobRole.
Proof. solve_decision. Defined.

(** JavaScript numbers that can be [+Infinity] (path scores). *)
Inductive Num := Fin (z : Z) | PosInf.

Global Instance Num_eq_dec : EqDecision Num.
Proof. solve_decision. Defined.

Definition num_add (a b : Num) : Num :=
  match a, b with
  | Fin p, Fin q => Fin (p + q)
  | _, _ => PosInf
  end.

Definition num_ltb (a b : Num) : bool :=
  match a, b with
  | Fin p, Fin q => p <? q
  | Fin _, PosInf => true
  | PosInf, _ => false
  end.

Definition num_leb (a b : Num) : bool :=
  match a, b with
  | Fin p, Fin q => p <=? q
  | _, PosInf => true
  | PosInf, Fin _ => false
  end.

(** [value !== undefined] *)
Definition isDefined {A : Type} (value : option A) : bool :=
  match value with
  | Some _ => true
  | None => false
  end.

(** [assertNonNegativeInteger]: the value, or [None] for the thrown error. *)
Definition assertNonNegativeInteger (value : Z) : option Z :=
  if value <? 0 then None else Some value.

(** ** Movement component (src/simulation/movement.ts) *)

Module Movement.

Record VillagerMovementComponent := {
  villagerId : VillagerId;
  currentTileId : TileId;
  path : list TileId;
  pathIndex : Z;
  lastProcessedTick : Z;
  arrivedAtTick : option Z
}.

Record VillagerArrivalEvent := {
  ev_villagerId : VillagerId;
  ev_tileId : TileId;
  ev_tick : Z
}.

Record MovementAdvanceResult := {
  component : VillagerMovementComponent;
  events : list VillagerArrivalEvent
}.

(** [path.length] as a JavaScript number. *)
Definition len (p : list TileId) : Z := Z.of_nat (length p).
Arguments len _ : simpl never.

(** [path[i]]: reading outside the array gives [undefined]; the component
    field is a [TileId], so the model keeps the previous tile in that case
    (it cannot arise when [0 <= pathIndex < path.length]). *)
Definition tileAt (p : list TileId) (i : Z) (fallback : TileId) : TileId :=
  if i <? 0 then fallback else nth (Z.to_nat i) p fallback.

Definition createVillagerMovementComponent
    (vid : VillagerId) (startTileId : TileId) (initialTick : Z)
  : option VillagerMovementComponent :=
  match assertNonNegativeInteger initialTick with
  | None => None
  | Some t =>
      Some {| villagerId := vid;
              currentTileId := startTileId;
              path := [startTileId];
              pathIndex := 0;
              lastProcessedTick := t;
              arrivedAtTick := Some initialTick |}
  end.

Definition assignVillagerMovementPath
    (c : VillagerMovementComponent) (p : list TileId) (tick : Z)
  : option VillagerMovementComponent :=
  match assertNonNegativeInteger tick with
  | None => None
  | Some safeTick =>
      match p with
      | [] => None
      | first :: _ =>
          Some {| villagerId := villagerId c;
                  currentTileId := first;
                  path := p;
                  pathIndex := 0;
                  lastProcessedTick := safeTick;
                  arrivedAtTick := if len p =? 1 then Some safeTick else None |}
      end
  end.

Definition advanceVillagerMovement
    (c : VillagerMovementComponent) (tick : Z) : option MovementAdvanceResult :=
  match assertNonNegativeInteger tick with
  | None => None
  | Some safeTick =>
      if (safeTick <=? lastProcessedTick c) || (len (path c) <=? 1) then
        Some {| component :=
                  {| villagerId := villagerId c;
                     currentTileId := currentTileId c;
                     path := path c;
                     pathIndex := pathIndex c;
                     lastProcessedTick := Z.max (lastProcessedTick c) safeTick;
                     arrivedAtTick := arrivedAtTick c |};
                events := [] |}
      else
        let tickDelta := safeTick - lastProcessedTick c in
        let nextPathIndex := Z.min (len (path c) - 1) (pathIndex c + tickDelta) in
        let nextCurrentTileId := tileAt (path c) nextPathIndex (currentTileId c) in
        let reachedDestination := nextPathIndex =? len (path c) - 1 in
        let distanceToDestination := len (path c) - 1 - pathIndex c in
        let arrivalTick :=
          if reachedDestination && negb (isDefined (arrivedAtTick c))
          then Some (lastProcessedTick c + distanceToDestination)
          else arrivedAtTick c in
        let nextComponent :=
          {| villagerId := villagerId c;
             currentTileId := nextCurrentTileId;
             path := path c;
             pathIndex := nextPathIndex;
             lastProcessedTick := safeTick;
             arrivedAtTick := arrivalTick |} in
        match arrivalTick with
        | Some at_ =>
            if negb reachedDestination || isDefined (arrivedAtTick c) then
              Some {| component := nextComponent; events := [] |}
            else
              Some {| component := nextComponent;
                      events := [ {| ev_villagerId := villagerId c;
                                     ev_tileId := nextCurrentTileId;
                                     ev_tick := at_ |} ] |}
        | None => Some {| component := nextComponent; events := [] |}
        end
  end.

(** A run of [advanceVillagerMovement] over successive ticks: the component
    after the last call and, for each call in order, the component it was
    given and its result.  The run aborts ([None]) if one call throws. *)
Fixpoint advanceMany (c : VillagerMovementComponent) (ticks : list Z)
  : option (VillagerMovementComponent *
            list (VillagerMovementComponent * MovementAdvanceResult)) :=
  match ticks with
  | [] => Some (c, [])
  | t :: rest =>
      match advanceVillagerMovement c t with
      | None => None
      | Some r =>
          match advanceMany (component r) rest with
          | None => None
          | Some (c', calls) => Some (c', (c, r) :: calls)
          end
      end
  end.

(** All arrival events of a run, in emission order. *)
Definition arrivals (calls : list (VillagerMovementComponent * MovementAdvanceResult))
  : list VillagerArrivalEvent :=
  concat (map (fun call => events (snd call)) calls).

(** The call [before -> after] is the one on which the end of the path is
    first reached. *)
Definition reachesEnd (before after : VillagerMovementComponent) : bool :=
  (pathIndex before <? len (path before) - 1) &&
  (pathIndex after =? len (path before) - 1).

(** The arrival event the claim describes for such a call. *)
Definition arrivalOf (before : VillagerMovementComponent) : VillagerArrivalEvent :=
  {| ev_villagerId := villagerId before;
     ev_tileId := tileAt (path before) (len (path before) - 1) (currentTileId before);
     ev_tick := lastProcessedTick before + (len (path before) - 1 - pathIndex before) |}.

(** The data-model invariant of a movement component. *)
Definition wellFormed (c : VillagerMovementComponent) : Prop :=
  0 <= lastProcessedTick c /\ 1 <= len (path c) /\
  0 <= pathIndex c <= len (path c) - 1.

(** Concrete components used as test inputs: a villager standing on a
    single-tile path, and one at the start of a three-tile path. *)
Definition standing : VillagerMovementComponent :=
  {| villagerId := "villager_ava"; currentTileId := "tile_1_3";
     path := ["tile_1_3"]; pathIndex := 0;
     lastProcessedTick := 0; arrivedAtTick := Some 0 |}.

Definition walking : VillagerMovementComponent :=
  {| villagerId := "villager_ava"; currentTileId := "tile_1_3";
     path := ["tile_1_3"; "tile_2_3"; "tile_3_3"]; pathIndex := 0;
     lastProcessedTick := 0; arrivedAtTick := None |}.

End Movement.

(** ** Schedule index (src/simulation/schedule.ts) *)

Module Schedule.

Definition MINUTES_PER_HOUR : Z := 60.
Definition MINUTES_PER_DAY : Z := 1440.
Definition IDLE_ACTION : VillagerActionType := Observe.

Record VillagerScheduleSlot := {
  hour : Z;
  slot_action : VillagerActionType;
  slot_targetTileId : TileId
}.

(** The fields of [Villager] read by the schedule index. *)
Record Villager := {
  villager_id : VillagerId;
  baseSchedule : list VillagerScheduleSlot
}.

Record VillagerScheduleEntry := {
  startMinute : Z;
  action : VillagerActionType;
  targetTileId : TileId
}.

Record VillagerDailySchedule := {
  villagerId : VillagerId;
  entries : list VillagerScheduleEntry
}.

Inductive TaskSource := SourceSchedule | SourceIdle.

Record ActiveVillagerTask := {
  task_villagerId : VillagerId;
  task_action : VillagerActionType;
  task_targetTileId : option TileId;
  task_source : TaskSource
}.

Record SimulationTime := { tick : Z; day : Z; minuteOfDay : Z }.

(** Throws (here [None]) unless the hour is an integer in [0, 23]. *)
Definition normalizeHourToMinute (h : Z) : option Z :=
  if (h <? 0) || (MINUTES_PER_DAY / MINUTES_PER_HOUR <=? h) then None
  else Some (h * MINUTES_PER_HOUR).

Definition slotToEntry (slot : VillagerScheduleSlot) : option VillagerScheduleEntry :=
  match normalizeHourToMinute (hour slot) with
  | None => None
  | Some m => Some {| startMinute := m;
                      action := slot_action slot;
                      targetTileId := slot_targetTileId slot |}
  end.

(** [Array.prototype.map] with a callback that may throw. *)
Fixpoint mapSlots (slots : list VillagerScheduleSlot) : option (list VillagerScheduleEntry) :=
  match slots with
  | [] => Some []
  | s :: rest =>
      match slotToEntry s with
      | None => None
      | Some e =>
          match mapSlots rest with
          | None => None
          | Some es => Some (e :: es)
          end
      end
  end.

(** [Array.prototype.sort] with the comparator
    [left.startMinute - right.startMinute] is a stable ascending sort; a
    stable insertion sort computes the same array. *)
Fixpoint insertEntry (e : VillagerScheduleEntry) (l : list VillagerScheduleEntry)
  : list VillagerScheduleEntry :=
  match l with
  | [] => [e]
  | h :: t => if startMinute e <=? startMinute h then e :: l else h :: insertEntry e t
  end.

Definition sortEntries (l : list VillagerScheduleEntry) : list VillagerScheduleEntry :=
  foldr insertEntry [] l.

(** The duplicate check: some pair of adjacent entries shares a start. *)
Fixpoint hasDuplicateHours (l : list VillagerScheduleEntry) : bool :=
  match l with
  | a :: ((b :: _) as t) => (startMinute a =? startMinute b) || hasDuplicateHours t
  | _ => false
  end.

Definition createVillagerDailySchedule (v : Villager) : option VillagerDailySchedule :=
  match mapSlots (baseSchedule v) with
  | None => None
  | Some es =>
      let sorted := sortEntries es in
      if hasDuplicateHours sorted then None
      else Some {| villagerId := villager_id v; entries := sorted |}
  end.

(** [entries[i]] for a JavaScript index. *)
Definition entryAt (es : list VillagerScheduleEntry) (i : Z) : option VillagerScheduleEntry :=
  if i <? 0 then None else nth_error es (Z.to_nat i).

(** The binary-search loop.  Outer [None]: the fuel ran out or
    [entries[mid]] was undefined (a thrown TypeError); inner option: the
    variable [activeEntry]. *)
Fixpoint searchLoop (fuel : nat) (es : list VillagerScheduleEntry) (m : Z)
    (low high : Z) (activeEntry : option VillagerScheduleEntry)
  : option (option VillagerScheduleEntry) :=
  if low <=? high then
    match fuel with
    | O => None
    | S fuel' =>
        let mid := Z.shiftr (low + high) 1 in
        match entryAt es mid with
        | None => None
        | Some e =>
            if startMinute e <=? m
            then searchLoop fuel' es m (mid + 1) high (Some e)
            else searchLoop fuel' es m low (mid - 1) activeEntry
        end
    end
  else Some activeEntry.

Definition resolveActiveVillagerTask (s : VillagerDailySchedule) (time : SimulationTime)
  : option ActiveVillagerTask :=
  let es := entries s in
  match searchLoop (length es) es (minuteOfDay time) 0 (Z.of_nat (length es) - 1) None with
  | None => None
  | Some None =>
      Some {| task_villagerId := villagerId s;
              task_action := IDLE_ACTION;
              task_targetTileId := None;
              task_source := SourceIdle |}
  | Some (Some e) =>
      Some {| task_villagerId := villagerId s;
              task_action := action e;
              task_targetTileId := Some (targetTileId e);
              task_source := SourceSchedule |}
  end.

(** The specification side of the lookup: [e] is an entry of the schedule
    with the greatest start-minute not after [m]. *)
Definition latestEntryAt (es : list VillagerScheduleEntry) (m : Z)
    (e : VillagerScheduleEntry) : Prop :=
  In e es /\ startMinute e <= m /\
  forall e', In e' es -> startMinute e' <= m -> startMinute e' <= startMinute e.

(** The idle fallback and the task made from an entry. *)
Definition idleTask (s : VillagerDailySchedule) : ActiveVillagerTask :=
  {| task_villagerId := villagerId s;
     task_action := Observe;
     task_targetTileId := None;
     task_source := SourceIdle |}.

Definition scheduledTask (s : VillagerDailySchedule) (e : VillagerScheduleEntry)
  : ActiveVillagerTask :=
  {| task_villagerId := villagerId s;
     task_action := action e;
     task_targetTileId := Some (targetTileId e);
     task_source := SourceSchedule |}.

(** A villager of the registry, as a test input. *)
Definition ava : Villager :=
  {| villager_id := "villager_ava";
     baseSchedule :=
       [ {| hour := 12; slot_action := Farm; slot_targetTileId := "tile_3_7" |};
         {| hour := 6; slot_action := Walk; slot_targetTileId := "tile_2_7" |};
         {| hour := 18; slot_action := Rest; slot_targetTileId := "tile_1_1" |} ] |}.

Definition avaSchedule : VillagerDailySchedule :=
  {| villagerId := "villager_ava";
     entries :=
       [ {| startMinute := 360; action := Walk; targetTileId := "tile_2_7" |};
         {| startMinute := 720; action := Farm; targetTileId := "tile_3_7" |};
         {| startMinute := 1080; action := Rest; targetTileId := "tile_1_1" |} ] |}.

End Schedule.

(** ** Decision guardrail (the LLM adapter, [applyDecisionGuardrails]) *)

Module Guardrail.

(** The fields of [NpcPromptInput] read by the policy rules. *)
Record NpcPromptInput := {
  role : JobRole;
  worldTime_minuteOfDay : Z
}.

Record NpcDecision := {
  action : VillagerActionType;
  reasoning : string;
  targetTileId : option TileId
}.

Inductive OutcomeKind := KindRewrite | KindBlock.

Record NpcDecisionPolicyViolation := {
  policyId : string;
  reason : string;
  originalAction : VillagerActionType;
  finalAction : VillagerActionType;
  outcome : OutcomeKind
}.

Inductive RuleOutcome :=
| OutRewrite (newAction : VillagerActionType) (why : string)
| OutBlock (why : string).

Record DecisionPolicyRule := {
  rule_id : string;
  disallowedActions : list VillagerActionType;
  evaluate : NpcPromptInput -> bool;
  rule_outcome : RuleOutcome
}.

Definition DECISION_POLICY_RULES : list DecisionPolicyRule :=
  [ {| rule_id := "role-restriction-shop";
       disallowedActions := [Shop];
       evaluate := fun context => negb (bool_decide (role context = Merchant));
       rule_outcome := OutBlock "Only merchant-role villagers may execute shop actions." |};
    {| rule_id := "role-restriction-farm";
       disallowedActions := [Farm];
       evaluate := fun context => negb (bool_decide (role context = Farmer));
       rule_outcome := OutRewrite Observe "Non-farmer villagers cannot execute farm actions." |};
    {| rule_id := "quiet-hours-social";
       disallowedActions := [Chat; Shop];
       evaluate := fun context =>
         (worldTime_minuteOfDay context <? 360) || (1320 <=? worldTime_minuteOfDay context);
       rule_outcome :=
         OutRewrite Observe "Social and market actions are disallowed during quiet hours." |} ].

Inductive DecisionValidity := Accepted | Rewritten.

Record DecisionModerationResult := {
  decision : NpcDecision;
  decisionValidity : DecisionValidity;
  policyViolations : list NpcDecisionPolicyViolation
}.

(** A call either returns or throws an [LlmAdapterApiError]. *)
Inductive Completion (A : Type) :=
| Returned (a : A)
| Thrown (message : string) (status : Z).
Arguments Returned {A} a.
Arguments Thrown {A} message status.

Definition actionRequiresTarget (a : VillagerActionType) : bool :=
  match a with
  | Walk | Farm | Shop => true
  | _ => false
  end.

Definition includes (l : list VillagerActionType) (a : VillagerActionType) : bool :=
  existsb (fun other => bool_decide (other = a)) l.

(** The loop over the rules, with the three mutable locals of the function
    as accumulators. *)
Fixpoint guardrailLoop (rules : list DecisionPolicyRule) (context : NpcPromptInput)
    (moderatedAction : VillagerActionType) (moderatedTargetTileId : option TileId)
    (violations : list NpcDecisionPolicyViolation)
  : Completion (VillagerActionType * option TileId * list NpcDecisionPolicyViolation) :=
  match rules with
  | [] => Returned (moderatedAction, moderatedTargetTileId, violations)
  | rule :: rest =>
      if negb (includes (disallowedActions rule) moderatedAction) || negb (evaluate rule context)
      then guardrailLoop rest context moderatedAction moderatedTargetTileId violations
      else
        match rule_outcome rule with
        | OutBlock why =>
            Thrown ("Decision blocked by policy " ++ rule_id rule ++ ": " ++ why)%string 422
        | OutRewrite newAction why =>
            let originalAction := moderatedAction in
            let target' := if actionRequiresTarget newAction
                           then moderatedTargetTileId else None in
            let violation := {| policyId := rule_id rule;
                                reason := why;
                                originalAction := originalAction;
                                finalAction := newAction;
                                outcome := KindRewrite |} in
            guardrailLoop rest context newAction target' (violations ++ [violation])
        end
  end.

Definition applyGuardrailsWith (rules : list DecisionPolicyRule)
    (d : NpcDecision) (context : NpcPromptInput) : Completion DecisionModerationResult :=
  match guardrailLoop rules context (action d) (targetTileId d) [] with
  | Thrown msg st => Thrown msg st
  | Returned (a, t, vs) =>
      Returned {| decision := {| action := a; reasoning := reasoning d; targetTileId := t |};
                  decisionValidity := if (0 <? length vs)%nat then Rewritten else Accepted;
                  policyViolations := vs |}
  end.

Definition applyDecisionGuardrails (d : NpcDecision) (context : NpcPromptInput)
  : Completion DecisionModerationResult :=
  applyGuardrailsWith DECISION_POLICY_RULES d context.

(** The violation recorded when [rule] rewrites [originalAction]. *)
Definition violationOf (rule : DecisionPolicyRule) (original final : VillagerActionType)
    (why : string) : NpcDecisionPolicyViolation :=
  {| policyId := rule_id rule;
     reason := why;
     originalAction := original;
     finalAction := final;
     outcome := KindRewrite |}.

Definition farmViolation : NpcDecisionPolicyViolation :=
  {| policyId := "role-restriction-farm";
     reason := "Non-farmer villagers cannot execute farm actions.";
     originalAction := Farm;
     finalAction := Observe;
     outcome := KindRewrite |}.

(** Test inputs: a builder at noon proposing to shop, and to farm. *)
Definition builderAtNoon : NpcPromptInput :=
  {| role := Builder; worldTime_minuteOfDay := 720 |}.

Definition proposeShop : NpcDecision :=
  {| action := Shop; reasoning := "buy seeds"; targetTileId := Some "tile_9_5" |}.

Definition proposeFarm : NpcDecision :=
  {| action := Farm; reasoning := "tend crops"; targetTileId := Some "tile_3_7" |}.

End Guardrail.

(** ** Replan scheduler (src/simulation/replanning.ts and the replan effect) *)

Module Replanning.


Record PersistedNpcIntent := {
  intent_action : VillagerActionType;
  intent_targetTileId : option TileId;
  intent_reasoning : string;
  plannedAtTick : Z
}.

Record NpcReplanState := {
  lastPlanTick : option Z;
  lastPlanSignature : option string;
  lastMajorEventTick : option Z;
  intent : option PersistedNpcIntent;
  intentUpdatedAtTick : option Z
}.















End Replanning.

(** ** Snapshot codec (src/simulation/snapshots.ts) *)

Module Snapshots.

(** The values [parseWorldSnapshot] receives are decoded JSON documents.
    A number is a rational (every finite double is one); an object is the
    list of its properties, with distinct keys. *)
#[warnings="-register-all"]
Inductive JValue :=
| JNull
| JBool (b : bool)
| JNumber (q : Q)
| JString (s : string)
| JArray (items : list JValue)
| JObject (fields : list (string * JValue)).

Definition WORLD_SNAPSHOT_VERSION : Q := 1.

(** [value.key]: [None] is [undefined].  None of the names read by the
    validators is a property of arrays or of primitives. *)
Fixpoint lookupField (key : string) (fields : list (string * JValue)) : option JValue :=
  match fields with
  | [] => None
  | (k, v) :: rest => if String.eqb k key then Some v else lookupField key rest
  end.

Definition getField (v : JValue) (key : string) : option JValue :=
  match v with
  | JObject fields => lookupField key fields
  | _ => None
  end.

(** [value && typeof value === "object"]: [null] is falsy, arrays are
    objects. *)
Definition isObjectLike (v : option JValue) : bool :=
  match v with
  | Some (JObject _) | Some (JArray _) => true
  | _ => false
  end.

Definition isInteger (q : Q) : bool := Qeq_bool q (inject_Z (Qfloor q)).

Definition isNumberSuchThat (p : Q -> bool) (v : option JValue) : bool :=
  match v with
  | Some (JNumber q) => p q
  | _ => false
  end.

(** [typeof v === "number" && Number.isInteger(v) && lo <= v]. *)
Definition isIntegerAtLeast (lo : Z) (v : option JValue) : bool :=
  match v with
  | Some (JNumber q) => isInteger q && Qle_bool (inject_Z lo) q
  | _ => false
  end.

Definition isIntegerBetween (lo hi : Z) (v : option JValue) : bool :=
  match v with
  | Some (JNumber q) => isInteger q && Qle_bool (inject_Z lo) q && Qle_bool q (inject_Z hi)
  | _ => false
  end.

(** [v === undefined || (typeof v === "number" && Number.isInteger(v))]. *)
Definition isOptionalInteger (v : option JValue) : bool :=
  match v with
  | None => true
  | Some (JNumber q) => isInteger q
  | Some _ => false
  end.

Definition isStringSuchThat (p : string -> bool) (v : option JValue) : bool :=
  match v with
  | Some (JString s) => p s
  | _ => false
  end.

Definition isOptionalStringSuchThat (p : string -> bool) (v : option JValue) : bool :=
  match v with
  | None => true
  | Some (JString s) => p s
  | Some _ => false
  end.

Definition anyString (s : string) : bool := true.

Definition inStrings (l : list string) (s : string) : bool := existsb (String.eqb s) l.

Definition NPC_STATES := ["idle"; "planning"; "moving"; "acting"; "resting"].
Definition VILLAGER_ACTIONS := ["walk"; "farm"; "chat"; "shop"; "rest"; "observe"].
Definition MEMORY_SOURCE_TYPES := ["self"; "world"; "villager"; "system"].

Definition isNpcState := inStrings NPC_STATES.
Definition isVillagerActionType := inStrings VILLAGER_ACTIONS.
Definition isMemorySourceType := inStrings MEMORY_SOURCE_TYPES.

Definition isMemoryImportance (q : Q) : bool := Qle_bool 0 q && Qle_bool q 1.

Definition isMemoryCreatedAt (value : option JValue) : bool :=
  match value with
  | Some ((JObject _ | JArray _) as candidate) =>
      isIntegerAtLeast 1 (getField candidate "day") &&
      isIntegerBetween 0 1439 (getField candidate "minuteOfDay")
  | _ => false
  end.

Definition isMemorySource (source : JValue) : bool :=
  isStringSuchThat isMemorySourceType (getField source "type") &&
  isOptionalStringSuchThat isVillagerId (getField source "actorVillagerId") &&
  isOptionalStringSuchThat anyString (getField source "eventId").

(** The checks shared by the two memory validators, in source order up to
    the bucket; [counterOk] is the bucket-specific counter check. *)
Definition isMemoryOfBucket (bucket counterName : string) (counterMin : Z)
    (value : JValue) : bool :=
  match value with
  | JObject _ | JArray _ =>
      let candidate := value in
      if negb (isStringSuchThat isMemoryId (getField candidate "id"))
         || negb (isStringSuchThat isVillagerId (getField candidate "villagerId"))
         || negb (isStringSuchThat anyString (getField candidate "type"))
         || negb (isStringSuchThat anyString (getField candidate "summary"))
         || negb (isObjectLike (getField candidate "source"))
         || negb (isMemoryCreatedAt (getField candidate "createdAt"))
         || negb (isStringSuchThat (String.eqb bucket) (getField candidate "bucket"))
         || negb (isIntegerAtLeast counterMin (getField candidate counterName))
         || negb (isNumberSuchThat isMemoryImportance (getField candidate "importance"))
      then false
      else
        match getField candidate "source" with
        | Some source => isMemorySource source
        | None => false
        end
  | _ => false
  end.

(** [expiresAfterTicks <= 0] rejects: the counter is at least 1. *)
Definition isShortTermMemory : JValue -> bool :=
  isMemoryOfBucket "short_term" "expiresAfterTicks" 1.

(** [reinforcementCount < 0] rejects: the counter is at least 0. *)
Definition isLongTermMemory : JValue -> bool :=
  isMemoryOfBucket "long_term" "reinforcementCount" 0.

Definition isArrayOf (p : JValue -> bool) (v : option JValue) : bool :=
  match v with
  | Some (JArray items) => forallb p items
  | _ => false
  end.

Definition isVillagerMemoryStore (value : option JValue) : bool :=
  match value with
  | Some ((JObject _ | JArray _) as candidate) =>
      isStringSuchThat isVillagerId (getField candidate "villagerId") &&
      isArrayOf isShortTermMemory (getField candidate "shortTerm") &&
      isArrayOf isLongTermMemory (getField candidate "longTerm")
  | _ => false
  end.

Definition isNpcReplanState (value : option JValue) : bool :=
  match value with
  | Some ((JObject _ | JArray _) as candidate) =>
      if negb (isOptionalInteger (getField candidate "lastPlanTick"))
         || negb (isOptionalStringSuchThat anyString (getField candidate "lastPlanSignature"))
         || negb (isOptionalInteger (getField candidate "lastMajorEventTick"))
         || negb (isOptionalInteger (getField candidate "intentUpdatedAtTick"))
      then false
      else
        match getField candidate "intent" with
        | None => true
        | Some ((JObject _ | JArray _) as intent) =>
            isStringSuchThat isVillagerActionType (getField intent "action") &&
            isOptionalStringSuchThat isTileId (getField intent "targetTileId") &&
            isStringSuchThat anyString (getField intent "reasoning") &&
            isNumberSuchThat isInteger (getField intent "plannedAtTick")
        | Some _ => false
        end
  | _ => false
  end.

Definition isPersistedNpcWorldState (value : JValue) : bool :=
  match value with
  | JObject _ | JArray _ =>
      let candidate := value in
      isStringSuchThat isVillagerId (getField candidate "villagerId") &&
      isStringSuchThat isTileId (getField candidate "currentTileId") &&
      isStringSuchThat isTileId (getField candidate "targetTileId") &&
      isStringSuchThat isNpcState (getField candidate "npcState") &&
      isVillagerMemoryStore (getField candidate "memoryStore") &&
      isNpcReplanState (getField candidate "replan")
  | _ => false
  end.

Definition versionMatches (v : option JValue) : bool :=
  match v with
  | Some (JNumber q) => Qeq_bool q WORLD_SNAPSHOT_VERSION
  | _ => false
  end.

Definition parseWorldSnapshot (value : JValue) : option JValue :=
  match value with
  | JObject _ | JArray _ =>
      let candidate := value in
      if negb (versionMatches (getField candidate "version"))
         || negb (isStringSuchThat anyString (getField candidate "savedAtIso"))
         || negb (isObjectLike (getField candidate "world"))
         || negb (isArrayOf isPersistedNpcWorldState (getField candidate "npcs"))
      then None
      else
        match getField candidate "savedAtIso", getField candidate "world",
              getField candidate "npcs" with
        | Some savedAtIso, Some world, Some npcs =>
            if negb (isIntegerAtLeast 0 (getField world "tick"))
               || negb (isIntegerAtLeast 1 (getField world "day"))
               || negb (isIntegerBetween 0 1439 (getField world "minuteOfDay"))
            then None
            else
              match getField world "tick", getField world "day",
                    getField world "minuteOfDay" with
              | Some t, Some d, Some m =>
                  Some (JObject
                          [ ("version", JNumber WORLD_SNAPSHOT_VERSION);
                            ("savedAtIso", savedAtIso);
                            ("world", JObject [("tick", t); ("day", d); ("minuteOfDay", m)]);
                            ("npcs", npcs) ])
              | _, _, _ => None
              end
        | _, _, _ => None
        end
  | _ => None
  end.

(** *** The typed side: [WorldSnapshot] and its JSON encoding *)

Inductive MemoryType := Observation | Interaction | TaskMemory | Emotion | Goal.
Inductive MemorySourceType := SourceSelf | SourceWorld | SourceVillager | SourceSystem.

Record SimulationTime := { tick : Z; day : Z; minuteOfDay : Z }.

Record VillagerMemorySource := {
  source_type : MemorySourceType;
  actorVillagerId : option VillagerId;
  eventId : option string
}.

(** The fields common to both buckets ([VillagerMemoryBase]). *)
Record VillagerMemoryBase := {
  memory_id : MemoryId;
  memory_villagerId : VillagerId;
  memory_type : MemoryType;
  summary : string;
  source : VillagerMemorySource;
  createdAt : SimulationTime;
  importance : Q
}.

Record ShortTermVillagerMemory := {
  short_base : VillagerMemoryBase;
  expiresAfterTicks : Z
}.

Record LongTermVillagerMemory := {
  long_base : VillagerMemoryBase;
  reinforcementCount : Z
}.

Record VillagerMemoryStore := {
  store_villagerId : VillagerId;
  shortTerm : list ShortTermVillagerMemory;
  longTerm : list LongTermVillagerMemory
}.

Record PersistedNpcWorldState := {
  villagerId : VillagerId;
  currentTileId : TileId;
  targetTileId : TileId;
  npcState : NpcState;
  memoryStore : VillagerMemoryStore;
  replan : Replanning.NpcReplanState
}.

Record WorldSnapshot := {
  version : Z;
  savedAtIso : string;
  world : SimulationTime;
  npcs : list PersistedNpcWorldState
}.

Definition actionName (a : VillagerActionType) : string :=
  match a with
  | Walk => "walk" | Farm => "farm" | Chat => "chat"
  | Shop => "shop" | Rest => "rest" | Observe => "observe"
  end.

Definition npcStateName (s : NpcState) : string :=
  match s with
  | Idle => "idle" | Planning => "planning" | Moving => "moving"
  | Acting => "acting" | Resting => "resting"
  end.

Definition memoryTypeName (t : MemoryType) : string :=
  match t with
  | Observation => "observation" | Interaction => "interaction"
  | TaskMemory => "task" | Emotion => "emotion" | Goal => "goal"
  end.

Definition memorySourceTypeName (t : MemorySourceType) : string :=
  match t with
  | SourceSelf => "self" | SourceWorld => "world"
  | SourceVillager => "villager" | SourceSystem => "system"
  end.

Definition jint (z : Z) : JValue := JNumber (inject_Z z).

(** An optional property: absent when the field is [undefined]
    ([JSON.stringify] drops such properties). *)
Definition optional (key : string) (v : option JValue) : list (string * JValue) :=
  match v with
  | None => []
  | Some j => [(key, j)]
  end.

Definition encodeTime (t : SimulationTime) : JValue :=
  JObject [("tick", jint (tick t)); ("day", jint (day t)); ("minuteOfDay", jint (minuteOfDay t))].

Definition encodeSource (s : VillagerMemorySource) : JValue :=
  JObject ([("type", JString (memorySourceTypeName (source_type s)))]
             ++ optional "actorVillagerId" (JString <$> actorVillagerId s)
             ++ optional "eventId" (JString <$> eventId s)).

Definition encodeBase (b : VillagerMemoryBase) : list (string * JValue) :=
  [ ("id", JString (memory_id b));
    ("villagerId", JString (memory_villagerId b));
    ("type", JString (memoryTypeName (memory_type b)));
    ("summary", JString (summary b));
    ("source", encodeSource (source b));
    ("createdAt", encodeTime (createdAt b));
    ("importance", JNumber (importance b)) ].

Definition encodeShortTerm (m : ShortTermVillagerMemory) : JValue :=
  JObject (encodeBase (short_base m)
             ++ [("bucket", JString "short_term");
                 ("expiresAfterTicks", jint (expiresAfterTicks m))]).

Definition encodeLongTerm (m : LongTermVillagerMemory) : JValue :=
  JObject (encodeBase (long_base m)
             ++ [("bucket", JString "long_term");
                 ("reinforcementCount", jint (reinforcementCount m))]).

Definition encodeStore (s : VillagerMemoryStore) : JValue :=
  JObject [ ("villagerId", JString (store_villagerId s));
            ("shortTerm", JArray (map encodeShortTerm (shortTerm s)));
            ("longTerm", JArray (map encodeLongTerm (longTerm s))) ].

Definition encodeIntent (i : Replanning.PersistedNpcIntent) : JValue :=
  JObject ([("action", JString (actionName (Replanning.intent_action i)))]
             ++ optional "targetTileId" (JString <$> Replanning.intent_targetTileId i)
             ++ [("reasoning", JString (Replanning.intent_reasoning i));
                 ("plannedAtTick", jint (Replanning.plannedAtTick i))]).

Definition encodeReplan (r : Replanning.NpcReplanState) : JValue :=
  JObject (optional "lastPlanTick" (jint <$> Replanning.lastPlanTick r)
             ++ optional "lastPlanSignature" (JString <$> Replanning.lastPlanSignature r)
             ++ optional "lastMajorEventTick" (jint <$> Replanning.lastMajorEventTick r)
             ++ optional "intent" (encodeIntent <$> Replanning.intent r)
             ++ optional "intentUpdatedAtTick" (jint <$> Replanning.intentUpdatedAtTick r)).

Definition encodeNpc (n : PersistedNpcWorldState) : JValue :=
  JObject [ ("villagerId", JString (villagerId n));
            ("currentTileId", JString (currentTileId n));
            ("targetTileId", JString (targetTileId n));
            ("npcState", JString (npcStateName (npcState n)));
            ("memoryStore", encodeStore (memoryStore n));
            ("replan", encodeReplan (replan n)) ].

(** The JSON document of a snapshot: what [JSON.parse(JSON.stringify(s))]
    yields, and also how the validators see the in-memory object. *)
Definition encodeSnapshot (s : WorldSnapshot) : JValue :=
  JObject [ ("version", jint (version s));
            ("savedAtIso", JString (savedAtIso s));
            ("world", encodeTime (world s));
            ("npcs", JArray (map encodeNpc (npcs s))) ].

(** *** The documented structural constraints, on the typed side *)

Definition optionHolds {A} (p : A -> bool) (o : option A) : Prop :=
  match o with
  | None => True
  | Some a => p a = true
  end.

Definition validBase (b : VillagerMemoryBase) : Prop :=
  isMemoryId (memory_id b) = true /\
  isVillagerId (memory_villagerId b) = true /\
  optionHolds isVillagerId (actorVillagerId (source b)) /\
  1 <= day (createdAt b) /\
  0 <= minuteOfDay (createdAt b) <= 1439 /\
  (0 <= importance b)%Q /\ (importance b <= 1)%Q.

Definition validShortTerm (m : ShortTermVillagerMemory) : Prop :=
  validBase (short_base m) /\ 1 <= expiresAfterTicks m.

Definition validLongTerm (m : LongTermVillagerMemory) : Prop :=
  validBase (long_base m) /\ 0 <= reinforcementCount m.

Definition validStore (s : VillagerMemoryStore) : Prop :=
  isVillagerId (store_villagerId s) = true /\
  Forall validShortTerm (shortTerm s) /\
  Forall validLongTerm (longTerm s).

Definition validReplan (r : Replanning.NpcReplanState) : Prop :=
  match Replanning.intent r with
  | None => True
  | Some i => optionHolds isTileId (Replanning.intent_targetTileId i)
  end.

Definition validNpc (n : PersistedNpcWorldState) : Prop :=
  isVillagerId (villagerId n) = true /\
  isTileId (currentTileId n) = true /\
  isTileId (targetTileId n) = true /\
  validStore (memoryStore n) /\
  validReplan (replan n).

Definition validSnapshot (s : WorldSnapshot) : Prop :=
  version s = 1 /\
  0 <= tick (world s) /\
  1 <= day (world s) /\
  0 <= minuteOfDay (world s) <= 1439 /\
  Forall validNpc (npcs s).

(** A snapshot with one agent, as a test input. *)
Definition sampleMemory : VillagerMemoryBase :=
  {| memory_id := "memory_ava_1";
     memory_villagerId := "villager_ava";
     memory_type := Interaction;
     summary := "Interacted with Ben near tile_2_3.";
     source := {| source_type := SourceVillager;
                  actorVillagerId := Some "villager_ben";
                  eventId := Some "interaction_7" |};
     createdAt := {| tick := 7; day := 1; minuteOfDay := 7 |};
     importance := 55 # 100 |}.

Definition sampleSnapshot : WorldSnapshot :=
  {| version := 1;
     savedAtIso := "2026-01-01T00:00:00.000Z";
     world := {| tick := 30; day := 1; minuteOfDay := 30 |};
     npcs :=
       [ {| villagerId := "villager_ava";
            currentTileId := "tile_1_3";
            targetTileId := "tile_2_7";
            npcState := Moving;
            memoryStore :=
              {| store_villagerId := "villager_ava";
                 shortTerm := [ {| short_base := sampleMemory; expiresAfterTicks := 240 |} ];
                 longTerm := [ {| long_base := sampleMemory; reinforcementCount := 1 |} ] |};
            replan :=
              {| Replanning.lastPlanTick := Some 20;
                 Replanning.lastPlanSignature := Some "walk#tile_2_7";
                 Replanning.lastMajorEventTick := None;
                 Replanning.intent :=
                   Some {| Replanning.intent_action := Walk;
                           Replanning.intent_targetTileId := Some "tile_2_7";
                           Replanning.intent_reasoning := "go to the field";
                           Replanning.plannedAtTick := 20 |};
                 Replanning.intentUpdatedAtTick := Some 20 |} |} ] |}.

(** The version property of an arbitrary document equals the current
    version. *)
Definition hasCurrentVersion (value : JValue) : Prop :=
  exists q, getField value "version" = Some (JNumber q) /\ (q == WORLD_SNAPSHOT_VERSION)%Q.

End Snapshots.

(** ** Pathfinding service (both revisions of the search) *)

Module Pathfinding.

Inductive TileType := TilePath | TileHome | TilePlaza | TileFarm | TileShop | TileWater | TileTree.

Record TileCoordinate := { x : Z; y : Z }.

Record Tile := {
  tile_id : TileId;
  coordinate : TileCoordinate;
  tile_type : TileType;
  walkable : bool
}.

Record PathfindingRequest := {
  startTileId : TileId;
  destinationTileId : TileId;
  blockedTileIds : option (list TileId)
}.

Inductive UnreachableReason :=
| unknown_start | unknown_destination | blocked_start | blocked_destination | no_route.

Inductive PathfindingResult :=
| Found (path : list TileId) (fromCache : bool)
| Unreachable (reason : UnreachableReason) (path : list TileId).

Record PathfindingNode := {
  node_id : TileId;
  node_x : Z;
  node_y : Z;
  node_walkable : bool;
  neighbors : list TileId
}.

(** [`${x},${y}`]: on integers the key string determines the pair, which
    the model keeps. *)
Definition toCoordinateKey (cx cy : Z) : Z * Z := (cx, cy).

Definition coordinatesToId (tiles : list Tile) : gmap (Z * Z) TileId :=
  foldl (fun m tile =>
           <[toCoordinateKey (x (coordinate tile)) (y (coordinate tile)) := tile_id tile]> m)
        ∅ tiles.

Definition neighborsOf (c2i : gmap (Z * Z) TileId) (tile : Tile) : list TileId :=
  omap (fun key => c2i !! key)
       [ toCoordinateKey (x (coordinate tile) + 1) (y (coordinate tile));
         toCoordinateKey (x (coordinate tile) - 1) (y (coordinate tile));
         toCoordinateKey (x (coordinate tile)) (y (coordinate tile) + 1);
         toCoordinateKey (x (coordinate tile)) (y (coordinate tile) - 1) ].

Definition createNodesById (tiles : list Tile) : gmap TileId PathfindingNode :=
  let c2i := coordinatesToId tiles in
  foldl (fun m tile =>
           <[tile_id tile := {| node_id := tile_id tile;
                                node_x := x (coordinate tile);
                                node_y := y (coordinate tile);
                                node_walkable := walkable tile;
                                neighbors := neighborsOf c2i tile |}]> m)
        ∅ tiles.

Definition heuristicDistance (nodesById : gmap TileId PathfindingNode)
    (fromId toId : TileId) : Num :=
  match nodesById !! fromId, nodesById !! toId with
  | Some fromNode, Some toNode =>
      Fin (Z.abs (node_x fromNode - node_x toNode) + Z.abs (node_y fromNode - node_y toNode))
  | _, _ => PosInf
  end.

(** [gScore.get(id) ?? Number.POSITIVE_INFINITY] *)
Definition scoreOf (scores : gmap TileId Num) (tileId : TileId) : Num :=
  default PosInf (scores !! tileId).

(** The loop of [reconstructPath]; [extend] is [unshift] in the linear-scan
    revision and [push] in the heap revision.  [None]: out of fuel. *)
Fixpoint reconstructLoop (fuel : nat) (cameFrom : gmap TileId TileId)
    (extend : TileId -> list TileId -> list TileId)
    (acc : list TileId) (currentStep : TileId) : option (list TileId) :=
  if truthy currentStep then
    match cameFrom !! currentStep with
    | None => Some acc
    | Some previousStep =>
        if truthy previousStep then
          match fuel with
          | O => None
          | S fuel' => reconstructLoop fuel' cameFrom extend (extend previousStep acc) previousStep
          end
        else Some acc
    end
  else Some acc.

(** The body of the loop over [currentNode.neighbors], for one neighbour.
    [enqueue] is what the revision does with an improved neighbour; the
    rest of the body is the same text in both. *)
Definition relaxNeighbor {O : Type} (enqueue : TileId -> Num -> O -> O)
    (nodesById : gmap TileId PathfindingNode) (destinationTileId : TileId)
    (blocked closedSet : gset TileId) (current : TileId)
    (st : gmap TileId TileId * gmap TileId Num * O) (neighborId : TileId)
  : gmap TileId TileId * gmap TileId Num * O :=
  let '(cameFrom, gScore, open) := st in
  if bool_decide (neighborId ∈ closedSet) || bool_decide (neighborId ∈ blocked) then st
  else
    match nodesById !! neighborId with
    | None => st
    | Some neighborNode =>
        if negb (node_walkable neighborNode) then st
        else
          let tentativeScore := num_add (scoreOf gScore current) (Fin 1) in
          if num_leb (scoreOf gScore neighborId) tentativeScore then st
          else
            (<[neighborId := current]> cameFrom,
             <[neighborId := tentativeScore]> gScore,
             enqueue neighborId
               (num_add tentativeScore
                  (heuristicDistance nodesById neighborId destinationTileId)) open)
    end.

Definition relaxNeighbors {O : Type} (enqueue : TileId -> Num -> O -> O)
    (nodesById : gmap TileId PathfindingNode) (destinationTileId : TileId)
    (blocked closedSet : gset TileId) (current : TileId)
    (st : gmap TileId TileId * gmap TileId Num * O) (ns : list TileId) :=
  foldl (relaxNeighbor enqueue nodesById destinationTileId blocked closedSet current) st ns.

(** Fuel for the main loop of either search: one more than the number of
    neighbour slots in the graph (see [searchLoop_total] and
    [linear_searchLoop_total]). *)
Definition pendingDegree (nodesById : gmap TileId PathfindingNode)
    (closedSet : gset TileId) : nat :=
  sum_list_with
    (fun entry : TileId * PathfindingNode =>
       if bool_decide (entry.1 ∈ closedSet) then O else length (neighbors entry.2))
    (map_to_list nodesById).

Definition searchFuel (nodesById : gmap TileId PathfindingNode) : nat :=
  S (pendingDegree nodesById ∅).

(** *** Revision 1: linear scan over an insertion-ordered open set *)

Module LinearScan.

(** A JavaScript [Set] iterated in insertion order. *)
Definition setAdd (tileId : TileId) (s : list TileId) : list TileId :=
  if bool_decide (tileId ∈ s) then s else s ++ [tileId].

Definition setDelete (tileId : TileId) (s : list TileId) : list TileId :=
  filter (fun other => other ≠ tileId) s.

Definition pickLowestScore (openSet : list TileId) (fScore : gmap TileId Num)
  : option TileId :=
  fst (foldl (fun (best : option TileId * Num) tileId =>
                let score := scoreOf fScore tileId in
                if num_ltb score best.2 then (Some tileId, score) else best)
             (None, PosInf) openSet).

Definition reconstructPath (cameFrom : gmap TileId TileId) (current : TileId)
  : option (list TileId) :=
  reconstructLoop (size cameFrom) cameFrom (fun previousStep acc => previousStep :: acc)
                  [current] current.

Record SearchState := {
  openSet : list TileId;
  closedSet : gset TileId;
  cameFrom : gmap TileId TileId;
  gScore : gmap TileId Num;
  fScore : gmap TileId Num
}.

Definition enqueue (tileId : TileId) (f : Num)
    (open : list TileId * gmap TileId Num) : list TileId * gmap TileId Num :=
  (setAdd tileId open.1, <[tileId := f]> open.2).

(** Outer [None]: out of fuel; inner [None]: [undefined]. *)
Fixpoint searchLoop (fuel : nat) (nodesById : gmap TileId PathfindingNode)
    (destinationTileId : TileId) (blocked : gset TileId) (st : SearchState)
  : option (option (list TileId)) :=
  match openSet st with
  | [] => Some None
  | _ :: _ =>
      match fuel with
      | O => None
      | S fuel' =>
          match pickLowestScore (openSet st) (fScore st) with
          | None => Some None
          | Some current =>
              if negb (truthy current) then Some None
              else if bool_decide (current = destinationTileId) then
                Some <$> reconstructPath (cameFrom st) current
              else
                let openSet' := setDelete current (openSet st) in
                let closedSet' := {[current]} ∪ closedSet st in
                match nodesById !! current with
                | None =>
                    searchLoop fuel' nodesById destinationTileId blocked
                      {| openSet := openSet'; closedSet := closedSet';
                         cameFrom := cameFrom st; gScore := gScore st; fScore := fScore st |}
                | Some currentNode =>
                    let '(cameFrom', gScore', (openSet'', fScore')) :=
                      relaxNeighbors enqueue nodesById destinationTileId blocked closedSet'
                        current (cameFrom st, gScore st, (openSet', fScore st))
                        (neighbors currentNode) in
                    searchLoop fuel' nodesById destinationTileId blocked
                      {| openSet := openSet''; closedSet := closedSet';
                         cameFrom := cameFrom'; gScore := gScore'; fScore := fScore' |}
                end
          end
      end
  end.

Definition initialState (nodesById : gmap TileId PathfindingNode)
    (startTileId destinationTileId : TileId) : SearchState :=
  {| openSet := [startTileId];
     closedSet := ∅;
     cameFrom := ∅;
     gScore := {[startTileId := Fin 0]};
     fScore := {[startTileId := heuristicDistance nodesById startTileId destinationTileId]} |}.

Definition findShortestPath (nodesById : gmap TileId PathfindingNode)
    (startTileId destinationTileId : TileId) (blockedTileIds : gset TileId)
  : option (option (list TileId)) :=
  searchLoop (searchFuel nodesById) nodesById destinationTileId blockedTileIds
             (initialState nodesById startTileId destinationTileId).

End LinearScan.

(** *** Revision 2: binary min-heap with lazy deletion *)

Module MinHeap.

Abbreviation HeapEntry := (TileId * Num)%type (only parsing).

Definition scoreAt (heap : list HeapEntry) (i : nat) : Num :=
  match heap !! i with
  | Some e => e.2
  | None => PosInf
  end.

(** [[heap[i], heap[j]] = [heap[j], heap[i]]] *)
Definition swap (heap : list HeapEntry) (i j : nat) : list HeapEntry :=
  match heap !! i, heap !! j with
  | Some a, Some b => <[i := b]> (<[j := a]> heap)
  | _, _ => heap
  end.

(** [bubbleUp]; the index halves at each turn, so [index] turns suffice. *)
Fixpoint bubbleUpLoop (fuel : nat) (heap : list HeapEntry) (index : nat) : list HeapEntry :=
  match fuel with
  | O => heap
  | S fuel' =>
      if (0 <? index)%nat then
        let parentIndex := ((index - 1) / 2)%nat in
        if num_leb (scoreAt heap parentIndex) (scoreAt heap index) then heap
        else bubbleUpLoop fuel' (swap heap parentIndex index) parentIndex
      else heap
  end.

Definition bubbleUp (heap : list HeapEntry) (index : nat) : list HeapEntry :=
  bubbleUpLoop index heap index.

(** [sinkDown]; the index grows at each turn, so [length] turns suffice. *)
Fixpoint sinkDownLoop (fuel : nat) (heap : list HeapEntry) (index : nat) : list HeapEntry :=
  match fuel with
  | O => heap
  | S fuel' =>
      let len := length heap in
      let left := (2 * index + 1)%nat in
      let right := (2 * index + 2)%nat in
      let smallest := index in
      let smallest :=
        if (left <? len)%nat && num_ltb (scoreAt heap left) (scoreAt heap smallest)
        then left else smallest in
      let smallest :=
        if (right <? len)%nat && num_ltb (scoreAt heap right) (scoreAt heap smallest)
        then right else smallest in
      if (smallest =? index)%nat then heap
      else sinkDownLoop fuel' (swap heap smallest index) smallest
  end.

Definition sinkDown (heap : list HeapEntry) (index : nat) : list HeapEntry :=
  sinkDownLoop (length heap) heap index.

Definition push (tileId : TileId) (score : Num) (heap : list HeapEntry) : list HeapEntry :=
  let heap' := heap ++ [(tileId, score)] in
  bubbleUp heap' (length heap' - 1).

(** [pop]: the popped id ([None] on an empty heap) and the heap left. *)
Definition pop (heap : list HeapEntry) : option TileId * list HeapEntry :=
  match heap with
  | [] => (None, [])
  | top :: _ =>
      let last := List.last heap top in
      let heap' := removelast heap in
      if (0 <? length heap')%nat
      then (Some top.1, sinkDown (<[0%nat := last]> heap') 0)
      else (Some top.1, heap')
  end.

Definition reconstructPath (cameFrom : gmap TileId TileId) (current : TileId)
  : option (list TileId) :=
  reverse <$> reconstructLoop (size cameFrom) cameFrom
            (fun previousStep acc => acc ++ [previousStep]) [current] current.

Record SearchState := {
  heap : list HeapEntry;
  closedSet : gset TileId;
  cameFrom : gmap TileId TileId;
  gScore : gmap TileId Num
}.

(** Outer [None]: out of fuel; inner [None]: [undefined]. *)
Fixpoint searchLoop (fuel : nat) (nodesById : gmap TileId PathfindingNode)
    (destinationTileId : TileId) (blocked : gset TileId) (st : SearchState)
  : option (option (list TileId)) :=
  match heap st with
  | [] => Some None
  | _ :: _ =>
      match fuel with
      | O => None
      | S fuel' =>
          match pop (heap st) with
          | (None, _) => Some None
          | (Some current, heap') =>
              if negb (truthy current) then Some None
              else if bool_decide (current = destinationTileId) then
                Some <$> reconstructPath (cameFrom st) current
              else if bool_decide (current ∈ closedSet st) then
                searchLoop fuel' nodesById destinationTileId blocked
                  {| heap := heap'; closedSet := closedSet st;
                     cameFrom := cameFrom st; gScore := gScore st |}
              else
                let closedSet' := {[current]} ∪ closedSet st in
                match nodesById !! current with
                | None =>
                    searchLoop fuel' nodesById destinationTileId blocked
                      {| heap := heap'; closedSet := closedSet';
                         cameFrom := cameFrom st; gScore := gScore st |}
                | Some currentNode =>
                    let '(cameFrom', gScore', heap'') :=
                      relaxNeighbors push nodesById destinationTileId blocked closedSet'
                        current (cameFrom st, gScore st, heap') (neighbors currentNode) in
                    searchLoop fuel' nodesById destinationTileId blocked
                      {| heap := heap''; closedSet := closedSet';
                         cameFrom := cameFrom'; gScore := gScore' |}
                end
          end
      end
  end.

Definition initialState (nodesById : gmap TileId PathfindingNode)
    (startTileId destinationTileId : TileId) : SearchState :=
  {| heap := push startTileId (heuristicDistance nodesById startTileId destinationTileId) [];
     closedSet := ∅;
     cameFrom := ∅;
     gScore := {[startTileId := Fin 0]} |}.

Definition findShortestPath (nodesById : gmap TileId PathfindingNode)
    (startTileId destinationTileId : TileId) (blockedTileIds : gset TileId)
  : option (option (list TileId)) :=
  searchLoop (searchFuel nodesById) nodesById destinationTileId blockedTileIds
             (initialState nodesById startTileId destinationTileId).

End MinHeap.

(** *** The service: [createPathfindingService] and [findPath] *)

(** [toCacheKey] builds the text [start->destination|b1,b2,...] from the
    two ids and the blocked ids sorted with [localeCompare].  The model
    keeps the triple (start, destination, blocked set) as the key.  The two
    agree on which requests share a key whenever the ids have the TileId
    shape [tile_<digits>_<digits>]: such ids are not empty and hold none of
    the separators [->], [|] and [,], so the text determines the triple
    ([cacheKeyText_inj] below), and the sorted order of a set is one order,
    so the triple determines the text.  Start and destination reach
    [toCacheKey] only as ids of known tiles.  Blocked ids outside the
    TileId shape, which the type of [blockedTileIds] rules out, can make
    two different blocked sets share one text (the one-element set with
    the id [tile_1_0,tile_9_9] and the two-element set of its halves); the
    theorems that depend on what a key identifies are stated for blocked
    ids of the TileId shape. *)
Abbreviation CacheKey := (TileId * TileId * gset TileId)%type (only parsing).

Definition toCacheKey (startTileId destinationTileId : TileId) (blocked : gset TileId)
  : CacheKey := (startTileId, destinationTileId, blocked).

(** The key text of the source, given the blocked ids in sorted order. *)
Definition cacheKeyText (startTileId destinationTileId : TileId)
    (sortedBlocked : list TileId) : string :=
  (startTileId ++ "->" ++ destinationTileId ++ "|" ++ String.concat "," sortedBlocked)%string.

(** A JavaScript [Map] with its insertion order: oldest entry first. *)
Abbreviation RouteCache := (list (CacheKey * list TileId)) (only parsing).

Definition cacheGet (key : CacheKey) (cache : RouteCache) : option (list TileId) :=
  snd <$> List.find (fun entry => bool_decide (entry.1 = key)) cache.

Definition cacheDelete (key : CacheKey) (cache : RouteCache) : RouteCache :=
  filter (fun entry => entry.1 ≠ key) cache.

(** [Map.prototype.set]: an existing key keeps its place, a new one goes
    last. *)
Definition cacheSet (key : CacheKey) (value : list TileId) (cache : RouteCache) : RouteCache :=
  if bool_decide (key ∈ cache.*1)
  then map (fun entry => if bool_decide (entry.1 = key) then (key, value) else entry) cache
  else cache ++ [(key, value)].

Record PathfindingService := {
  nodesById : gmap TileId PathfindingNode;
  normalizedMaxCachedRoutes : Z;
  routeCache : RouteCache
}.

Definition DEFAULT_MAX_CACHED_ROUTES : Z := 256.

Definition createPathfindingService (tiles : list Tile) (maxCachedRoutes : Z)
  : PathfindingService :=
  {| nodesById := createNodesById tiles;
     normalizedMaxCachedRoutes := if 0 <? maxCachedRoutes then maxCachedRoutes else 1;
     routeCache := [] |}.

Definition withCache (s : PathfindingService) (cache : RouteCache) : PathfindingService :=
  {| nodesById := nodesById s;
     normalizedMaxCachedRoutes := normalizedMaxCachedRoutes s;
     routeCache := cache |}.

Definition blockedSet (request : PathfindingRequest) : gset TileId :=
  list_to_set (default [] (blockedTileIds request)).

(** [findPath], over the search of either revision.  The result and the
    service with its updated cache; [None] only if the search ran out of
    fuel. *)
Definition findPathWith
    (findShortestPath : gmap TileId PathfindingNode -> TileId -> TileId -> gset TileId ->
                        option (option (list TileId)))
    (s : PathfindingService) (request : PathfindingRequest)
  : option (PathfindingResult * PathfindingService) :=
  match nodesById s !! startTileId request with
  | None => Some (Unreachable unknown_start [], s)
  | Some startNode =>
      match nodesById s !! destinationTileId request with
      | None => Some (Unreachable unknown_destination [], s)
      | Some destinationNode =>
          let blocked := blockedSet request in
          if bool_decide (node_id startNode ∈ blocked) || negb (node_walkable startNode)
          then Some (Unreachable blocked_start [], s)
          else if bool_decide (node_id destinationNode ∈ blocked)
                  || negb (node_walkable destinationNode)
          then Some (Unreachable blocked_destination [], s)
          else if bool_decide (node_id startNode = node_id destinationNode)
          then Some (Found [node_id startNode] false, s)
          else
            let cacheKey := toCacheKey (node_id startNode) (node_id destinationNode) blocked in
            match cacheGet cacheKey (routeCache s) with
            | Some cachedPath =>
                Some (Found cachedPath true,
                      withCache s (cacheSet cacheKey cachedPath
                                     (cacheDelete cacheKey (routeCache s))))
            | None =>
                match findShortestPath (nodesById s) (node_id startNode)
                        (node_id destinationNode) blocked with
                | None => None
                | Some None => Some (Unreachable no_route [], s)
                | Some (Some path) =>
                    let cache1 := cacheSet cacheKey path (routeCache s) in
                    let cache2 :=
                      if normalizedMaxCachedRoutes s <? Z.of_nat (length cache1) then
                        match cache1 with
                        | (oldestKey, _) :: _ => cacheDelete oldestKey cache1
                        | [] => cache1
                        end
                      else cache1 in
                    Some (Found path false, withCache s cache2)
                end
            end
      end
  end.

Definition findPath := findPathWith MinHeap.findShortestPath.

(** A run of requests against a service, threading the cache. *)
Fixpoint findPaths (s : PathfindingService) (requests : list PathfindingRequest)
  : option PathfindingService :=
  match requests with
  | [] => Some s
  | r :: rest =>
      match findPath s r with
      | None => None
      | Some (_, s') => findPaths s' rest
      end
  end.

End Pathfinding.


(** ** Invariants and specification predicates used by the proofs *)

Module MovementSpec.
Import Movement.

(** What holds of a component from [assignVillagerMovementPath] on, through
    every later [advanceVillagerMovement]: the arrival marker is set exactly
    when the index is at the end of the path. *)
Definition tracking (p : list TileId) (c : VillagerMovementComponent) : Prop :=
  wellFormed c /\ path c = p /\
  (arrivedAtTick c = None <-> pathIndex c < len p - 1).

End MovementSpec.

Module ScheduleSpec.
Import Schedule.

Definition byStart (a b : VillagerScheduleEntry) : Prop := startMinute a <= startMinute b.
Definition byStartStrict (a b : VillagerScheduleEntry) : Prop := startMinute a < startMinute b.

End ScheduleSpec.

Module ReplanningSpec.
Import Replanning.


End ReplanningSpec.

Module HeapSpec.
Import Pathfinding MinHeap.

Definition num_le (a b : Num) : Prop := num_leb a b = true.

(** [(index - 1) >> 1] *)
Definition parent (i : nat) : nat := ((i - 1) / 2)%nat.

(** The heap order of the array: no entry scores less than its parent. *)
Definition heapOrdered (h : list HeapEntry) : Prop :=
  forall j, (0 < j < length h)%nat -> num_le (scoreAt h (parent j)) (scoreAt h j).

(** Heap order everywhere except between [i] and its parent, with the
    children of [i] already above the parent of [i]: the state of
    [bubbleUp] at index [i]. *)
Definition orderedAbove (h : list HeapEntry) (i : nat) : Prop :=
  (forall j, (0 < j < length h)%nat -> j <> i ->
             num_le (scoreAt h (parent j)) (scoreAt h j)) /\
  (forall c, (0 < i)%nat -> (0 < c < length h)%nat -> parent c = i ->
             num_le (scoreAt h (parent i)) (scoreAt h c)).

(** Heap order everywhere except between [i] and its children, with the
    children of [i] already above the parent of [i]: the state of
    [sinkDown] at index [i]. *)
Definition orderedBelow (h : list HeapEntry) (i : nat) : Prop :=
  (forall j, (0 < j < length h)%nat -> parent j <> i ->
             num_le (scoreAt h (parent j)) (scoreAt h j)) /\
  (forall c, (0 < i)%nat -> (0 < c < length h)%nat -> parent c = i ->
             num_le (scoreAt h (parent i)) (scoreAt h c)).

(** The index chosen by one turn of [sinkDown]: [i] itself, or the child
    of [i] with the least score. *)
Definition smallestOf (h : list HeapEntry) (i : nat) : nat :=
  let smallest :=
    if (2 * i + 1 <? length h)%nat && num_ltb (scoreAt h (2 * i + 1)) (scoreAt h i)
    then (2 * i + 1)%nat else i in
  if (2 * i + 2 <? length h)%nat && num_ltb (scoreAt h (2 * i + 2)) (scoreAt h smallest)
  then (2 * i + 2)%nat else smallest.

End HeapSpec.

Module SearchSpec.
Import Pathfinding.

Section Graph.
Variable nodes : gmap TileId PathfindingNode.
Variable blocked : gset TileId.
Variables start dest : TileId.

(** The step relation of the search: [v] is listed as a neighbour of the
    known tile [u], is not blocked, is known and walkable. *)
Definition edge (u v : TileId) : Prop :=
  exists nu nv, nodes !! u = Some nu /\ (v ∈ neighbors nu) /\ (v ∉ blocked) /\
                nodes !! v = Some nv /\ node_walkable nv = true.

(** [walk n v]: there are [n] steps from the start tile to [v]. *)
Inductive walk : nat -> TileId -> Prop :=
| walk_start : walk 0 start
| walk_step n u v : walk n u -> edge u v -> walk (S n) v.

(** [pathTo p v]: [p] lists the tiles of a walk from the start tile to [v]. *)
Inductive pathTo : list TileId -> TileId -> Prop :=
| pathTo_start : pathTo [start] start
| pathTo_step p u v : pathTo p u -> edge u v -> pathTo (p ++ [v]) v.

(** The heuristic as an integer (0 where the source has Infinity). *)
Definition hZ (v : TileId) : Z :=
  match heuristicDistance nodes v dest with
  | Fin z => z
  | PosInf => 0
  end.

(** The heuristic never drops by more than one along a step. *)
Definition consistent : Prop := forall u v, edge u v -> hZ u <= hZ v + 1.

Section State.
Variable closed : gset TileId.
Variable cameFrom : gmap TileId TileId.
Variable gScore : gmap TileId Num.

(** Every score is that of the [cameFrom] chain behind it, whose links are
    closed tiles one step apart. *)
Definition chained : Prop :=
  gScore !! start = Some (Fin 0) /\
  cameFrom !! start = None /\
  (forall v n, gScore !! v = Some n ->
     exists k, n = Fin k /\ 0 <= k <= Z.of_nat (size cameFrom) /\
       (v = start /\ k = 0 \/
        v <> start /\
        exists u, cameFrom !! v = Some u /\ (u ∈ closed) /\
                  gScore !! u = Some (Fin (k - 1)) /\ edge u v)) /\
  (forall v u, cameFrom !! v = Some u -> is_Some (gScore !! v)).

(** The score of a closed tile is the length of a shortest walk to it. *)
Definition optimalClosed : Prop :=
  forall v, v ∈ closed ->
    exists k, gScore !! v = Some (Fin k) /\ forall m, walk m v -> k <= Z.of_nat m.

(** Every step out of a closed tile has been relaxed, except the steps from
    [current] to the neighbours still [remaining] in its loop. *)
Definition relaxed (current : TileId) (remaining : list TileId) : Prop :=
  forall u v, u ∈ closed -> edge u v ->
    (u = current /\ v ∈ remaining) \/
    exists ku kv, gScore !! u = Some (Fin ku) /\ gScore !! v = Some (Fin kv) /\ kv <= ku + 1.

Section Open.
Variable O : Type.
(** [queued o v f]: the open structure [o] holds tile [v] with priority [f]. *)
Variable queued : O -> TileId -> Num -> Prop.
Variable o : O.

Definition openCovers : Prop :=
  forall v k, gScore !! v = Some (Fin k) -> v ∉ closed ->
    exists z, queued o v (Fin z) /\ z <= k + hZ v.

Definition openSound : Prop :=
  forall v f, queued o v f ->
    exists k z, gScore !! v = Some (Fin k) /\ f = Fin z /\ k + hZ v <= z /\
                is_Some (nodes !! v).

(** The invariant of the neighbour loop of [current]. *)
Definition relaxing (current : TileId) (remaining : list TileId) : Prop :=
  chained /\ optimalClosed /\ relaxed current remaining /\
  openCovers /\ openSound /\ (dest ∉ closed) /\ (current ∈ closed) /\
  (exists nc, nodes !! current = Some nc /\ forall v, v ∈ remaining -> v ∈ neighbors nc).

(** The invariant of the main loop. *)
Definition searching : Prop :=
  chained /\ optimalClosed /\ (forall current, relaxed current []) /\
  openCovers /\ openSound /\ (dest ∉ closed).

End Open.
End State.

(** What the search must return. *)
Definition shortestPath (result : option (list TileId)) : Prop :=
  match result with
  | Some p => pathTo p dest /\ forall m, walk m dest -> (length p <= S m)%nat
  | None => forall m, ~ walk m dest
  end.

End Graph.

(** The open structures of the two revisions. *)
Definition heapQueued (h : list (TileId * Num)) (v : TileId) (f : Num) : Prop :=
  (v, f) ∈ h.

Definition linearQueued (open : list TileId * gmap TileId Num) (v : TileId) (f : Num) : Prop :=
  (v ∈ open.1) /\ scoreOf open.2 v = f.

End SearchSpec.

Module GridSpec.
Import Pathfinding.

Definition coordinateKey (tile : Tile) : Z * Z :=
  toCoordinateKey (x (coordinate tile)) (y (coordinate tile)).

(** No two tiles of the list share an id. *)
Definition distinctIds (tiles : list Tile) : Prop := NoDup (tile_id <$> tiles).

(** No two tiles of the list share a coordinate. *)
Definition distinctCoordinates (tiles : list Tile) : Prop := NoDup (coordinateKey <$> tiles).

(** Every id has the shape of a [TileId]. *)
Definition tileIds (tiles : list Tile) : Prop :=
  Forall (fun tile => isTileId (tile_id tile) = true) tiles.

Definition knownTile (tiles : list Tile) (tileId : TileId) : Prop :=
  tileId ∈ tile_id <$> tiles.

Definition walkableTile (tiles : list Tile) (tileId : TileId) : Prop :=
  forall tile, tile ∈ tiles -> tile_id tile = tileId -> walkable tile = true.

(** The node [createNodesById] stores for a tile. *)
Definition nodeOf (tiles : list Tile) (tile : Tile) : PathfindingNode :=
  {| node_id := tile_id tile;
     node_x := x (coordinate tile);
     node_y := y (coordinate tile);
     node_walkable := walkable tile;
     neighbors := neighborsOf (coordinatesToId tiles) tile |}.

(** Two tiles side by side on the grid (4-adjacency). *)
Definition adjacent (a b : Tile) : Prop :=
  Z.abs (x (coordinate a) - x (coordinate b)) +
  Z.abs (y (coordinate a) - y (coordinate b)) = 1.

Section Routes.
Variable tiles : list Tile.
Variable blocked : gset TileId.
Variable start : TileId.

(** A tile of the list that is walkable and not blocked. *)
Definition passable (tile : Tile) : Prop :=
  (tile ∈ tiles) /\ walkable tile = true /\ (tile_id tile ∉ blocked).

(** One step of a route: from a passable tile to a 4-adjacent passable
    tile, named by their ids. *)
Definition step (a b : TileId) : Prop :=
  exists ta tb, tile_id ta = a /\ tile_id tb = b /\
                passable ta /\ passable tb /\ adjacent ta tb.

(** [route p v]: [p] lists the ids of a route from the start tile to [v]. *)
Inductive route : list TileId -> TileId -> Prop :=
| route_start : route [start] start
| route_step p u v : route p u -> step u v -> route (p ++ [v]) v.

End Routes.
End GridSpec.

Module ServiceSpec.
Import Pathfinding.

(** The key [findPath] computes for a request. *)
Definition requestKey (request : PathfindingRequest) : CacheKey :=
  toCacheKey (startTileId request) (destinationTileId request) (blockedSet request).

(** Every cached path is what the search returns for its key. *)
Definition cacheSound (nodes : gmap TileId PathfindingNode) (cache : RouteCache) : Prop :=
  forall key p, (key, p) ∈ cache ->
    MinHeap.findShortestPath nodes key.1.1 key.1.2 key.2 = Some (Some p).

(** What holds of a service between calls. *)
Definition serviceInv (tiles : list Tile) (maxCachedRoutes : Z) (s : PathfindingService)
  : Prop :=
  nodesById s = createNodesById tiles /\
  normalizedMaxCachedRoutes s = Z.max 1 maxCachedRoutes /\
  NoDup (routeCache s).*1 /\
  Z.of_nat (length (routeCache s)) <= normalizedMaxCachedRoutes s /\
  cacheSound (nodesById s) (routeCache s).

(** The request names its blocked tiles by ids of the TileId shape, as the
    type of [blockedTileIds] asks.  Together with tile ids of that shape
    this is the domain on which the key of the model and the key text of
    the source identify the same requests. *)
Definition tileIdBlocked (request : PathfindingRequest) : Prop :=
  Forall (fun tileId => isTileId tileId = true) (default [] (blockedTileIds request)).

(** The results of a run of requests against a service, in call order. *)
Fixpoint findPathResults (s : PathfindingService) (requests : list PathfindingRequest)
  : option (list PathfindingResult) :=
  match requests with
  | [] => Some []
  | r :: rest =>
      match findPath s r with
      | None => None
      | Some (result, s') =>
          match findPathResults s' rest with
          | None => None
          | Some results => Some (result :: results)
          end
      end
  end.

(** Every cached path was returned as "found" by one of the calls, for a
    request with the entry's key. *)
Definition cacheAnswered (requests : list PathfindingRequest)
    (results : list PathfindingResult) (cache : RouteCache) : Prop :=
  forall key p, (key, p) ∈ cache ->
    exists (i : nat) r fromCache,
      requests !! i = Some r /\ requestKey r = key /\
      results !! i = Some (Found p fromCache).

(** The cache after a hit on [key]: the entry moves to the recent end. *)
Definition refreshed (key : CacheKey) (p : list TileId) (cache : RouteCache) : RouteCache :=
  cacheDelete key cache ++ [(key, p)].

(** The cache after a miss that stored [p] under [key]: appended, and the
    oldest entry dropped if the cache was full. *)
Definition stored (capacity : Z) (key : CacheKey) (p : list TileId) (cache : RouteCache)
  : RouteCache :=
  if Z.of_nat (length cache) <? capacity then cache ++ [(key, p)]
  else tail cache ++ [(key, p)].

(** The reason for which [findPath] turns a request down before any
    search, if there is one. *)
Definition rejection (nodes : gmap TileId PathfindingNode) (request : PathfindingRequest)
  : option UnreachableReason :=
  match nodes !! startTileId request with
  | None => Some unknown_start
  | Some startNode =>
      match nodes !! destinationTileId request with
      | None => Some unknown_destination
      | Some destinationNode =>
          if bool_decide (startTileId request ∈ blockedSet request)
             || negb (node_walkable startNode)
          then Some blocked_start
          else if bool_decide (destinationTileId request ∈ blockedSet request)
                  || negb (node_walkable destinationNode)
          then Some blocked_destination
          else None
      end
  end.

(** The five ways a call of [findPath] can go, with the cache it leaves. *)
Inductive findPathOutcome (s : PathfindingService) (request : PathfindingRequest)
  : PathfindingResult -> PathfindingService -> Prop :=
| outcome_rejected reason :
    rejection (nodesById s) request = Some reason ->
    findPathOutcome s request (Unreachable reason []) s
| outcome_same_tile :
    rejection (nodesById s) request = None ->
    startTileId request = destinationTileId request ->
    findPathOutcome s request (Found [startTileId request] false) s
| outcome_hit p :
    rejection (nodesById s) request = None ->
    startTileId request <> destinationTileId request ->
    cacheGet (requestKey request) (routeCache s) = Some p ->
    findPathOutcome s request (Found p true)
      (withCache s (refreshed (requestKey request) p (routeCache s)))
| outcome_no_route :
    rejection (nodesById s) request = None ->
    startTileId request <> destinationTileId request ->
    cacheGet (requestKey request) (routeCache s) = None ->
    MinHeap.findShortestPath (nodesById s) (startTileId request)
      (destinationTileId request) (blockedSet request) = Some None ->
    findPathOutcome s request (Unreachable no_route []) s
| outcome_stored p :
    rejection (nodesById s) request = None ->
    startTileId request <> destinationTileId request ->
    cacheGet (requestKey request) (routeCache s) = None ->
    MinHeap.findShortestPath (nodesById s) (startTileId request)
      (destinationTileId request) (blockedSet request) = Some (Some p) ->
    findPathOutcome s request (Found p false)
      (withCache s (stored (normalizedMaxCachedRoutes s) (requestKey request) p
                      (routeCache s))).

End ServiceSpec.

(** ** Tile lists used in the examples *)

Module Examples.
Import Pathfinding.

Definition tileAt (tileId : TileId) (cx cy : Z) : Tile :=
  {| tile_id := tileId; coordinate := {| x := cx; y := cy |};
     tile_type := TilePath; walkable := true |}.

(** A 3 x 2 block of walkable tiles. *)
Definition blockTiles : list Tile :=
  [ tileAt "tile_0_0" 0 0; tileAt "tile_1_0" 1 0; tileAt "tile_2_0" 2 0;
    tileAt "tile_0_1" 0 1; tileAt "tile_1_1" 1 1; tileAt "tile_2_1" 2 1 ].

Definition request (a b : TileId) (blockedIds : list TileId) : PathfindingRequest :=
  {| startTileId := a; destinationTileId := b; blockedTileIds := Some blockedIds |}.

(** Two ids are each used by two tiles: [tile_0_5] at (0,5) and (2,1),
    [tile_2_7] at (2,7) and (2,2). *)
Definition repeatedIdTiles : list Tile :=
  [ tileAt "tile_2_5" 2 5; tileAt "tile_3_5" 3 5; tileAt "tile_1_5" 1 5;
    tileAt "tile_2_6" 2 6; tileAt "tile_0_5" 0 5; tileAt "tile_2_7" 2 7;
    tileAt "tile_0_5" 2 1; tileAt "tile_2_7" 2 2; tileAt "tile_2_0" 2 0 ].

(** Two tiles on the coordinate (0,0). *)
Definition repeatedCoordinateTiles : list Tile :=
  [ tileAt "tile_0_0" 0 0; tileAt "tile_9_9" 0 0; tileAt "tile_1_0" 1 0 ].

End Examples.


(** ** Strings *)

Module JsString.

(** Every character of the string satisfies [p]. *)
Fixpoint allChars (p : ascii -> bool) (s : string) : bool :=
  match s with
  | EmptyString => true
  | String c rest => p c && allChars p rest
  end.

(** The string has no occurrence of the character [c]. *)
Definition without (c : ascii) (s : string) : bool :=
  allChars (fun other => negb (Ascii.eqb other c)) s.

Definition digits (s : string) : bool := allChars isDigit s.

(** The white space and line terminators that [String.prototype.trim]
    strips, among the code units below 256 that a [string] holds: TAB, LF,
    VT, FF, CR, SP and NBSP. *)
Definition isWhiteSpace (c : ascii) : bool :=
  let code := nat_of_ascii c in
  ((9 <=? code) && (code <=? 13) || (code =? 32) || (code =? 160))%nat.

Fixpoint trimStart (s : string) : string :=
  match s with
  | EmptyString => EmptyString
  | String c rest => if isWhiteSpace c then trimStart rest else s
  end.

Fixpoint trimEnd (s : string) : string :=
  match s with
  | EmptyString => EmptyString
  | String c rest =>
      match trimEnd rest with
      | EmptyString => if isWhiteSpace c then EmptyString else String c EmptyString
      | kept => String c kept
      end
  end.

Definition trim (s : string) : string := trimEnd (trimStart s).

End JsString.

(** ** Simulation time ([toSimulationTime], [isSimulationTime]) *)

(** [Number.MAX_SAFE_INTEGER].  The integers of absolute value up to it
    are JavaScript numbers, and a sum or product of two of them that stays
    in this range is computed exactly; so is [Math.floor(a / b)] for such
    [a >= 0] and [b > 0], and [a % b].  Beyond the range the arithmetic of
    the source rounds, and the integers of the model do not follow it. *)
Definition MAX_SAFE_INTEGER : Z := 2 ^ 53 - 1.

Module Clock.
Import Schedule Snapshots.

Definition MINUTES_PER_DAY : Z := 1440.

(** The arguments of [toSimulationTime] for which every number it computes
    is a safe integer: tick and day length are, and so is the product
    [dayTick * MINUTES_PER_DAY], which is below the day length times
    1440. *)
Definition withinExactRange (tick dayLengthTicks : Z) : Prop :=
  - MAX_SAFE_INTEGER <= tick <= MAX_SAFE_INTEGER /\
  - MAX_SAFE_INTEGER <= dayLengthTicks /\
  dayLengthTicks * MINUTES_PER_DAY <= MAX_SAFE_INTEGER.

(** [assertPositiveInteger]: the value, or [None] for the thrown error. *)
Definition assertPositiveInteger (value : Z) : option Z :=
  if value <=? 0 then None else Some value.

(** On non-negative integers [Math.floor(a / b)] is [a / b] and [a % b] is
    [a mod b]; the numbers of the source are those of the model within
    [withinExactRange]. *)
Definition toSimulationTime (tick dayLengthTicks : Z) : option Schedule.SimulationTime :=
  match assertNonNegativeInteger tick with
  | None => None
  | Some safeTick =>
      match assertPositiveInteger dayLengthTicks with
      | None => None
      | Some safeDayLengthTicks =>
          let day := safeTick / safeDayLengthTicks + 1 in
          let dayTick := safeTick mod safeDayLengthTicks in
          let minuteOfDay :=
            Z.min (MINUTES_PER_DAY - 1)
                  ((dayTick * MINUTES_PER_DAY) / safeDayLengthTicks) in
          Some {| Schedule.tick := safeTick;
                  Schedule.day := day;
                  Schedule.minuteOfDay := minuteOfDay |}
      end
  end.

(** [isSimulationTime] (src/domain/simulation-time.ts), on a decoded JSON
    value.  [Number.isInteger] is false of anything but a number. *)
Definition isSimulationTime (value : option JValue) : bool :=
  match value with
  | Some ((JObject _ | JArray _) as candidate) =>
      isIntegerAtLeast 0 (getField candidate "tick") &&
      isIntegerAtLeast 1 (getField candidate "day") &&
      isNumberSuchThat
        (fun q => isInteger q && Qle_bool 0 q && negb (Qle_bool 1440 q))
        (getField candidate "minuteOfDay")
  | _ => false
  end.

(** A [SimulationTime] as the JSON value it serializes to. *)
Definition timeValue (t : Schedule.SimulationTime) : JValue :=
  JObject [("tick", jint (Schedule.tick t)); ("day", jint (Schedule.day t));
           ("minuteOfDay", jint (Schedule.minuteOfDay t))].

End Clock.

(** ** Action execution (the first module of src/unnamed/part_005) *)

Module ActionExecution.
Import Schedule.



Record VillagerActionExecution := {
  exec_action : VillagerActionType;
  taskSignature : string;
  startedAtTick : Z;
  completesAtTick : Z;
  completedAtTick : option Z
}.

Record VillagerActionExecutionProgress := {
  execution : VillagerActionExecution;
  completed : bool;
  progress_npcState : NpcState
}.

Definition sourceName (s : TaskSource) : string :=
  match s with
  | SourceSchedule => "schedule"
  | SourceIdle => "idle"
  end.

(** [`${task.action}|${task.targetTileId ?? "none"}|${task.source}`] *)
Definition createVillagerTaskSignature (task : ActiveVillagerTask) : string :=
  (Snapshots.actionName (task_action task) ++ "|" ++
   default "none" (task_targetTileId task) ++ "|" ++
   sourceName (task_source task))%string.


Definition advanceVillagerActionExecution
    (e : VillagerActionExecution) (tick : Z) : VillagerActionExecutionProgress :=
  if isDefined (completedAtTick e) || (tick <? completesAtTick e) then
    {| execution := e;
       completed := false;
       progress_npcState := if bool_decide (exec_action e = Rest) then Resting else Acting |}
  else
    {| execution := {| exec_action := exec_action e;
                       taskSignature := taskSignature e;
                       startedAtTick := startedAtTick e;
                       completesAtTick := completesAtTick e;
                       completedAtTick := Some tick |};
       completed := true;
       progress_npcState := Planning |}.

(** [!execution || execution.taskSignature !== taskSignature] *)
Definition shouldStartVillagerActionExecution
    (e : option VillagerActionExecution) (signature : string) : bool :=
  match e with
  | None => true
  | Some running => negb (String.eqb (taskSignature running) signature)
  end.


(** A run of [advanceVillagerActionExecution], each call on the execution
    the previous call returned: the last execution and the results. *)
Fixpoint advanceExecutionMany (e : VillagerActionExecution) (ticks : list Z)
  : VillagerActionExecution * list VillagerActionExecutionProgress :=
  match ticks with
  | [] => (e, [])
  | t :: rest =>
      let r := advanceVillagerActionExecution e t in
      let '(eN, results) := advanceExecutionMany (execution r) rest in
      (eN, r :: results)
  end.

(** The tick on which a run completes the execution, if it does: the first
    tick not before [completesAtTick], unless the execution was complete
    already. *)
Definition completionTick (e : VillagerActionExecution) (ticks : list Z) : option Z :=
  if isDefined (completedAtTick e) then None
  else List.find (fun t => completesAtTick e <=? t) ticks.

(** The target of a task, when it has one, has the shape of a [TileId]. *)
Definition tileTarget (task : ActiveVillagerTask) : Prop :=
  forall target, task_targetTileId task = Some target -> isTileId target = true.

(** Test inputs. *)
Definition farmTask : ActiveVillagerTask :=
  {| task_villagerId := "villager_ava"; task_action := Farm;
     task_targetTileId := Some "tile_3_7"; task_source := SourceSchedule |}.

Definition idleTask : ActiveVillagerTask :=
  {| task_villagerId := "villager_ava"; task_action := Observe;
     task_targetTileId := None; task_source := SourceIdle |}.

End ActionExecution.

(** ** Applying a persisted intent ([applyNpcIntentToTask]) *)

Module Intent.
Import Schedule Replanning.

Definition applyNpcIntentToTask (task : ActiveVillagerTask) (i : option PersistedNpcIntent)
  : ActiveVillagerTask :=
  match i with
  | None => task
  | Some intent =>
      {| task_villagerId := task_villagerId task;
         task_action := intent_action intent;
         task_targetTileId :=
           match intent_targetTileId intent with
           | Some target => Some target
           | None => task_targetTileId task
           end;
         task_source := task_source task |}
  end.

End Intent.

(** ** Resource inventory (src/unnamed/part_007) *)

Module Resources.

Record ResourceInventory := { crops : Z; coins : Z; goodwill : Z }.

Record ResourceInventoryDelta := {
  delta_crops : option Z;
  delta_coins : option Z;
  delta_goodwill : option Z
}.

Definition INITIAL_RESOURCE_INVENTORY : ResourceInventory :=
  {| crops := 12; coins := 30; goodwill := 0 |}.

Definition ACTION_RESOURCE_DELTAS (a : VillagerActionType) : option ResourceInventoryDelta :=
  match a with
  | Farm => Some {| delta_crops := Some 2; delta_coins := None; delta_goodwill := None |}
  | Chat => Some {| delta_crops := None; delta_coins := None; delta_goodwill := Some 1 |}
  | Shop => Some {| delta_crops := Some (-1); delta_coins := Some 3; delta_goodwill := None |}
  | Rest => Some {| delta_crops := None; delta_coins := None; delta_goodwill := Some 1 |}
  | Walk | Observe => None
  end.

Definition createInitialResourceInventory : ResourceInventory := INITIAL_RESOURCE_INVENTORY.

(** The callback of the [reduce].  The amounts are integers; the sums of
    the source are those of the model as long as they stay safe integers
    ([withinSafeRange] below). *)
Definition applyAction (currentInventory : ResourceInventory) (a : VillagerActionType)
  : ResourceInventory :=
  match ACTION_RESOURCE_DELTAS a with
  | None => currentInventory
  | Some delta =>
      {| crops := Z.max 0 (crops currentInventory + default 0 (delta_crops delta));
         coins := Z.max 0 (coins currentInventory + default 0 (delta_coins delta));
         goodwill := Z.max 0 (goodwill currentInventory + default 0 (delta_goodwill delta)) |}
  end.

Definition applyActionResourceEffects (inventory : ResourceInventory)
    (actions : list VillagerActionType) : ResourceInventory :=
  foldl applyAction inventory actions.

(** How often an action occurs in a list. *)
Definition occurrences (a : VillagerActionType) (actions : list VillagerActionType) : Z :=
  Z.of_nat (length (filter (fun other => other = a) actions)).

Definition nonNegative (inventory : ResourceInventory) : Prop :=
  0 <= crops inventory /\ 0 <= coins inventory /\ 0 <= goodwill inventory.

(** No amount can leave the safe integers over the given actions: an
    action adds at most 2 crops, 3 coins and 1 goodwill. *)
Definition withinSafeRange (inventory : ResourceInventory)
    (actions : list VillagerActionType) : Prop :=
  crops inventory + 2 * Z.of_nat (length actions) <= MAX_SAFE_INTEGER /\
  coins inventory + 3 * Z.of_nat (length actions) <= MAX_SAFE_INTEGER /\
  goodwill inventory + Z.of_nat (length actions) <= MAX_SAFE_INTEGER.

End Resources.

(** ** The schedule index ([buildVillagerDailyScheduleIndex]) *)

Module ScheduleIndex.
Import Schedule.

(** [villagers.map((villager) => [villager.id, createVillagerDailySchedule(villager)])],
    where the callback may throw. *)
Fixpoint scheduleEntries (villagers : list Villager)
  : option (list (VillagerId * VillagerDailySchedule)) :=
  match villagers with
  | [] => Some []
  | villager :: rest =>
      match createVillagerDailySchedule villager with
      | None => None
      | Some schedule =>
          match scheduleEntries rest with
          | None => None
          | Some pairs => Some ((villager_id villager, schedule) :: pairs)
          end
      end
  end.

(** [new Map(pairs)]: a later pair replaces an earlier one with its key. *)
Definition buildVillagerDailyScheduleIndex (villagers : list Villager)
  : option (gmap VillagerId VillagerDailySchedule) :=
  match scheduleEntries villagers with
  | None => None
  | Some pairs =>
      Some (foldl (fun (m : gmap VillagerId VillagerDailySchedule) pair =>
                     <[pair.1 := pair.2]> m) ∅ pairs)
  end.

(** The entry a schedule slot stands for. *)
Definition entryOfSlot (slot : VillagerScheduleSlot) : VillagerScheduleEntry :=
  {| startMinute := hour slot * 60;
     action := slot_action slot;
     targetTileId := slot_targetTileId slot |}.

Definition validHour (slot : VillagerScheduleSlot) : Prop := 0 <= hour slot <= 23.

End ScheduleIndex.


(** ** Planning a villager's movement ([planning.ts]) *)

Module MovementPlanning.
Import Movement Pathfinding.

(** The field of [Villager] read by planning. *)
Record PlanningVillager := { homeTileId : TileId }.

Record VillagerPlanningInput := {
  villager : PlanningVillager;
  movement : VillagerMovementComponent;
  activeTask : Schedule.ActiveVillagerTask;
  pathfinding : PathfindingService;
  tick : Z;
  previousTargetTileId : option TileId;
  blockedTileIds : option (list TileId)
}.

Record VillagerPlanningResult := {
  targetTileId : TileId;
  requestedPath : bool;
  result_movement : VillagerMovementComponent;
  npcState : NpcState;
  pathfindingResult : option PathfindingResult
}.

(** [if (task.targetTileId)]: a missing target and the empty string are
    both falsy. *)
Definition resolveTaskTargetTile
    (v : PlanningVillager) (task : Schedule.ActiveVillagerTask) (fallbackTileId : TileId)
  : TileId :=
  let otherwise :=
    match Schedule.task_action task with
    | Rest => homeTileId v
    | _ => fallbackTileId
    end in
  match Schedule.task_targetTileId task with
  | Some target => if truthy target then target else otherwise
  | None => otherwise
  end.

(** The call changes the service's cache, so the service is returned along
    with the result.  Outer [None]: the search ran out of fuel; inner
    [None]: [assignVillagerMovementPath] threw. *)
Definition planVillagerMovementIntent (input : VillagerPlanningInput)
  : option (option VillagerPlanningResult * PathfindingService) :=
  let target :=
    resolveTaskTargetTile (villager input) (activeTask input)
      (currentTileId (movement input)) in
  let hasPathToTarget := bool_decide (last (path (movement input)) = Some target) in
  let targetChanged := bool_decide (previousTargetTileId input <> Some target) in
  let requested := targetChanged || negb hasPathToTarget in
  if negb requested then
    Some (Some {| targetTileId := target;
                  requestedPath := false;
                  result_movement := movement input;
                  npcState := if bool_decide (currentTileId (movement input) = target)
                              then Acting else Moving;
                  pathfindingResult := None |},
          pathfinding input)
  else
    match findPath (pathfinding input)
            {| startTileId := currentTileId (movement input);
               destinationTileId := target;
               Pathfinding.blockedTileIds := blockedTileIds input |} with
    | None => None
    | Some (Unreachable reason p, service) =>
        Some (Some {| targetTileId := target;
                      requestedPath := true;
                      result_movement := movement input;
                      npcState := Planning;
                      pathfindingResult := Some (Unreachable reason p) |},
              service)
    | Some (Found p fromCache, service) =>
        match assignVillagerMovementPath (movement input) p (tick input) with
        | None => Some (None, service)
        | Some assigned =>
            Some (Some {| targetTileId := target;
                          requestedPath := true;
                          result_movement := assigned;
                          npcState := if 1 <? len (path assigned) then Moving else Acting;
                          pathfindingResult := Some (Found p fromCache) |},
                  service)
        end
    end.

End MovementPlanning.

Module PlanningSpec.
Import Movement Pathfinding MovementPlanning.

(** The request that [planVillagerMovementIntent] hands to [findPath]. *)
Definition planningRequest (input : VillagerPlanningInput) : PathfindingRequest :=
  {| startTileId := currentTileId (movement input);
     destinationTileId :=
       resolveTaskTargetTile (villager input) (activeTask input)
         (currentTileId (movement input));
     Pathfinding.blockedTileIds := blockedTileIds input |}.

(** A test input on the 3 x 2 block: a villager standing on [tile_0_0]
    whose task sends it to [tile_2_1] while [tile_1_0] is blocked. *)
Definition sampleInput : VillagerPlanningInput :=
  {| villager := {| homeTileId := "tile_0_0" |};
     movement := {| villagerId := "villager_ava"; currentTileId := "tile_0_0";
                    path := ["tile_0_0"]; pathIndex := 0;
                    lastProcessedTick := 3; arrivedAtTick := Some 3 |};
     activeTask := {| Schedule.task_villagerId := "villager_ava";
                      Schedule.task_action := Farm;
                      Schedule.task_targetTileId := Some "tile_2_1";
                      Schedule.task_source := Schedule.SourceSchedule |};
     pathfinding := createPathfindingService Examples.blockTiles 2;
     tick := 4;
     previousTargetTileId := None;
     blockedTileIds := Some ["tile_1_0"] |}.

End PlanningSpec.

(** ** Moving a villager, tick after tick (the tick effect of the game page) *)

Module VillagerWalk.
Import Movement Pathfinding MovementPlanning.

(** What the tick effect keeps of a villager between ticks, as far as its
    movement goes, and the pathfinding service it calls. *)
Record WalkerState := {
  walker_movement : VillagerMovementComponent;
  walker_targetTileId : TileId;
  walker_pathfinding : PathfindingService
}.

(** The part of the tick effect that moves one villager: plan towards the
    task's target, then advance the planned movement to the tick; the
    runtime keeps the advanced component and the planned target.  The
    result comes with the arrival events of the tick; [None] when a call
    throws. *)
Definition moveVillager
    (v : PlanningVillager) (plannedTask : Schedule.ActiveVillagerTask) (tick : Z)
    (st : WalkerState) : option (WalkerState * list VillagerArrivalEvent) :=
  match planVillagerMovementIntent
          {| villager := v;
             movement := walker_movement st;
             activeTask := plannedTask;
             pathfinding := walker_pathfinding st;
             MovementPlanning.tick := tick;
             previousTargetTileId := Some (walker_targetTileId st);
             MovementPlanning.blockedTileIds := None |} with
  | Some (Some planningResult, service) =>
      match advanceVillagerMovement (result_movement planningResult) tick with
      | Some movementResult =>
          Some ({| walker_movement := component movementResult;
                   walker_targetTileId := targetTileId planningResult;
                   walker_pathfinding := service |},
                events movementResult)
      | None => None
      end
  | _ => None
  end.

(** The effect run at each tick of the list in turn, with all the arrival
    events in order. *)
Fixpoint moveVillagerOver
    (v : PlanningVillager) (plannedTask : Schedule.ActiveVillagerTask) (ticks : list Z)
    (st : WalkerState) : option (WalkerState * list VillagerArrivalEvent) :=
  match ticks with
  | [] => Some (st, [])
  | tick :: rest =>
      match moveVillager v plannedTask tick st with
      | None => None
      | Some (st', now) =>
          match moveVillagerOver v plannedTask rest st' with
          | None => None
          | Some (stN, later) => Some (stN, now ++ later)
          end
      end
  end.

End VillagerWalk.

Module WalkSpec.
Import Movement Pathfinding MovementPlanning VillagerWalk.

(** The component of a villager that was put on the path [p] at tick [t0]
    and has walked for [j] ticks since. *)
Definition stride (vid : VillagerId) (p : list TileId) (target : TileId) (t0 j : Z)
  : VillagerMovementComponent :=
  let i := Z.min j (len p - 1) in
  {| villagerId := vid;
     currentTileId := nth (Z.to_nat i) p target;
     path := p;
     pathIndex := i;
     lastProcessedTick := t0 + j;
     arrivedAtTick := if i =? len p - 1 then Some (t0 + (len p - 1)) else None |}.

(** A villager on the 3 x 2 block, standing on [tile_0_0], whose new task
    sends it to [tile_2_1]. *)
Definition walker : WalkerState :=
  {| walker_movement := {| villagerId := "villager_ava"; currentTileId := "tile_0_0";
                           path := ["tile_0_0"]; pathIndex := 0;
                           lastProcessedTick := 3; arrivedAtTick := Some 3 |};
     walker_targetTileId := "tile_0_0";
     walker_pathfinding := createPathfindingService Examples.blockTiles 2 |}.

Definition walkerTask : Schedule.ActiveVillagerTask :=
  {| Schedule.task_villagerId := "villager_ava";
     Schedule.task_action := Farm;
     Schedule.task_targetTileId := Some "tile_2_1";
     Schedule.task_source := Schedule.SourceSchedule |}.

End WalkSpec.


(** ** Assembling the prompt context of a villager *)

Module ContextAssembler.
Import Snapshots JsString.

Definition DEFAULT_MEMORY_TOKEN_BUDGET : Z := 180.
Definition RECENT_EVENT_LIMIT : nat := 5.

Inductive VillagerMood := Neutral | Happy | Focused | Tired | Social.

(** The fields of [Villager] read by the assembler. *)
Record AssemblerVillager := {
  av_id : VillagerId;
  av_name : string;
  av_role : JobRole;
  av_mood : VillagerMood
}.

(** A [VillagerMemory] is a short-term or a long-term memory; the assembler
    reads only the fields the two share, those of [VillagerMemoryBase]. *)
Record NpcContextAssemblerInput := {
  in_villager : AssemblerVillager;
  in_activeTask : Schedule.ActiveVillagerTask;
  in_memoryStore : VillagerMemoryStore;
  in_currentTileId : TileId;
  in_targetTileId : option TileId;
  in_time : SimulationTime;
  in_memoryTokenBudget : option Z
}.

Record NpcContextMemorySummary := {
  cms_id : MemoryId;
  cms_summary : string;
  cms_type : MemoryType;
  cms_importance : Q;
  cms_createdAtTick : Z
}.

Record NpcPromptInput := {
  villagerId : VillagerId;
  villagerName : string;
  role : JobRole;
  mood : VillagerMood;
  location_currentTileId : TileId;
  location_targetTileId : option TileId;
  currentGoal_action : VillagerActionType;
  currentGoal_source : Schedule.TaskSource;
  currentGoal_targetTileId : option TileId;
  recentEvents : list string;
  memorySummary : list NpcContextMemorySummary;
  worldTime_day : Z;
  worldTime_minuteOfDay : Z;
  worldTime_tick : Z
}.

(** [Math.ceil(a / b)] for integers, [b] positive. *)
Definition ceilDiv (a b : Z) : Z := - ((- a) / b).

Definition estimateTokenCost (content : string) : Z :=
  let normalized := trim content in
  if Z.of_nat (String.length normalized) =? 0 then 1
  else Z.max 1 (ceilDiv (Z.of_nat (String.length normalized)) 4).

(** The comparator handed to [sort]: a negative result puts [left] first.
    Importances are finite numbers ([isMemoryImportance]) and ticks are
    integers, so the sign of each difference is that of the exact one. *)
Definition compareMemories (left right : VillagerMemoryBase) : Q :=
  if negb (Qeq_bool (importance left) (importance right))
  then importance right - importance left
  else inject_Z (tick (createdAt right) - tick (createdAt left)).

(** [Array.prototype.sort] is stable; with this comparator, an order on
    the pair (importance, tick), its result is the stable sorted
    rearrangement, computed here by insertion. *)
Fixpoint insertMemory (m : VillagerMemoryBase) (l : list VillagerMemoryBase)
  : list VillagerMemoryBase :=
  match l with
  | [] => [m]
  | h :: t => if Qle_bool (compareMemories m h) 0 then m :: h :: t
              else h :: insertMemory m t
  end.

Definition sortMemories (l : list VillagerMemoryBase) : list VillagerMemoryBase :=
  foldr insertMemory [] l.

Definition rankMemoriesByPriority (store : VillagerMemoryStore) : list VillagerMemoryBase :=
  sortMemories ((short_base <$> shortTerm store) ++ (long_base <$> longTerm store)).

Definition summaryOf (memory : VillagerMemoryBase) : NpcContextMemorySummary :=
  {| cms_id := memory_id memory;
     cms_summary := summary memory;
     cms_type := memory_type memory;
     cms_importance := importance memory;
     cms_createdAtTick := tick (createdAt memory) |}.

(** The loop of [summarizeTopMemories], with its two variables; the budget
    is an integer number of tokens. *)
Fixpoint summarizeLoop (memories : list VillagerMemoryBase) (memoryTokenBudget : Z)
    (consumedBudget : Z) (acc : list NpcContextMemorySummary)
  : list NpcContextMemorySummary :=
  match memories with
  | [] => acc
  | memory :: rest =>
      let entryCost := estimateTokenCost (summary memory) in
      if memoryTokenBudget <? entryCost
      then summarizeLoop rest memoryTokenBudget consumedBudget acc
      else if memoryTokenBudget <? consumedBudget + entryCost
      then acc
      else summarizeLoop rest memoryTokenBudget (consumedBudget + entryCost)
             (acc ++ [summaryOf memory])
  end.

Definition summarizeTopMemories (memories : list VillagerMemoryBase) (memoryTokenBudget : Z)
  : list NpcContextMemorySummary :=
  summarizeLoop memories memoryTokenBudget 0 [].

Definition assembleNpcPromptInput (input : NpcContextAssemblerInput) : NpcPromptInput :=
  let memoryTokenBudget := default DEFAULT_MEMORY_TOKEN_BUDGET (in_memoryTokenBudget input) in
  let rankedMemories := rankMemoriesByPriority (in_memoryStore input) in
  let summarized := summarizeTopMemories rankedMemories memoryTokenBudget in
  let recent := summary <$> take RECENT_EVENT_LIMIT rankedMemories in
  {| villagerId := av_id (in_villager input);
     villagerName := av_name (in_villager input);
     role := av_role (in_villager input);
     mood := av_mood (in_villager input);
     location_currentTileId := in_currentTileId input;
     location_targetTileId := in_targetTileId input;
     currentGoal_action := Schedule.task_action (in_activeTask input);
     currentGoal_source := Schedule.task_source (in_activeTask input);
     currentGoal_targetTileId :=
       match Schedule.task_targetTileId (in_activeTask input) with
       | Some target => Some target
       | None => in_targetTileId input
       end;
     recentEvents := recent;
     memorySummary := summarized;
     worldTime_day := day (in_time input);
     worldTime_minuteOfDay := minuteOfDay (in_time input);
     worldTime_tick := tick (in_time input) |}.

End ContextAssembler.

Module ContextSpec.
Import Snapshots ContextAssembler.

(** The memories of a store, short-term first. *)
Definition memoriesOf (store : VillagerMemoryStore) : list VillagerMemoryBase :=
  (short_base <$> shortTerm store) ++ (long_base <$> longTerm store).

(** [ranksBefore a b]: [a] may stand before [b] in the ranking: it is more
    important, or as important and not older. *)
Definition ranksBefore (a b : VillagerMemoryBase) : Prop :=
  (importance b < importance a)%Q \/
  ((importance a == importance b)%Q /\ tick (createdAt b) <= tick (createdAt a)).

Definition costOf (memory : VillagerMemoryBase) : Z := estimateTokenCost (summary memory).

Definition totalCost (memories : list VillagerMemoryBase) : Z :=
  foldr (fun memory total => costOf memory + total) 0 memories.

(** The memories that fit the budget on their own. *)
Definition affordable (memoryTokenBudget : Z) (memories : list VillagerMemoryBase)
  : list VillagerMemoryBase :=
  filter (fun memory => costOf memory <= memoryTokenBudget) memories.

End ContextSpec.


(** ** Runs of [push] and [pop] on the binary heap *)

Module HeapUse.
Import Pathfinding MinHeap.

(** [heap.push(id, score)] for each entry in turn. *)
Definition pushAll (entries : list HeapEntry) (heap : list HeapEntry) : list HeapEntry :=
  foldl (fun h entry => push entry.1 entry.2 h) heap entries.

(** [heap.pop()] repeated [count] times, or until it returns [undefined];
    the ids in the order returned. *)
Fixpoint popMany (count : nat) (heap : list HeapEntry) : list TileId :=
  match count with
  | O => []
  | S count' =>
      match pop heap with
      | (Some tileId, heap') => tileId :: popMany count' heap'
      | (None, _) => []
      end
  end.

(** Entries in the order of their scores. *)
Definition byScore (a b : HeapEntry) : Prop := HeapSpec.num_le a.2 b.2.

End HeapUse.

(** ** Validating a provider's decision (the LLM adapter) *)

Module DecisionAdapter.
Import Snapshots Guardrail JsString.

(** The fields of the prompt context read by the policy rules. *)
Definition policyContext (context : ContextAssembler.NpcPromptInput) : NpcPromptInput :=
  {| role := ContextAssembler.role context;
     worldTime_minuteOfDay := ContextAssembler.worldTime_minuteOfDay context |}.

(** The action type whose name is the given string. *)
Definition actionOfName (name : string) : option VillagerActionType :=
  List.find (fun a => String.eqb (actionName a) name) [Walk; Farm; Chat; Shop; Rest; Observe].

Definition resolveActionType (value : option JValue) : Completion VillagerActionType :=
  match value with
  | Some (JString name) =>
      if isVillagerActionType name then
        match actionOfName name with
        | Some a => Returned a
        | None => Thrown "Decision JSON contains invalid action" 502
        end
      else Thrown "Decision JSON contains invalid action" 502
  | _ => Thrown "Decision JSON contains invalid action" 502
  end.

Definition resolveTargetTileId (value : option JValue) : Completion (option TileId) :=
  match value with
  | None => Returned None
  | Some (JString s) =>
      if isTileId s then Returned (Some s)
      else Thrown "Decision JSON contains invalid targetTileId" 502
  | Some _ => Thrown "Decision JSON contains invalid targetTileId" 502
  end.

(** [a ?? b] on optional tile ids. *)
Definition orElse (a b : option TileId) : option TileId :=
  match a with
  | Some t => Some t
  | None => b
  end.

Definition normalizeDecisionIntent
    (decisionAction : VillagerActionType) (decisionTarget : option TileId)
    (context : ContextAssembler.NpcPromptInput)
  : Completion (VillagerActionType * option TileId) :=
  let fallbackTargetTileId :=
    orElse (ContextAssembler.currentGoal_targetTileId context)
           (ContextAssembler.location_targetTileId context) in
  let mappedTargetTileId := orElse decisionTarget fallbackTargetTileId in
  if actionRequiresTarget decisionAction &&
     negb (match mappedTargetTileId with Some t => truthy t | None => false end)
  then Thrown ("Decision JSON must include targetTileId for action "
                 ++ actionName decisionAction) 502
  else Returned (decisionAction, mappedTargetTileId).

(** [parsed] is the outcome of [JSON.parse(rawContent)]: [None] when it
    throws. *)
Definition parseAndValidateDecision
    (parsed : option JValue) (context : ContextAssembler.NpcPromptInput)
  : Completion NpcDecision :=
  match parsed with
  | None => Thrown "Decision response is not valid JSON" 502
  | Some payload =>
      if negb (isObjectLike (Some payload))
      then Thrown "Decision response payload must be an object" 502
      else
        match getField payload "reasoning" with
        | Some (JString text) =>
            if (String.length (trim text) =? 0)%nat
            then Thrown "Decision JSON must include non-empty reasoning" 502
            else
              match resolveActionType (getField payload "action") with
              | Thrown message status => Thrown message status
              | Returned decisionAction =>
                  match resolveTargetTileId (getField payload "targetTileId") with
                  | Thrown message status => Thrown message status
                  | Returned decisionTarget =>
                      match normalizeDecisionIntent decisionAction decisionTarget context with
                      | Thrown message status => Thrown message status
                      | Returned (normalizedAction, normalizedTarget) =>
                          Returned {| action := normalizedAction;
                                      reasoning := trim text;
                                      targetTileId := normalizedTarget |}
                      end
                  end
              end
        | _ => Thrown "Decision JSON must include non-empty reasoning" 502
        end
  end.

(** What the OpenAI and Anthropic providers do with the content of a
    response: validate it, then apply the guardrails. *)
Definition decideFromContent
    (parsed : option JValue) (context : ContextAssembler.NpcPromptInput)
  : Completion DecisionModerationResult :=
  match parseAndValidateDecision parsed context with
  | Thrown message status => Thrown message status
  | Returned validated => applyDecisionGuardrails validated (policyContext context)
  end.

End DecisionAdapter.

(** ** The decision check of the game page *)

Module DecisionClient.
Import Snapshots Guardrail.

Definition isApiNpcDecision (value : option JValue) : bool :=
  match value with
  | Some candidate =>
      if negb (isObjectLike value) then false
      else if negb (isStringSuchThat anyString (getField candidate "reasoning"))
              || negb (isStringSuchThat anyString (getField candidate "action"))
              || negb (isStringSuchThat isVillagerActionType (getField candidate "action"))
      then false
      else isOptionalStringSuchThat isTileId (getField candidate "targetTileId")
  | None => false
  end.

(** The JSON document that carries a decision from the route to the page:
    the properties of the decision object, [targetTileId] left out when
    undefined. *)
Definition encodeDecision (d : NpcDecision) : JValue :=
  JObject ([("action", JString (actionName (action d)));
            ("reasoning", JString (reasoning d))]
           ++ optional "targetTileId" (JString <$> targetTileId d)).

End DecisionClient.

Module DecisionSpec.
Import Snapshots Guardrail.

(** The context names only tiles by ids of the TileId shape. *)
Definition contextTileIds (context : ContextAssembler.NpcPromptInput) : Prop :=
  (forall t, ContextAssembler.currentGoal_targetTileId context = Some t -> isTileId t = true) /\
  (forall t, ContextAssembler.location_targetTileId context = Some t -> isTileId t = true).

(** A farmer's context at noon, and a response that proposes to farm. *)
Definition farmerAtNoon : ContextAssembler.NpcPromptInput :=
  {| ContextAssembler.villagerId := "villager_ava";
     ContextAssembler.villagerName := "Ava";
     ContextAssembler.role := Farmer;
     ContextAssembler.mood := ContextAssembler.Focused;
     ContextAssembler.location_currentTileId := "tile_1_3";
     ContextAssembler.location_targetTileId := Some "tile_3_7";
     ContextAssembler.currentGoal_action := Farm;
     ContextAssembler.currentGoal_source := Schedule.SourceSchedule;
     ContextAssembler.currentGoal_targetTileId := Some "tile_3_7";
     ContextAssembler.recentEvents := [];
     ContextAssembler.memorySummary := [];
     ContextAssembler.worldTime_day := 1;
     ContextAssembler.worldTime_minuteOfDay := 720;
     ContextAssembler.worldTime_tick := 120 |}.

Definition farmResponse : JValue :=
  JObject [("action", JString "farm"); ("reasoning", JString " tend the crops ")].

End DecisionSpec.

(** ** Numbers read from strings *)

Module JsParse.
Import JsString.

(** [s.split(sep)] for a separator of one character: the pieces between
    its occurrences; a string without the separator is its only piece. *)
Fixpoint splitOn (sep : ascii) (s : string) : list string :=
  match s with
  | EmptyString => [EmptyString]
  | String c rest =>
      if Ascii.eqb c sep then EmptyString :: splitOn sep rest
      else
        match splitOn sep rest with
        | piece :: pieces => String c piece :: pieces
        | [] => [String c EmptyString]
        end
  end.

Definition digitValue (c : ascii) : Z := Z.of_nat (nat_of_ascii c) - 48.

(** The value of the longest prefix of decimal digits read so far;
    [None] while no digit has been read. *)
Fixpoint leadingDigits (acc : option Z) (s : string) : option Z :=
  match s with
  | String c rest =>
      if isDigit c then leadingDigits (Some (10 * default 0 acc + digitValue c)) rest
      else acc
  | EmptyString => acc
  end.

(** [Number.parseInt(s, 10)]: leading white space is skipped, then an
    optional sign, then the longest run of decimal digits is read; [None]
    is [NaN] (no digit).  The integer read is the result as long as it is
    a safe integer, which tile coordinates are. *)
Definition parseInt10 (s : string) : option Z :=
  match trimStart s with
  | String "-" rest => Z.opp <$> leadingDigits None rest
  | String "+" rest => leadingDigits None rest
  | trimmed => leadingDigits None trimmed
  end.

(** Arithmetic and comparisons on numbers that may be [NaN]: an operation
    on [NaN] gives [NaN], a comparison with [NaN] is false. *)
Definition nanSub (a b : option Z) : option Z :=
  match a, b with
  | Some x, Some y => Some (x - y)
  | _, _ => None
  end.

Definition nanAdd (a b : option Z) : option Z :=
  match a, b with
  | Some x, Some y => Some (x + y)
  | _, _ => None
  end.

Definition nanAbs (a : option Z) : option Z := Z.abs <$> a.

Definition nanGeb (a b : option Z) : bool :=
  match a, b with
  | Some x, Some y => y <=? x
  | _, _ => false
  end.

Definition nanGtb (a b : option Z) : bool :=
  match a, b with
  | Some x, Some y => y <? x
  | _, _ => false
  end.

Definition nanIs (a : option Z) (z : Z) : bool :=
  match a with
  | Some x => x =? z
  | None => false
  end.

(** [parseTileIdCoordinate], the same text in the animation module and in
    the game page: the second and third pieces of the id, ["0"] for a
    missing one. *)
Definition parseTileIdCoordinate (tileId : string) : option Z * option Z :=
  let pieces := splitOn "_" tileId in
  (parseInt10 (nth 1 pieces "0"), parseInt10 (nth 2 pieces "0")).

End JsParse.

(** ** Villager animation *)

Module Animation.
Import JsParse.

Definition ANIMATION_FALLBACK_KEY : string := "idle.down".

(** The frames table, read by key.  Every key that [resolveAnimationKey]
    makes has a dot in it, so none names a property that the table object
    inherits. *)
Definition ANIMATION_FRAMES (key : string) : option (list string) :=
  if String.eqb key "idle.down" then Some ["o"; "O"]
  else if String.eqb key "planning.down" then Some ["."; ":"]
  else if String.eqb key "moving.up" then Some ["^"; "|"]
  else if String.eqb key "moving.down" then Some ["v"; "|"]
  else if String.eqb key "moving.left" then Some ["<"; "="]
  else if String.eqb key "moving.right" then Some [">"; "="]
  else if String.eqb key "acting.farm" then Some ["f"; "F"]
  else if String.eqb key "acting.chat" then Some ["c"; "C"]
  else if String.eqb key "acting.shop" then Some ["s"; "S"]
  else if String.eqb key "acting.rest" then Some ["r"; "R"]
  else if String.eqb key "resting.down" then Some ["z"; "Z"]
  else None.

Inductive AnimationDirection := Up | Down | Left | Right.

Definition directionName (d : AnimationDirection) : string :=
  match d with
  | Up => "up" | Down => "down" | Left => "left" | Right => "right"
  end.

Record VillagerAnimationState := {
  key : string;
  direction : AnimationDirection;
  frameIndex : Z;
  frameToken : option string;
  lastTick : Z
}.

Record VillagerAnimationAdvanceInput := {
  previousTileId : TileId;
  currentTileId : TileId;
  npcState : NpcState;
  action : VillagerActionType;
  tick : Z
}.

(** [frames[index]]: [undefined] outside the array. *)
Definition frameAt (frames : list string) (index : Z) : option string :=
  if index <? 0 then None else frames !! Z.to_nat index.

Definition getAnimationFrames (animationKey : string) : list string :=
  match ANIMATION_FRAMES animationKey with
  | Some frames => frames
  | None => default [] (ANIMATION_FRAMES ANIMATION_FALLBACK_KEY)
  end.

Definition createVillagerAnimationState (initialTick : Z) : VillagerAnimationState :=
  let animationKey := "planning.down" in
  {| key := animationKey;
     direction := Down;
     frameIndex := 0;
     frameToken := frameAt (default [] (ANIMATION_FRAMES animationKey)) 0;
     lastTick := initialTick |}.

Definition resolveAnimationKey
    (state : NpcState) (act : VillagerActionType) (d : AnimationDirection) : string :=
  match state with
  | Moving => "moving." ++ directionName d
  | Acting => "acting." ++ Snapshots.actionName act
  | _ => Snapshots.npcStateName state ++ "." ++ directionName d
  end.

Definition resolveDirection
    (fallbackDirection : AnimationDirection) (previous current : TileId)
  : AnimationDirection :=
  let previousCoordinate := parseTileIdCoordinate previous in
  let currentCoordinate := parseTileIdCoordinate current in
  let deltaX := nanSub currentCoordinate.1 previousCoordinate.1 in
  let deltaY := nanSub currentCoordinate.2 previousCoordinate.2 in
  if nanIs deltaX 0 && nanIs deltaY 0 then fallbackDirection
  else if nanGeb (nanAbs deltaX) (nanAbs deltaY)
  then (if nanGeb deltaX (Some 0) then Right else Left)
  else (if nanGeb deltaY (Some 0) then Down else Up).

(** [%] is the remainder of the truncated division. *)
Definition advanceVillagerAnimationState
    (previousState : VillagerAnimationState) (input : VillagerAnimationAdvanceInput)
  : VillagerAnimationState :=
  let d := resolveDirection (direction previousState)
             (previousTileId input) (currentTileId input) in
  let animationKey := resolveAnimationKey (npcState input) (action input) d in
  let frames := getAnimationFrames animationKey in
  let tickDelta := Z.max 0 (tick input - lastTick previousState) in
  let index :=
    if String.eqb animationKey (key previousState)
    then Z.rem (frameIndex previousState + tickDelta) (Z.of_nat (length frames))
    else Z.rem tickDelta (Z.of_nat (length frames)) in
  {| key := animationKey;
     direction := d;
     frameIndex := index;
     frameToken := frameAt frames index;
     lastTick := tick input |}.

(** A step to the right while moving, as a test input. *)
Definition stepRight : VillagerAnimationAdvanceInput :=
  {| previousTileId := "tile_1_3"; currentTileId := "tile_2_3";
     npcState := Moving; action := Walk; tick := 7 |}.

End Animation.

(** ** Interactions between villagers (the tick effect of the game page) *)

Module Interactions.
Import JsParse.

Definition INTERACTION_MAX_DISTANCE : Z := 1.
Definition INTERACTION_COOLDOWN_TICKS : Z := 8.

Definition isNpcInteractionEligible (state : NpcState) : bool :=
  match state with
  | Moving => false
  | _ => true
  end.

(** The order of strings by code units, which [sort] uses by default. *)
Definition stringLess (a b : string) : bool :=
  match String.compare a b with
  | Lt => true
  | _ => false
  end.

(** [[first, second].sort().join("|")] *)
Definition toVillagerPairKey (firstVillagerId secondVillagerId : VillagerId) : string :=
  if stringLess secondVillagerId firstVillagerId
  then secondVillagerId ++ "|" ++ firstVillagerId
  else firstVillagerId ++ "|" ++ secondVillagerId.

(** The fields of a villager's runtime state read by the loop. *)
Record InteractionRuntime := {
  ir_villagerId : VillagerId;
  ir_npcState : NpcState;
  ir_currentTileId : TileId
}.

(** The id [`interaction_${tick}_${pairKey}`] is kept as the pair it is
    made of. *)
Record NpcInteractionEvent := {
  event_id : Z * string;
  event_tick : Z;
  event_tileId : TileId;
  participants : VillagerId * VillagerId
}.

(** The inner loop: the villagers after [left], in order. *)
Fixpoint innerLoop (tick : Z) (leftVillager : InteractionRuntime)
    (leftCoordinate : option Z * option Z) (others : list InteractionRuntime)
    (nextInteractionCooldown : gmap string Z) (interactions : list NpcInteractionEvent)
  : gmap string Z * list NpcInteractionEvent :=
  match others with
  | [] => (nextInteractionCooldown, interactions)
  | rightVillager :: rest =>
      if negb (isNpcInteractionEligible (ir_npcState rightVillager))
      then innerLoop tick leftVillager leftCoordinate rest nextInteractionCooldown interactions
      else
        let rightCoordinate := parseTileIdCoordinate (ir_currentTileId rightVillager) in
        let manhattanDistance :=
          nanAdd (nanAbs (nanSub leftCoordinate.1 rightCoordinate.1))
                 (nanAbs (nanSub leftCoordinate.2 rightCoordinate.2)) in
        if nanGtb manhattanDistance (Some INTERACTION_MAX_DISTANCE)
        then innerLoop tick leftVillager leftCoordinate rest nextInteractionCooldown interactions
        else
          let pairKey := toVillagerPairKey (ir_villagerId leftVillager) (ir_villagerId rightVillager) in
          let onCooldown :=
            match nextInteractionCooldown !! pairKey with
            | Some lastInteractionTick =>
                tick - lastInteractionTick <? INTERACTION_COOLDOWN_TICKS
            | None => false
            end in
          if onCooldown
          then innerLoop tick leftVillager leftCoordinate rest nextInteractionCooldown interactions
          else
            innerLoop tick leftVillager leftCoordinate rest
              (<[pairKey := tick]> nextInteractionCooldown)
              (interactions ++
                 [ {| event_id := (tick, pairKey);
                      event_tick := tick;
                      event_tileId := ir_currentTileId leftVillager;
                      participants := (ir_villagerId leftVillager, ir_villagerId rightVillager) |} ])
  end.

(** The outer loop over the villagers. *)
Fixpoint outerLoop (tick : Z) (runtime : list InteractionRuntime)
    (nextInteractionCooldown : gmap string Z) (interactions : list NpcInteractionEvent)
  : gmap string Z * list NpcInteractionEvent :=
  match runtime with
  | [] => (nextInteractionCooldown, interactions)
  | leftVillager :: rest =>
      if negb (isNpcInteractionEligible (ir_npcState leftVillager))
      then outerLoop tick rest nextInteractionCooldown interactions
      else
        let leftCoordinate := parseTileIdCoordinate (ir_currentTileId leftVillager) in
        let '(cooldown, found) :=
          innerLoop tick leftVillager leftCoordinate rest nextInteractionCooldown interactions in
        outerLoop tick rest cooldown found
  end.

(** The interactions of one tick, and the cooldown map the effect stores. *)
Definition findInteractions (tick : Z) (runtime : list InteractionRuntime)
    (interactionCooldown : gmap string Z)
  : gmap string Z * list NpcInteractionEvent :=
  outerLoop tick runtime interactionCooldown [].

(** The effect over a run of ticks, each with the villagers as they are
    then: the cooldown map at the end and all interactions in order. *)
Fixpoint findInteractionsOver (steps : list (Z * list InteractionRuntime))
    (interactionCooldown : gmap string Z)
  : gmap string Z * list NpcInteractionEvent :=
  match steps with
  | [] => (interactionCooldown, [])
  | (tick, runtime) :: rest =>
      let '(cooldown, now) := findInteractions tick runtime interactionCooldown in
      let '(final, later) := findInteractionsOver rest cooldown in
      (final, now ++ later)
  end.

(** The pair key of a recorded interaction. *)
Definition pairKeyOf (e : NpcInteractionEvent) : string :=
  toVillagerPairKey (participants e).1 (participants e).2.

End Interactions.

(** ** Paying out completed actions (the resource effect of the game page) *)

Module Payout.
Import ActionExecution Resources.

(** The fields of a villager's runtime state read by the effect. *)
Record PayoutRuntime := {
  pr_villagerId : VillagerId;
  pr_actionExecution : option VillagerActionExecution
}.

(** The loop over the villagers, with the map and the list it fills. *)
Fixpoint collectLoop (runtime : list PayoutRuntime)
    (nextCompletedActionTick : gmap VillagerId Z) (completedActions : list VillagerActionType)
  : gmap VillagerId Z * list VillagerActionType :=
  match runtime with
  | [] => (nextCompletedActionTick, completedActions)
  | entry :: rest =>
      match pr_actionExecution entry with
      | None => collectLoop rest nextCompletedActionTick completedActions
      | Some actionExecution =>
          match completedAtTick actionExecution with
          | None => collectLoop rest nextCompletedActionTick completedActions
          | Some completedAt =>
              let previousCompletedTick :=
                nextCompletedActionTick !! pr_villagerId entry in
              if bool_decide (previousCompletedTick = Some completedAt)
              then collectLoop rest nextCompletedActionTick completedActions
              else if match previousCompletedTick with
                      | Some previous => completedAt <? previous
                      | None => false
                      end
              then collectLoop rest nextCompletedActionTick completedActions
              else collectLoop rest
                     (<[pr_villagerId entry := completedAt]> nextCompletedActionTick)
                     (completedActions ++ [exec_action actionExecution])
          end
      end
  end.

(** The effect: the map it stores and the inventory it leaves. *)
Definition payCompletedActions (runtime : list PayoutRuntime)
    (completedActionTick : gmap VillagerId Z) (inventory : ResourceInventory)
  : gmap VillagerId Z * ResourceInventory :=
  let '(nextCompletedActionTick, completedActions) :=
    collectLoop runtime completedActionTick [] in
  match completedActions with
  | [] => (nextCompletedActionTick, inventory)
  | _ => (nextCompletedActionTick, applyActionResourceEffects inventory completedActions)
  end.

End Payout.

Module EffectSpec.
Import Interactions Payout ActionExecution.

(** Two interactions of the same pair lie a cooldown apart, the later in
    the list at the later tick. *)
Definition spaced (events : list NpcInteractionEvent) : Prop :=
  forall (i j : nat) e1 e2,
    (i < j)%nat -> events !! i = Some e1 -> events !! j = Some e2 ->
    pairKeyOf e1 = pairKeyOf e2 ->
    INTERACTION_COOLDOWN_TICKS <= event_tick e2 - event_tick e1.

(** The map remembers, for every pair, a tick no earlier than those of the
    listed interactions of the pair and than the tick it started with. *)
Definition remembers (initial cooldown : gmap string Z)
    (events : list NpcInteractionEvent) : Prop :=
  (forall e, e ∈ events ->
     exists lastTick, cooldown !! pairKeyOf e = Some lastTick /\ event_tick e <= lastTick) /\
  (forall pairKey tick0, initial !! pairKey = Some tick0 ->
     exists lastTick, cooldown !! pairKey = Some lastTick /\ tick0 <= lastTick) /\
  (forall e tick0, e ∈ events -> initial !! pairKeyOf e = Some tick0 ->
     INTERACTION_COOLDOWN_TICKS <= event_tick e - tick0).

(** Every completed execution of the list is on record, at its tick or a
    later one. *)
Definition settled (runtime : list PayoutRuntime) (completedActionTick : gmap VillagerId Z)
  : Prop :=
  forall entry execution completedAt,
    entry ∈ runtime -> pr_actionExecution entry = Some execution ->
    completedAtTick execution = Some completedAt ->
    exists recorded, completedActionTick !! pr_villagerId entry = Some recorded /\
                     completedAt <= recorded.

End EffectSpec.

(* ===================================================================== *)
(** * Part II: properties                                                 *)
(* ===================================================================== *)

(** ** Movement component *)

Ltac zcases :=
  repeat match goal with
         | |- context [Z.ltb ?a ?b] => destruct (Z.ltb_spec a b)
         | |- context [Z.leb ?a ?b] => destruct (Z.leb_spec a b)
         | |- context [Z.eqb ?a ?b] => destruct (Z.eqb_spec a b)
         end.

Section MovementProperties.
Import Movement MovementSpec.

Lemma assertNonNegativeInteger_ok (v : Z) : 0 <= v -> assertNonNegativeInteger v = Some v.
Proof.
  intros H. unfold assertNonNegativeInteger.
  destruct (v <? 0) eqn:E; [apply Z.ltb_lt in E; lia | reflexivity].
Qed.

Lemma assign_tracking c0 p t c :
  assignVillagerMovementPath c0 p t = Some c -> tracking p c.
Proof.
  unfold assignVillagerMovementPath, assertNonNegativeInteger.
  destruct (Z.ltb_spec t 0) as [Et | Et]; cbv iota; [done |].
  destruct p as [| first rest]; [done |].
  destruct (Z.eqb_spec (len (first :: rest)) 1) as [E | E]; intros [= <-];
    unfold tracking, wellFormed; cbn [path pathIndex lastProcessedTick arrivedAtTick];
    unfold len in *; cbn [length] in *; repeat split; try lia; try done.
Qed.

Lemma advance_index c k :
  wellFormed c -> 1 <= k ->
  exists r, advanceVillagerMovement c (lastProcessedTick c + k) = Some r /\
            pathIndex (component r) =
              pathIndex c + Z.min k (len (path c) - 1 - pathIndex c).
Proof.
  intros (Ht & Hn & Hi) Hk. unfold advanceVillagerMovement.
  rewrite assertNonNegativeInteger_ok by lia.
  destruct (lastProcessedTick c + k <=? lastProcessedTick c) eqn:E1;
    [apply Z.leb_le in E1; lia |].
  destruct (len (path c) <=? 1) eqn:E2; cbn [orb].
  - apply Z.leb_le in E2. eexists; split; [reflexivity |]. cbn. lia.
  - apply Z.leb_gt in E2.
    match goal with |- context [match ?a with Some _ => _ | None => _ end] =>
      destruct a end;
    [match goal with |- context [if ?b then _ else _] => destruct b end |];
    (eexists; split; [reflexivity |]); cbn; lia.
Qed.

Lemma advance_tracking p c t :
  tracking p c -> 0 <= t ->
  exists r, advanceVillagerMovement c t = Some r /\
            tracking p (component r) /\
            pathIndex c <= pathIndex (component r) /\
            events r = if reachesEnd c (component r) then [arrivalOf c] else [].
Proof.
  intros ((Ht & Hn & Hi) & Hp & Harr) Hnn. unfold advanceVillagerMovement.
  rewrite assertNonNegativeInteger_ok by done.
  unfold reachesEnd, arrivalOf, tracking, wellFormed. subst p.
  destruct (Z.leb_spec t (lastProcessedTick c));
    destruct (Z.leb_spec (len (path c)) 1); cbn [orb];
    try (eexists; split; [reflexivity |];
         cbn [component events pathIndex path lastProcessedTick arrivedAtTick];
         zcases; cbn [andb]; repeat split; first [lia | done | tauto]).
  destruct (arrivedAtTick c) as [a |] eqn:Ea; cbn [isDefined negb].
  - assert (pathIndex c = len (path c) - 1).
    { destruct (Z.lt_ge_cases (pathIndex c) (len (path c) - 1)) as [Hlt | Hge]; [| lia].
      apply Harr in Hlt. done. }
    rewrite andb_false_r, orb_true_r.
    eexists; split; [reflexivity |].
    cbn [component events pathIndex path lastProcessedTick arrivedAtTick].
    zcases; cbn [andb]; repeat split; first [lia | done].
  - assert (pathIndex c < len (path c) - 1) by (apply Harr; done).
    rewrite andb_true_r, orb_false_r.
    match goal with |- context [Z.min ?a ?b =? ?d] =>
      destruct (Z.eqb_spec (Z.min a b) d) as [En | En] end; cbn [negb];
      (eexists; split; [reflexivity |]);
      cbn [component events pathIndex path lastProcessedTick arrivedAtTick];
      zcases; cbn [andb]; repeat split; first [lia | done | rewrite En; done].
Qed.

Lemma advanceMany_tracking p ticks : forall c,
  tracking p c -> Forall (fun t => 0 <= t) ticks ->
  exists cN calls,
    advanceMany c ticks = Some (cN, calls) /\
    tracking p cN /\ pathIndex c <= pathIndex cN /\
    (forall before r, In (before, r) calls ->
       events r = if reachesEnd before (component r) then [arrivalOf before] else []) /\
    length (arrivals calls) = (if reachesEnd c cN then 1 else 0)%nat.
Proof.
  induction ticks as [| t rest IH]; intros c Hc Hall.
  - exists c, []. split; [done |]. split; [done |]. split; [lia |].
    split; [intros ? ? [] |].
    unfold reachesEnd. zcases; cbn; first [lia | done].
  - inversion Hall as [| ? ? Ht Hrest]; subst.
    destruct (advance_tracking p c t Hc Ht) as (r & Hr & Hc' & Hmono & Hev).
    destruct (IH (component r) Hc' Hrest)
      as (cN & calls & Hrun & HcN & Hmono' & Hcalls & Hlen).
    exists cN, ((c, r) :: calls). cbn [advanceMany]. rewrite Hr, Hrun.
    split; [done |]. split; [done |]. split; [lia |]. split.
    + intros before r' [[= <- <-] | Hin]; [done | eauto].
    + unfold arrivals in *. cbn [map concat snd]. rewrite length_app, Hlen, Hev.
      destruct Hc as (_ & Hp & _), Hc' as ((_ & _ & Hi') & Hp' & _),
               HcN as ((_ & _ & HiN) & HpN & _).
      unfold reachesEnd. rewrite Hp, Hp'. rewrite Hp' in Hi'. rewrite HpN in HiN.
      zcases; cbn; first [lia | done].
Qed.

(** C2.  For a movement component with an n-tile path at index i and
    last-processed tick t0, advancing to tick t0+k (k >= 1) moves the index
    forward by exactly min(k, n-1-i).  And in any run of advance calls after
    one assignPath, a call emits an arrival event exactly when it is the call
    on which the end of the path is first reached; that event carries the
    tick t0 + (remaining distance at that call), where t0 is the
    last-processed tick at that call; so the run emits one event if it
    reaches the end and none otherwise, never a second one. *)
Theorem movement_index_and_single_arrival
    (c : VillagerMovementComponent) (k : Z)
    (c0 : VillagerMovementComponent) (p : list TileId) (t0 : Z)
    (assigned : VillagerMovementComponent) (ticks : list Z) :
  wellFormed c -> 1 <= k ->
  assignVillagerMovementPath c0 p t0 = Some assigned ->
  Forall (fun t => 0 <= t) ticks ->
  (exists r, advanceVillagerMovement c (lastProcessedTick c + k) = Some r /\
             pathIndex (component r) =
               pathIndex c + Z.min k (len (path c) - 1 - pathIndex c)) /\
  (exists cN calls,
      advanceMany assigned ticks = Some (cN, calls) /\
      (forall before r, In (before, r) calls ->
         events r = if reachesEnd before (component r) then [arrivalOf before] else []) /\
      length (arrivals calls) = (if reachesEnd assigned cN then 1 else 0)%nat /\
      (length (arrivals calls) <= 1)%nat).
Proof.
  intros Hwf Hk Hassign Hticks. split; [apply advance_index; done |].
  destruct (advanceMany_tracking p ticks assigned (assign_tracking _ _ _ _ Hassign) Hticks)
    as (cN & calls & Hrun & _ & _ & Hcalls & Hlen).
  exists cN, calls. repeat split; try done.
  rewrite Hlen. destruct (reachesEnd assigned cN); lia.
Qed.

Lemma movement_index_and_single_arrival_witness :
  (exists r, advanceVillagerMovement walking (lastProcessedTick walking + 5) = Some r /\
             pathIndex (component r) =
               pathIndex walking + Z.min 5 (len (path walking) - 1 - pathIndex walking)) /\
  (exists cN calls,
      advanceMany walking [1; 1; 3; 7] = Some (cN, calls) /\
      (forall before r, In (before, r) calls ->
         events r = if reachesEnd before (component r) then [arrivalOf before] else []) /\
      length (arrivals calls) = (if reachesEnd walking cN then 1 else 0)%nat /\
      (length (arrivals calls) <= 1)%nat).
Proof.
  apply (movement_index_and_single_arrival walking 5 standing (path walking) 0 walking).
  - unfold wellFormed, len. cbn. lia.
  - lia.
  - reflexivity.
  - repeat constructor; lia.
Defined.

(** C9, as amended.  For a valid tick, when the tick is not after the
    last-processed tick or the path has at most one tile,
    advanceVillagerMovement emits no event and returns the component with
    every field unchanged except lastProcessedTick, which becomes the
    greater of the old value and the tick; so the call is a no-op in every
    field when the tick is not after the last-processed tick. *)
Theorem advance_without_progress (c : VillagerMovementComponent) (tick : Z) :
  0 <= tick ->
  tick <= lastProcessedTick c \/ len (path c) <= 1 ->
  advanceVillagerMovement c tick =
    Some {| component :=
              {| villagerId := villagerId c;
                 currentTileId := currentTileId c;
                 path := path c;
                 pathIndex := pathIndex c;
                 lastProcessedTick := Z.max (lastProcessedTick c) tick;
                 arrivedAtTick := arrivedAtTick c |};
            events := [] |} /\
  (tick <= lastProcessedTick c ->
   advanceVillagerMovement c tick = Some {| component := c; events := [] |}).
Proof.
  intros Hnn Hcase. unfold advanceVillagerMovement.
  rewrite assertNonNegativeInteger_ok by done.
  assert (E : (tick <=? lastProcessedTick c) || (len (path c) <=? 1) = true).
  { apply orb_true_iff. destruct Hcase; [left | right]; apply Z.leb_le; done. }
  rewrite E. split; [done |].
  intros Hle. rewrite Z.max_l by done. destruct c; done.
Qed.

Lemma advance_without_progress_witness :
  advanceVillagerMovement standing 5 =
    Some {| component :=
              {| villagerId := villagerId standing;
                 currentTileId := currentTileId standing;
                 path := path standing;
                 pathIndex := pathIndex standing;
                 lastProcessedTick := Z.max (lastProcessedTick standing) 5;
                 arrivedAtTick := arrivedAtTick standing |};
            events := [] |} /\
  (5 <= lastProcessedTick standing ->
   advanceVillagerMovement standing 5 = Some {| component := standing; events := [] |}).
Proof.
  apply (advance_without_progress standing 5).
  - lia.
  - right. unfold len. cbn. lia.
Defined.

(** C9 as stated fails: a component on a single-tile path (path length 1,
    last-processed tick 0) advanced to tick 5 comes back with
    lastProcessedTick 5, not equal to the input component. *)
Lemma advance_single_tile_not_noop :
  len (path standing) <= 1 /\
  exists r, advanceVillagerMovement standing 5 = Some r /\
            lastProcessedTick (component r) = 5 /\
            component r <> standing.
Proof.
  split; [unfold len; cbn; lia |].
  eexists. split; [reflexivity |]. split; [reflexivity |].
  cbn. intros H. discriminate H.
Qed.

End MovementProperties.


(** ** Schedule index *)

Section ScheduleProperties.
Import Schedule ScheduleSpec.

Lemma insertEntry_In e l x : In x (insertEntry e l) <-> x = e \/ In x l.
Proof.
  induction l as [| h t IH]; cbn; [intuition congruence |].
  destruct (startMinute e <=? startMinute h); cbn; [intuition congruence |].
  rewrite IH. intuition congruence.
Qed.

Lemma insertEntry_sorted e l :
  StronglySorted byStart l -> StronglySorted byStart (insertEntry e l).
Proof.
  induction 1 as [| h t Hs IH Hh]; cbn.
  - repeat constructor.
  - destruct (Z.leb_spec (startMinute e) (startMinute h)) as [Hle | Hgt].
    + constructor; [constructor; done |].
      constructor; [done |].
      eapply Forall_impl; [exact Hh |]. unfold byStart. cbn. lia.
    + constructor; [done |].
      apply List.Forall_forall. intros y Hy. apply insertEntry_In in Hy as [-> | Hy].
      * unfold byStart. lia.
      * rewrite List.Forall_forall in Hh. auto.
Qed.

Lemma sortEntries_sorted l : StronglySorted byStart (sortEntries l).
Proof.
  induction l as [| e l IH]; cbn; [constructor | apply insertEntry_sorted, IH].
Qed.

Lemma noDuplicate_strict l :
  StronglySorted byStart l -> hasDuplicateHours l = false ->
  StronglySorted byStartStrict l.
Proof.
  induction 1 as [| a t Hs IH Ha]; intros Hdup; [constructor |].
  destruct t as [| b t'].
  - repeat constructor.
  - cbn in Hdup. apply orb_false_iff in Hdup as [Hab Hrest].
    apply Z.eqb_neq in Hab.
    specialize (IH Hrest). constructor; [done |].
    inversion Ha as [| ? ? Hb Ht']; subst. unfold byStart in Hb.
    inversion IH as [| ? ? _ Hbt]; subst.
    constructor; [unfold byStartStrict; lia |].
    eapply Forall_impl; [exact Hbt |]. unfold byStartStrict. cbn. lia.
Qed.

Lemma created_strict v s :
  createVillagerDailySchedule v = Some s -> StronglySorted byStartStrict (entries s).
Proof.
  unfold createVillagerDailySchedule.
  destruct (mapSlots (baseSchedule v)) as [es |]; [| done].
  destruct (hasDuplicateHours (sortEntries es)) eqn:Hdup; [done |].
  intros [= <-]. cbn. apply noDuplicate_strict; [apply sortEntries_sorted | done].
Qed.

Lemma strict_nth l : StronglySorted byStartStrict l ->
  forall i j a b, (i < j)%nat -> nth_error l i = Some a -> nth_error l j = Some b ->
                  startMinute a < startMinute b.
Proof.
  induction 1 as [| h t Hs IH Hh]; intros i j a b Hij Ha Hb.
  - destruct i; done.
  - destruct j as [| j]; [lia |]. cbn in Hb.
    destruct i as [| i]; cbn in Ha.
    + injection Ha as <-. rewrite List.Forall_forall in Hh.
      apply Hh. eapply nth_error_In; eauto.
    + eapply IH; [| eauto | eauto]. lia.
Qed.

Section Search.
Variable es : list VillagerScheduleEntry.
Variable m : Z.
Hypothesis Hsorted : StronglySorted byStartStrict es.

Lemma entryAt_mono i j a b :
  i <= j -> entryAt es i = Some a -> entryAt es j = Some b -> startMinute a <= startMinute b.
Proof using Hsorted.
  unfold entryAt. intros Hij.
  destruct (Z.ltb_spec i 0); [done |]. destruct (Z.ltb_spec j 0); [done |].
  intros Ha Hb.
  destruct (Z.eq_dec i j) as [-> | Hne]; [rewrite Ha in Hb; injection Hb as <-; lia |].
  assert (startMinute a < startMinute b); [| lia].
  eapply (strict_nth es Hsorted (Z.to_nat i) (Z.to_nat j)); eauto. lia.
Qed.

Lemma entryAt_Some i :
  0 <= i < Z.of_nat (length es) -> exists e, entryAt es i = Some e.
Proof.
  intros Hi. unfold entryAt. destruct (Z.ltb_spec i 0); [lia |].
  destruct (nth_error es (Z.to_nat i)) eqn:E; [eauto |].
  apply nth_error_None in E. lia.
Qed.

Lemma In_entryAt e :
  In e es -> exists i, 0 <= i < Z.of_nat (length es) /\ entryAt es i = Some e.
Proof.
  intros Hin. apply In_nth_error in Hin as [n Hn].
  exists (Z.of_nat n). split.
  - split; [lia |]. apply Nat2Z.inj_lt. apply nth_error_Some. congruence.
  - unfold entryAt. destruct (Z.ltb_spec (Z.of_nat n) 0); [lia |].
    rewrite Nat2Z.id. done.
Qed.

Lemma entryAt_In i e : entryAt es i = Some e -> In e es.
Proof.
  unfold entryAt. destruct (i <? 0); [done |]. apply nth_error_In.
Qed.

Lemma searchLoop_spec fuel : forall low high active,
  0 <= low -> low <= high + 1 -> high < Z.of_nat (length es) ->
  high - low + 1 <= Z.of_nat fuel ->
  (forall i e, 0 <= i < low -> entryAt es i = Some e -> startMinute e <= m) ->
  (forall i e, high < i -> entryAt es i = Some e -> m < startMinute e) ->
  (low = 0 -> active = None) ->
  (0 < low -> active = entryAt es (low - 1)) ->
  exists r, searchLoop fuel es m low high active = Some r /\
            match r with
            | None => forall e, In e es -> m < startMinute e
            | Some e => latestEntryAt es m e
            end.
Proof using Hsorted.
  induction fuel as [| fuel IH]; intros low high active Hlow Hlh Hhigh Hfuel Hbelow Habove H0 H1.
  - assert (high < low) by lia.
    cbn [searchLoop]. destruct (Z.leb_spec low high); [lia |].
    exists active. split; [done |].
    destruct (Z.eq_dec low 0) as [-> | Hne].
    + rewrite H0 by done. intros e Hin.
      apply In_entryAt in Hin as (i & Hi & He). eapply Habove; [| exact He]. lia.
    + rewrite H1 by lia.
      destruct (entryAt_Some (low - 1)) as [e He]; [lia |]. rewrite He.
      split; [eapply entryAt_In; eauto |]. split; [eapply Hbelow; [| exact He]; lia |].
      intros e' Hin' Hle'. apply In_entryAt in Hin' as (i & Hi & He').
      destruct (Z.le_gt_cases i (low - 1)) as [Hi' | Hi'].
      * eapply entryAt_mono; eauto.
      * assert (m < startMinute e'); [eapply Habove; [| exact He']; lia | lia].
  - cbn [searchLoop]. destruct (Z.leb_spec low high) as [Hle | Hgt].
    + rewrite Z.shiftr_div_pow2 by lia. change (2 ^ 1) with 2.
      set (mid := (low + high) / 2).
      assert (Hmid : low <= mid <= high).
      { unfold mid. split; [apply Z.div_le_lower_bound | apply Z.div_le_upper_bound]; lia. }
      destruct (entryAt_Some mid) as [e He]; [lia |]. rewrite He.
      destruct (Z.leb_spec (startMinute e) m) as [Hem | Hem].
      * apply IH; try lia.
        -- intros i e' Hi He'. assert (startMinute e' <= startMinute e); [| lia].
           eapply entryAt_mono; [| exact He' | exact He]. lia.
        -- done.
        -- intros _. replace (mid + 1 - 1) with mid by lia. done.
      * apply IH; try lia.
        -- done.
        -- intros i e' Hi He'. assert (startMinute e <= startMinute e'); [| lia].
           eapply entryAt_mono; [| exact He | exact He']. lia.
        -- done.
        -- done.
    + exists active. split; [done |].
      destruct (Z.eq_dec low 0) as [-> | Hne].
      * rewrite H0 by done. intros e Hin.
        apply In_entryAt in Hin as (i & Hi & He). eapply Habove; [| exact He]. lia.
      * rewrite H1 by lia.
        destruct (entryAt_Some (low - 1)) as [e He]; [lia |]. rewrite He.
        split; [eapply entryAt_In; eauto |]. split; [eapply Hbelow; [| exact He]; lia |].
        intros e' Hin' Hle'. apply In_entryAt in Hin' as (i & Hi & He').
        destruct (Z.le_gt_cases i (low - 1)) as [Hi' | Hi'].
        -- eapply entryAt_mono; eauto.
        -- assert (m < startMinute e'); [eapply Habove; [| exact He']; lia | lia].
Qed.

End Search.

Lemma strict_injective es :
  StronglySorted byStartStrict es ->
  forall e1 e2, In e1 es -> In e2 es -> startMinute e1 = startMinute e2 -> e1 = e2.
Proof.
  intros Hs e1 e2 H1 H2 Heq.
  apply In_nth_error in H1 as [i Hi]. apply In_nth_error in H2 as [j Hj].
  destruct (Nat.lt_trichotomy i j) as [Hlt | [-> | Hgt]].
  - pose proof (strict_nth es Hs i j e1 e2 Hlt Hi Hj). lia.
  - congruence.
  - pose proof (strict_nth es Hs j i e2 e1 Hgt Hj Hi). lia.
Qed.

(** C5.  For every schedule built by createVillagerDailySchedule (which
    accepts only entries with distinct hours) and every minute-of-day m,
    resolveActiveVillagerTask returns: the task of the schedule entry with
    the greatest start-minute <= m (source "schedule", that entry's action
    and target), or, when every entry starts after m, the idle fallback
    (action "observe", no target, source "idle").  Start-minutes are
    distinct, so the entry is unique. *)
Theorem resolve_returns_latest_entry
    (v : Villager) (s : VillagerDailySchedule) (time : SimulationTime) :
  createVillagerDailySchedule v = Some s ->
  (forall e1 e2, In e1 (entries s) -> In e2 (entries s) ->
                 startMinute e1 = startMinute e2 -> e1 = e2) /\
  ((exists e, latestEntryAt (entries s) (minuteOfDay time) e /\
              resolveActiveVillagerTask s time = Some (scheduledTask s e)) \/
   ((forall e, In e (entries s) -> minuteOfDay time < startMinute e) /\
    resolveActiveVillagerTask s time = Some (idleTask s))).
Proof.
  intros Hcreate. pose proof (created_strict v s Hcreate) as Hs.
  split; [apply strict_injective; done |].
  unfold resolveActiveVillagerTask.
  destruct (searchLoop_spec (entries s) (minuteOfDay time) Hs (length (entries s))
              0 (Z.of_nat (length (entries s)) - 1) None)
    as (r & Hr & Hspec); try lia; try done.
  - intros i e Hi He. unfold entryAt in He. destruct (i <? 0); [done |].
    assert (nth_error (entries s) (Z.to_nat i) = None); [| congruence].
    apply nth_error_None. lia.
  - rewrite Hr. destruct r as [e |]; [left; exists e | right]; done.
Qed.

Lemma resolve_returns_latest_entry_witness :
  (forall e1 e2, In e1 (entries avaSchedule) -> In e2 (entries avaSchedule) ->
                 startMinute e1 = startMinute e2 -> e1 = e2) /\
  ((exists e, latestEntryAt (entries avaSchedule) 500 e /\
              resolveActiveVillagerTask avaSchedule
                {| tick := 500; day := 1; minuteOfDay := 500 |}
              = Some (scheduledTask avaSchedule e)) \/
   ((forall e, In e (entries avaSchedule) -> 500 < startMinute e) /\
    resolveActiveVillagerTask avaSchedule {| tick := 500; day := 1; minuteOfDay := 500 |}
    = Some (idleTask avaSchedule))).
Proof.
  apply (resolve_returns_latest_entry ava avaSchedule
           {| tick := 500; day := 1; minuteOfDay := 500 |}).
  reflexivity.
Defined.

End ScheduleProperties.


(** ** Decision guardrail *)

Ltac decide_actions :=
  repeat match goal with
         | |- context [bool_decide (?a = ?b)] =>
             first [ rewrite (bool_decide_eq_true_2 (a = b)) by reflexivity
                   | rewrite (bool_decide_eq_false_2 (a = b)) by discriminate ]
         end.

Section GuardrailProperties.
Import Guardrail.

(** A rule that fires with a rewrite hands the rewritten action (and the
    target, dropped unless the new action requires one) to the rules after
    it. *)
Lemma guardrailLoop_rewrite rule rest context a t vs newAction why :
  includes (disallowedActions rule) a = true ->
  evaluate rule context = true ->
  rule_outcome rule = OutRewrite newAction why ->
  guardrailLoop (rule :: rest) context a t vs =
  guardrailLoop rest context newAction
    (if actionRequiresTarget newAction then t else None)
    (vs ++ [violationOf rule a newAction why]).
Proof.
  intros Hin Hev Hout. cbn [guardrailLoop]. rewrite Hin, Hev, Hout. reflexivity.
Qed.

Lemma guardrailLoop_skip rule rest context a t vs :
  includes (disallowedActions rule) a = false \/ evaluate rule context = false ->
  guardrailLoop (rule :: rest) context a t vs = guardrailLoop rest context a t vs.
Proof.
  intros [H | H]; cbn [guardrailLoop]; rewrite H; [| rewrite orb_true_r]; reflexivity.
Qed.

Lemma guardrailLoop_block rule rest context a t vs why :
  includes (disallowedActions rule) a = true ->
  evaluate rule context = true ->
  rule_outcome rule = OutBlock why ->
  exists msg, guardrailLoop (rule :: rest) context a t vs = Thrown msg 422.
Proof.
  intros Hin Hev Hout. cbn [guardrailLoop]. rewrite Hin, Hev, Hout. eauto.
Qed.

Lemma role_test (r r0 : JobRole) :
  negb (bool_decide (r = r0)) = true <-> r <> r0.
Proof.
  rewrite negb_true_iff, bool_decide_eq_false. reflexivity.
Qed.

(** C6.  (1) A decision whose action is "shop", from a context whose role is
    not "merchant", is aborted with the fatal policy error (status 422): no
    decision is returned.  (2) A decision whose action is "farm", from a
    context whose role is not "farmer", is rewritten to "observe" with the
    target cleared and one violation recorded; the later rules see
    "observe".  (3) Every rule that rewrites passes the rewritten action to
    the rules after it.  (4) When a decision is returned, its validity is
    "accepted" exactly when the violation list is empty, in which case the
    decision is returned unchanged, and "rewritten" otherwise, in which case
    the action has changed. *)
Theorem guardrail_block_rewrite_validity (d : NpcDecision) (context : NpcPromptInput) :
  (action d = Shop -> role context <> Merchant ->
   exists msg, applyDecisionGuardrails d context = Thrown msg 422) /\
  (action d = Farm -> role context <> Farmer ->
   applyDecisionGuardrails d context =
     Returned {| decision := {| action := Observe;
                                reasoning := reasoning d;
                                targetTileId := None |};
                 decisionValidity := Rewritten;
                 policyViolations := [farmViolation] |}) /\
  (forall rule rest a t vs newAction why,
      includes (disallowedActions rule) a = true ->
      evaluate rule context = true ->
      rule_outcome rule = OutRewrite newAction why ->
      guardrailLoop (rule :: rest) context a t vs =
      guardrailLoop rest context newAction
        (if actionRequiresTarget newAction then t else None)
        (vs ++ [violationOf rule a newAction why])) /\
  (forall r, applyDecisionGuardrails d context = Returned r ->
      (decisionValidity r = Accepted <-> policyViolations r = []) /\
      (decisionValidity r = Rewritten <-> policyViolations r <> []) /\
      (policyViolations r = [] -> decision r = d) /\
      (policyViolations r <> [] -> action (decision r) <> action d)).
Proof.
  split; [| split; [| split]].
  - intros Ha Hr. unfold applyDecisionGuardrails, applyGuardrailsWith, DECISION_POLICY_RULES.
    rewrite Ha.
    destruct (guardrailLoop_block
                {| rule_id := "role-restriction-shop";
                   disallowedActions := [Shop];
                   evaluate := fun c => negb (bool_decide (role c = Merchant));
                   rule_outcome :=
                     OutBlock "Only merchant-role villagers may execute shop actions." |}
                (tl DECISION_POLICY_RULES) context Shop (targetTileId d) []
                "Only merchant-role villagers may execute shop actions.") as [msg Hmsg];
      [reflexivity | apply role_test; done | reflexivity |].
    cbn [tl DECISION_POLICY_RULES] in Hmsg. rewrite Hmsg. eauto.
  - intros Ha Hr. unfold applyDecisionGuardrails, applyGuardrailsWith, DECISION_POLICY_RULES.
    rewrite Ha. cbn [guardrailLoop disallowedActions evaluate rule_outcome rule_id].
    apply role_test in Hr. rewrite Hr. reflexivity.
  - intros. apply guardrailLoop_rewrite; done.
  - intros r. unfold applyDecisionGuardrails, applyGuardrailsWith, DECISION_POLICY_RULES.
    cbn [guardrailLoop disallowedActions evaluate rule_outcome rule_id].
    destruct d as [a reas tgt]. cbn [action reasoning targetTileId].
    destruct a; unfold includes; cbn [existsb]; decide_actions; cbn;
      repeat match goal with
             | |- context [if negb ?b then _ else _] => destruct b; cbn
             | |- context [if ?b || ?c then _ else _] => destruct b; cbn
             | |- context [if ?b then _ else _] => destruct b; cbn
             end;
      intros [= <-]; cbn; repeat split; intros; congruence.
Qed.

Lemma guardrail_block_rewrite_validity_witness :
  (exists msg, applyDecisionGuardrails proposeShop builderAtNoon = Thrown msg 422) /\
  applyDecisionGuardrails proposeFarm builderAtNoon =
    Returned {| decision := {| action := Observe;
                               reasoning := reasoning proposeFarm;
                               targetTileId := None |};
                decisionValidity := Rewritten;
                policyViolations := [farmViolation] |}.
Proof.
  split.
  - apply (guardrail_block_rewrite_validity proposeShop builderAtNoon);
      [reflexivity | discriminate].
  - apply (guardrail_block_rewrite_validity proposeFarm builderAtNoon);
      [reflexivity | discriminate].
Defined.

End GuardrailProperties.


(** ** Replan scheduler *)

Section ReplanningProperties.
Import Replanning ReplanningSpec.









End ReplanningProperties.


(** ** Snapshot codec *)

Section SnapshotProperties.
Import Snapshots.

Lemma isInteger_inject_Z z : isInteger (inject_Z z) = true.
Proof.
  unfold isInteger. rewrite Qfloor_Z. apply Qeq_bool_iff. reflexivity.
Qed.

Lemma Qle_bool_inject_Z a b : a <= b -> Qle_bool (inject_Z a) (inject_Z b) = true.
Proof. intros H. apply Qle_bool_iff. rewrite <- Zle_Qle. exact H. Qed.

Lemma isIntegerAtLeast_jint lo z : lo <= z -> isIntegerAtLeast lo (Some (jint z)) = true.
Proof.
  intros H. unfold isIntegerAtLeast, jint.
  rewrite isInteger_inject_Z, Qle_bool_inject_Z; done.
Qed.

Lemma isIntegerBetween_jint lo hi z :
  lo <= z <= hi -> isIntegerBetween lo hi (Some (jint z)) = true.
Proof.
  intros [H1 H2]. unfold isIntegerBetween, jint.
  rewrite isInteger_inject_Z, !Qle_bool_inject_Z; done.
Qed.

Lemma isOptionalInteger_jint o : isOptionalInteger (jint <$> o) = true.
Proof. destruct o; cbn; [apply isInteger_inject_Z | done]. Qed.

Lemma isInteger_jint z : isNumberSuchThat isInteger (Some (jint z)) = true.
Proof. apply isInteger_inject_Z. Qed.

Lemma isImportance q : (0 <= q)%Q -> (q <= 1)%Q ->
  isNumberSuchThat isMemoryImportance (Some (JNumber q)) = true.
Proof.
  intros H0 H1. cbn. unfold isMemoryImportance.
  apply andb_true_iff. split; apply Qle_bool_iff; done.
Qed.

Lemma isOptionalString_holds p o :
  optionHolds p o -> isOptionalStringSuchThat p (JString <$> o) = true.
Proof. destruct o; cbn; done. Qed.

Lemma isOptionalString_any o : isOptionalStringSuchThat anyString (JString <$> o) = true.
Proof. destruct o; done. Qed.

Lemma isArrayOf_map {A} (p : JValue -> bool) (enc : A -> JValue) (valid : A -> Prop) l :
  (forall a, valid a -> p (enc a) = true) ->
  Forall valid l -> isArrayOf p (Some (JArray (map enc l))) = true.
Proof.
  intros Hp Hl. cbn. induction Hl as [| a l Ha Hl IH]; cbn; [done |].
  rewrite Hp by done. exact IH.
Qed.

Lemma memorySourceTypeName_ok t : isMemorySourceType (memorySourceTypeName t) = true.
Proof. destruct t; reflexivity. Qed.

Lemma npcStateName_ok s : isNpcState (npcStateName s) = true.
Proof. destruct s; reflexivity. Qed.

Lemma actionName_ok a : isVillagerActionType (actionName a) = true.
Proof. destruct a; reflexivity. Qed.

Arguments isIntegerAtLeast : simpl never.
Arguments isIntegerBetween : simpl never.
Arguments isOptionalInteger : simpl never.
Arguments isNumberSuchThat : simpl never.
Arguments isOptionalStringSuchThat : simpl never.
Arguments isArrayOf : simpl never.
Arguments isVillagerId : simpl never.
Arguments isTileId : simpl never.
Arguments isMemoryId : simpl never.
Arguments isMemorySourceType : simpl never.
Arguments isNpcState : simpl never.
Arguments isVillagerActionType : simpl never.
Arguments jint : simpl never.
Arguments encodeTime : simpl never.
Arguments encodeSource : simpl never.
Arguments isMemoryCreatedAt : simpl never.
Arguments isMemorySource : simpl never.
Arguments isObjectLike : simpl never.

Lemma isMemoryCreatedAt_encode t :
  1 <= day t -> 0 <= minuteOfDay t <= 1439 ->
  isMemoryCreatedAt (Some (encodeTime t)) = true.
Proof.
  intros Hd Hm. unfold encodeTime, isMemoryCreatedAt. cbn.
  rewrite isIntegerAtLeast_jint, isIntegerBetween_jint; done.
Qed.

Lemma isMemorySource_encode s :
  optionHolds isVillagerId (actorVillagerId s) ->
  isMemorySource (encodeSource s) = true.
Proof.
  intros Ha. destruct s as [ty actor ev]. cbn in Ha.
  unfold isMemorySource, encodeSource. cbn [source_type actorVillagerId eventId].
  destruct actor as [actor |], ev as [ev |]; cbn;
    rewrite ?memorySourceTypeName_ok, ?Ha; done.
Qed.

Lemma isMemoryOfBucket_encode bucket counterName counterMin b counter :
  validBase b -> counterMin <= counter ->
  String.eqb counterName "id" = false ->
  String.eqb counterName "villagerId" = false ->
  String.eqb counterName "type" = false ->
  String.eqb counterName "summary" = false ->
  String.eqb counterName "source" = false ->
  String.eqb counterName "createdAt" = false ->
  String.eqb counterName "importance" = false ->
  String.eqb counterName "bucket" = false ->
  isMemoryOfBucket bucket counterName counterMin
    (JObject (encodeBase b ++ [("bucket", JString bucket); (counterName, jint counter)])) = true.
Proof.
  intros (Hid & Hvid & Hactor & Hday & Hmin & Hi0 & Hi1) Hcounter
         N1 N2 N3 N4 N5 N6 N7 N8.
  unfold isMemoryOfBucket, encodeBase. cbn [app getField lookupField].
  rewrite !(String.eqb_sym _ counterName), ?N1, ?N2, ?N3, ?N4, ?N5, ?N6, ?N7, ?N8.
  cbn. rewrite String.eqb_refl. cbn.
  rewrite Hid, Hvid, isMemoryCreatedAt_encode, String.eqb_refl, isIntegerAtLeast_jint,
    isImportance by done.
  replace (isObjectLike (Some (encodeSource (source b)))) with true by reflexivity.
  cbn. apply isMemorySource_encode. done.
Qed.

Lemma isShortTermMemory_encode m :
  validShortTerm m -> isShortTermMemory (encodeShortTerm m) = true.
Proof.
  intros [Hb Hc]. apply isMemoryOfBucket_encode; done.
Qed.

Lemma isLongTermMemory_encode m :
  validLongTerm m -> isLongTermMemory (encodeLongTerm m) = true.
Proof.
  intros [Hb Hc]. apply isMemoryOfBucket_encode; done.
Qed.

Lemma isVillagerMemoryStore_encode s :
  validStore s -> isVillagerMemoryStore (Some (encodeStore s)) = true.
Proof.
  intros (Hid & Hshort & Hlong). unfold encodeStore, isVillagerMemoryStore. cbn.
  rewrite Hid.
  rewrite (isArrayOf_map _ _ validShortTerm) by (done || apply isShortTermMemory_encode).
  rewrite (isArrayOf_map _ _ validLongTerm) by (done || apply isLongTermMemory_encode).
  done.
Qed.

Arguments isVillagerMemoryStore : simpl never.
Arguments encodeStore : simpl never.

Lemma isNpcReplanState_encode r :
  validReplan r -> isNpcReplanState (Some (encodeReplan r)) = true.
Proof.
  destruct r as [lpt lps lme i iut]. unfold validReplan, encodeReplan, isNpcReplanState.
  cbn [Replanning.lastPlanTick Replanning.lastPlanSignature Replanning.lastMajorEventTick
       Replanning.intent Replanning.intentUpdatedAtTick].
  intros Hi.
  assert (Hint : forall z, isOptionalInteger (Some (jint z)) = true)
    by (intros z; apply (isOptionalInteger_jint (Some z))).
  assert (Hnone : isOptionalInteger None = true) by reflexivity.
  assert (Hstr : forall p t, isOptionalStringSuchThat p (Some (JString t)) = p t)
    by reflexivity.
  assert (Hsnone : forall p, isOptionalStringSuchThat p None = true) by reflexivity.
  destruct lpt, lps, lme, iut, i as [[ia [it |] ir ip] |]; cbn in Hi |- *;
    rewrite ?Hint, ?Hnone, ?Hstr, ?Hsnone, ?actionName_ok, ?isInteger_jint, ?Hi;
    reflexivity.
Qed.

Arguments isNpcReplanState : simpl never.
Arguments encodeReplan : simpl never.

Lemma isPersistedNpcWorldState_encode n :
  validNpc n -> isPersistedNpcWorldState (encodeNpc n) = true.
Proof.
  intros (Hv & Hc & Ht & Hs & Hr). unfold encodeNpc. cbn.
  rewrite Hv, Hc, Ht, npcStateName_ok, isVillagerMemoryStore_encode, isNpcReplanState_encode;
    done.
Qed.

Arguments isPersistedNpcWorldState : simpl never.
Arguments encodeNpc : simpl never.

Lemma versionMatches_spec v :
  versionMatches v = true <-> exists q, v = Some (JNumber q) /\ (q == WORLD_SNAPSHOT_VERSION)%Q.
Proof.
  split.
  - destruct v as [[| | q | | |] |]; cbn; try discriminate.
    intros H. exists q. split; [done |]. apply Qeq_bool_iff. exact H.
  - intros (q & -> & Hq). cbn. apply Qeq_bool_iff. exact Hq.
Qed.

(** C8.  For a WorldSnapshot that satisfies the documented structural
    constraints (version equal to the current version, tick >= 0, day >= 1,
    minute-of-day in [0, 1439], every per-agent record valid),
    parseWorldSnapshot applied to its JSON document (what a JSON
    encode/decode round trip of it yields) returns that same document; and
    an input whose version property is not the current version is rejected:
    parseWorldSnapshot returns undefined. *)
Theorem snapshot_roundtrip_and_version (s : WorldSnapshot) (value : JValue) :
  validSnapshot s ->
  parseWorldSnapshot (encodeSnapshot s) = Some (encodeSnapshot s) /\
  (~ hasCurrentVersion value -> parseWorldSnapshot value = None).
Proof.
  intros (Hv & Ht & Hd & Hm & Hn). split.
  - unfold encodeSnapshot, parseWorldSnapshot, encodeTime. rewrite Hv.
    cbn [getField lookupField String.eqb Ascii.eqb Bool.eqb].
    cbn.
    rewrite (isArrayOf_map _ _ validNpc) by (done || apply isPersistedNpcWorldState_encode).
    rewrite isIntegerAtLeast_jint, isIntegerAtLeast_jint, isIntegerBetween_jint by done.
    reflexivity.
  - intros Hno. unfold parseWorldSnapshot.
    assert (Hvm : versionMatches (getField value "version") = false).
    { destruct (versionMatches (getField value "version")) eqn:E; [| done].
      exfalso. apply Hno. apply versionMatches_spec. exact E. }
    destruct value; try reflexivity; rewrite Hvm; reflexivity.
Qed.

Lemma snapshot_roundtrip_and_version_witness :
  parseWorldSnapshot (encodeSnapshot sampleSnapshot) = Some (encodeSnapshot sampleSnapshot) /\
  (~ hasCurrentVersion (JObject [("version", JNumber 2)]) ->
   parseWorldSnapshot (JObject [("version", JNumber 2)]) = None).
Proof.
  apply (snapshot_roundtrip_and_version sampleSnapshot (JObject [("version", JNumber 2)])).
  unfold validSnapshot, validNpc, validStore, validReplan, validShortTerm, validLongTerm,
    validBase, optionHolds; cbn.
  repeat split; try lia; try reflexivity; try discriminate;
    repeat constructor; cbn; try lia; try reflexivity; try discriminate.
Defined.

End SnapshotProperties.


(** ** The binary min-heap *)

Section NumOrder.

Lemma num_leb_refl a : num_leb a a = true.
Proof. destruct a; cbn; [apply Z.leb_refl | done]. Qed.

Lemma num_leb_trans a b c : num_leb a b = true -> num_leb b c = true -> num_leb a c = true.
Proof.
  destruct a, b, c; cbn; try done. rewrite !Z.leb_le. lia.
Qed.

Lemma num_ltb_leb a b : num_ltb a b = negb (num_leb b a).
Proof.
  destruct a, b; cbn; try done. rewrite Z.leb_antisym, negb_involutive. done.
Qed.

Lemma num_leb_total a b : num_leb a b = false -> num_leb b a = true.
Proof.
  destruct a, b; cbn; try done. rewrite Z.leb_gt, Z.leb_le. lia.
Qed.

Lemma num_ltb_le a b : num_ltb a b = true -> num_leb a b = true.
Proof.
  rewrite num_ltb_leb, negb_true_iff. apply num_leb_total.
Qed.

Lemma num_ltb_false a b : num_ltb a b = false -> num_leb b a = true.
Proof.
  rewrite num_ltb_leb, negb_false_iff. done.
Qed.

End NumOrder.

Section HeapProperties.
Import Pathfinding MinHeap HeapSpec.
Implicit Types (h : list HeapEntry) (i j k : nat) (e : HeapEntry).
Local Open Scope nat_scope.

Lemma parent_spec i : 0 < i -> 2 * parent i + 1 = i \/ 2 * parent i + 2 = i.
Proof.
  intros H. unfold parent. pose proof (Nat.div_mod_eq (i - 1) 2) as E.
  pose proof (Nat.mod_upper_bound (i - 1) 2 ltac:(lia)) as U.
  destruct ((i - 1) mod 2) as [| [| ?]] eqn:M; lia.
Qed.

Lemma parent_left i : parent (2 * i + 1) = i.
Proof. destruct (parent_spec (2 * i + 1)); lia. Qed.

Lemma parent_right i : parent (2 * i + 2) = i.
Proof. destruct (parent_spec (2 * i + 2)); lia. Qed.

Lemma parent_lt i : 0 < i -> parent i < i.
Proof. intros H. destruct (parent_spec i H); lia. Qed.

Lemma swap_length h i j : length (swap h i j) = length h.
Proof.
  unfold swap. destruct (h !! i), (h !! j); rewrite ?length_insert; done.
Qed.

Lemma swap_lookup h i j k :
  i < length h -> j < length h ->
  swap h i j !! k = if decide (k = i) then h !! j
                    else if decide (k = j) then h !! i else h !! k.
Proof.
  intros Hi Hj. unfold swap.
  destruct (lookup_lt_is_Some_2 h i Hi) as [a Ha].
  destruct (lookup_lt_is_Some_2 h j Hj) as [b Hb].
  rewrite Ha, Hb.
  destruct (decide (k = i)) as [-> | Hki].
  - rewrite list_lookup_insert_eq by (rewrite length_insert; done). done.
  - rewrite list_lookup_insert_ne by done.
    destruct (decide (k = j)) as [-> | Hkj].
    + rewrite list_lookup_insert_eq by done. done.
    + rewrite list_lookup_insert_ne by done. done.
Qed.

Lemma scoreAt_lookup h k e : h !! k = Some e -> scoreAt h k = e.2.
Proof. intros H. unfold scoreAt. rewrite H. done. Qed.

Lemma scoreAt_swap h i j k :
  i < length h -> j < length h ->
  scoreAt (swap h i j) k = if decide (k = i) then scoreAt h j
                           else if decide (k = j) then scoreAt h i else scoreAt h k.
Proof.
  intros Hi Hj. unfold scoreAt. rewrite swap_lookup by done.
  repeat case_decide; done.
Qed.

Lemma swap_elem_of h i j e :
  i < length h -> j < length h -> e ∈ swap h i j <-> e ∈ h.
Proof.
  intros Hi Hj. rewrite !list_elem_of_lookup. split; intros [k Hk].
  - rewrite swap_lookup in Hk by done. repeat case_decide; eauto.
  - destruct (decide (k = i)) as [-> | Hki]; [| destruct (decide (k = j)) as [-> | Hkj]].
    + exists j. rewrite swap_lookup by done. repeat case_decide; congruence.
    + exists i. rewrite swap_lookup by done. repeat case_decide; congruence.
    + exists k. rewrite swap_lookup by done. repeat case_decide; congruence.
Qed.

(** *** bubbleUp *)

Lemma bubbleUpLoop_unfold fuel h i :
  bubbleUpLoop (S fuel) h i =
  if 0 <? i then
    if num_leb (scoreAt h (parent i)) (scoreAt h i) then h
    else bubbleUpLoop fuel (swap h (parent i) i) (parent i)
  else h.
Proof. reflexivity. Qed.

(** [index] turns are enough: more fuel changes nothing. *)
Lemma bubbleUpLoop_fuel fuel : forall h i,
  i <= fuel -> bubbleUpLoop (S fuel) h i = bubbleUpLoop fuel h i.
Proof.
  induction fuel as [| fuel IH]; intros h i Hi.
  - assert (i = 0) as -> by lia. done.
  - rewrite (bubbleUpLoop_unfold (S fuel) h i), (bubbleUpLoop_unfold fuel h i).
    destruct (Nat.ltb_spec 0 i) as [Hpos | _]; [| done].
    destruct (num_leb _ _); [done |]. apply IH.
    pose proof (parent_lt i Hpos). lia.
Qed.

Lemma bubbleUpLoop_length fuel : forall h i, length (bubbleUpLoop fuel h i) = length h.
Proof.
  induction fuel as [| fuel IH]; intros h i; [done |].
  rewrite bubbleUpLoop_unfold.
  destruct (0 <? i); [| done].
  destruct (num_leb _ _); [done |]. rewrite IH, swap_length. done.
Qed.

Lemma bubbleUpLoop_elem_of fuel : forall h i e,
  i < length h -> e ∈ bubbleUpLoop fuel h i <-> e ∈ h.
Proof.
  induction fuel as [| fuel IH]; intros h i e Hi; [done |].
  rewrite bubbleUpLoop_unfold.
  destruct (Nat.ltb_spec 0 i) as [Hpos | Hz]; [| done].
  destruct (num_leb _ _); [done |].
  pose proof (parent_lt i Hpos).
  rewrite IH by (rewrite swap_length; lia). apply swap_elem_of; lia.
Qed.

Lemma orderedAbove_root h : orderedAbove h 0 -> heapOrdered h.
Proof.
  intros [H _] j Hj. apply H; lia.
Qed.

Lemma orderedAbove_settled h i :
  0 < i < length h -> orderedAbove h i ->
  num_le (scoreAt h (parent i)) (scoreAt h i) -> heapOrdered h.
Proof.
  intros Hi [H _] Hle j Hj. destruct (decide (j = i)) as [-> | Hne]; auto.
Qed.

Lemma orderedAbove_swap h i :
  0 < i < length h -> orderedAbove h i ->
  num_leb (scoreAt h (parent i)) (scoreAt h i) = false ->
  orderedAbove (swap h (parent i) i) (parent i).
Proof.
  intros Hi [Hord Hgrand] Hlt. apply num_leb_total in Hlt.
  pose proof (parent_lt i ltac:(lia)) as Hp. unfold num_le in *.
  split.
  - intros j Hj Hjp. rewrite swap_length in Hj.
    pose proof (parent_lt j ltac:(lia)) as Hpj.
    rewrite !scoreAt_swap by lia.
    destruct (decide (j = i)) as [-> | Hji].
    + (* the swapped pair itself *)
      rewrite decide_True by done. rewrite (decide_False (P := i = parent i)) by lia.
      done.
    + rewrite (decide_False (P := j = parent i)) by done.
      destruct (decide (parent j = parent i)) as [Hs | Hs].
      * (* a sibling of i *)
        eapply num_leb_trans; [exact Hlt |]. rewrite <- Hs. apply Hord; lia || done.
      * destruct (decide (parent j = i)) as [Hc | Hc].
        -- (* a child of i *) apply Hgrand; lia || done.
        -- apply Hord; lia || done.
  - intros c Hpos Hc Hcp. rewrite swap_length in Hc.
    pose proof (parent_lt (parent i) Hpos) as Hpp.
    rewrite !scoreAt_swap by lia.
    rewrite (decide_False (P := parent (parent i) = parent i)) by lia.
    rewrite (decide_False (P := parent (parent i) = i)) by lia.
    rewrite (decide_False (P := c = parent i)) by (pose proof (parent_lt c); lia).
    assert (Hpi : num_leb (scoreAt h (parent (parent i))) (scoreAt h (parent i)) = true)
      by (apply Hord; lia).
    destruct (decide (c = i)) as [-> | Hci]; [done |].
    eapply num_leb_trans; [exact Hpi |]. rewrite <- Hcp. apply Hord; lia || done.
Qed.

Lemma bubbleUpLoop_ordered fuel : forall h i,
  i <= fuel -> i < length h -> orderedAbove h i -> heapOrdered (bubbleUpLoop fuel h i).
Proof.
  induction fuel as [| fuel IH]; intros h i Hfuel Hi Hinv.
  - assert (i = 0) as -> by lia. apply orderedAbove_root. done.
  - rewrite bubbleUpLoop_unfold. destruct (Nat.ltb_spec 0 i) as [Hpos | Hz].
    + destruct (num_leb (scoreAt h (parent i)) (scoreAt h i)) eqn:Hle.
      * eapply orderedAbove_settled; eauto.
      * pose proof (parent_lt i Hpos). apply IH.
        -- lia.
        -- rewrite swap_length. lia.
        -- apply orderedAbove_swap; done || lia.
    + assert (i = 0) as -> by lia. apply orderedAbove_root. done.
Qed.

Lemma scoreAt_app_l h e k : k < length h -> scoreAt (h ++ [e]) k = scoreAt h k.
Proof. intros Hk. unfold scoreAt. rewrite lookup_app_l by done. done. Qed.

Lemma scoreAt_cons_pos e h k : 0 < k -> scoreAt (e :: h) k = scoreAt h (k - 1).
Proof. intros Hk. destruct k; [lia |]. cbn. rewrite Nat.sub_0_r. done. Qed.

Lemma push_length tileId score h : length (push tileId score h) = S (length h).
Proof.
  unfold push, bubbleUp. rewrite bubbleUpLoop_length, length_app. cbn. lia.
Qed.

Lemma push_elem_of tileId score h e :
  e ∈ push tileId score h <-> e = (tileId, score) \/ e ∈ h.
Proof.
  unfold push, bubbleUp.
  rewrite bubbleUpLoop_elem_of by (rewrite length_app; cbn; lia).
  rewrite elem_of_app, list_elem_of_singleton. tauto.
Qed.

Lemma push_ordered tileId score h :
  heapOrdered h -> heapOrdered (push tileId score h).
Proof.
  intros Hh. unfold push, bubbleUp.
  assert (Hlen : length (h ++ [(tileId, score)]) - 1 = length h)
    by (rewrite length_app; cbn; lia).
  rewrite Hlen.
  apply bubbleUpLoop_ordered; [done | rewrite length_app; cbn; lia |].
  split.
  - intros j Hj Hne. rewrite length_app in Hj. cbn in Hj.
    pose proof (parent_lt j ltac:(lia)).
    rewrite !scoreAt_app_l by lia. apply Hh. lia.
  - intros c _ Hc Hcp. rewrite length_app in Hc. cbn in Hc.
    pose proof (parent_lt c ltac:(lia)). lia.
Qed.

(** *** sinkDown *)

Lemma sinkDownLoop_unfold fuel h i :
  sinkDownLoop (S fuel) h i =
  if smallestOf h i =? i then h
  else sinkDownLoop fuel (swap h (smallestOf h i) i) (smallestOf h i).
Proof. reflexivity. Qed.

(** [length - index] turns are enough: more fuel changes nothing. *)
Lemma sinkDownLoop_fuel fuel : forall h i,
  length h <= i + fuel -> sinkDownLoop (S fuel) h i = sinkDownLoop fuel h i.
Proof.
  induction fuel as [| fuel IH]; intros h i Hi.
  - rewrite sinkDownLoop_unfold. cbn [sinkDownLoop].
    assert (Hs : smallestOf h i = i).
    { unfold smallestOf.
      rewrite (proj2 (Nat.ltb_ge (2 * i + 1) (length h))) by lia.
      rewrite (proj2 (Nat.ltb_ge (2 * i + 2) (length h))) by lia. done. }
    rewrite Hs, Nat.eqb_refl. done.
  - rewrite (sinkDownLoop_unfold (S fuel) h i), (sinkDownLoop_unfold fuel h i).
    destruct (Nat.eqb_spec (smallestOf h i) i) as [_ | Hne]; [done |].
    apply IH. rewrite swap_length.
    assert (i < smallestOf h i); [| lia].
    clear IH. unfold smallestOf in *. repeat case_match; lia.
Qed.

Lemma sinkDownLoop_length fuel : forall h i, length (sinkDownLoop fuel h i) = length h.
Proof.
  induction fuel as [| fuel IH]; intros h i; [done |].
  rewrite sinkDownLoop_unfold.
  destruct (smallestOf h i =? i); [done |]. rewrite IH, swap_length. done.
Qed.

Lemma smallestOf_spec h i :
  i < length h ->
  let s := smallestOf h i in
  (s = i \/ ((s = 2 * i + 1 \/ s = 2 * i + 2) /\ s < length h /\
             num_ltb (scoreAt h s) (scoreAt h i) = true)) /\
  (2 * i + 1 < length h -> num_le (scoreAt h s) (scoreAt h (2 * i + 1))) /\
  (2 * i + 2 < length h -> num_le (scoreAt h s) (scoreAt h (2 * i + 2))).
Proof.
  intros Hi. unfold smallestOf, num_le.
  destruct (Nat.ltb_spec (2 * i + 1) (length h)) as [Hl | Hl];
    destruct (Nat.ltb_spec (2 * i + 2) (length h)) as [Hr | Hr]; cbn [andb]; try lia.
  - destruct (num_ltb (scoreAt h (2 * i + 1)) (scoreAt h i)) eqn:E1.
    + destruct (num_ltb (scoreAt h (2 * i + 2)) (scoreAt h (2 * i + 1))) eqn:E2.
      * split; [right; split; [lia |]; split; [lia |] |].
        -- rewrite num_ltb_leb, negb_true_iff in *.
           destruct (num_leb (scoreAt h i) (scoreAt h (2 * i + 2))) eqn:E3; [| done].
           apply num_leb_total in E2.
           rewrite (num_leb_trans _ _ _ E3 E2) in E1. done.
        -- split; intros _; [apply num_ltb_le; done | apply num_leb_refl].
      * split; [right; split; [lia |]; split; [lia | done] |].
        split; intros _; [apply num_leb_refl | apply num_ltb_false; done].
    + destruct (num_ltb (scoreAt h (2 * i + 2)) (scoreAt h i)) eqn:E2.
      * split; [right; split; [lia |]; split; [lia | done] |].
        split; intros _; [| apply num_leb_refl].
        eapply num_leb_trans; [apply num_ltb_le; exact E2 | apply num_ltb_false; done].
      * split; [left; done |]. split; intros _; apply num_ltb_false; done.
  - destruct (num_ltb (scoreAt h (2 * i + 1)) (scoreAt h i)) eqn:E1.
    + split; [right; split; [lia |]; split; [lia | done] |].
      split; [intros _; apply num_leb_refl | lia].
    + split; [left; done |]. split; [intros _; apply num_ltb_false; done | lia].
Qed.

Lemma sinkDownLoop_elem_of fuel : forall h i e,
  i < length h -> e ∈ sinkDownLoop fuel h i <-> e ∈ h.
Proof.
  induction fuel as [| fuel IH]; intros h i e Hi; [done |].
  rewrite sinkDownLoop_unfold.
  destruct (Nat.eqb_spec (smallestOf h i) i) as [Heq | Hne]; [done |].
  destruct (smallestOf_spec h i Hi) as ([Hs | (Hs & Hlt & _)] & _); [done |].
  rewrite IH by (rewrite swap_length; lia). apply swap_elem_of; lia.
Qed.

Lemma orderedBelow_settled h i :
  i < length h -> orderedBelow h i -> smallestOf h i = i -> heapOrdered h.
Proof.
  intros Hi [Hord _] Hs j Hj.
  destruct (decide (parent j = i)) as [Hp | Hp]; [| apply Hord; done].
  destruct (smallestOf_spec h i Hi) as (_ & Hl & Hr). rewrite Hs in Hl, Hr.
  rewrite Hp. destruct (parent_spec j ltac:(lia)) as [E | E]; rewrite Hp in E;
    rewrite <- E; [apply Hl | apply Hr]; lia.
Qed.

Lemma orderedBelow_swap h i :
  i < length h -> orderedBelow h i -> smallestOf h i <> i ->
  orderedBelow (swap h (smallestOf h i) i) (smallestOf h i).
Proof.
  intros Hi [Hord Hgrand] Hne.
  destruct (smallestOf_spec h i Hi) as ([Hs | (Hs & Hlt & Hless)] & Hl & Hr); [done |].
  set (s := smallestOf h i) in *.
  assert (Hps : parent s = i)
    by (destruct Hs as [-> | ->]; [apply parent_left | apply parent_right]).
  assert (His : i < s) by lia.
  apply num_ltb_le in Hless. unfold num_le in *.
  split.
  - intros j Hj Hjp. rewrite swap_length in Hj.
    pose proof (parent_lt j ltac:(lia)) as Hpj.
    rewrite !scoreAt_swap by lia.
    rewrite (decide_False (P := parent j = s)) by done.
    destruct (decide (parent j = i)) as [Hc | Hc].
    + (* j is s or its sibling *)
      destruct (decide (j = s)) as [-> | Hjs]; [done |].
      rewrite (decide_False (P := j = i)) by lia.
      destruct (parent_spec j ltac:(lia)) as [E | E]; rewrite Hc in E; rewrite <- E;
        [apply Hl | apply Hr]; lia.
    + rewrite (decide_False (P := j = s)) by congruence.
      destruct (decide (j = i)) as [-> | Hji].
      * (* the edge from the parent of i down to i *) apply Hgrand; lia || done.
      * apply Hord; lia || done.
  - intros c Hpos Hc Hcp. rewrite swap_length in Hc.
    rewrite !scoreAt_swap by lia.
    rewrite Hps. rewrite (decide_False (P := i = s)) by lia. rewrite decide_True by done.
    rewrite (decide_False (P := c = s)) by (pose proof (parent_lt c); lia).
    rewrite (decide_False (P := c = i)) by (pose proof (parent_lt c); lia).
    rewrite <- Hcp. apply Hord; [lia | lia].
Qed.

Lemma sinkDownLoop_ordered fuel : forall h i,
  length h <= i + fuel -> i < length h -> orderedBelow h i ->
  heapOrdered (sinkDownLoop fuel h i).
Proof.
  induction fuel as [| fuel IH]; intros h i Hfuel Hi Hinv.
  - lia.
  - rewrite sinkDownLoop_unfold.
    destruct (Nat.eqb_spec (smallestOf h i) i) as [Heq | Hne].
    + eapply orderedBelow_settled; eauto.
    + destruct (smallestOf_spec h i Hi) as ([Hs | (Hs & Hlt & _)] & _); [done |].
      destruct (Nat.le_gt_cases (length h) (smallestOf h i + fuel)) as [Hok | Hshort].
      * apply IH; [rewrite swap_length; lia | rewrite swap_length; lia |].
        apply orderedBelow_swap; done.
      * lia.
Qed.

(** *** pop *)

Lemma heapOrdered_root_min h i :
  heapOrdered h -> i < length h -> num_le (scoreAt h 0) (scoreAt h i).
Proof.
  intros Hh. induction i as [i IH] using lt_wf_ind. intros Hi.
  destruct (decide (i = 0)) as [-> | Hne]; [apply num_leb_refl |].
  pose proof (parent_lt i ltac:(lia)).
  apply (num_leb_trans _ (scoreAt h (parent i))); [apply IH; lia | apply Hh; lia].
Qed.

Lemma removelast_last_cons (top : HeapEntry) (rest : list HeapEntry) :
  top :: rest = removelast (top :: rest) ++ [List.last (top :: rest) top].
Proof. apply app_removelast_last. done. Qed.

(** What [pop] does on a non-empty ordered heap: it returns the id of an
    entry of least score, and leaves an ordered heap that holds the other
    entries. *)
Lemma pop_spec top rest :
  heapOrdered (top :: rest) ->
  exists h', pop (top :: rest) = (Some top.1, h') /\
             heapOrdered h' /\
             length h' = length rest /\
             (forall e, e ∈ top :: rest -> num_le top.2 e.2) /\
             (forall e, e ∈ h' -> e ∈ top :: rest) /\
             (forall e, e ∈ top :: rest -> e = top \/ e ∈ h').
Proof.
  intros Hh.
  assert (Hmin : forall e, e ∈ top :: rest -> num_le top.2 e.2).
  { intros e He. apply list_elem_of_lookup in He as [k Hk].
    pose proof (heapOrdered_root_min _ k Hh (lookup_lt_Some _ _ _ Hk)) as Hr.
    rewrite (scoreAt_lookup _ _ _ Hk) in Hr. done. }
  unfold pop.
  induction rest as [| second rest _] using rev_ind.
  - exists []. cbn. split; [done |]. split; [intros j Hj; cbn in Hj; lia |].
    split; [done |]. split; [done |]. split; [intros e He; inversion He |].
    intros e He. left. apply list_elem_of_singleton. done.
  - assert (Hrl : removelast (top :: rest ++ [second]) = top :: rest).
    { change (top :: rest ++ [second]) with ((top :: rest) ++ [second]).
      apply removelast_last. }
    assert (Hl : List.last (top :: rest ++ [second]) top = second).
    { change (top :: rest ++ [second]) with ((top :: rest) ++ [second]).
      apply last_last. }
    rewrite Hrl, Hl. cbn [length Nat.ltb Nat.leb]. cbn [insert list_insert].
    eexists. split; [reflexivity |].
    assert (Hlen : length (second :: rest) = S (length rest)) by done.
    split; [| split; [| split; [done | split]]].
    + unfold sinkDown. apply sinkDownLoop_ordered; [lia | cbn; lia |].
      split.
      * intros j Hj Hp. cbn [length] in Hj.
        assert (Hpj : 0 < parent j).
        { destruct (parent j); [done | lia]. }
        pose proof (parent_lt j ltac:(lia)).
        specialize (Hh j). rewrite length_cons, length_app in Hh. cbn [length] in Hh.
        specialize (Hh ltac:(lia)).
        rewrite !scoreAt_cons_pos in Hh |- * by lia.
        rewrite !scoreAt_app_l in Hh by lia. done.
      * lia.
    + unfold sinkDown. rewrite sinkDownLoop_length. cbn. rewrite length_app. cbn. lia.
    + intros e He. unfold sinkDown in He.
      apply sinkDownLoop_elem_of in He; [| cbn; lia].
      apply elem_of_cons in He as [-> | He]; set_solver.
    + intros e He. unfold sinkDown.
      rewrite sinkDownLoop_elem_of by (cbn; lia).
      set_solver.
Qed.

End HeapProperties.


(** ** The search: what both revisions share *)

Section SearchProperties.
Import Pathfinding SearchSpec.

Variable nodes : gmap TileId PathfindingNode.
Variable blocked : gset TileId.
Variables start dest : TileId.

Local Abbreviation edge := (edge nodes blocked).
Local Abbreviation walk := (walk nodes blocked start).
Local Abbreviation pathTo := (pathTo nodes blocked start).
Local Abbreviation hZ := (hZ nodes dest).
Local Abbreviation chained := (chained nodes blocked start).
Local Abbreviation optimalClosed := (optimalClosed nodes blocked start).
Local Abbreviation relaxed := (relaxed nodes blocked).

Lemma edge_known_l u v : edge u v -> is_Some (nodes !! u).
Proof. intros (nu & nv & Hu & _). eauto. Qed.

Lemma edge_known_r u v : edge u v -> is_Some (nodes !! v).
Proof. intros (nu & nv & _ & _ & _ & Hv & _). eauto. Qed.

Lemma scoreOf_Some (g : gmap TileId Num) v n : g !! v = Some n -> scoreOf g v = n.
Proof. intros H. unfold scoreOf. rewrite H. done. Qed.

Lemma scoreOf_None (g : gmap TileId Num) v : g !! v = None -> scoreOf g v = PosInf.
Proof. intros H. unfold scoreOf. rewrite H. done. Qed.

Lemma chained_walk closed cf g :
  chained closed cf g ->
  forall n v, g !! v = Some (Fin (Z.of_nat n)) -> walk n v.
Proof.
  intros (_ & _ & Hg & _). induction n as [| n IH]; intros v Hv.
  - destruct (Hg v _ Hv) as (k & [= <-] & _ & [[-> _] | (_ & u & _ & _ & Hu & _)]).
    + constructor.
    + destruct (Hg u _ Hu) as (k' & [= <-] & Hk' & _). lia.
  - destruct (Hg v _ Hv) as (k & [= <-] & _ & [[_ ?] | (_ & u & _ & _ & Hu & He)]); [lia |].
    replace (Z.of_nat (S n) - 1) with (Z.of_nat n) in Hu by lia.
    econstructor; eauto.
Qed.

Lemma chained_walk_Z closed cf g v k :
  chained closed cf g -> g !! v = Some (Fin k) -> walk (Z.to_nat k) v.
Proof.
  intros Hc Hv. eapply chained_walk; [exact Hc |].
  destruct Hc as (_ & _ & Hg & _). destruct (Hg v _ Hv) as (k' & [= <-] & Hk & _).
  rewrite Z2Nat.id by lia. done.
Qed.

Lemma chained_mono closed closed' cf g :
  closed ⊆ closed' -> chained closed cf g -> chained closed' cf g.
Proof.
  intros Hsub (H1 & H2 & H3 & H4). split; [done |]. split; [done |]. split; [| done].
  intros v n Hv. destruct (H3 v n Hv) as (k & Hn & Hk & Hcase).
  exists k. split; [done |]. split; [done |].
  destruct Hcase as [? | (Hne & u & Hu & Hcl & Hgu & He)]; [left; done |].
  right. split; [done |]. exists u. repeat split; try done. set_solver.
Qed.

Lemma chained_initial : chained ∅ ∅ {[start := Fin 0]}.
Proof.
  split; [apply lookup_singleton_eq |]. split; [done |]. split; [| done].
  intros v n Hv. apply lookup_singleton_Some in Hv as [<- <-].
  exists 0. split; [done |]. split; [rewrite map_size_empty; lia | left; done].
Qed.

(** *** One neighbour *)

Section Relax.
Variable O : Type.
Variable enqueue : TileId -> Num -> O -> O.

(** A look at one neighbour either changes nothing or records a strictly
    better score for an open, known, walkable, unblocked neighbour. *)
Lemma relaxNeighbor_cases closed current cf g (o : O) nb :
  let r := relaxNeighbor enqueue nodes dest blocked closed current (cf, g, o) nb in
  (r = (cf, g, o) /\
   (nb ∈ closed \/ nb ∈ blocked \/
    (forall nn, nodes !! nb = Some nn -> node_walkable nn = false) \/
    num_leb (scoreOf g nb) (num_add (scoreOf g current) (Fin 1)) = true)) \/
  exists kc nn,
    g !! current = Some (Fin kc) /\
    (nb ∉ closed) /\ (nb ∉ blocked) /\ nodes !! nb = Some nn /\ node_walkable nn = true /\
    num_leb (scoreOf g nb) (Fin (kc + 1)) = false /\
    r = (<[nb := current]> cf, <[nb := Fin (kc + 1)]> g,
         enqueue nb (num_add (Fin (kc + 1)) (heuristicDistance nodes nb dest)) o).
Proof.
  cbn zeta. unfold relaxNeighbor.
  destruct (decide (nb ∈ closed)) as [Hc | Hc];
    [rewrite (bool_decide_eq_true_2 _ Hc); left; split; [done | tauto] |].
  rewrite (bool_decide_eq_false_2 _ Hc).
  destruct (decide (nb ∈ blocked)) as [Hb | Hb];
    [rewrite (bool_decide_eq_true_2 _ Hb); left; split; [done | tauto] |].
  rewrite (bool_decide_eq_false_2 _ Hb). cbn [orb].
  destruct (nodes !! nb) as [nn |] eqn:Hn; [| left; split; [done |]; right; right; left; done].
  destruct (node_walkable nn) eqn:Hw; cbn [negb];
    [| left; split; [done |]; right; right; left; congruence].
  destruct (num_leb (scoreOf g nb) (num_add (scoreOf g current) (Fin 1))) eqn:Hle;
    [left; split; [done | tauto] |].
  destruct (g !! current) as [[kc |] |] eqn:Hgc.
  - right. exists kc, nn. rewrite (scoreOf_Some _ _ _ Hgc) in *. cbn [num_add] in *.
    repeat split; done.
  - rewrite (scoreOf_Some _ _ _ Hgc) in Hle. cbn in Hle. destruct (scoreOf g nb); done.
  - rewrite (scoreOf_None _ _ Hgc) in Hle. cbn in Hle. destruct (scoreOf g nb); done.
Qed.

Lemma size_insert_ge (cf : gmap TileId TileId) k v : (size cf <= size (<[k := v]> cf))%nat.
Proof.
  destruct (cf !! k) eqn:E.
  - rewrite map_size_insert_Some by eauto. lia.
  - rewrite map_size_insert_None by done. lia.
Qed.

Lemma relax_update_chained closed current cf g nb kc nc :
  chained closed cf g ->
  current ∈ closed -> nb ∉ closed ->
  g !! current = Some (Fin kc) ->
  nodes !! current = Some nc -> nb ∈ neighbors nc ->
  edge current nb ->
  num_leb (scoreOf g nb) (Fin (kc + 1)) = false ->
  chained closed (<[nb := current]> cf) (<[nb := Fin (kc + 1)]> g).
Proof.
  intros (Hs & Hcs & Hg & Hdom) Hcur Hnb Hgc Hnc Hin He Hlt.
  destruct (Hg _ _ Hgc) as (? & [= <-] & Hkc & _).
  assert (Hne : nb <> start).
  { intros ->. rewrite (scoreOf_Some _ _ _ Hs) in Hlt. cbn in Hlt.
    apply Z.leb_gt in Hlt. lia. }
  assert (Hcn : current <> nb) by (intros ->; done).
  split; [rewrite lookup_insert_ne by done; done |].
  split; [rewrite lookup_insert_ne by done; done |].
  split.
  - intros v n Hv. destruct (decide (v = nb)) as [-> | Hvn].
    + rewrite lookup_insert_eq in Hv. injection Hv as <-.
      exists (kc + 1). split; [done |]. split.
      * split; [lia |]. destruct (cf !! nb) as [old |] eqn:Eold.
        -- rewrite map_size_insert_Some by eauto.
           destruct (Hdom _ _ Eold) as [n Hn].
           destruct (Hg _ _ Hn) as (kn & -> & Hkn & _).
           rewrite (scoreOf_Some _ _ _ Hn) in Hlt. cbn in Hlt.
           apply Z.leb_gt in Hlt. lia.
        -- rewrite map_size_insert_None by done. lia.
      * right. split; [done |]. exists current.
        rewrite lookup_insert_eq, lookup_insert_ne by done.
        replace (kc + 1 - 1) with kc by lia. done.
    + rewrite lookup_insert_ne in Hv by done.
      destruct (Hg v n Hv) as (k & Hn & Hk & Hcase).
      exists k. split; [done |]. split.
      * pose proof (size_insert_ge cf nb current). lia.
      * destruct Hcase as [? | (Hvs & u & Hu & Hcl & Hgu & Hed)]; [left; done |].
        right. split; [done |]. exists u.
        rewrite !lookup_insert_ne by (done || (intros ->; done)). done.
  - intros v u Hv. destruct (decide (v = nb)) as [-> | Hvn].
    + rewrite lookup_insert_eq. eauto.
    + rewrite lookup_insert_ne in Hv by done. rewrite lookup_insert_ne by done. eauto.
Qed.

(** The structural invariant survives the whole neighbour loop, on any
    graph. *)
Lemma relaxNeighbors_chained closed current nc ns : forall cf g (o : O),
  chained closed cf g -> current ∈ closed ->
  nodes !! current = Some nc -> (forall v, v ∈ ns -> v ∈ neighbors nc) ->
  let r := relaxNeighbors enqueue nodes dest blocked closed current (cf, g, o) ns in
  chained closed r.1.1 r.1.2.
Proof.
  induction ns as [| nb ns IH]; intros cf g o Hch Hcur Hnc Hns; [done |].
  cbn zeta. unfold relaxNeighbors. cbn [foldl].
  destruct (relaxNeighbor_cases closed current cf g o nb)
    as [[-> _] | (kc & nn & Hgc & Hncl & Hnbl & Hnn & Hw & Hlt & ->)].
  - apply IH; try done. intros v Hv. apply Hns. set_solver.
  - apply IH; try done; [| intros v Hv; apply Hns; set_solver].
    eapply relax_update_chained; eauto; [apply Hns; set_solver |].
    exists nc, nn. repeat split; try done. apply Hns. set_solver.
Qed.

(** The neighbour loop enqueues at most one entry per neighbour, and keeps
    whatever [enqueue] keeps. *)
Lemma relaxNeighbors_size (sizeOf : O -> nat) closed current ns :
  (forall v f o, (sizeOf (enqueue v f o) <= S (sizeOf o))%nat) ->
  forall cf g (o : O),
    let r := relaxNeighbors enqueue nodes dest blocked closed current (cf, g, o) ns in
    (sizeOf r.2 <= sizeOf o + length ns)%nat.
Proof.
  intros Hsize. induction ns as [| nb ns IH]; intros cf g o; [cbn; lia |].
  cbn zeta. unfold relaxNeighbors. cbn [foldl length].
  destruct (relaxNeighbor_cases closed current cf g o nb)
    as [[-> _] | (kc & nn & _ & _ & _ & _ & _ & _ & ->)].
  - specialize (IH cf g o). cbn zeta in IH. unfold relaxNeighbors in IH. lia.
  - match goal with |- context [foldl _ (?cf', ?g', ?o') ns] =>
      specialize (IH cf' g' o'); pose proof (Hsize nb
        (num_add (Fin (kc + 1)) (heuristicDistance nodes nb dest)) o) end.
    cbn zeta in IH. unfold relaxNeighbors in IH. lia.
Qed.

Lemma relaxNeighbors_preserves (P : O -> Prop) closed current ns :
  (forall v f o, v ∉ closed -> is_Some (nodes !! v) -> P o -> P (enqueue v f o)) ->
  forall cf g (o : O), P o ->
    P (relaxNeighbors enqueue nodes dest blocked closed current (cf, g, o) ns).2.
Proof.
  intros Hp. induction ns as [| nb ns IH]; intros cf g o Ho; [done |].
  unfold relaxNeighbors. cbn [foldl].
  destruct (relaxNeighbor_cases closed current cf g o nb)
    as [[-> _] | (kc & nn & _ & Hnb & _ & Hnn & _ & _ & ->)]; apply IH; eauto.
Qed.

End Relax.

(** *** The fuel of the main loop *)

Lemma pendingDegree_close_known closed c nc :
  nodes !! c = Some nc -> c ∉ closed ->
  (pendingDegree nodes ({[c]} ∪ closed) + length (neighbors nc) =
   pendingDegree nodes closed)%nat.
Proof.
  intros Hc Hnot. unfold pendingDegree.
  apply elem_of_map_to_list in Hc.
  pose proof (NoDup_fst_map_to_list nodes) as Hnd.
  induction (map_to_list nodes) as [| [k n] l IH]; [inversion Hc |].
  cbn [sum_list_with fst snd]. rewrite fmap_cons in Hnd. apply NoDup_cons in Hnd as [Hk Hnd].
  apply elem_of_cons in Hc as [[= <- <-] | Hc].
  - rewrite bool_decide_eq_true_2 by set_solver.
    rewrite (bool_decide_eq_false_2 (c ∈ closed)) by done.
    assert (Hrest : sum_list_with
              (fun entry : string * PathfindingNode =>
                 if bool_decide (entry.1 ∈ {[c]} ∪ closed) then 0%nat
                 else length (neighbors entry.2)) l =
            sum_list_with
              (fun entry : string * PathfindingNode =>
                 if bool_decide (entry.1 ∈ closed) then 0%nat
                 else length (neighbors entry.2)) l).
    { clear IH Hnd. induction l as [| [k' n'] l IHl]; [done |].
      cbn [sum_list_with fst snd]. rewrite IHl by (cbn in Hk; set_solver).
      assert (k' <> c) by (cbn in Hk; set_solver).
      destruct (decide (k' ∈ closed)) as [Hin | Hin].
      - rewrite !bool_decide_eq_true_2 by set_solver. done.
      - rewrite !bool_decide_eq_false_2 by set_solver. done. }
    rewrite Hrest. lia.
  - specialize (IH Hc Hnd).
    assert (k <> c).
    { intros ->. apply Hk. apply list_elem_of_fmap. exists (c, nc). done. }
    destruct (decide (k ∈ closed)) as [Hin | Hin].
    + rewrite !bool_decide_eq_true_2 by set_solver. lia.
    + rewrite !bool_decide_eq_false_2 by set_solver. lia.
Qed.

Lemma pendingDegree_close closed c :
  (pendingDegree nodes ({[c]} ∪ closed) <= pendingDegree nodes closed)%nat.
Proof.
  unfold pendingDegree. induction (map_to_list nodes) as [| [k n] l IH]; [done |].
  cbn [sum_list_with fst snd].
  destruct (decide (k ∈ closed)) as [Hin | Hin].
  - rewrite !bool_decide_eq_true_2 by set_solver. lia.
  - rewrite (bool_decide_eq_false_2 (k ∈ closed)) by done.
    destruct (bool_decide (k ∈ {[c]} ∪ closed)); lia.
Qed.

(** *** reconstructPath *)

(** Enough fuel is handed to [reconstructPath]: the chain behind a tile is
    no longer than [cameFrom] has entries. *)
Lemma reconstructLoop_total closed cf g extend :
  chained closed cf g ->
  forall n fuel v acc, g !! v = Some (Fin (Z.of_nat n)) -> (n <= fuel)%nat ->
    is_Some (reconstructLoop fuel cf extend acc v).
Proof.
  intros Hch. pose proof Hch as (_ & Hcs & Hg & _).
  induction n as [| n IH]; intros fuel v acc Hv Hfuel.
  - destruct (Hg v _ Hv) as (k & [= <-] & _ & [[-> _] | (_ & u & _ & _ & Hu & _)]).
    + destruct fuel; cbn; rewrite Hcs; destruct (truthy start); eauto.
    + destruct (Hg u _ Hu) as (k' & [= <-] & Hk' & _). lia.
  - destruct (Hg v _ Hv) as (k & [= <-] & _ & [[_ ?] | (_ & u & Hcu & _ & Hu & _)]); [lia |].
    replace (Z.of_nat (S n) - 1) with (Z.of_nat n) in Hu by lia.
    destruct fuel as [| fuel]; [lia |].
    cbn [reconstructLoop]. destruct (truthy v); [| eauto]. rewrite Hcu.
    destruct (truthy u); [| eauto]. apply IH; [done | lia].
Qed.

Lemma reconstructLoop_total' closed cf g extend v acc :
  chained closed cf g ->
  is_Some (reconstructLoop (size cf) cf extend acc v).
Proof.
  intros Hch. destruct (g !! v) as [n |] eqn:Hv.
  - pose proof Hch as (_ & _ & Hg & _).
    destruct (Hg v n Hv) as (k & -> & Hk & _).
    eapply (reconstructLoop_total _ _ _ _ Hch (Z.to_nat k)); [| lia].
    rewrite Z2Nat.id by lia. done.
  - destruct Hch as (_ & _ & _ & Hdom).
    assert (Hcf : cf !! v = None).
    { destruct (cf !! v) eqn:E; [| done]. destruct (Hdom _ _ E) as [? ?]. congruence. }
    destruct (size cf); cbn; rewrite Hcf; destruct (truthy v); eauto.
Qed.

Hypothesis Htruthy : forall v, is_Some (nodes !! v) -> truthy v = true.

(** With [unshift]: the chain is put in front of the accumulator. *)
Lemma reconstructLoop_unshift closed cf g :
  chained closed cf g ->
  forall n fuel v acc, g !! v = Some (Fin (Z.of_nat n)) -> (n <= fuel)%nat ->
    exists pre, reconstructLoop fuel cf (fun p a => p :: a) acc v = Some (pre ++ acc) /\
                pathTo (pre ++ [v]) v /\ length pre = n.
Proof.
  intros Hch. pose proof Hch as (_ & Hcs & Hg & _).
  induction n as [| n IH]; intros fuel v acc Hv Hfuel.
  - destruct (Hg v _ Hv) as (k & [= <-] & _ & [[-> _] | (_ & u & _ & _ & Hu & _)]).
    + exists []. split; [| split; [constructor | done]].
      destruct fuel; cbn; rewrite Hcs; destruct (truthy start); done.
    + destruct (Hg u _ Hu) as (k' & [= <-] & Hk' & _). lia.
  - destruct (Hg v _ Hv) as (k & [= <-] & _ & [[_ ?] | (_ & u & Hcu & _ & Hu & He)]); [lia |].
    replace (Z.of_nat (S n) - 1) with (Z.of_nat n) in Hu by lia.
    destruct fuel as [| fuel]; [lia |].
    cbn [reconstructLoop].
    rewrite (Htruthy v (edge_known_r _ _ He)), Hcu, (Htruthy u (edge_known_l _ _ He)).
    destruct (IH fuel u (u :: acc) Hu ltac:(lia)) as (pre & Hrec & Hpath & Hlen).
    exists (pre ++ [u]). rewrite <- app_assoc. cbn. split; [done |].
    split; [econstructor; eauto | rewrite length_app; cbn; lia].
Qed.

(** With [push]: the chain is appended to the accumulator, backwards. *)
Lemma reconstructLoop_push closed cf g :
  chained closed cf g ->
  forall n fuel v acc, g !! v = Some (Fin (Z.of_nat n)) -> (n <= fuel)%nat ->
    exists pre, reconstructLoop fuel cf (fun p a => a ++ [p]) acc v
                = Some (acc ++ reverse pre) /\
                pathTo (pre ++ [v]) v /\ length pre = n.
Proof.
  intros Hch. pose proof Hch as (_ & Hcs & Hg & _).
  induction n as [| n IH]; intros fuel v acc Hv Hfuel.
  - destruct (Hg v _ Hv) as (k & [= <-] & _ & [[-> _] | (_ & u & _ & _ & Hu & _)]).
    + exists []. rewrite app_nil_r. split; [| split; [constructor | done]].
      destruct fuel; cbn; rewrite Hcs; destruct (truthy start); done.
    + destruct (Hg u _ Hu) as (k' & [= <-] & Hk' & _). lia.
  - destruct (Hg v _ Hv) as (k & [= <-] & _ & [[_ ?] | (_ & u & Hcu & _ & Hu & He)]); [lia |].
    replace (Z.of_nat (S n) - 1) with (Z.of_nat n) in Hu by lia.
    destruct fuel as [| fuel]; [lia |].
    cbn [reconstructLoop].
    rewrite (Htruthy v (edge_known_r _ _ He)), Hcu, (Htruthy u (edge_known_l _ _ He)).
    destruct (IH fuel u (acc ++ [u]) Hu ltac:(lia)) as (pre & Hrec & Hpath & Hlen).
    exists (pre ++ [u]). rewrite <- app_assoc in Hrec. rewrite reverse_app. cbn.
    split; [done |]. split; [econstructor; eauto | rewrite length_app; cbn; lia].
Qed.

End SearchProperties.


(** ** The search: optimality under a consistent heuristic *)

Section Optimality.
Import Pathfinding SearchSpec.

Variable nodes : gmap TileId PathfindingNode.
Variable blocked : gset TileId.
Variables start dest : TileId.

Local Abbreviation edge := (edge nodes blocked).
Local Abbreviation walk := (walk nodes blocked start).
Local Abbreviation hZ := (hZ nodes dest).
Local Abbreviation chained := (chained nodes blocked start).
Local Abbreviation optimalClosed := (optimalClosed nodes blocked start).
Local Abbreviation relaxed := (relaxed nodes blocked).

Hypothesis Hdest : is_Some (nodes !! dest).
Hypothesis Hcons : consistent nodes blocked dest.

Lemma heuristic_known v :
  is_Some (nodes !! v) -> heuristicDistance nodes v dest = Fin (hZ v).
Proof.
  intros [nv Hv]. destruct Hdest as [nd Hd]. unfold SearchSpec.hZ, heuristicDistance.
  rewrite Hv, Hd. done.
Qed.

Variable O : Type.
Variable enqueue : TileId -> Num -> O -> O.
Variable queued : O -> TileId -> Num -> Prop.

Hypothesis enqueue_new : forall o v f, queued (enqueue v f o) v f.
Hypothesis enqueue_keeps :
  forall o v f w f', w <> v -> queued o w f' -> queued (enqueue v f o) w f'.
Hypothesis enqueue_only :
  forall o v f w f', queued (enqueue v f o) w f' -> (w = v /\ f' = f) \/ queued o w f'.

Local Abbreviation searching := (searching nodes blocked start dest).
Local Abbreviation relaxing := (relaxing nodes blocked start dest).

(** On every walk to an open tile there is an open tile whose score is at
    most its position on the walk. *)
Lemma frontier closed cf g (o : O) :
  searching closed cf g O queued o ->
  forall m v, walk m v -> v ∉ closed ->
    exists w i kw, (w ∉ closed) /\ g !! w = Some (Fin kw) /\ kw <= i /\
                   i <= Z.of_nat m /\ hZ w <= (Z.of_nat m - i) + hZ v.
Proof.
  intros (Hch & Hopt & Hrel & _ & _ & _).
  induction 1 as [| n u v Hw IH He]; intros Hv.
  - exists start, 0, 0. destruct Hch as (Hs & _). repeat split; try done; lia.
  - destruct (decide (u ∈ closed)) as [Hu | Hu].
    + destruct (Hopt u Hu) as (ku & Hgu & Hmin).
      destruct (Hrel u u v Hu He) as [[_ Hin] | (ku' & kv & Hgu' & Hgv & Hle)];
        [inversion Hin |].
      assert (ku' = ku) as -> by congruence.
      specialize (Hmin n Hw).
      exists v, (Z.of_nat (S n)), kv. repeat split; try done; lia.
    + destruct (IH Hu) as (w & i & kw & Hwc & Hgw & Hkw & Hi & Hh).
      exists w, i, kw. pose proof (Hcons u v He). repeat split; try done; lia.
Qed.

(** The tile with the least priority, if open, has its final score. *)
Lemma pop_optimal closed cf g (o : O) v f :
  searching closed cf g O queued o ->
  queued o v f ->
  (forall w f', queued o w f' -> num_leb f f' = true) ->
  v ∉ closed ->
  exists k, g !! v = Some (Fin k) /\ forall m, walk m v -> k <= Z.of_nat m.
Proof.
  intros Hs Hq Hmin Hv. pose proof Hs as (_ & _ & _ & Hcov & Hsound & _).
  destruct (Hsound v f Hq) as (k & z & Hgv & -> & Hz & _).
  exists k. split; [done |]. intros m Hw.
  destruct (frontier _ _ _ _ Hs m v Hw Hv) as (w & i & kw & Hwc & Hgw & Hkw & Hi & Hh).
  destruct (Hcov w kw Hgw Hwc) as (zw & Hqw & Hzw).
  specialize (Hmin _ _ Hqw). cbn in Hmin. apply Z.leb_le in Hmin. lia.
Qed.

Lemma searching_initial (o : O) :
  is_Some (nodes !! start) ->
  (forall v f, queued o v f <-> v = start /\ f = heuristicDistance nodes start dest) ->
  searching ∅ ∅ {[start := Fin 0]} O queued o.
Proof.
  intros Hstart Hq. pose proof (heuristic_known start Hstart) as Hh.
  split; [| split; [| split; [| split; [| split]]]].
  - split; [apply lookup_singleton_eq |]. split; [done |]. split; [| done].
    intros v n Hv. apply lookup_singleton_Some in Hv as [<- <-].
    exists 0. split; [done |]. split; [rewrite map_size_empty; lia | left; done].
  - intros v Hv. set_solver.
  - intros c u v Hu. set_solver.
  - intros v k Hv _. apply lookup_singleton_Some in Hv as [<- [= <-]].
    exists (hZ start). split; [apply Hq; rewrite Hh; done | lia].
  - intros v f Hv. apply Hq in Hv as [-> ->].
    exists 0, (hZ start). rewrite lookup_singleton_eq, Hh. repeat split; done || lia.
  - set_solver.
Qed.

Lemma searching_shrink closed cf g (o o' : O) :
  searching closed cf g O queued o ->
  (forall w f, queued o' w f -> queued o w f) ->
  (forall w f, w ∉ closed -> queued o w f -> queued o' w f) ->
  searching closed cf g O queued o'.
Proof.
  intros (Hch & Hopt & Hrel & Hcov & Hsound & Hd) Hsub Hkeep.
  split; [done |]. split; [done |]. split; [done |]. split; [| split; [| done]].
  - intros v k Hv Hc. destruct (Hcov v k Hv Hc) as (z & Hq & Hz). eauto.
  - intros v f Hq. apply Hsound. auto.
Qed.

(** Closing the popped tile starts its neighbour loop. *)
Lemma close_node closed cf g (o o' : O) v nv :
  searching closed cf g O queued o ->
  v ∉ closed -> v <> dest ->
  (exists k, g !! v = Some (Fin k) /\ forall m, walk m v -> k <= Z.of_nat m) ->
  nodes !! v = Some nv ->
  (forall w f, queued o' w f -> queued o w f) ->
  (forall w f, w <> v -> queued o w f -> queued o' w f) ->
  relaxing ({[v]} ∪ closed) cf g O queued o' v (neighbors nv).
Proof.
  intros (Hch & Hopt & Hrel & Hcov & Hsound & Hd) Hv Hvd Hvopt Hnv Hsub Hkeep.
  split; [eapply chained_mono; [| exact Hch]; set_solver |].
  split; [| split; [| split; [| split; [| split; [| split]]]]].
  - intros w Hw. apply elem_of_union in Hw as [Hw | Hw]; [| auto].
    apply elem_of_singleton in Hw as ->. done.
  - intros u w Hu He. apply elem_of_union in Hu as [Hu | Hu].
    + apply elem_of_singleton in Hu as ->. left. split; [done |].
      destruct He as (nu & nw & Hnu & Hin & _). congruence.
    + destruct (Hrel v u w Hu He) as [[_ Hin] | ?]; [inversion Hin | right; done].
  - intros w k Hw Hc. destruct (Hcov w k Hw ltac:(set_solver)) as (z & Hq & Hz).
    exists z. split; [| done]. apply Hkeep; [set_solver | done].
  - intros w f Hq. apply Hsound. auto.
  - set_solver.
  - set_solver.
  - eauto.
Qed.

Lemma relaxing_done closed cf g (o : O) c :
  relaxing closed cf g O queued o c [] -> searching closed cf g O queued o.
Proof.
  intros (Hch & Hopt & Hrel & Hcov & Hsound & Hd & _).
  split; [done |]. split; [done |]. split; [| done].
  intros c' u v Hu He. destruct (Hrel u v Hu He) as [[_ Hin] | ?]; [inversion Hin | right; done].
Qed.

Lemma relax_step closed cf g (o : O) c nb rest :
  relaxing closed cf g O queued o c (nb :: rest) ->
  let r := relaxNeighbor enqueue nodes dest blocked closed c (cf, g, o) nb in
  relaxing closed r.1.1 r.1.2 O queued r.2 c rest.
Proof.
  intros (Hch & Hopt & Hrel & Hcov & Hsound & Hd & Hc & nc & Hnc & Hns). cbn zeta.
  destruct (Hopt c Hc) as (kc & Hgc & Hcmin).
  assert (Hns' : forall v, v ∈ rest -> v ∈ neighbors nc) by (intros; apply Hns; set_solver).
  (* nothing to do for this neighbour: its score is already good enough, or
     there is no step to it *)
  assert (Hkeep : (edge c nb -> exists kn, g !! nb = Some (Fin kn) /\ kn <= kc + 1) ->
            relaxing closed cf g O queued o c rest).
  { intros Hok. split; [done |]. split; [done |]. split; [| repeat split; eauto].
    intros u v Hu He. destruct (Hrel u v Hu He) as [[-> Hin] | ?]; [| right; done].
    apply elem_of_cons in Hin as [-> | Hin]; [right | left; done].
    destruct (Hok He) as (kn & Hgn & Hle). exists kc, kn. done. }
  assert (Hsettled : forall kn, g !! nb = Some (Fin kn) -> kn <= kc + 1 ->
            relaxing closed cf g O queued o c rest) by (intros; apply Hkeep; eauto).
  assert (Hnoedge : ~ edge c nb -> relaxing closed cf g O queued o c rest)
    by (intros; apply Hkeep; done).
  pose proof (relaxNeighbor_cases nodes blocked start dest O enqueue closed c cf g o nb) as Hcases.
  cbn zeta in Hcases.
  destruct Hcases as [[Hsame Hwhy] | (kc' & nn & Hgc' & Hncl & Hnbl & Hnn & Hw & Hlt & Hr)].
  - rewrite Hsame. cbn [fst snd].
    destruct Hwhy as [Hin | [Hb | [Hnw | Hle]]].
    + destruct (Hopt nb Hin) as (kn & Hgn & Hnmin).
      apply Hkeep. intros He. exists kn. split; [done |].
      pose proof (chained_walk_Z _ _ _ _ _ _ _ _ Hch Hgc) as Hwc.
      specialize (Hnmin _ (walk_step _ _ _ _ _ _ Hwc He)).
      destruct Hch as (_ & _ & Hg & _). destruct (Hg _ _ Hgc) as (? & [= <-] & ? & _). lia.
    + apply Hnoedge. intros (? & ? & _ & _ & Hnb & _). done.
    + apply Hnoedge. intros (? & nn & _ & _ & _ & Hx & Hy).
      rewrite (Hnw nn Hx) in Hy. done.
    + rewrite (scoreOf_Some _ _ _ Hgc) in Hle. cbn [num_add] in Hle.
      destruct (g !! nb) as [[kn |] |] eqn:Hgn.
      * apply (Hsettled kn eq_refl). rewrite (scoreOf_Some _ _ _ Hgn) in Hle.
        cbn in Hle. apply Z.leb_le in Hle. done.
      * rewrite (scoreOf_Some _ _ _ Hgn) in Hle. done.
      * rewrite (scoreOf_None _ _ Hgn) in Hle. done.
  - assert (kc' = kc) as -> by congruence.
    rewrite Hr. cbn [fst snd].
    assert (He : edge c nb).
    { exists nc, nn. repeat split; try done. apply Hns. set_solver. }
    assert (Hcn : c <> nb) by (intros ->; done).
    rewrite (heuristic_known nb) by eauto. cbn [num_add].
    split; [eapply relax_update_chained; eauto; apply Hns; set_solver |].
    split; [| split; [| split; [| split; [| split; [| split]]]]]; try done.
    + intros v Hv. assert (v <> nb) by (intros ->; done).
      rewrite lookup_insert_ne by done. auto.
    + intros u v Hu Hev. assert (u <> nb) by (intros ->; done).
      rewrite (lookup_insert_ne _ nb u) by done.
      destruct (Hrel u v Hu Hev) as [[-> Hin] | (ku & kv & Hgu & Hgv & Hle)].
      * apply elem_of_cons in Hin as [-> | Hin]; [right | left; done].
        exists kc, (kc + 1). rewrite lookup_insert_eq. repeat split; done || lia.
      * right. destruct (decide (v = nb)) as [-> | Hvn].
        -- exists ku, (kc + 1). rewrite lookup_insert_eq. repeat split; try done.
           rewrite (scoreOf_Some _ _ _ Hgv) in Hlt. cbn in Hlt. apply Z.leb_gt in Hlt. lia.
        -- exists ku, kv. rewrite lookup_insert_ne by done. done.
    + intros v k Hv Hvc. destruct (decide (v = nb)) as [-> | Hvn].
      * rewrite lookup_insert_eq in Hv. injection Hv as <-.
        exists (kc + 1 + hZ nb). split; [apply enqueue_new | lia].
      * rewrite lookup_insert_ne in Hv by done.
        destruct (Hcov v k Hv Hvc) as (z & Hq & Hz). exists z.
        split; [apply enqueue_keeps; done | done].
    + intros v f Hq. apply enqueue_only in Hq as [[-> ->] | Hq].
      * exists (kc + 1), (kc + 1 + hZ nb). rewrite lookup_insert_eq.
        repeat split; eauto; lia.
      * destruct (Hsound v f Hq) as (k & z & Hgv & -> & Hz & Hkn).
        destruct (decide (v = nb)) as [-> | Hvn].
        -- exists (kc + 1), z. rewrite lookup_insert_eq. repeat split; try done.
           rewrite (scoreOf_Some _ _ _ Hgv) in Hlt. cbn in Hlt. apply Z.leb_gt in Hlt. lia.
        -- exists k, z. rewrite lookup_insert_ne by done. done.
    + eauto.
Qed.

Lemma relax_fold closed c ns : forall cf g (o : O),
  relaxing closed cf g O queued o c ns ->
  let r := relaxNeighbors enqueue nodes dest blocked closed c (cf, g, o) ns in
  searching closed r.1.1 r.1.2 O queued r.2.
Proof.
  induction ns as [| nb rest IH]; intros cf g o Hinv.
  - cbn. eapply relaxing_done. exact Hinv.
  - cbn zeta. unfold relaxNeighbors. cbn [foldl].
    pose proof (relax_step _ _ _ _ _ _ _ Hinv) as Hstep. cbn zeta in Hstep.
    destruct (relaxNeighbor enqueue nodes dest blocked closed c (cf, g, o) nb)
      as [[cf' g'] o'].
    apply IH. exact Hstep.
Qed.

End Optimality.


(** ** The binary-min-heap search *)

Section HeapSearch.
Import Pathfinding SearchSpec HeapSpec MinHeap.

Variable nodes : gmap TileId PathfindingNode.
Variable blocked : gset TileId.
Variables start dest : TileId.

Local Abbreviation chained := (chained nodes blocked start).
Local Abbreviation walk := (walk nodes blocked start).

Lemma pop_shape (top : TileId * Num) rest :
  exists h', pop (top :: rest) = (Some top.1, h') /\ length h' = length rest /\
             forall e, e ∈ h' -> e ∈ top :: rest.
Proof.
  unfold pop. induction rest as [| second rest _] using rev_ind.
  - exists []. split; [done |]. split; [done |]. intros e He. inversion He.
  - assert (Hrl : removelast (top :: rest ++ [second]) = top :: rest).
    { change (top :: rest ++ [second]) with ((top :: rest) ++ [second]).
      apply removelast_last. }
    assert (Hl : List.last (top :: rest ++ [second]) top = second).
    { change (top :: rest ++ [second]) with ((top :: rest) ++ [second]).
      apply last_last. }
    rewrite Hrl, Hl. cbn [length Nat.ltb Nat.leb]. cbn [insert list_insert].
    eexists. split; [reflexivity |]. unfold sinkDown. split.
    + rewrite sinkDownLoop_length, length_app. cbn. lia.
    + intros e He. apply sinkDownLoop_elem_of in He; [| cbn; lia]. set_solver.
Qed.

Lemma searchLoop_unfold fuel st :
  searchLoop (S fuel) nodes dest blocked st =
  match heap st with
  | [] => Some None
  | _ :: _ =>
      match pop (heap st) with
      | (None, _) => Some None
      | (Some current, heap') =>
          if negb (truthy current) then Some None
          else if bool_decide (current = dest) then
            Some <$> reconstructPath (cameFrom st) current
          else if bool_decide (current ∈ closedSet st) then
            searchLoop fuel nodes dest blocked
              {| heap := heap'; closedSet := closedSet st;
                 cameFrom := cameFrom st; gScore := gScore st |}
          else
            match nodes !! current with
            | None =>
                searchLoop fuel nodes dest blocked
                  {| heap := heap'; closedSet := {[current]} ∪ closedSet st;
                     cameFrom := cameFrom st; gScore := gScore st |}
            | Some currentNode =>
                let r := relaxNeighbors push nodes dest blocked
                           ({[current]} ∪ closedSet st) current
                           (cameFrom st, gScore st, heap') (neighbors currentNode) in
                searchLoop fuel nodes dest blocked
                  {| heap := r.2; closedSet := {[current]} ∪ closedSet st;
                     cameFrom := r.1.1; gScore := r.1.2 |}
            end
      end
  end.
Proof.
  cbn [searchLoop]. destruct (heap st); [done |].
  destruct (pop _) as [[current |] heap']; [| done].
  destruct (negb _); [done |]. destruct (bool_decide (current = dest)); [done |].
  destruct (bool_decide (current ∈ closedSet st)); [done |].
  destruct (nodes !! current); [| done].
  destruct (relaxNeighbors _ _ _ _ _ _ _ _) as [[cf' g'] h'']. done.
Qed.

(** The search never runs out of fuel, on any graph. *)
Lemma searchLoop_total fuel : forall st,
  chained (closedSet st) (cameFrom st) (gScore st) ->
  (length (heap st) + pendingDegree nodes (closedSet st) <= fuel)%nat ->
  is_Some (searchLoop fuel nodes dest blocked st).
Proof.
  induction fuel as [| fuel IH]; intros [h closed cf g] Hch Hfuel; cbn [MinHeap.heap
    MinHeap.closedSet MinHeap.cameFrom MinHeap.gScore] in *.
  - destruct h; [cbn; eauto | cbn in Hfuel; lia].
  - rewrite searchLoop_unfold. cbn [MinHeap.heap MinHeap.closedSet MinHeap.cameFrom
      MinHeap.gScore].
    destruct h as [| top rest]; [eauto |].
    destruct (pop_shape top rest) as (h' & -> & Hlen & _). cbn [length] in Hfuel.
    destruct (negb (truthy top.1)); [eauto |].
    destruct (bool_decide (top.1 = dest)).
    { unfold reconstructPath.
      destruct (reconstructLoop_total' nodes blocked start closed cf g
                  (fun previousStep acc => acc ++ [previousStep]) top.1 [top.1] Hch)
        as [p ->]. cbn. eauto. }
    destruct (bool_decide (top.1 ∈ closed)) eqn:Hin.
    { apply IH; cbn; [done | lia]. }
    apply bool_decide_eq_false in Hin.
    assert (Hch' : chained ({[top.1]} ∪ closed) cf g)
      by (eapply chained_mono; [| exact Hch]; set_solver).
    destruct (nodes !! top.1) as [nc |] eqn:Hnc.
    + cbn zeta. apply IH; cbn [MinHeap.heap MinHeap.closedSet MinHeap.cameFrom
        MinHeap.gScore].
      * apply (relaxNeighbors_chained nodes blocked start dest _ push
                 ({[top.1]} ∪ closed) top.1 nc); try done. set_solver.
      * pose proof (relaxNeighbors_size nodes blocked start dest _ push length
                      ({[top.1]} ∪ closed) top.1 (neighbors nc)
                      (fun v f o => eq_ind_r (fun n => (n <= S (length o))%nat)
                                      (le_n _) (push_length v f o))
                      cf g h') as Hsize.
        cbn zeta in Hsize.
        pose proof (pendingDegree_close_known nodes closed top.1 nc Hnc Hin). lia.
    + apply IH; cbn; [done |].
      pose proof (pendingDegree_close nodes closed top.1). lia.
Qed.

Lemma findShortestPath_total :
  is_Some (findShortestPath nodes start dest blocked).
Proof.
  unfold findShortestPath, searchFuel. apply searchLoop_total.
  - apply chained_initial.
  - cbn. lia.
Qed.

(** With an unknown destination tile nothing equal to it is ever queued,
    and the search returns [undefined]. *)
Lemma searchLoop_unknown_dest fuel : forall st r,
  nodes !! dest = None ->
  (forall e, e ∈ heap st -> e.1 <> dest) ->
  searchLoop fuel nodes dest blocked st = Some r -> r = None.
Proof.
  induction fuel as [| fuel IH]; intros [h closed cf g] r Hd Hj;
    cbn [MinHeap.heap MinHeap.closedSet MinHeap.cameFrom MinHeap.gScore] in *.
  - destruct h; cbn; congruence.
  - rewrite searchLoop_unfold. cbn [MinHeap.heap MinHeap.closedSet MinHeap.cameFrom
      MinHeap.gScore].
    destruct h as [| top rest]; [congruence |].
    destruct (pop_shape top rest) as (h' & -> & _ & Hsub).
    destruct (negb (truthy top.1)); [congruence |].
    rewrite bool_decide_eq_false_2 by (apply Hj; set_solver).
    assert (Hj' : forall e, e ∈ h' -> e.1 <> dest) by auto.
    destruct (bool_decide (top.1 ∈ closed)); [apply IH; done |].
    destruct (nodes !! top.1) as [nc |]; [| apply IH; done].
    cbn zeta. apply IH; [done |].
    cbn [MinHeap.heap].
    apply (relaxNeighbors_preserves nodes blocked start dest _ push
             (fun h => forall e, e ∈ h -> e.1 <> dest)); [| done].
    intros v f o _ [nv Hv] Ho e [-> | He]%push_elem_of; [| auto].
    cbn. congruence.
Qed.

Lemma heap_unknown_dest :
  nodes !! dest = None -> start <> dest ->
  findShortestPath nodes start dest blocked = Some None.
Proof.
  intros Hd Hne. destruct findShortestPath_total as [r Hr]. rewrite Hr. f_equal.
  unfold findShortestPath in Hr. apply searchLoop_unknown_dest in Hr; [done | done |].
  intros e [-> | He]%push_elem_of; [done | inversion He].
Qed.

(** With an unknown start tile (other than the destination) the only
    queued tile has no node, and the search returns [undefined]. *)
Lemma heap_unknown_start :
  nodes !! start = None -> start <> dest ->
  findShortestPath nodes start dest blocked = Some None.
Proof.
  intros Hs Hne. unfold findShortestPath, searchFuel. rewrite searchLoop_unfold.
  cbn [initialState MinHeap.heap MinHeap.closedSet MinHeap.cameFrom MinHeap.gScore].
  unfold push. cbn [app length Nat.sub]. unfold bubbleUp. cbn [bubbleUpLoop].
  unfold pop. cbn [removelast length Nat.ltb Nat.leb fst].
  destruct (negb (truthy start)); [done |].
  rewrite bool_decide_eq_false_2 by done.
  rewrite bool_decide_eq_false_2 by set_solver.
  rewrite Hs. destruct (pendingDegree nodes ∅); done.
Qed.

(** *** Correctness under a consistent heuristic *)

Hypothesis Hstart : is_Some (nodes !! start).
Hypothesis Hdest : is_Some (nodes !! dest).
Hypothesis Hcons : consistent nodes blocked dest.
Hypothesis Htruthy : forall v, is_Some (nodes !! v) -> truthy v = true.

Local Abbreviation searching := (searching nodes blocked start dest).

Lemma push_queued_new o v f : heapQueued (push v f o) v f.
Proof. unfold heapQueued. apply push_elem_of. auto. Qed.

Lemma push_queued_keeps o v f w f' :
  w <> v -> heapQueued o w f' -> heapQueued (push v f o) w f'.
Proof. unfold heapQueued. intros _ H. apply push_elem_of. auto. Qed.

Lemma push_queued_only o v f w f' :
  heapQueued (push v f o) w f' -> (w = v /\ f' = f) \/ heapQueued o w f'.
Proof.
  unfold heapQueued. intros H. apply push_elem_of in H as [[= -> ->] | H]; auto.
Qed.

Local Abbreviation heap_close_node :=
  (close_node nodes blocked start dest Hdest Hcons _ push heapQueued
     push_queued_new push_queued_keeps push_queued_only).
Local Abbreviation heap_relax_fold :=
  (relax_fold nodes blocked start dest Hdest Hcons _ push heapQueued
     push_queued_new push_queued_keeps push_queued_only).
Local Abbreviation heap_searching_initial :=
  (searching_initial nodes blocked start dest Hdest Hcons _ push heapQueued
     push_queued_new push_queued_keeps push_queued_only).

Lemma exhausted_no_walk closed cf g :
  searching closed cf g _ heapQueued [] -> forall m, ~ walk m dest.
Proof.
  intros Hs m Hw. pose proof Hs as (_ & _ & _ & Hcov & _ & Hd).
  destruct (frontier nodes blocked start dest Hcons _ heapQueued closed cf g [] Hs
              m dest Hw Hd) as (w & i & kw & Hwc & Hgw & _).
  destruct (Hcov w kw Hgw Hwc) as (z & Hq & _). inversion Hq.
Qed.

Lemma searchLoop_correct fuel : forall st,
  searching (closedSet st) (cameFrom st) (gScore st) _ heapQueued (heap st) ->
  heapOrdered (heap st) ->
  (length (heap st) + pendingDegree nodes (closedSet st) <= fuel)%nat ->
  exists r, searchLoop fuel nodes dest blocked st = Some r /\
            shortestPath nodes blocked start dest r.
Proof.
  induction fuel as [| fuel IH]; intros [h closed cf g] Hs Hord Hfuel;
    cbn [MinHeap.heap MinHeap.closedSet MinHeap.cameFrom MinHeap.gScore] in *.
  - destruct h; [| cbn in Hfuel; lia].
    exists None. split; [done |]. exact (exhausted_no_walk _ _ _ Hs).
  - rewrite searchLoop_unfold. cbn [MinHeap.heap MinHeap.closedSet MinHeap.cameFrom
      MinHeap.gScore].
    destruct h as [| top rest].
    { exists None. split; [done |]. exact (exhausted_no_walk _ _ _ Hs). }
    destruct (pop_spec top rest Hord) as (h' & -> & Hord' & Hlen & Hmin & Hsub & Hrest).
    cbn [length] in Hfuel.
    pose proof Hs as (Hch & Hopt & Hrel & Hcov & Hsound & Hd).
    assert (Htop : heapQueued (top :: rest) top.1 top.2)
      by (unfold heapQueued; destruct top; set_solver).
    destruct (Hsound _ _ Htop) as (k & z & Hgk & Hz & Hkz & Hknown).
    rewrite (Htruthy _ Hknown). cbn [negb].
    assert (Hpopmin : forall w f', heapQueued (top :: rest) w f' -> num_leb top.2 f' = true).
    { intros w f' Hq. apply (Hmin (w, f')). exact Hq. }
    destruct (decide (top.1 = dest)) as [Heq | Hne].
    { (* the destination is popped *)
      rewrite (bool_decide_eq_true_2 _ Heq).
      destruct (pop_optimal nodes blocked start dest Hcons _ heapQueued closed cf g
                  (top :: rest) top.1 top.2 Hs Htop Hpopmin ltac:(rewrite Heq; done))
        as (k' & Hgk' & Hkmin).
      assert (k' = k) as -> by congruence.
      pose proof Hch as (_ & _ & Hg & _).
      destruct (Hg _ _ Hgk) as (? & [= <-] & Hk & _).
      destruct (reconstructLoop_push nodes blocked start Htruthy closed cf g Hch
                  (Z.to_nat k) (size cf) top.1 [top.1]) as (pre & Hrec & Hpath & Hlen');
        [rewrite Z2Nat.id by lia; done | lia |].
      unfold reconstructPath. rewrite Hrec. cbn [fmap option_fmap option_map].
      exists (Some (pre ++ [top.1])). split.
      - rewrite reverse_app, reverse_involutive, reverse_singleton. done.
      - rewrite <- Heq. split; [done |]. intros m Hw.
        specialize (Hkmin m Hw). rewrite length_app. cbn. lia. }
    rewrite (bool_decide_eq_false_2 _ Hne).
    destruct (decide (top.1 ∈ closed)) as [Hin | Hin].
    { (* a stale entry *)
      rewrite (bool_decide_eq_true_2 _ Hin).
      apply IH; cbn; [| done | lia].
      eapply searching_shrink; [exact Hs | intros w f Hq; exact (Hsub _ Hq) |].
      intros w f Hw Hq. destruct (Hrest _ Hq) as [<- | ?]; [done | done]. }
    rewrite (bool_decide_eq_false_2 _ Hin).
    destruct Hknown as [nc Hnc]. rewrite Hnc. cbn zeta.
    destruct (pop_optimal nodes blocked start dest Hcons _ heapQueued closed cf g
                (top :: rest) top.1 top.2 Hs Htop Hpopmin Hin) as (k' & Hgk' & Hkmin).
    assert (Hrelaxing : relaxing nodes blocked start dest ({[top.1]} ∪ closed) cf g
                          _ heapQueued h' top.1 (neighbors nc)).
    { apply (heap_close_node closed cf g (top :: rest) h' top.1 nc Hs Hin Hne);
        [eauto | done | |].
      - intros w f Hq. exact (Hsub _ Hq).
      - intros w f Hw Hq. destruct (Hrest _ Hq) as [<- | ?]; [done | done]. }
    apply IH; cbn [MinHeap.heap MinHeap.closedSet MinHeap.cameFrom MinHeap.gScore].
    + apply heap_relax_fold. exact Hrelaxing.
    + apply (relaxNeighbors_preserves nodes blocked start dest _ push heapOrdered);
        [intros; apply push_ordered; done | done].
    + pose proof (relaxNeighbors_size nodes blocked start dest _ push length
                    ({[top.1]} ∪ closed) top.1 (neighbors nc)
                    (fun v f o => eq_ind_r (fun n => (n <= S (length o))%nat)
                                    (le_n _) (push_length v f o))
                    cf g h') as Hsize.
      cbn zeta in Hsize.
      pose proof (pendingDegree_close_known nodes closed top.1 nc Hnc Hin). lia.
Qed.

(** The heap search returns a shortest path, or [undefined] when there is
    none. *)
Lemma findShortestPath_correct :
  exists r, findShortestPath nodes start dest blocked = Some r /\
            shortestPath nodes blocked start dest r.
Proof.
  unfold findShortestPath, searchFuel. apply searchLoop_correct.
  - cbn. apply heap_searching_initial; [done |].
    intros v f. unfold heapQueued. cbn. rewrite list_elem_of_singleton.
    split; [intros [= -> ->]; done | intros [-> ->]; done].
  - intros j Hj. cbn in Hj. lia.
  - cbn. lia.
Qed.

End HeapSearch.


(** ** The linear-scan search *)

Section LinearSearch.
Import Pathfinding SearchSpec LinearScan.

Variable nodes : gmap TileId PathfindingNode.
Variable blocked : gset TileId.
Variables start dest : TileId.

Local Abbreviation walk := (walk nodes blocked start).

Lemma setAdd_elem_of v w (s : list TileId) : w ∈ setAdd v s <-> w = v \/ w ∈ s.
Proof.
  unfold setAdd. case_bool_decide as Hin.
  - split; [auto |]. intros [-> | ?]; done.
  - rewrite elem_of_app, list_elem_of_singleton. tauto.
Qed.

Lemma setAdd_length v (s : list TileId) : (length (setAdd v s) <= S (length s))%nat.
Proof.
  unfold setAdd. case_bool_decide; [lia |]. rewrite length_app. cbn. lia.
Qed.

Lemma setDelete_elem_of v w (s : list TileId) : w ∈ setDelete v s <-> w ∈ s /\ w <> v.
Proof. unfold setDelete. rewrite list_elem_of_filter. tauto. Qed.

Lemma setDelete_length v (s : list TileId) :
  v ∈ s -> (length (setDelete v s) < length s)%nat.
Proof. intros Hin. unfold setDelete. apply (length_filter_lt _ _ v); auto. Qed.

(** The scan returns the first tile of least finite score, and nothing
    when no open tile has a finite score. *)
Lemma pickLowestScore_spec (open : list TileId) (fs : gmap TileId Num) :
  match pickLowestScore open fs with
  | Some v => (v ∈ open) /\ scoreOf fs v <> PosInf /\
              forall w, w ∈ open -> num_leb (scoreOf fs v) (scoreOf fs w) = true
  | None => forall w, w ∈ open -> scoreOf fs w = PosInf
  end.
Proof.
  unfold pickLowestScore.
  set (step := fun (best : option TileId * Num) tileId =>
                 if num_ltb (scoreOf fs tileId) best.2 then (Some tileId, scoreOf fs tileId)
                 else best).
  set (inv := fun (seen : list TileId) (acc : option TileId * Num) =>
                match acc.1 with
                | Some v => (v ∈ seen) /\ acc.2 = scoreOf fs v /\ acc.2 <> PosInf /\
                            forall w, w ∈ seen -> num_leb acc.2 (scoreOf fs w) = true
                | None => acc.2 = PosInf /\ forall w, w ∈ seen -> scoreOf fs w = PosInf
                end).
  assert (Hfold : forall todo seen acc, inv seen acc -> inv (seen ++ todo) (foldl step acc todo)).
  { induction todo as [| t todo IH]; intros seen acc Hacc.
    - rewrite app_nil_r. done.
    - cbn [foldl]. replace (seen ++ t :: todo) with ((seen ++ [t]) ++ todo)
        by (rewrite <- app_assoc; done).
      apply IH. unfold step, inv in *. destruct acc as [[v |] bs]; cbn [fst snd] in *.
      + destruct Hacc as (Hv & Hbs & Hfin & Hmin).
        destruct (num_ltb (scoreOf fs t) bs) eqn:Hlt; cbn [fst snd].
        * split; [set_solver |]. split; [done |].
          split; [intros E; rewrite E in Hlt; done |].
          intros w [Hw | ->%list_elem_of_singleton]%elem_of_app; [| apply num_leb_refl].
          eapply num_leb_trans; [apply num_ltb_le; exact Hlt | auto].
        * split; [set_solver |]. split; [done |]. split; [done |].
          intros w [Hw | ->%list_elem_of_singleton]%elem_of_app; [auto |].
          apply num_ltb_false. done.
      + destruct Hacc as (-> & Hall).
        destruct (num_ltb (scoreOf fs t) PosInf) eqn:Hlt; cbn [fst snd].
        * split; [set_solver |]. split; [done |].
          split; [intros E; rewrite E in Hlt; done |].
          intros w [Hw | ->%list_elem_of_singleton]%elem_of_app; [| apply num_leb_refl].
          rewrite (Hall _ Hw). destruct (scoreOf fs t); done.
        * split; [done |].
          intros w [Hw | ->%list_elem_of_singleton]%elem_of_app; [auto |].
          destruct (scoreOf fs t); done. }
  specialize (Hfold open [] (None, PosInf)). cbn [app] in Hfold.
  fold step. destruct (foldl step (None, PosInf) open) as [[v |] bs].
  - destruct Hfold as (Hv & Hbs & Hfin & Hmin); [split; [done | set_solver] |].
    cbn [fst snd] in *. subst bs. done.
  - destruct Hfold as (_ & Hall); [split; [done | set_solver] |]. done.
Qed.

Lemma linear_searchLoop_unfold fuel st :
  searchLoop (S fuel) nodes dest blocked st =
  match openSet st with
  | [] => Some None
  | _ :: _ =>
      match pickLowestScore (openSet st) (fScore st) with
      | None => Some None
      | Some current =>
          if negb (truthy current) then Some None
          else if bool_decide (current = dest) then
            Some <$> reconstructPath (cameFrom st) current
          else
            match nodes !! current with
            | None =>
                searchLoop fuel nodes dest blocked
                  {| openSet := setDelete current (openSet st);
                     closedSet := {[current]} ∪ closedSet st;
                     cameFrom := cameFrom st; gScore := gScore st; fScore := fScore st |}
            | Some currentNode =>
                let r := relaxNeighbors enqueue nodes dest blocked
                           ({[current]} ∪ closedSet st) current
                           (cameFrom st, gScore st,
                            (setDelete current (openSet st), fScore st))
                           (neighbors currentNode) in
                searchLoop fuel nodes dest blocked
                  {| openSet := r.2.1; closedSet := {[current]} ∪ closedSet st;
                     cameFrom := r.1.1; gScore := r.1.2; fScore := r.2.2 |}
            end
      end
  end.
Proof.
  cbn [searchLoop]. destruct (openSet st); [done |].
  destruct (pickLowestScore _ _) as [current |]; [| done].
  destruct (negb _); [done |]. destruct (bool_decide (current = dest)); [done |].
  destruct (nodes !! current); [| done].
  destruct (relaxNeighbors _ _ _ _ _ _ _ _) as [[cf' g'] [o' fs']]. done.
Qed.

Lemma enqueue_queued_new o v f : linearQueued (enqueue v f o) v f.
Proof.
  unfold linearQueued, enqueue. cbn. split; [apply setAdd_elem_of; auto |].
  unfold scoreOf. rewrite lookup_insert_eq. done.
Qed.

Lemma enqueue_queued_keeps o v f w f' :
  w <> v -> linearQueued o w f' -> linearQueued (enqueue v f o) w f'.
Proof.
  unfold linearQueued, enqueue. cbn. intros Hne [Hin Hf].
  split; [apply setAdd_elem_of; auto |].
  unfold scoreOf in *. rewrite lookup_insert_ne by done. done.
Qed.

Lemma enqueue_queued_only o v f w f' :
  linearQueued (enqueue v f o) w f' -> (w = v /\ f' = f) \/ linearQueued o w f'.
Proof.
  unfold linearQueued, enqueue. cbn. intros [Hin Hf].
  destruct (decide (w = v)) as [-> | Hne].
  - left. unfold scoreOf in Hf. rewrite lookup_insert_eq in Hf. done.
  - right. apply setAdd_elem_of in Hin as [? | Hin]; [done |].
    unfold scoreOf in *. rewrite lookup_insert_ne in Hf by done. done.
Qed.

(** The search never runs out of fuel, on any graph. *)
Lemma linear_searchLoop_total fuel : forall st,
  chained nodes blocked start (closedSet st) (cameFrom st) (gScore st) ->
  (forall v, v ∈ openSet st -> v ∉ closedSet st) ->
  (length (openSet st) + pendingDegree nodes (closedSet st) <= fuel)%nat ->
  is_Some (searchLoop fuel nodes dest blocked st).
Proof.
  induction fuel as [| fuel IH]; intros [open closed cf g fs] Hch Hopen Hfuel;
    cbn [openSet closedSet cameFrom gScore fScore] in *.
  - destruct open; [cbn; eauto | cbn in Hfuel; lia].
  - rewrite linear_searchLoop_unfold. cbn [openSet closedSet cameFrom gScore fScore].
    destruct open as [| first others] eqn:Eopen; [eauto |]. rewrite <- Eopen in *.
    pose proof (pickLowestScore_spec open fs) as Hpick.
    destruct (pickLowestScore open fs) as [current |]; [| eauto].
    destruct Hpick as (Hcur & _ & _).
    destruct (negb (truthy current)); [eauto |].
    destruct (bool_decide (current = dest)).
    { unfold reconstructPath.
      destruct (reconstructLoop_total' nodes blocked start closed cf g
                  (fun previousStep acc => previousStep :: acc) current [current] Hch)
        as [p ->]. cbn. eauto. }
    pose proof (Hopen _ Hcur) as Hin.
    pose proof (setDelete_length current open Hcur) as Hdel.
    assert (Hch' : chained nodes blocked start ({[current]} ∪ closed) cf g)
      by (eapply chained_mono; [| exact Hch]; set_solver).
    assert (Hopen' : forall v, v ∈ setDelete current open -> v ∉ {[current]} ∪ closed).
    { intros v [Hv Hvc]%setDelete_elem_of. specialize (Hopen _ Hv). set_solver. }
    destruct (nodes !! current) as [nc |] eqn:Hnc.
    + cbn zeta. apply IH; cbn [openSet closedSet cameFrom gScore fScore].
      * pose proof (relaxNeighbors_chained nodes blocked start dest _ enqueue
                      ({[current]} ∪ closed) current nc (neighbors nc) cf g
                      (setDelete current open, fs)) as Hrc.
        destruct (relaxNeighbors _ _ _ _ _ _ _ _) as [[cf' g'] [o' fs']].
        apply Hrc; try done. set_solver.
      * apply (relaxNeighbors_preserves nodes blocked start dest _ enqueue
                 (fun o => forall v, v ∈ o.1 -> v ∉ {[current]} ∪ closed)); [| done].
        intros v f o Hv _ Ho w Hw. cbn in Hw. apply setAdd_elem_of in Hw as [-> | Hw]; auto.
      * pose proof (relaxNeighbors_size nodes blocked start dest _ enqueue
                      (fun o => length o.1)
                      ({[current]} ∪ closed) current (neighbors nc)
                      (fun v f o => setAdd_length v o.1)
                      cf g (setDelete current open, fs)) as Hsize.
        cbn zeta in Hsize. cbn [fst snd] in Hsize.
        pose proof (pendingDegree_close_known nodes closed current nc Hnc Hin). lia.
    + apply IH; cbn [openSet closedSet cameFrom gScore fScore]; [done | done |].
      pose proof (pendingDegree_close nodes closed current). lia.
Qed.

Lemma linear_findShortestPath_total :
  is_Some (findShortestPath nodes start dest blocked).
Proof.
  unfold findShortestPath, searchFuel. apply linear_searchLoop_total.
  - apply chained_initial.
  - cbn. set_solver.
  - cbn. lia.
Qed.

(** With an unknown start or destination tile the first scan finds no
    finite score, and the search returns [undefined]. *)
Lemma linear_unknown_tile :
  nodes !! start = None \/ nodes !! dest = None ->
  findShortestPath nodes start dest blocked = Some None.
Proof.
  intros Hunknown. unfold findShortestPath, searchFuel.
  rewrite linear_searchLoop_unfold. cbn [initialState openSet fScore].
  assert (Hh : heuristicDistance nodes start dest = PosInf).
  { unfold heuristicDistance. destruct Hunknown as [-> | ->]; [done |].
    destruct (nodes !! start); done. }
  rewrite Hh. unfold pickLowestScore. cbn [foldl]. unfold scoreOf.
  rewrite lookup_singleton_eq. done.
Qed.

(** *** Correctness under a consistent heuristic *)

Hypothesis Hstart : is_Some (nodes !! start).
Hypothesis Hdest : is_Some (nodes !! dest).
Hypothesis Hcons : consistent nodes blocked dest.
Hypothesis Htruthy : forall v, is_Some (nodes !! v) -> truthy v = true.

Local Abbreviation searching := (searching nodes blocked start dest).

Local Abbreviation linear_close_node :=
  (close_node nodes blocked start dest Hdest Hcons _ enqueue linearQueued
     enqueue_queued_new enqueue_queued_keeps enqueue_queued_only).
Local Abbreviation linear_relax_fold :=
  (relax_fold nodes blocked start dest Hdest Hcons _ enqueue linearQueued
     enqueue_queued_new enqueue_queued_keeps enqueue_queued_only).
Local Abbreviation linear_searching_initial :=
  (searching_initial nodes blocked start dest Hdest Hcons _ enqueue linearQueued
     enqueue_queued_new enqueue_queued_keeps enqueue_queued_only).

Lemma linear_exhausted_no_walk closed cf g fs :
  searching closed cf g _ linearQueued ([], fs) -> forall m, ~ walk m dest.
Proof.
  intros Hs m Hw. pose proof Hs as (_ & _ & _ & Hcov & _ & Hd).
  destruct (frontier nodes blocked start dest Hcons _ linearQueued closed cf g ([], fs) Hs
              m dest Hw Hd) as (w & i & kw & Hwc & Hgw & _).
  destruct (Hcov w kw Hgw Hwc) as (z & [Hq _] & _). inversion Hq.
Qed.

Lemma linear_searchLoop_correct fuel : forall st,
  searching (closedSet st) (cameFrom st) (gScore st) _ linearQueued (openSet st, fScore st) ->
  (forall v, v ∈ openSet st -> v ∉ closedSet st) ->
  (length (openSet st) + pendingDegree nodes (closedSet st) <= fuel)%nat ->
  exists r, searchLoop fuel nodes dest blocked st = Some r /\
            shortestPath nodes blocked start dest r.
Proof.
  induction fuel as [| fuel IH]; intros [open closed cf g fs] Hs Hopen Hfuel;
    cbn [openSet closedSet cameFrom gScore fScore] in *.
  - destruct open; [| cbn in Hfuel; lia].
    exists None. split; [done |]. exact (linear_exhausted_no_walk _ _ _ _ Hs).
  - rewrite linear_searchLoop_unfold. cbn [openSet closedSet cameFrom gScore fScore].
    destruct open as [| first others] eqn:Eopen.
    { exists None. split; [done |]. exact (linear_exhausted_no_walk _ _ _ _ Hs). }
    rewrite <- Eopen in *.
    pose proof Hs as (Hch & Hopt & Hrel & Hcov & Hsound & Hd).
    pose proof (pickLowestScore_spec open fs) as Hpick.
    destruct (pickLowestScore open fs) as [current |]; cycle 1.
    { exfalso. assert (Hq : linearQueued (open, fs) first (scoreOf fs first))
        by (split; [rewrite Eopen; set_solver | done]).
      destruct (Hsound _ _ Hq) as (k & z & _ & Hz & _).
      rewrite (Hpick first) in Hz by (rewrite Eopen; set_solver). done. }
    destruct Hpick as (Hcur & Hfin & Hmin).
    assert (Htop : linearQueued (open, fs) current (scoreOf fs current)) by done.
    destruct (Hsound _ _ Htop) as (k & z & Hgk & Hz & Hkz & Hknown).
    rewrite (Htruthy _ Hknown). cbn [negb].
    assert (Hpopmin : forall w f', linearQueued (open, fs) w f' ->
                                   num_leb (scoreOf fs current) f' = true).
    { intros w f' [Hw <-]. auto. }
    destruct (pop_optimal nodes blocked start dest Hcons _ linearQueued closed cf g
                (open, fs) current (scoreOf fs current) Hs Htop Hpopmin (Hopen _ Hcur))
      as (k' & Hgk' & Hkmin).
    assert (k' = k) as -> by congruence.
    destruct (decide (current = dest)) as [Heq | Hne].
    { rewrite (bool_decide_eq_true_2 _ Heq).
      pose proof Hch as (_ & _ & Hg & _).
      destruct (Hg _ _ Hgk) as (? & [= <-] & Hk & _).
      destruct (reconstructLoop_unshift nodes blocked start Htruthy closed cf g Hch
                  (Z.to_nat k) (size cf) current [current]) as (pre & Hrec & Hpath & Hlen');
        [rewrite Z2Nat.id by lia; done | lia |].
      unfold reconstructPath. rewrite Hrec. cbn [fmap option_fmap option_map].
      exists (Some (pre ++ [current])). split; [done |].
      rewrite <- Heq. split; [done |]. intros m Hw.
      specialize (Hkmin m Hw). rewrite length_app. cbn. lia. }
    rewrite (bool_decide_eq_false_2 _ Hne).
    destruct Hknown as [nc Hnc]. rewrite Hnc. cbn zeta.
    pose proof (Hopen _ Hcur) as Hin.
    assert (Hrelaxing : relaxing nodes blocked start dest ({[current]} ∪ closed) cf g
                          _ linearQueued (setDelete current open, fs) current (neighbors nc)).
    { apply (linear_close_node closed cf g (open, fs) (setDelete current open, fs)
               current nc Hs Hin Hne); [eauto | done | |].
      - intros w f [Hw Hf]. cbn in *. apply setDelete_elem_of in Hw as [Hw _]. done.
      - intros w f Hw [Hq Hf]. cbn in *. split; [| done].
        apply setDelete_elem_of. done. }
    apply IH; cbn [openSet closedSet cameFrom gScore fScore].
    + pose proof (linear_relax_fold ({[current]} ∪ closed) current (neighbors nc) cf g
                    (setDelete current open, fs) Hrelaxing) as Hfold.
      cbn zeta in Hfold.
      destruct (relaxNeighbors _ _ _ _ _ _ _ _) as [[cf' g'] [o' fs']]. exact Hfold.
    + apply (relaxNeighbors_preserves nodes blocked start dest _ enqueue
               (fun o => forall v, v ∈ o.1 -> v ∉ {[current]} ∪ closed)).
      * intros v f o Hv _ Ho w Hw. cbn in Hw. apply setAdd_elem_of in Hw as [-> | Hw]; auto.
      * intros v Hv. cbn in Hv. apply setDelete_elem_of in Hv as [Hv Hvc].
        specialize (Hopen _ Hv). set_solver.
    + pose proof (relaxNeighbors_size nodes blocked start dest _ enqueue
                    (fun o => length o.1)
                    ({[current]} ∪ closed) current (neighbors nc)
                    (fun v f o => setAdd_length v o.1)
                    cf g (setDelete current open, fs)) as Hsize.
      cbn zeta in Hsize. cbn [fst snd] in Hsize.
      pose proof (setDelete_length current open Hcur).
      pose proof (pendingDegree_close_known nodes closed current nc Hnc Hin). lia.
Qed.

(** The linear-scan search returns a shortest path, or [undefined] when
    there is none. *)
Lemma linear_findShortestPath_correct :
  exists r, findShortestPath nodes start dest blocked = Some r /\
            shortestPath nodes blocked start dest r.
Proof.
  unfold findShortestPath, searchFuel. apply linear_searchLoop_correct.
  - cbn. apply linear_searching_initial; [done |].
    intros v f. unfold linearQueued, scoreOf. cbn. rewrite list_elem_of_singleton.
    split.
    + intros [-> Hf]. rewrite lookup_singleton_eq in Hf. done.
    + intros [-> ->]. rewrite lookup_singleton_eq. done.
  - cbn. set_solver.
  - cbn. lia.
Qed.

End LinearSearch.


(** ** The graph built by [createNodesById] *)

Section FoldInsert.
Context {K : Type} `{Countable K} {V A : Type}.
Variable keyOf : A -> K.
Variable valueOf : A -> V.

Local Abbreviation build := (foldl (fun m a => <[keyOf a := valueOf a]> m)).

Lemma build_lookup_other (l : list A) : forall (m : gmap K V) k,
  k ∉ keyOf <$> l -> build m l !! k = m !! k.
Proof.
  induction l as [| a l IH]; intros m k Hk; [done |].
  cbn [foldl]. rewrite fmap_cons, not_elem_of_cons in Hk. destruct Hk as [Hne Hk].
  rewrite IH by done. rewrite lookup_insert_ne by done. done.
Qed.

Lemma build_lookup_Some (l : list A) : forall (m : gmap K V) k v,
  build m l !! k = Some v ->
  m !! k = Some v \/ exists a, (a ∈ l) /\ keyOf a = k /\ valueOf a = v.
Proof.
  induction l as [| a l IH]; intros m k v Hv; [auto |].
  cbn [foldl] in Hv. apply IH in Hv as [Hv | (b & Hb & Hk & Hval)].
  - destruct (decide (keyOf a = k)) as [<- | Hne].
    + rewrite lookup_insert_eq in Hv. right. exists a. split; [set_solver |].
      split; [done | congruence].
    + rewrite lookup_insert_ne in Hv by done. auto.
  - right. exists b. split; [set_solver | done].
Qed.

Lemma build_lookup_known (l : list A) : forall (m : gmap K V) k,
  k ∈ keyOf <$> l -> is_Some (build m l !! k).
Proof.
  induction l as [| a l IH]; intros m k Hk; [inversion Hk |].
  cbn [foldl]. destruct (decide (k ∈ keyOf <$> l)) as [Hin | Hout]; [auto |].
  rewrite build_lookup_other by done.
  rewrite fmap_cons, elem_of_cons in Hk. destruct Hk as [-> | Hk]; [| done].
  rewrite lookup_insert_eq. eauto.
Qed.

Lemma build_lookup_NoDup (l : list A) : forall (m : gmap K V) a,
  NoDup (keyOf <$> l) -> a ∈ l -> build m l !! keyOf a = Some (valueOf a).
Proof.
  induction l as [| b l IH]; intros m a Hnd Ha; [inversion Ha |].
  rewrite fmap_cons, NoDup_cons in Hnd. destruct Hnd as [Hb Hnd].
  cbn [foldl]. apply elem_of_cons in Ha as [-> | Ha].
  - rewrite build_lookup_other by done. apply lookup_insert_eq.
  - apply IH; done.
Qed.

End FoldInsert.

Lemma isTileId_truthy (v : TileId) : isTileId v = true -> truthy v = true.
Proof. destruct v; [discriminate | done]. Qed.

Section Paths.
Import Pathfinding SearchSpec.

Variable nodes : gmap TileId PathfindingNode.
Variable blocked : gset TileId.
Variable start : TileId.

Lemma pathTo_walk p v :
  pathTo nodes blocked start p v -> exists m, length p = S m /\ walk nodes blocked start m v.
Proof.
  induction 1 as [| p u v _ (m & Hlen & Hw) He].
  - exists O. split; [done | constructor].
  - exists (S m). split; [rewrite length_app; cbn; lia |]. econstructor; eauto.
Qed.

Lemma pathTo_ends p v :
  pathTo nodes blocked start p v -> head p = Some start /\ last p = Some v.
Proof.
  induction 1 as [| p u v _ [Hh Hl] He]; [done |].
  split; [| apply last_snoc].
  destruct p; [done |]. done.
Qed.

End Paths.

Lemma route_ends tiles blocked start p v :
  GridSpec.route tiles blocked start p v -> head p = Some start /\ last p = Some v.
Proof.
  induction 1 as [| p u v _ [Hh Hl] He]; [done |].
  split; [| apply last_snoc].
  destruct p; [done |]. done.
Qed.

Section Nodes.
Import Pathfinding SearchSpec GridSpec.

Variable tiles : list Tile.

Local Abbreviation nodes := (createNodesById tiles).
Local Abbreviation c2i := (coordinatesToId tiles).

Local Abbreviation nodeOf := (nodeOf tiles).

Lemma nodes_lookup_Some tileId node :
  nodes !! tileId = Some node ->
  exists tile, (tile ∈ tiles) /\ tile_id tile = tileId /\ node = nodeOf tile.
Proof.
  intros Hn. unfold createNodesById in Hn.
  apply (build_lookup_Some tile_id nodeOf) in Hn as [Hn | (t & Ht & Hid & Hv)].
  - rewrite lookup_empty in Hn. done.
  - eauto.
Qed.

(** A node is stored under its own id. *)
Lemma nodes_node_id tileId node : nodes !! tileId = Some node -> node_id node = tileId.
Proof. intros (t & _ & <- & ->)%nodes_lookup_Some. done. Qed.

Lemma nodes_known tileId : is_Some (nodes !! tileId) <-> knownTile tiles tileId.
Proof.
  unfold knownTile. split.
  - intros [n Hn]. apply nodes_lookup_Some in Hn as (t & Ht & <- & _).
    apply list_elem_of_fmap. eauto.
  - intros Hk. exact (build_lookup_known tile_id nodeOf tiles ∅ tileId Hk).
Qed.

Lemma nodes_truthy :
  tileIds tiles -> forall v, is_Some (nodes !! v) -> truthy v = true.
Proof.
  intros Hids v [n Hn]. apply nodes_lookup_Some in Hn as (t & Ht & <- & _).
  apply isTileId_truthy. unfold tileIds in Hids. rewrite Forall_forall in Hids. auto.
Qed.

Lemma c2i_lookup_Some key tileId :
  c2i !! key = Some tileId ->
  exists tile, (tile ∈ tiles) /\ coordinateKey tile = key /\ tile_id tile = tileId.
Proof.
  intros Hc. unfold coordinatesToId in Hc.
  apply (build_lookup_Some coordinateKey tile_id) in Hc as [Hc | (t & Ht & Hk & Hv)].
  - rewrite lookup_empty in Hc. done.
  - eauto.
Qed.

Lemma c2i_lookup_distinct tile :
  distinctCoordinates tiles -> tile ∈ tiles -> c2i !! coordinateKey tile = Some (tile_id tile).
Proof.
  intros Hnd Ht. exact (build_lookup_NoDup coordinateKey tile_id tiles ∅ tile Hnd Ht).
Qed.

Lemma neighborsOf_elem_of tile v :
  v ∈ neighborsOf c2i tile <->
  exists dx dy, (dx = 1 /\ dy = 0 \/ dx = -1 /\ dy = 0 \/ dx = 0 /\ dy = 1 \/ dx = 0 /\ dy = -1) /\
    c2i !! toCoordinateKey (x (coordinate tile) + dx) (y (coordinate tile) + dy) = Some v.
Proof.
  unfold neighborsOf. rewrite list_elem_of_omap. split.
  - intros (key & Hkey & Hv). rewrite !elem_of_cons in Hkey.
    destruct Hkey as [-> | [-> | [-> | [-> | Hkey]]]]; [| | | | inversion Hkey].
    + exists 1, 0. rewrite Z.add_0_r. split; [lia | done].
    + exists (-1), 0. rewrite Z.add_0_r. split; [lia | done].
    + exists 0, 1. rewrite Z.add_0_r. split; [lia | done].
    + exists 0, (-1). rewrite Z.add_0_r. split; [lia | done].
  - intros (dx & dy & Hd & Hv).
    eexists. split; [| exact Hv]. rewrite !elem_of_cons.
    destruct Hd as [[-> ->] | [[-> ->] | [[-> ->] | [-> ->]]]]; rewrite ?Z.add_0_r.
    + left. done.
    + right. left. done.
    + right. right. left. done.
    + right. right. right. left. done.
Qed.

Section DistinctIds.
Hypothesis Hids : distinctIds tiles.

Lemma nodes_lookup_tile tile : tile ∈ tiles -> nodes !! tile_id tile = Some (nodeOf tile).
Proof.
  intros Ht. exact (build_lookup_NoDup tile_id nodeOf tiles ∅ tile Hids Ht).
Qed.

(** A step of the search graph joins two tiles side by side. *)
Lemma edge_adjacent blocked u v :
  edge nodes blocked u v ->
  exists tu tv, (tu ∈ tiles) /\ (tv ∈ tiles) /\ tile_id tu = u /\ tile_id tv = v /\
                adjacent tu tv /\ walkable tv = true /\ (v ∉ blocked) /\
                nodes !! u = Some (nodeOf tu) /\ nodes !! v = Some (nodeOf tv).
Proof.
  intros (nu & nv & Hu & Hin & Hb & Hv & Hw).
  pose proof Hu as Hu'. apply nodes_lookup_Some in Hu' as (tu & Htu & Hidu & ->).
  cbn [neighbors nodeOf] in Hin.
  apply neighborsOf_elem_of in Hin as (dx & dy & Hd & Hc).
  apply c2i_lookup_Some in Hc as (tv & Htv & Hkey & Hidv).
  pose proof (nodes_lookup_tile tv Htv) as Hv'. rewrite Hidv, Hv in Hv'.
  injection Hv' as ->. cbn [node_walkable nodeOf] in Hw.
  exists tu, tv. repeat (split; [done |]). split; [| done].
  unfold coordinateKey, toCoordinateKey in Hkey. injection Hkey as Hx Hy.
  unfold adjacent. lia.
Qed.

Lemma heuristic_consistent blocked dest : consistent nodes blocked dest.
Proof.
  intros u v He. apply edge_adjacent in He
    as (tu & tv & _ & _ & _ & _ & Hadj & _ & _ & Hu & Hv).
  unfold hZ, heuristicDistance. rewrite Hu, Hv.
  destruct (nodes !! dest) as [nd |]; [| lia].
  cbn [node_x node_y nodeOf]. unfold adjacent in Hadj. lia.
Qed.

Section Routes.
Variable blocked : gset TileId.
Variable start : TileId.

Local Abbreviation passable := (passable tiles blocked).
Local Abbreviation step := (step tiles blocked).
Local Abbreviation route := (route tiles blocked start).
Local Abbreviation pathTo := (pathTo nodes blocked start).

Lemma edge_step u v :
  edge nodes blocked u v ->
  (exists tu, tile_id tu = u /\ passable tu) ->
  step u v /\ exists tv, tile_id tv = v /\ passable tv.
Proof.
  intros He (tu' & Hidu' & Htu' & Hwu & Hbu).
  apply edge_adjacent in He
    as (tu & tv & Htu & Htv & Hidu & Hidv & Hadj & Hwv & Hbv & Hu & Hv).
  pose proof (nodes_lookup_tile tu' Htu') as Hu'. rewrite Hidu', Hu in Hu'.
  injection Hu' as _ Hx Hy Hw _.
  assert (Hpv : passable tv) by (split; [done |]; split; [done |]; rewrite Hidv; done).
  split; [| eauto].
  exists tu, tv. split; [done |]. split; [done |]. split; [| done].
  split; [done |]. split; [congruence |]. rewrite Hidu, <- Hidu'. done.
Qed.

Lemma pathTo_route p v :
  (exists ts, tile_id ts = start /\ passable ts) ->
  pathTo p v -> route p v /\ exists tv, tile_id tv = v /\ passable tv.
Proof.
  intros Hs. induction 1 as [| p u v _ [Hr Hu] He].
  - split; [constructor | done].
  - destruct (edge_step u v He Hu) as [Hst Hv]. split; [| done].
    econstructor; eauto.
Qed.

Hypothesis Hcoords : distinctCoordinates tiles.

Lemma step_edge u v : step u v -> edge nodes blocked u v.
Proof.
  intros (tu & tv & Hidu & Hidv & (Htu & Hwu & Hbu) & (Htv & Hwv & Hbv) & Hadj).
  exists (nodeOf tu), (nodeOf tv). rewrite <- Hidu, <- Hidv.
  split; [apply nodes_lookup_tile; done |].
  split; [| split; [done |]; split; [apply nodes_lookup_tile; done | done]].
  cbn [neighbors nodeOf]. apply neighborsOf_elem_of.
  exists (x (coordinate tv) - x (coordinate tu)), (y (coordinate tv) - y (coordinate tu)).
  split; [unfold adjacent in Hadj; lia |].
  replace (x (coordinate tu) + (x (coordinate tv) - x (coordinate tu)))
    with (x (coordinate tv)) by lia.
  replace (y (coordinate tu) + (y (coordinate tv) - y (coordinate tu)))
    with (y (coordinate tv)) by lia.
  apply c2i_lookup_distinct; done.
Qed.

Lemma route_pathTo p v : route p v -> pathTo p v.
Proof.
  induction 1 as [| p u v _ IH Hst]; [constructor |].
  econstructor; [exact IH | apply step_edge; done].
Qed.

(** On a list of tiles with distinct ids and coordinates, a shortest path
    of the search graph is a shortest route on the grid. *)
Lemma shortestPath_route dest r :
  (exists ts, tile_id ts = start /\ passable ts) ->
  shortestPath nodes blocked start dest r ->
  match r with
  | Some p => route p dest /\ forall q, route q dest -> (length p <= length q)%nat
  | None => forall q, ~ route q dest
  end.
Proof.
  intros Hs. destruct r as [p |]; cbn [shortestPath].
  - intros [Hp Hmin]. split; [apply (pathTo_route p dest Hs Hp) |].
    intros q Hq. apply route_pathTo, pathTo_walk in Hq as (m & -> & Hw). auto.
  - intros Hno q Hq. apply route_pathTo, pathTo_walk in Hq as (m & _ & Hw).
    exact (Hno m Hw).
Qed.

End Routes.
End DistinctIds.
End Nodes.


(** ** The route cache *)

Section Cache.
Import Pathfinding ServiceSpec.
Implicit Types (cache : list (TileId * TileId * gset TileId * list TileId)).
Implicit Types (key : TileId * TileId * gset TileId) (p : list TileId).

Lemma cacheGet_Some key cache p : cacheGet key cache = Some p -> (key, p) ∈ cache.
Proof.
  unfold cacheGet. destruct (find _ cache) as [[k q] |] eqn:Hf; [| done].
  intros [= <-]. apply find_some in Hf as [Hin Hk]. cbn in Hk.
  apply bool_decide_eq_true in Hk as ->. apply list_elem_of_In. done.
Qed.

Lemma cacheGet_None key cache : cacheGet key cache = None <-> key ∉ cache.*1.
Proof.
  unfold cacheGet. split.
  - destruct (find _ cache) as [e |] eqn:Hf; [done |]. intros _ Hin.
    apply list_elem_of_fmap in Hin as ([k q] & -> & Hin).
    apply list_elem_of_In in Hin. pose proof (find_none _ _ Hf _ Hin) as Hk.
    cbn in Hk. apply bool_decide_eq_false in Hk. done.
  - intros Hout. destruct (find _ cache) as [[k q] |] eqn:Hf; [| done]. exfalso.
    apply find_some in Hf as [Hin Hk]. cbn in Hk. apply bool_decide_eq_true in Hk as ->.
    apply Hout. apply list_elem_of_fmap. exists (key, q).
    split; [done | apply list_elem_of_In; done].
Qed.

Lemma cacheGet_last key cache p :
  key ∉ cache.*1 -> cacheGet key (cache ++ [(key, p)]) = Some p.
Proof.
  intros Hout. induction cache as [| [k q] cache IH].
  - unfold cacheGet. cbn. rewrite bool_decide_eq_true_2 by done. done.
  - rewrite fmap_cons, not_elem_of_cons in Hout. destruct Hout as [Hne Hout].
    unfold cacheGet in *. cbn [app find fst]. cbn [fst] in Hne.
    rewrite bool_decide_eq_false_2 by congruence. auto.
Qed.

Lemma cacheDelete_elem_of key cache e :
  e ∈ cacheDelete key cache <-> e ∈ cache /\ e.1 <> key.
Proof. unfold cacheDelete. rewrite list_elem_of_filter. tauto. Qed.

Lemma cacheDelete_keys key cache k :
  k ∈ (cacheDelete key cache).*1 <-> k ∈ cache.*1 /\ k <> key.
Proof.
  rewrite !list_elem_of_fmap. split.
  - intros (e & -> & [He Hk]%cacheDelete_elem_of). eauto.
  - intros [(e & -> & He) Hk]. exists e. split; [done |].
    apply cacheDelete_elem_of. done.
Qed.

Lemma cacheDelete_NoDup key cache : NoDup cache.*1 -> NoDup (cacheDelete key cache).*1.
Proof.
  induction cache as [| [k q] cache IH]; [done |].
  rewrite fmap_cons, NoDup_cons. intros [Hk Hnd]. unfold cacheDelete.
  rewrite filter_cons. cbn [fst]. case_decide as Hd; [| apply IH; done].
  rewrite fmap_cons, NoDup_cons. split; [| apply IH; done].
  intros [Hin _]%cacheDelete_keys. done.
Qed.

Lemma cacheDelete_length key cache :
  key ∈ cache.*1 -> (length (cacheDelete key cache) < length cache)%nat.
Proof.
  intros (e & -> & He)%list_elem_of_fmap. unfold cacheDelete.
  apply (length_filter_lt _ _ e); [done |]. intros Hne. apply Hne. done.
Qed.

Lemma cacheDelete_absent key cache : key ∉ cache.*1 -> cacheDelete key cache = cache.
Proof.
  induction cache as [| [k q] cache IH]; [done |].
  rewrite fmap_cons, not_elem_of_cons. intros [Hne Hout]. unfold cacheDelete.
  rewrite filter_cons. cbn [fst] in *. rewrite decide_True by congruence.
  f_equal. apply IH. done.
Qed.

Lemma cacheSet_new key p cache : key ∉ cache.*1 -> cacheSet key p cache = cache ++ [(key, p)].
Proof. intros Hout. unfold cacheSet. rewrite bool_decide_eq_false_2 by done. done. Qed.

(** Dropping the oldest key of a cache that has just grown by a new key
    leaves the rest in order. *)
Lemma cacheDelete_oldest k0 p0 cache key p :
  NoDup ((k0, p0) :: cache).*1 -> key <> k0 ->
  cacheDelete k0 (((k0, p0) :: cache) ++ [(key, p)]) = cache ++ [(key, p)].
Proof.
  rewrite fmap_cons, NoDup_cons. cbn [fst]. intros [Hk0 _] Hne.
  unfold cacheDelete. cbn [app]. rewrite filter_cons. cbn [fst].
  rewrite decide_False by (intros H; apply H; done).
  change (filter (fun entry => entry.1 <> k0) (cache ++ [(key, p)]))
    with (cacheDelete k0 (cache ++ [(key, p)])).
  apply cacheDelete_absent. rewrite fmap_app, not_elem_of_app. split; [done |].
  cbn. rewrite list_elem_of_singleton. congruence.
Qed.

Lemma refreshed_shape key p cache :
  cacheSet key p (cacheDelete key cache) = refreshed key p cache.
Proof.
  unfold refreshed. apply cacheSet_new. intros [_ Hk]%cacheDelete_keys. done.
Qed.

Lemma stored_shape capacity key p cache :
  NoDup cache.*1 -> cacheGet key cache = None ->
  0 < capacity -> Z.of_nat (length cache) <= capacity ->
  (if capacity <? Z.of_nat (length (cacheSet key p cache)) then
     match cacheSet key p cache with
     | (oldestKey, _) :: _ => cacheDelete oldestKey (cacheSet key p cache)
     | [] => cacheSet key p cache
     end
   else cacheSet key p cache) = stored capacity key p cache.
Proof.
  intros Hnd Hmiss Hpos Hlen. apply cacheGet_None in Hmiss.
  rewrite cacheSet_new by done. unfold stored. rewrite length_app. cbn [length].
  destruct (Z.ltb_spec (Z.of_nat (length cache)) capacity) as [Hlt | Hge].
  - rewrite (proj2 (Z.ltb_ge _ _)) by lia. done.
  - rewrite (proj2 (Z.ltb_lt _ _)) by lia.
    destruct cache as [| [k0 p0] cache]; [cbn in *; lia |].
    cbn [app tail]. apply (cacheDelete_oldest k0 p0 cache key p Hnd).
    intros ->. apply Hmiss. rewrite fmap_cons. cbn. set_solver.
Qed.

Lemma refreshed_keys key p cache k :
  k ∈ (refreshed key p cache).*1 <-> k = key \/ k ∈ cache.*1.
Proof.
  unfold refreshed. rewrite fmap_app, elem_of_app, cacheDelete_keys. cbn.
  rewrite list_elem_of_singleton. destruct (decide (k = key)); tauto.
Qed.

End Cache.

(** ** [findPath] *)

Section Service.
Import Pathfinding SearchSpec GridSpec ServiceSpec.

Variable tiles : list Tile.
Variable maxCachedRoutes : Z.

Local Abbreviation serviceInv := (serviceInv tiles maxCachedRoutes).

Lemma createPathfindingService_inv :
  serviceInv (createPathfindingService tiles maxCachedRoutes).
Proof.
  unfold ServiceSpec.serviceInv, createPathfindingService. cbn.
  split; [done |]. split; [destruct (Z.ltb_spec 0 maxCachedRoutes); lia |].
  split; [constructor |]. split; [destruct (Z.ltb_spec 0 maxCachedRoutes); lia |].
  intros key p Hin. inversion Hin.
Qed.

(** Every call returns, in one of the five ways. *)
Lemma findPath_outcome s request :
  serviceInv s ->
  exists result s', findPath s request = Some (result, s') /\
                    findPathOutcome s request result s'.
Proof.
  intros (Hnodes & Hmax & Hnd & Hlen & Hsound).
  unfold findPath, findPathWith.
  destruct (nodesById s !! startTileId request) as [startNode |] eqn:Hs; cycle 1.
  { eexists _, _. split; [done |]. apply outcome_rejected. unfold rejection. rewrite Hs. done. }
  destruct (nodesById s !! destinationTileId request) as [destinationNode |] eqn:Hd; cycle 1.
  { eexists _, _. split; [done |]. apply outcome_rejected. unfold rejection.
    rewrite Hs, Hd. done. }
  assert (Hsid : node_id startNode = startTileId request)
    by (rewrite Hnodes in Hs; exact (nodes_node_id _ _ _ Hs)).
  assert (Hdid : node_id destinationNode = destinationTileId request)
    by (rewrite Hnodes in Hd; exact (nodes_node_id _ _ _ Hd)).
  rewrite Hsid, Hdid. cbn zeta.
  destruct (bool_decide (startTileId request ∈ blockedSet request)
            || negb (node_walkable startNode)) eqn:Hbs.
  { eexists _, _. split; [done |]. apply outcome_rejected. unfold rejection.
    rewrite Hs, Hd, Hbs. done. }
  destruct (bool_decide (destinationTileId request ∈ blockedSet request)
            || negb (node_walkable destinationNode)) eqn:Hbd.
  { eexists _, _. split; [done |]. apply outcome_rejected. unfold rejection.
    rewrite Hs, Hd, Hbs, Hbd. done. }
  assert (Hrej : rejection (nodesById s) request = None)
    by (unfold rejection; rewrite Hs, Hd, Hbs, Hbd; done).
  destruct (decide (startTileId request = destinationTileId request)) as [Hsame | Hsame].
  { rewrite (bool_decide_eq_true_2 _ Hsame).
    eexists _, _. split; [done |]. apply outcome_same_tile; done. }
  rewrite (bool_decide_eq_false_2 _ Hsame).
  fold (requestKey request).
  destruct (cacheGet (requestKey request) (routeCache s)) as [cachedPath |] eqn:Hget.
  { eexists _, _. split; [rewrite refreshed_shape; done |]. apply outcome_hit; done. }
  destruct (findShortestPath_total (nodesById s) (blockedSet request)
              (startTileId request) (destinationTileId request)) as [found Hfound].
  rewrite Hfound. destruct found as [path |].
  - eexists _, _. split; [| apply outcome_stored; done].
    rewrite (stored_shape (normalizedMaxCachedRoutes s) (requestKey request) path
               (routeCache s) Hnd Hget) by lia.
    done.
  - eexists _, _. split; [done |]. apply outcome_no_route; done.
Qed.

Lemma findPath_preserves s request result s' :
  serviceInv s -> findPathOutcome s request result s' -> serviceInv s'.
Proof.
  intros Hinv Hout. pose proof Hinv as (Hnodes & Hmax & Hnd & Hlen & Hsound).
  destruct Hout as [reason Hrej | Hrej Hsame | p Hrej Hne Hget | Hrej Hne Hget Hfound
                   | p Hrej Hne Hget Hfound]; try done.
  - (* hit *)
    pose proof (cacheGet_Some _ _ _ Hget) as Hin.
    assert (Hkey : requestKey request ∈ (routeCache s).*1)
      by (apply list_elem_of_fmap; exists (requestKey request, p); done).
    unfold ServiceSpec.serviceInv, withCache. cbn [nodesById normalizedMaxCachedRoutes routeCache].
    split; [done |]. split; [done |]. split; [| split].
    + unfold refreshed. rewrite fmap_app. apply NoDup_app.
      split; [apply cacheDelete_NoDup; done |]. split; [| apply NoDup_singleton].
      intros k [_ Hk]%cacheDelete_keys Hk'. cbn in Hk'.
      apply list_elem_of_singleton in Hk'. done.
    + unfold refreshed. rewrite length_app. cbn [length].
      pose proof (cacheDelete_length _ _ Hkey). lia.
    + intros key q [[Hq _]%cacheDelete_elem_of | Hq%list_elem_of_singleton]%elem_of_app;
        [auto |]. injection Hq as -> ->. auto.
  - (* stored *)
    apply cacheGet_None in Hget.
    unfold ServiceSpec.serviceInv, withCache. cbn [nodesById normalizedMaxCachedRoutes routeCache].
    split; [done |]. split; [done |].
    assert (Hnd' : NoDup (routeCache s ++ [(requestKey request, p)]).*1).
    { rewrite fmap_app. apply NoDup_app. split; [done |]. split; [| apply NoDup_singleton].
      intros k Hk Hk'. cbn in Hk'. apply list_elem_of_singleton in Hk' as ->. done. }
    assert (Hsound' : cacheSound (nodesById s) (routeCache s ++ [(requestKey request, p)])).
    { intros key q [Hq | Hq%list_elem_of_singleton]%elem_of_app; [auto |].
      injection Hq as -> ->. exact Hfound. }
    unfold stored.
    destruct (Z.ltb_spec (Z.of_nat (length (routeCache s))) (normalizedMaxCachedRoutes s))
      as [Hlt | Hge].
    + split; [done |]. split; [| done]. rewrite length_app. cbn [length]. lia.
    + destruct (routeCache s) as [| [k0 p0] cache] eqn:Hc; [cbn in *; lia |].
      cbn [tail]. cbn [app] in Hnd', Hsound'.
      rewrite fmap_cons, NoDup_cons in Hnd'. destruct Hnd' as [_ Hnd'].
      split; [done |]. split.
      * rewrite length_app. cbn [length] in *. lia.
      * intros key q Hq. apply Hsound'. set_solver.
Qed.

(** A run of requests against a fresh service always returns, and leaves
    a service within its invariant. *)
Lemma findPaths_inv requests : forall s,
  serviceInv s -> exists s', findPaths s requests = Some s' /\ serviceInv s'.
Proof.
  induction requests as [| r requests IH]; intros s Hinv; [eauto |].
  destruct (findPath_outcome s r Hinv) as (result & s1 & Hcall & Hout).
  cbn [findPaths]. rewrite Hcall. apply IH. eapply findPath_preserves; eauto.
Qed.

(** What a call adds to the cache is the path it returns, under the key
    of its request. *)
Lemma findPath_answered s r result s1 before answered :
  length before = length answered ->
  cacheAnswered before answered (routeCache s) ->
  findPathOutcome s r result s1 ->
  cacheAnswered (before ++ [r]) (answered ++ [result]) (routeCache s1).
Proof.
  intros Hlen Hold Hout.
  assert (Hkeep : forall key p, (key, p) ∈ routeCache s ->
            exists (i : nat) r0 fromCache,
              (before ++ [r]) !! i = Some r0 /\ requestKey r0 = key /\
              (answered ++ [result]) !! i = Some (Found p fromCache)).
  { intros key p (i & r0 & fromCache & Hr0 & Hkey & Hres)%Hold.
    exists i, r0, fromCache. split; [| split; [done |]].
    - apply lookup_app_l_Some. done.
    - apply lookup_app_l_Some. done. }
  assert (Hnew : forall p fromCache, result = Found p fromCache ->
            exists (i : nat) r0 fromCache0,
              (before ++ [r]) !! i = Some r0 /\ requestKey r0 = requestKey r /\
              (answered ++ [result]) !! i = Some (Found p fromCache0)).
  { intros p fromCache ->. exists (length before), r, fromCache.
    split; [| split; [done |]].
    - rewrite lookup_app_r by lia. rewrite Nat.sub_diag. done.
    - rewrite Hlen, lookup_app_r by lia. rewrite Nat.sub_diag. done. }
  destruct Hout as [reason Hrej | Hrej Hsame | p Hrej Hne Hget | Hrej Hne Hget Hnone
                   | p Hrej Hne Hget Hsome]; try exact Hkeep.
  - intros key q Hq. cbn [routeCache withCache] in Hq. unfold refreshed in Hq.
    apply elem_of_app in Hq as [[Hq _]%cacheDelete_elem_of | Hq].
    + apply Hkeep. done.
    + apply list_elem_of_singleton in Hq. injection Hq as -> ->. eapply Hnew. done.
  - intros key q Hq. cbn [routeCache withCache] in Hq. unfold stored in Hq.
    assert (Hcases : (key, q) ∈ routeCache s \/ (key, q) = (requestKey r, p)).
    { destruct (_ <? _); apply elem_of_app in Hq as [Hq | Hq].
      - left. done.
      - right. apply list_elem_of_singleton in Hq. done.
      - left. destruct (routeCache s) as [| e cache]; [done |]. cbn in Hq. set_solver.
      - right. apply list_elem_of_singleton in Hq. done. }
    destruct Hcases as [Hq' | Hq']; [apply Hkeep; done |].
    injection Hq' as -> ->. eapply Hnew. done.
Qed.

(** A run of requests returns a result for each request, and every path
    in the cache it leaves was returned as "found" by one of its calls. *)
Lemma findPaths_answered requests : forall s before answered,
  serviceInv s -> length before = length answered ->
  cacheAnswered before answered (routeCache s) ->
  exists s' results,
    findPaths s requests = Some s' /\ findPathResults s requests = Some results /\
    serviceInv s' /\
    cacheAnswered (before ++ requests) (answered ++ results) (routeCache s').
Proof.
  induction requests as [| r requests IH]; intros s before answered Hinv Hlen Hold.
  - exists s, []. rewrite !app_nil_r. done.
  - destruct (findPath_outcome s r Hinv) as (result & s1 & Hcall & Hout).
    destruct (IH s1 (before ++ [r]) (answered ++ [result])) as (s' & results & Hrun & Hres & Hinv' & Hnew).
    + eapply findPath_preserves; eauto.
    + rewrite !length_app, Hlen. done.
    + apply (findPath_answered s); done.
    + exists s', (result :: results). cbn [findPaths findPathResults].
      rewrite Hcall, Hrun, Hres. rewrite <- !app_assoc in Hnew. done.
Qed.

End Service.


(** ** Pathfinding: shortest routes, the cache, the two searches *)

Section PathfindingProperties.
Import Pathfinding SearchSpec GridSpec ServiceSpec Examples.

Ltac by_evaluation :=
  unfold distinctIds, distinctCoordinates, tileIds, knownTile;
  apply (bool_decide_unpack _); vm_compute; exact I.

Lemma known_tile_node tiles tileId :
  distinctIds tiles -> knownTile tiles tileId -> walkableTile tiles tileId ->
  exists tile, (tile ∈ tiles) /\ tile_id tile = tileId /\ walkable tile = true /\
               createNodesById tiles !! tileId = Some (nodeOf tiles tile).
Proof.
  intros Hids (tile & -> & Ht)%list_elem_of_fmap Hw.
  exists tile. split; [done |]. split; [done |]. split; [auto |].
  apply nodes_lookup_tile; done.
Qed.

Lemma accepted_request tiles request :
  distinctIds tiles ->
  knownTile tiles (startTileId request) -> knownTile tiles (destinationTileId request) ->
  walkableTile tiles (startTileId request) -> walkableTile tiles (destinationTileId request) ->
  startTileId request ∉ blockedSet request ->
  destinationTileId request ∉ blockedSet request ->
  rejection (createNodesById tiles) request = None.
Proof.
  intros Hids Hks Hkd Hws Hwd Hbs Hbd. unfold rejection.
  destruct (known_tile_node tiles _ Hids Hks Hws) as (ts & _ & _ & Hwts & ->).
  destruct (known_tile_node tiles _ Hids Hkd Hwd) as (td & _ & _ & Hwtd & ->).
  cbn [node_walkable nodeOf]. rewrite Hwts, Hwtd.
  rewrite !bool_decide_eq_false_2 by done. done.
Qed.

(** On a well-formed tile list the heap search returns a shortest route of
    the grid, or [undefined] when there is none. *)
Lemma heap_search_route tiles start dest blocked :
  distinctIds tiles -> distinctCoordinates tiles -> tileIds tiles ->
  knownTile tiles start -> knownTile tiles dest ->
  walkableTile tiles start -> start ∉ blocked ->
  exists r, MinHeap.findShortestPath (createNodesById tiles) start dest blocked = Some r /\
    match r with
    | Some p => route tiles blocked start p dest /\
                forall q, route tiles blocked start q dest -> (length p <= length q)%nat
    | None => forall q, ~ route tiles blocked start q dest
    end.
Proof.
  intros Hids Hcoords Htile Hks Hkd Hws Hbs.
  destruct (findShortestPath_correct (createNodesById tiles) blocked start dest)
    as (r & Hr & Hsp).
  - apply nodes_known. done.
  - apply nodes_known. done.
  - apply heuristic_consistent. done.
  - apply nodes_truthy. done.
  - exists r. split; [done |].
    apply (shortestPath_route tiles Hids blocked start Hcoords dest r); [| done].
    destruct (known_tile_node tiles _ Hids Hks Hws) as (ts & Hts & Hid & Hwts & _).
    exists ts. split; [done |]. split; [done |]. split; [done |]. rewrite Hid. done.
Qed.

(** C1, as amended.  For every tile list whose tiles have pairwise
    distinct ids of the TileId shape and pairwise distinct coordinates,
    every capacity, every service state reached from a fresh service by
    earlier findPath calls, and every request whose start and destination
    are known, walkable, not blocked and distinct, where this request and
    the earlier ones name their blocked tiles by ids of the TileId shape:
    findPath returns; if a route exists (a list of ids from start to
    destination stepping between 4-adjacent walkable unblocked tiles), the
    result is "found" with a path that is such a route, begins at the start
    tile, ends at the destination tile and is no longer than any route; if
    no route exists, the result is "unreachable" with reason "no-route" and
    an empty path. *)
Theorem findPath_shortest_route
    (tiles : list Tile) (maxCachedRoutes : Z)
    (earlier : list PathfindingRequest) (request : PathfindingRequest) :
  distinctIds tiles -> distinctCoordinates tiles -> tileIds tiles ->
  Forall tileIdBlocked earlier -> tileIdBlocked request ->
  knownTile tiles (startTileId request) ->
  knownTile tiles (destinationTileId request) ->
  walkableTile tiles (startTileId request) ->
  walkableTile tiles (destinationTileId request) ->
  startTileId request ∉ blockedSet request ->
  destinationTileId request ∉ blockedSet request ->
  startTileId request <> destinationTileId request ->
  exists s result s',
    findPaths (createPathfindingService tiles maxCachedRoutes) earlier = Some s /\
    findPath s request = Some (result, s') /\
    ((exists q, route tiles (blockedSet request) (startTileId request) q
                  (destinationTileId request)) ->
     exists p fromCache,
       result = Found p fromCache /\
       route tiles (blockedSet request) (startTileId request) p (destinationTileId request) /\
       head p = Some (startTileId request) /\
       last p = Some (destinationTileId request) /\
       forall q, route tiles (blockedSet request) (startTileId request) q
                   (destinationTileId request) ->
                 (length p <= length q)%nat) /\
    ((forall q, ~ route tiles (blockedSet request) (startTileId request) q
                    (destinationTileId request)) ->
     result = Unreachable no_route []).
Proof.
  intros Hids Hcoords Htile _ _ Hks Hkd Hws Hwd Hbs Hbd Hne.
  destruct (findPaths_inv tiles maxCachedRoutes earlier _
              (createPathfindingService_inv tiles maxCachedRoutes)) as (s & Hrun & Hinv).
  destruct (findPath_outcome tiles maxCachedRoutes s request Hinv)
    as (result & s' & Hcall & Hout).
  exists s, result, s'. split; [done |]. split; [done |].
  pose proof Hinv as (Hnodes & _ & _ & _ & Hsound).
  pose proof (accepted_request tiles request Hids Hks Hkd Hws Hwd Hbs Hbd) as Hacc.
  destruct (heap_search_route tiles (startTileId request) (destinationTileId request)
              (blockedSet request) Hids Hcoords Htile Hks Hkd Hws Hbs) as (r & Hr & Hspec).
  rewrite <- Hnodes in Hacc, Hr.
  assert (Hfound : forall p fromCache,
            MinHeap.findShortestPath (nodesById s) (startTileId request)
              (destinationTileId request) (blockedSet request) = Some (Some p) ->
            exists p' fromCache',
              Found p fromCache = Found p' fromCache' /\
              route tiles (blockedSet request) (startTileId request) p'
                (destinationTileId request) /\
              head p' = Some (startTileId request) /\
              last p' = Some (destinationTileId request) /\
              forall q, route tiles (blockedSet request) (startTileId request) q
                          (destinationTileId request) ->
                        (length p' <= length q)%nat).
  { intros p fromCache Hp. rewrite Hp in Hr. injection Hr as <-.
    destruct Hspec as [Hroute Hmin]. exists p, fromCache.
    split; [done |]. split; [done |].
    destruct (route_ends _ _ _ _ _ Hroute). done. }
  assert (Hroute : forall p,
            MinHeap.findShortestPath (nodesById s) (startTileId request)
              (destinationTileId request) (blockedSet request) = Some (Some p) ->
            route tiles (blockedSet request) (startTileId request) p
              (destinationTileId request)).
  { intros p Hp. rewrite Hp in Hr. injection Hr as <-. apply Hspec. }
  destruct Hout as [reason Hrej | Hrej Hsame | p Hrej _ Hget | Hrej _ Hget Hnone
                   | p Hrej _ Hget Hsome].
  - congruence.
  - done.
  - pose proof (Hsound _ _ (cacheGet_Some _ _ _ Hget)) as Hp. cbn in Hp.
    split; [intros _; apply Hfound; done |].
    intros Hno. destruct (Hno p). apply Hroute. done.
  - rewrite Hnone in Hr. injection Hr as <-.
    split; [intros [q Hq]; destruct (Hspec q Hq) | done].
  - split; [intros _; apply Hfound; done |].
    intros Hno. destruct (Hno p). apply Hroute. done.
Qed.

Lemma findPath_shortest_route_witness :
  exists s result s',
    findPaths (createPathfindingService blockTiles 2)
      [request "tile_0_0" "tile_2_0" []; request "tile_0_0" "tile_2_1" ["tile_1_0"]]
      = Some s /\
    findPath s (request "tile_0_0" "tile_2_1" ["tile_1_0"]) = Some (result, s') /\
    ((exists q, route blockTiles (blockedSet (request "tile_0_0" "tile_2_1" ["tile_1_0"]))
                  "tile_0_0" q "tile_2_1") ->
     exists p fromCache,
       result = Found p fromCache /\
       route blockTiles (blockedSet (request "tile_0_0" "tile_2_1" ["tile_1_0"]))
         "tile_0_0" p "tile_2_1" /\
       head p = Some "tile_0_0" /\
       last p = Some "tile_2_1" /\
       forall q, route blockTiles (blockedSet (request "tile_0_0" "tile_2_1" ["tile_1_0"]))
                   "tile_0_0" q "tile_2_1" ->
                 (length p <= length q)%nat) /\
    ((forall q, ~ route blockTiles (blockedSet (request "tile_0_0" "tile_2_1" ["tile_1_0"]))
                    "tile_0_0" q "tile_2_1") ->
     result = Unreachable no_route []).
Proof.
  apply (findPath_shortest_route blockTiles 2
           [request "tile_0_0" "tile_2_0" []; request "tile_0_0" "tile_2_1" ["tile_1_0"]]
           (request "tile_0_0" "tile_2_1" ["tile_1_0"])).
  - by_evaluation.
  - by_evaluation.
  - by_evaluation.
  - unfold tileIdBlocked. cbn. repeat constructor.
  - unfold tileIdBlocked. cbn. repeat constructor.
  - by_evaluation.
  - by_evaluation.
  - intros tile Ht _. apply list_elem_of_In in Ht. cbn in Ht.
    repeat (destruct Ht as [<- | Ht]; [reflexivity |]). destruct Ht.
  - intros tile Ht _. apply list_elem_of_In in Ht. cbn in Ht.
    repeat (destruct Ht as [<- | Ht]; [reflexivity |]). destruct Ht.
  - by_evaluation.
  - by_evaluation.
  - discriminate.
Defined.

(** C1 as stated fails on tile lists that repeat an id or a coordinate.
    With two ids used twice, findPath returns a five-tile path although a
    four-tile route exists; with two tiles on one coordinate, findPath
    reports no route although the destination is next to the start. *)
Lemma findPath_not_shortest_on_repeats :
  (fst <$> findPath (createPathfindingService repeatedIdTiles 256)
             (request "tile_2_5" "tile_2_0" [])
   = Some (Found ["tile_2_5"; "tile_2_6"; "tile_2_7"; "tile_0_5"; "tile_2_0"] false) /\
   route repeatedIdTiles ∅ "tile_2_5"
     ["tile_2_5"; "tile_1_5"; "tile_0_5"; "tile_2_0"] "tile_2_0") /\
  (fst <$> findPath (createPathfindingService repeatedCoordinateTiles 256)
             (request "tile_1_0" "tile_0_0" [])
   = Some (Unreachable no_route []) /\
   route repeatedCoordinateTiles ∅ "tile_1_0" ["tile_1_0"; "tile_0_0"] "tile_0_0").
Proof.
  assert (Hstep : forall tiles a b ta tb,
            tile_id ta = a -> tile_id tb = b ->
            In ta tiles -> In tb tiles ->
            walkable ta = true -> walkable tb = true ->
            adjacent ta tb -> step tiles ∅ a b).
  { intros tiles a b ta tb Ha Hb Hta%list_elem_of_In Htb%list_elem_of_In Hwa Hwb Hadj.
    exists ta, tb. split; [done |]. split; [done |].
    split; [split; [done |]; split; [done |]; set_solver |].
    split; [split; [done |]; split; [done |]; set_solver | done]. }
  split; split.
  - vm_compute. reflexivity.
  - apply (route_step _ _ _ ["tile_2_5"; "tile_1_5"; "tile_0_5"] "tile_0_5" "tile_2_0").
    + apply (route_step _ _ _ ["tile_2_5"; "tile_1_5"] "tile_1_5" "tile_0_5").
      * apply (route_step _ _ _ ["tile_2_5"] "tile_2_5" "tile_1_5"); [constructor |].
        apply (Hstep _ _ _ (tileAt "tile_2_5" 2 5) (tileAt "tile_1_5" 1 5));
          try reflexivity; cbn; auto 12.
      * apply (Hstep _ _ _ (tileAt "tile_1_5" 1 5) (tileAt "tile_0_5" 0 5));
          try reflexivity; cbn; auto 12.
    + apply (Hstep _ _ _ (tileAt "tile_0_5" 2 1) (tileAt "tile_2_0" 2 0));
        try reflexivity; cbn; auto 12.
  - vm_compute. reflexivity.
  - apply (route_step _ _ _ ["tile_1_0"] "tile_1_0" "tile_0_0"); [constructor |].
    apply (Hstep _ _ _ (tileAt "tile_1_0" 1 0) (tileAt "tile_0_0" 0 0));
      try reflexivity; cbn; auto 12.
Qed.

(** *** The cache *)

Lemma tail_keys_absent (cache : list (TileId * TileId * gset TileId * list TileId)) key :
  key ∉ cache.*1 -> key ∉ (tail cache).*1.
Proof.
  destruct cache as [| e cache]; [done |]. rewrite fmap_cons, not_elem_of_cons. tauto.
Qed.

Lemma stored_lookup capacity key p (cache : list (TileId * TileId * gset TileId * list TileId)) :
  cacheGet key cache = None -> cacheGet key (stored capacity key p cache) = Some p.
Proof.
  intros Hmiss%cacheGet_None. unfold stored.
  destruct (_ <? _); apply cacheGet_last; [done | apply tail_keys_absent; done].
Qed.

Lemma refreshed_lookup key p (cache : list (TileId * TileId * gset TileId * list TileId)) :
  cacheGet key (refreshed key p cache) = Some p.
Proof.
  unfold refreshed. apply cacheGet_last. intros [_ Hk]%cacheDelete_keys. done.
Qed.

(** A request that the cache can answer is answered from the cache. *)
Lemma findPath_hit tiles maxCachedRoutes s request p :
  serviceInv tiles maxCachedRoutes s ->
  rejection (nodesById s) request = None ->
  startTileId request <> destinationTileId request ->
  cacheGet (requestKey request) (routeCache s) = Some p ->
  exists s', findPath s request = Some (Found p true, s').
Proof.
  intros Hinv Hrej Hne Hget.
  destruct (findPath_outcome tiles maxCachedRoutes s request Hinv)
    as (result & s' & Hcall & Hout).
  destruct Hout; try congruence.
  exists (withCache s (refreshed (requestKey request) p0 (routeCache s))).
  rewrite Hcall. congruence.
Qed.

(** A request for the tile one stands on is answered without a look at
    the cache. *)
Lemma findPath_same_tile tiles s request :
  nodesById s = createNodesById tiles ->
  rejection (nodesById s) request = None ->
  startTileId request = destinationTileId request ->
  findPath s request = Some (Found [startTileId request] false, s).
Proof.
  intros Hnodes Hrej Hsame. unfold rejection in Hrej. unfold findPath, findPathWith.
  destruct (nodesById s !! startTileId request) as [startNode |] eqn:Hs; [| done].
  destruct (nodesById s !! destinationTileId request) as [destinationNode |] eqn:Hd; [| done].
  assert (Hsid : node_id startNode = startTileId request)
    by (rewrite Hnodes in Hs; exact (nodes_node_id _ _ _ Hs)).
  assert (Hdid : node_id destinationNode = destinationTileId request)
    by (rewrite Hnodes in Hd; exact (nodes_node_id _ _ _ Hd)).
  rewrite Hsid, Hdid. cbn zeta.
  destruct (_ || _); [done |]. destruct (_ || _); [done |].
  rewrite bool_decide_eq_true_2 by done. done.
Qed.

(** C3, as amended.  For every tile list, every capacity C, and every
    service state reached from a fresh service by earlier findPath calls,
    the route cache holds pairwise distinct keys and at most max(1, C)
    entries, before and after every call (a capacity below 1 is replaced
    by 1).  A call answered from the cache moves the hit entry to the
    most-recently-used end and keeps the order of the others.  A call that
    stores a new path appends it; if the cache was full it drops the entry
    at the least-recently-used end, and no other.  Every other call leaves
    the cache as it was. *)
Theorem cache_bounded_lru
    (tiles : list Tile) (maxCachedRoutes : Z)
    (earlier : list PathfindingRequest) (request : PathfindingRequest) :
  exists s result s',
    findPaths (createPathfindingService tiles maxCachedRoutes) earlier = Some s /\
    findPath s request = Some (result, s') /\
    NoDup (routeCache s).*1 /\
    Z.of_nat (length (routeCache s)) <= Z.max 1 maxCachedRoutes /\
    Z.of_nat (length (routeCache s')) <= Z.max 1 maxCachedRoutes /\
    match result with
    | Found p true =>
        ((requestKey request, p) ∈ routeCache s) /\
        routeCache s' =
          cacheDelete (requestKey request) (routeCache s) ++ [(requestKey request, p)]
    | Found p false =>
        (startTileId request = destinationTileId request /\ routeCache s' = routeCache s) \/
        ((requestKey request ∉ (routeCache s).*1) /\
         routeCache s' =
           if Z.of_nat (length (routeCache s)) <? Z.max 1 maxCachedRoutes
           then routeCache s ++ [(requestKey request, p)]
           else tail (routeCache s) ++ [(requestKey request, p)])
    | Unreachable _ _ => routeCache s' = routeCache s
    end.
Proof.
  destruct (findPaths_inv tiles maxCachedRoutes earlier _
              (createPathfindingService_inv tiles maxCachedRoutes)) as (s & Hrun & Hinv).
  destruct (findPath_outcome tiles maxCachedRoutes s request Hinv)
    as (result & s' & Hcall & Hout).
  pose proof (findPath_preserves tiles maxCachedRoutes s request result s' Hinv Hout)
    as (_ & Hmax' & _ & Hlen' & _).
  pose proof Hinv as (_ & Hmax & Hnd & Hlen & _).
  exists s, result, s'. rewrite Hmax in Hlen. rewrite Hmax' in Hlen'.
  repeat (split; [done |]).
  destruct Hout as [reason Hrej | Hrej Hsame | p Hrej Hne Hget | Hrej Hne Hget Hnone
                   | p Hrej Hne Hget Hsome]; try done.
  - left. done.
  - split; [apply cacheGet_Some; done | done].
  - right. split; [apply cacheGet_None; done |].
    cbn [routeCache withCache]. unfold stored. rewrite Hmax. done.
Qed.

(** C3 as stated fails for a capacity below 1: a service created with
    capacity 0 holds one route after its first successful search. *)
Lemma cache_exceeds_capacity_zero :
  exists s,
    findPaths (createPathfindingService blockTiles 0) [request "tile_0_0" "tile_2_1" []]
      = Some s /\
    length (routeCache s) = 1%nat /\
    ~ (Z.of_nat (length (routeCache s)) <= 0).
Proof.
  eexists. split; [vm_compute; reflexivity |]. split; [reflexivity |]. cbn. lia.
Qed.

(** C4.  For every tile list, capacity, service state reached from a fresh
    service by earlier findPath calls, and request: findPath returns.
    When start and destination are one known, walkable, unblocked tile (of
    a tile list with pairwise distinct ids), the result is "found" with the
    single start tile as path and fromCache false, the service is left as
    it was, and the same result comes back with the cache untouched
    whatever the cache holds: the cache is neither consulted nor populated.
    When the result is "found" for distinct start and destination, the
    same request made again at once returns "found" with fromCache true and
    the same path.  A result with fromCache true carries the path that the
    cache held under the key of the request.  An "unreachable" result
    carries an empty path and leaves the service as it was, so it is never
    stored; and every path in the cache was returned with status "found" by
    an earlier call for a request with the key of its entry, so no
    "unreachable" result is served from the cache.  (The first clause of
    the claim is read for distinct tiles, the equal case being settled by
    its second clause.) *)
Theorem findPath_cache_round_trip
    (tiles : list Tile) (maxCachedRoutes : Z)
    (earlier : list PathfindingRequest) (request : PathfindingRequest) :
  exists s answered result s1,
    findPaths (createPathfindingService tiles maxCachedRoutes) earlier = Some s /\
    findPathResults (createPathfindingService tiles maxCachedRoutes) earlier
      = Some answered /\
    findPath s request = Some (result, s1) /\
    (distinctIds tiles ->
     knownTile tiles (startTileId request) ->
     walkableTile tiles (startTileId request) ->
     startTileId request ∉ blockedSet request ->
     startTileId request = destinationTileId request ->
     result = Found [startTileId request] false /\ s1 = s /\
     forall cache, findPath (withCache s cache) request
                   = Some (Found [startTileId request] false, withCache s cache)) /\
    (forall key p, (key, p) ∈ routeCache s ->
       exists (i : nat) r fromCache,
         earlier !! i = Some r /\ requestKey r = key /\
         answered !! i = Some (Found p fromCache)) /\
    match result with
    | Found p fromCache =>
        (startTileId request <> destinationTileId request ->
         exists s2, findPath s1 request = Some (Found p true, s2)) /\
        (startTileId request = destinationTileId request ->
         p = [startTileId request] /\ fromCache = false /\ s1 = s /\
         forall cache, findPath (withCache s cache) request
                       = Some (Found p false, withCache s cache)) /\
        (fromCache = true -> cacheGet (requestKey request) (routeCache s) = Some p)
    | Unreachable reason p => p = [] /\ s1 = s
    end.
Proof.
  destruct (findPaths_answered tiles maxCachedRoutes earlier
              (createPathfindingService tiles maxCachedRoutes) [] [])
    as (s & answered & Hrun & Hres & Hinv & Hanswered).
  { apply createPathfindingService_inv. }
  { done. }
  { intros key p Hin. cbn in Hin. set_solver. }
  destruct (findPath_outcome tiles maxCachedRoutes s request Hinv)
    as (result & s1 & Hcall & Hout).
  pose proof (findPath_preserves tiles maxCachedRoutes s request result s1 Hinv Hout) as Hinv1.
  pose proof Hinv as (Hnodes & _ & _ & _ & _).
  exists s, answered, result, s1.
  split; [done |]. split; [done |]. split; [done |].
  split.
  { intros Hids Hks Hws Hbs Hsame.
    assert (Hrej : rejection (nodesById s) request = None).
    { rewrite Hnodes. apply accepted_request; try done; rewrite <- Hsame; done. }
    pose proof (findPath_same_tile tiles s request Hnodes Hrej Hsame) as Hsingle.
    rewrite Hcall in Hsingle. injection Hsingle as -> ->.
    split; [done |]. split; [done |].
    intros cache. apply (findPath_same_tile tiles); done. }
  split; [exact Hanswered |].
  destruct Hout as [reason Hrej | Hrej Hsame | p Hrej Hne Hget | Hrej Hne Hget Hnone
                   | p Hrej Hne Hget Hsome]; try done.
  - split; [done |]. split; [| done]. intros _. split; [done |]. split; [done |].
    split; [done |]. intros cache. apply (findPath_same_tile tiles); done.
  - split; [| split; [done | done]]. intros _.
    apply (findPath_hit tiles maxCachedRoutes); [done | done | done |].
    apply refreshed_lookup.
  - split; [| split; [done | done]]. intros _.
    apply (findPath_hit tiles maxCachedRoutes); [done | done | done |].
    apply stored_lookup. done.
Qed.

(** *** The two searches *)

(** C10, as amended.  For every tile list whose tiles have pairwise
    distinct ids of the TileId shape, every blocked set, and every start
    and destination such that the start tile is known or differs from the
    destination: the linear-scan search and the binary-min-heap search
    both return; one returns undefined exactly when the other does; and
    when both return a path, the two paths have the same length, both
    begin at the start tile and both end at the destination tile. *)
Theorem searches_agree
    (tiles : list Tile) (start dest : TileId) (blocked : gset TileId) :
  distinctIds tiles -> tileIds tiles ->
  knownTile tiles start \/ start <> dest ->
  exists linear heap,
    LinearScan.findShortestPath (createNodesById tiles) start dest blocked = Some linear /\
    MinHeap.findShortestPath (createNodesById tiles) start dest blocked = Some heap /\
    (linear = None <-> heap = None) /\
    forall p q, linear = Some p -> heap = Some q ->
      length p = length q /\
      head p = Some start /\ head q = Some start /\
      last p = Some dest /\ last q = Some dest.
Proof.
  intros Hids Htile Hstart.
  destruct (createNodesById tiles !! dest) as [nd |] eqn:Hd; cycle 1.
  { (* unknown destination *)
    assert (Hne : start <> dest).
    { destruct Hstart as [Hk%nodes_known | Hne]; [| done].
      intros ->. rewrite Hd in Hk. destruct Hk; done. }
    exists None, None. split; [apply linear_unknown_tile; auto |].
    split; [apply heap_unknown_dest; done |]. split; [done | done]. }
  destruct (createNodesById tiles !! start) as [ns |] eqn:Hs; cycle 1.
  { (* unknown start *)
    assert (Hne : start <> dest).
    { destruct Hstart as [Hk%nodes_known | Hne]; [| done].
      rewrite Hs in Hk. destruct Hk; done. }
    exists None, None. split; [apply linear_unknown_tile; auto |].
    split; [apply heap_unknown_start; done |]. split; [done | done]. }
  assert (Hcons : consistent (createNodesById tiles) blocked dest)
    by (apply heuristic_consistent; done).
  assert (Htruthy : forall v, is_Some (createNodesById tiles !! v) -> truthy v = true)
    by (apply nodes_truthy; done).
  destruct (linear_findShortestPath_correct (createNodesById tiles) blocked start dest)
    as (linear & Hlinear & Hl); [eauto | eauto | done | done |].
  destruct (findShortestPath_correct (createNodesById tiles) blocked start dest)
    as (heap & Hheap & Hh); [eauto | eauto | done | done |].
  exists linear, heap. split; [done |]. split; [done |].
  destruct linear as [p |], heap as [q |]; cbn [shortestPath] in Hl, Hh.
  - split; [done |]. intros ? ? [= <-] [= <-].
    destruct Hl as [Hp Hpmin], Hh as [Hq Hqmin].
    destruct (pathTo_walk _ _ _ _ _ Hp) as (mp & Hlp & Hwp).
    destruct (pathTo_walk _ _ _ _ _ Hq) as (mq & Hlq & Hwq).
    specialize (Hpmin _ Hwq). specialize (Hqmin _ Hwp).
    destruct (pathTo_ends _ _ _ _ _ Hp), (pathTo_ends _ _ _ _ _ Hq).
    split; [lia | done].
  - exfalso. destruct Hl as [Hp _].
    destruct (pathTo_walk _ _ _ _ _ Hp) as (mp & _ & Hwp). exact (Hh _ Hwp).
  - exfalso. destruct Hh as [Hq _].
    destruct (pathTo_walk _ _ _ _ _ Hq) as (mq & _ & Hwq). exact (Hl _ Hwq).
  - split; [done |]. intros ? ? [=].
Qed.

Lemma searches_agree_witness :
  exists linear heap,
    LinearScan.findShortestPath (createNodesById blockTiles) "tile_0_0" "tile_2_1"
      {["tile_1_0"]} = Some linear /\
    MinHeap.findShortestPath (createNodesById blockTiles) "tile_0_0" "tile_2_1"
      {["tile_1_0"]} = Some heap /\
    (linear = None <-> heap = None) /\
    forall p q, linear = Some p -> heap = Some q ->
      length p = length q /\
      head p = Some "tile_0_0" /\ head q = Some "tile_0_0" /\
      last p = Some "tile_2_1" /\ last q = Some "tile_2_1".
Proof.
  apply (searches_agree blockTiles "tile_0_0" "tile_2_1" {["tile_1_0"]}).
  - by_evaluation.
  - by_evaluation.
  - left. by_evaluation.
Defined.

(** C10 as stated fails in two ways.  For a start tile that is not in the
    tile list and is also the destination, the linear-scan search returns
    undefined and the heap search returns the one-tile path.  On a tile
    list that uses two ids twice, both searches return a path, of four
    tiles from the linear scan and of five from the heap. *)
Lemma searches_disagree :
  (LinearScan.findShortestPath (createNodesById blockTiles) "tile_9_9" "tile_9_9" ∅
   = Some None /\
   MinHeap.findShortestPath (createNodesById blockTiles) "tile_9_9" "tile_9_9" ∅
   = Some (Some ["tile_9_9"])) /\
  (LinearScan.findShortestPath (createNodesById repeatedIdTiles) "tile_2_5" "tile_2_0" ∅
   = Some (Some ["tile_2_5"; "tile_1_5"; "tile_0_5"; "tile_2_0"]) /\
   MinHeap.findShortestPath (createNodesById repeatedIdTiles) "tile_2_5" "tile_2_0" ∅
   = Some (Some ["tile_2_5"; "tile_2_6"; "tile_2_7"; "tile_0_5"; "tile_2_0"])).
Proof.
  split; split; vm_compute; reflexivity.
Qed.

End PathfindingProperties.


(** ** Simulation time *)

Section ClockProperties.
Import Schedule Snapshots Clock.

Lemma Qle_bool_inject_Z_false a b : b < a -> Qle_bool (inject_Z a) (inject_Z b) = false.
Proof.
  intros H. destruct (Qle_bool _ _) eqn:E; [| done].
  apply Qle_bool_iff in E. rewrite <- Zle_Qle in E. lia.
Qed.

Lemma isSimulationTime_timeValue (t : Schedule.SimulationTime) :
  0 <= Schedule.tick t -> 1 <= Schedule.day t ->
  0 <= Schedule.minuteOfDay t <= 1439 ->
  isSimulationTime (Some (timeValue t)) = true.
Proof.
  intros Ht Hd Hm. unfold isSimulationTime, timeValue.
  cbn [getField lookupField String.eqb Ascii.eqb Bool.eqb].
  rewrite !isIntegerAtLeast_jint by lia. cbn [andb].
  unfold isNumberSuchThat, jint. rewrite isInteger_inject_Z. cbn [andb].
  change 0%Q with (inject_Z 0). change 1440%Q with (inject_Z 1440).
  rewrite Qle_bool_inject_Z by lia. rewrite Qle_bool_inject_Z_false by lia. done.
Qed.

Lemma toSimulationTime_Some tick dayLengthTicks :
  0 <= tick -> 0 < dayLengthTicks ->
  toSimulationTime tick dayLengthTicks =
    Some {| Schedule.tick := tick;
            Schedule.day := tick / dayLengthTicks + 1;
            Schedule.minuteOfDay :=
              Z.min 1439 ((tick mod dayLengthTicks * 1440) / dayLengthTicks) |}.
Proof.
  intros Ht Hl. unfold toSimulationTime, assertNonNegativeInteger, assertPositiveInteger.
  rewrite (proj2 (Z.ltb_ge tick 0)) by lia.
  rewrite (proj2 (Z.leb_gt dayLengthTicks 0)) by lia. done.
Qed.

Lemma toSimulationTime_defined tick dayLengthTicks t :
  toSimulationTime tick dayLengthTicks = Some t -> 0 <= tick /\ 0 < dayLengthTicks.
Proof.
  unfold toSimulationTime, assertNonNegativeInteger, assertPositiveInteger.
  destruct (Z.ltb_spec tick 0); [done |].
  destruct (Z.leb_spec dayLengthTicks 0); [done |]. lia.
Qed.

Lemma minute_below_day dayTick dayLengthTicks :
  0 <= dayTick < dayLengthTicks ->
  0 <= (dayTick * 1440) / dayLengthTicks <= 1439.
Proof.
  intros H. split.
  - apply Z.div_pos; lia.
  - assert ((dayTick * 1440) / dayLengthTicks < 1440); [| lia].
    apply Z.div_lt_upper_bound; lia.
Qed.

(** X1.  For a tick and a day length that are safe integers, with the day
    length times 1440 a safe integer too: toSimulationTime throws exactly
    when the tick is negative or the day length is not positive.
    Otherwise it returns the tick unchanged, the 1-based day that contains
    the tick, and the minute of the day in 0..1439, which is the share of
    the day elapsed scaled to 1440 minutes (the clamp to 1439 never binds);
    the result passes isSimulationTime. *)
Theorem toSimulationTime_fields (tick dayLengthTicks : Z) :
  withinExactRange tick dayLengthTicks ->
  match toSimulationTime tick dayLengthTicks with
  | None => tick < 0 \/ dayLengthTicks <= 0
  | Some t =>
      0 <= tick /\ 0 < dayLengthTicks /\
      Schedule.tick t = tick /\
      1 <= Schedule.day t /\
      (Schedule.day t - 1) * dayLengthTicks <= tick < Schedule.day t * dayLengthTicks /\
      Schedule.minuteOfDay t =
        ((tick - (Schedule.day t - 1) * dayLengthTicks) * 1440) / dayLengthTicks /\
      0 <= Schedule.minuteOfDay t <= 1439 /\
      isSimulationTime (Some (timeValue t)) = true
  end.
Proof.
  intros _.
  destruct (Z.ltb_spec tick 0) as [Hneg | Ht].
  { unfold toSimulationTime, assertNonNegativeInteger.
    rewrite (proj2 (Z.ltb_lt tick 0)) by lia. auto. }
  destruct (Z.leb_spec dayLengthTicks 0) as [Hl | Hl].
  { unfold toSimulationTime, assertNonNegativeInteger, assertPositiveInteger.
    rewrite (proj2 (Z.ltb_ge tick 0)) by lia.
    rewrite (proj2 (Z.leb_le dayLengthTicks 0)) by lia. auto. }
  rewrite toSimulationTime_Some by lia.
  cbn [Schedule.tick Schedule.day Schedule.minuteOfDay].
  pose proof (Z.div_mod tick dayLengthTicks ltac:(lia)) as Hdm.
  pose proof (Z.mod_pos_bound tick dayLengthTicks Hl) as Hmod.
  pose proof (Z.div_pos tick dayLengthTicks Ht Hl) as Hdiv.
  pose proof (minute_below_day _ _ Hmod) as Hmin.
  assert (Hday : (tick / dayLengthTicks + 1 - 1) * dayLengthTicks
                 = dayLengthTicks * (tick / dayLengthTicks)) by lia.
  split; [done |]. split; [done |]. split; [done |]. split; [lia |].
  split; [nia |]. rewrite Z.min_r by lia.
  split; [f_equal; f_equal; lia |]. split; [lia |].
  apply isSimulationTime_timeValue; cbn; lia.
Qed.

Lemma toSimulationTime_fields_witness :
  withinExactRange 250 100 /\
  match toSimulationTime 250 100 with
  | None => 250 < 0 \/ 100 <= 0
  | Some t =>
      0 <= 250 /\ 0 < 100 /\
      Schedule.tick t = 250 /\
      1 <= Schedule.day t /\
      (Schedule.day t - 1) * 100 <= 250 < Schedule.day t * 100 /\
      Schedule.minuteOfDay t = ((250 - (Schedule.day t - 1) * 100) * 1440) / 100 /\
      0 <= Schedule.minuteOfDay t <= 1439 /\
      isSimulationTime (Some (timeValue t)) = true
  end.
Proof.
  assert (Hrange : withinExactRange 250 100)
    by (unfold withinExactRange, MAX_SAFE_INTEGER, MINUTES_PER_DAY; lia).
  split; [exact Hrange |]. exact (toSimulationTime_fields 250 100 Hrange).
Defined.

(** X2.  Simulation time is periodic and monotone: one day length later
    the minute of the day is the same and the day is one more; and of two
    ticks the later one never has an earlier day, nor, on the same day, an
    earlier minute. *)
Theorem toSimulationTime_periodic_monotone
    (tick later dayLengthTicks : Z) (t : Schedule.SimulationTime) :
  toSimulationTime tick dayLengthTicks = Some t ->
  tick <= later ->
  toSimulationTime (tick + dayLengthTicks) dayLengthTicks =
    Some {| Schedule.tick := tick + dayLengthTicks;
            Schedule.day := Schedule.day t + 1;
            Schedule.minuteOfDay := Schedule.minuteOfDay t |} /\
  exists t', toSimulationTime later dayLengthTicks = Some t' /\
             Schedule.day t <= Schedule.day t' /\
             (Schedule.day t = Schedule.day t' ->
              Schedule.minuteOfDay t <= Schedule.minuteOfDay t').
Proof.
  intros Hsome Hle.
  destruct (toSimulationTime_defined _ _ _ Hsome) as [Ht Hl].
  rewrite toSimulationTime_Some in Hsome by lia. injection Hsome as <-.
  cbn [Schedule.tick Schedule.day Schedule.minuteOfDay].
  split.
  - rewrite toSimulationTime_Some by lia. f_equal.
    replace (tick + dayLengthTicks) with (tick + 1 * dayLengthTicks) by lia.
    rewrite Z.div_add, Z.mod_add by lia. done.
  - rewrite toSimulationTime_Some by lia. eexists. split; [reflexivity |].
    cbn [Schedule.tick Schedule.day Schedule.minuteOfDay].
    pose proof (Z.div_le_mono tick later dayLengthTicks Hl Hle) as Hdiv.
    split; [lia |]. intros Hsame.
    assert (Hq : tick / dayLengthTicks = later / dayLengthTicks) by lia.
    pose proof (Z.div_mod tick dayLengthTicks ltac:(lia)) as H1.
    pose proof (Z.div_mod later dayLengthTicks ltac:(lia)) as H2.
    assert (Hmod : tick mod dayLengthTicks <= later mod dayLengthTicks) by (rewrite Hq in H1; lia).
    apply Z.min_le_compat_l. apply Z.div_le_mono; [lia |]. lia.
Qed.

Lemma toSimulationTime_periodic_monotone_witness :
  toSimulationTime (250 + 240) 240 =
    Some {| Schedule.tick := 250 + 240;
            Schedule.day := Schedule.day {| Schedule.tick := 250; Schedule.day := 2;
                                            Schedule.minuteOfDay := 60 |} + 1;
            Schedule.minuteOfDay := Schedule.minuteOfDay
                                      {| Schedule.tick := 250; Schedule.day := 2;
                                         Schedule.minuteOfDay := 60 |} |} /\
  exists t', toSimulationTime 300 240 = Some t' /\
             Schedule.day {| Schedule.tick := 250; Schedule.day := 2;
                             Schedule.minuteOfDay := 60 |} <= Schedule.day t' /\
             (Schedule.day {| Schedule.tick := 250; Schedule.day := 2;
                              Schedule.minuteOfDay := 60 |} = Schedule.day t' ->
              Schedule.minuteOfDay {| Schedule.tick := 250; Schedule.day := 2;
                                      Schedule.minuteOfDay := 60 |}
              <= Schedule.minuteOfDay t').
Proof.
  apply (toSimulationTime_periodic_monotone 250 300 240
           {| Schedule.tick := 250; Schedule.day := 2; Schedule.minuteOfDay := 60 |}).
  - reflexivity.
  - lia.
Defined.

End ClockProperties.

(** ** Strings and tile ids *)

Section StringProperties.
Import JsString.

Lemma append_cons (x : ascii) (a b : string) :
  (String x a ++ b)%string = String x (a ++ b)%string.
Proof. reflexivity. Qed.

Lemma append_nil (b : string) : ("" ++ b)%string = b.
Proof. reflexivity. Qed.

Lemma append_assoc (a b c : string) : ((a ++ b) ++ c)%string = (a ++ (b ++ c))%string.
Proof.
  induction a as [| x a IH]; [done |]. rewrite !append_cons. f_equal. exact IH.
Qed.

Lemma append_empty_r (a : string) : (a ++ "")%string = a.
Proof. induction a as [| x a IH]; [done |]. rewrite append_cons. f_equal. exact IH. Qed.

Lemma allChars_append p (a b : string) :
  allChars p (a ++ b) = allChars p a && allChars p b.
Proof.
  induction a as [| x a IH]; [done |]. rewrite append_cons. cbn [allChars].
  rewrite IH, andb_assoc. done.
Qed.

(** Two strings that agree up to their first separator agree on both
    sides of it. *)
Lemma append_separator_inj (c : ascii) (a1 a2 r1 r2 : string) :
  without c a1 = true -> without c a2 = true ->
  (a1 ++ String c r1)%string = (a2 ++ String c r2)%string -> a1 = a2 /\ r1 = r2.
Proof.
  unfold without. revert a2.
  induction a1 as [| x a1 IH]; intros [| y a2] H1 H2 Heq;
    rewrite ?append_cons, ?append_nil in Heq; cbn [allChars] in *.
  - injection Heq as ->. done.
  - injection Heq as <- _. apply andb_true_iff in H2 as [H2 _].
    rewrite Ascii.eqb_refl in H2. done.
  - injection Heq as -> _. apply andb_true_iff in H1 as [H1 _].
    rewrite Ascii.eqb_refl in H1. done.
  - injection Heq as -> Heq. apply andb_true_iff in H1 as [_ H1].
    apply andb_true_iff in H2 as [_ H2].
    destruct (IH a2 H1 H2 Heq) as [-> ->]. done.
Qed.

Lemma dropPrefix_Some prefix s r : dropPrefix prefix s = Some r -> s = (prefix ++ r)%string.
Proof.
  revert s. induction prefix as [| a p IH]; intros s H; cbn [dropPrefix] in *.
  - injection H as ->. done.
  - destruct s as [| b s]; [done |]. rewrite append_cons.
    destruct (Ascii.eqb_spec a b) as [-> | _]; [| done]. rewrite (IH _ H). done.
Qed.

Lemma dropDigits_split s :
  exists ds, s = (ds ++ snd (dropDigits s))%string /\ digits ds = true /\
             (fst (dropDigits s) = true <-> ds <> "") /\
             (forall c rest, snd (dropDigits s) = String c rest -> isDigit c = false).
Proof.
  induction s as [| c s IH].
  - exists "". cbn [dropDigits fst snd]. split; [done |]. split; [done |].
    split; [split; done | done].
  - cbn [dropDigits]. destruct (isDigit c) eqn:Hc.
    + destruct IH as (ds & Hs & Hd & _ & Hrest).
      exists (String c ds). cbn [fst snd]. rewrite append_cons.
      split; [rewrite <- Hs; done |].
      split; [unfold digits in *; cbn [allChars]; rewrite Hc, Hd; done |].
      split; [done |]. exact Hrest.
    + exists "". cbn [fst snd]. split; [done |]. split; [done |].
      split; [split; done |]. intros c' rest [= -> ->]. done.
Qed.

(** The shape of a tile id: [tile_], digits, [_], digits. *)
Lemma isTileId_shape s :
  isTileId s = true ->
  exists d1 d2, s = ("tile_" ++ d1 ++ "_" ++ d2)%string /\
                digits d1 = true /\ digits d2 = true /\ d1 <> "" /\ d2 <> "".
Proof.
  unfold isTileId. destruct (dropPrefix "tile_" s) as [r1 |] eqn:Hp; [| done].
  apply dropPrefix_Some in Hp. subst s.
  destruct (dropDigits_split r1) as (d1 & H1 & Hd1 & Hne1 & _).
  destruct (dropDigits r1) as [b1 rest1]. cbn [fst snd] in *.
  destruct b1; [| done]. destruct rest1 as [| c r2]; [done |].
  destruct (Ascii.eqb_spec c "_") as [-> | Hc];
    [| destruct c as [[] [] [] [] [] [] [] []]; done].
  destruct (dropDigits_split r2) as (d2 & H2 & Hd2 & Hne2 & _).
  destruct (dropDigits r2) as [b2 rest2]. cbn [fst snd] in *.
  destruct b2; [| done]. intros Hempty.
  assert (rest2 = "") as -> by (destruct rest2; done).
  rewrite append_empty_r in H2. subst r2.
  exists d1, d2. split; [rewrite H1; done |]. split; [done |]. split; [done |].
  split; [apply Hne1; done | apply Hne2; done].
Qed.

Lemma digits_without (c : ascii) (s : string) :
  isDigit c = false -> digits s = true -> without c s = true.
Proof.
  intros Hc. unfold digits, without. induction s as [| x s IH]; cbn; [done |].
  intros [Hx Hs]%andb_true_iff. rewrite (IH Hs), andb_true_r.
  destruct (Ascii.eqb_spec x c) as [-> | _]; [congruence | done].
Qed.

Lemma isTileId_without (c : ascii) (s : string) :
  isDigit c = false -> without c "tile_" = true -> isTileId s = true -> without c s = true.
Proof.
  intros Hc Ht (d1 & d2 & -> & Hd1 & Hd2 & _)%isTileId_shape.
  unfold without in *. rewrite !allChars_append.
  fold (without c d1). fold (without c d2).
  rewrite Ht, (digits_without c d1 Hc Hd1), (digits_without c d2 Hc Hd2).
  cbn. cbn in Ht. rewrite !andb_true_r in Ht.
  apply andb_true_iff in Ht as (_ & Ht). apply andb_true_iff in Ht as (_ & Ht).
  apply andb_true_iff in Ht as (_ & Ht). apply andb_true_iff in Ht as (_ & Ht).
  rewrite Ht. done.
Qed.

End StringProperties.

(** ** Action execution *)

Section ActionExecutionProperties.
Import Schedule ActionExecution JsString.


Local Abbreviation waiting e :=
  {| execution := e; completed := false;
     progress_npcState := if bool_decide (exec_action e = Rest) then Resting else Acting |}.

Lemma advanceExecutionMany_cons e t ticks :
  advanceExecutionMany e (t :: ticks) =
    ((advanceExecutionMany (execution (advanceVillagerActionExecution e t)) ticks).1,
     advanceVillagerActionExecution e t
       :: (advanceExecutionMany (execution (advanceVillagerActionExecution e t)) ticks).2).
Proof.
  cbn [advanceExecutionMany]. destruct (advanceExecutionMany _ ticks). done.
Qed.

Lemma advance_completed e tick c :
  completedAtTick e = Some c -> advanceVillagerActionExecution e tick = waiting e.
Proof. intros H. unfold advanceVillagerActionExecution. rewrite H. done. Qed.

Lemma advance_early e tick :
  completedAtTick e = None -> tick < completesAtTick e ->
  advanceVillagerActionExecution e tick = waiting e.
Proof.
  intros H Hlt. unfold advanceVillagerActionExecution. rewrite H.
  rewrite (proj2 (Z.ltb_lt _ _) Hlt). done.
Qed.

Lemma advance_due e tick :
  completedAtTick e = None -> completesAtTick e <= tick ->
  advanceVillagerActionExecution e tick =
    {| execution := {| exec_action := exec_action e;
                       taskSignature := taskSignature e;
                       startedAtTick := startedAtTick e;
                       completesAtTick := completesAtTick e;
                       completedAtTick := Some tick |};
       completed := true;
       progress_npcState := Planning |}.
Proof.
  intros H Hge. unfold advanceVillagerActionExecution. rewrite H.
  rewrite (proj2 (Z.ltb_ge _ _) Hge). done.
Qed.

Lemma advanceExecutionMany_completed ticks e c :
  completedAtTick e = Some c ->
  advanceExecutionMany e ticks = (e, map (fun _ => waiting e) ticks).
Proof.
  intros Hc. induction ticks as [| t ticks IH]; [done |].
  rewrite advanceExecutionMany_cons, (advance_completed e t c Hc). cbn [execution].
  rewrite IH. done.
Qed.

Lemma waiting_not_completed e (ticks : list Z) :
  filter (fun r => completed r = true) (map (fun _ => waiting e) ticks) = [].
Proof.
  induction ticks as [| t ticks IH]; [done |]. cbn [map].
  rewrite filter_cons, decide_False by done. exact IH.
Qed.

(** X4.  In a run of advanceVillagerActionExecution, each call on the
    execution the previous call returned, exactly one call reports
    completion when some tick reaches completesAtTick and the execution was
    not complete before, and none otherwise.  The completing call is the
    first whose tick is not before completesAtTick; it records that tick as
    completedAtTick and reports the state "planning".  Every other call
    reports "resting" for a rest action and "acting" otherwise, and
    nothing but completedAtTick ever changes. *)
Theorem execution_completes_once (e : VillagerActionExecution) (ticks : list Z) :
  length (filter (fun r => completed r = true) (advanceExecutionMany e ticks).2)
    = match completionTick e ticks with Some _ => 1%nat | None => 0%nat end /\
  (advanceExecutionMany e ticks).1 =
    match completionTick e ticks with
    | Some t => {| exec_action := exec_action e;
                   taskSignature := taskSignature e;
                   startedAtTick := startedAtTick e;
                   completesAtTick := completesAtTick e;
                   completedAtTick := Some t |}
    | None => e
    end /\
  Forall2 (fun t r =>
             if completed r
             then completionTick e ticks = Some t /\ progress_npcState r = Planning /\
                  completedAtTick (execution r) = Some t
             else progress_npcState r =
                    if bool_decide (exec_action e = Rest) then Resting else Acting)
          ticks (advanceExecutionMany e ticks).2.
Proof.
  assert (Hwait : forall (e' : VillagerActionExecution) (ts : list Z) P,
            exec_action e' = exec_action e ->
            Forall2 (fun t r =>
                       if completed r then P t r
                       else progress_npcState r =
                              if bool_decide (exec_action e = Rest) then Resting else Acting)
                    ts (map (fun _ => waiting e') ts)).
  { intros e' ts P He'. induction ts as [| t ts IH]; constructor; [| exact IH].
    cbn. rewrite He'. done. }
  unfold completionTick. destruct (completedAtTick e) as [c |] eqn:Hc.
  { cbn [isDefined]. rewrite (advanceExecutionMany_completed ticks e c Hc). cbn [fst snd].
    rewrite waiting_not_completed. split; [done |]. split; [done |].
    apply Hwait. done. }
  cbn [isDefined].
  induction ticks as [| t ticks IH]; [split; [done |]; split; [done | constructor] |].
  rewrite advanceExecutionMany_cons. cbn [fst snd].
  destruct (Z.leb_spec (completesAtTick e) t) as [Hge | Hlt].
  - assert (Hfind : find (fun t0 => completesAtTick e <=? t0) (t :: ticks) = Some t)
      by (cbn [find]; rewrite (proj2 (Z.leb_le _ _) Hge); done).
    rewrite Hfind, (advance_due e t Hc Hge). cbn [execution].
    rewrite (advanceExecutionMany_completed ticks
               {| exec_action := exec_action e; taskSignature := taskSignature e;
                  startedAtTick := startedAtTick e; completesAtTick := completesAtTick e;
                  completedAtTick := Some t |} t eq_refl).
    cbn [fst snd].
    rewrite filter_cons, decide_True by done. rewrite waiting_not_completed.
    split; [done |]. split; [done |]. constructor; [cbn; done |].
    apply (Hwait _ ticks (fun t0 r => Some t = Some t0 /\ progress_npcState r = Planning /\
                                     completedAtTick (execution r) = Some t0)). done.
  - assert (Hfind : find (fun t0 => completesAtTick e <=? t0) (t :: ticks)
                    = find (fun t0 => completesAtTick e <=? t0) ticks)
      by (cbn [find]; rewrite (proj2 (Z.leb_gt _ _) Hlt); done).
    rewrite Hfind, (advance_early e t Hc Hlt). cbn [execution].
    destruct IH as (Hcount & Hlast & Hcalls).
    rewrite filter_cons, decide_False by done.
    split; [done |]. split; [done |]. constructor; [cbn; done | exact Hcalls].
Qed.

Lemma actionName_without_bar a : without "|" (Snapshots.actionName a) = true.
Proof. destruct a; reflexivity. Qed.

Lemma actionName_inj a b : Snapshots.actionName a = Snapshots.actionName b -> a = b.
Proof. destruct a, b; cbn; intros H; done. Qed.

Lemma sourceName_inj a b : sourceName a = sourceName b -> a = b.
Proof. destruct a, b; cbn; intros H; done. Qed.

Lemma target_without_bar (task : ActiveVillagerTask) :
  tileTarget task -> without "|" (default "none" (task_targetTileId task)) = true.
Proof.
  intros Ht. destruct (task_targetTileId task) as [target |] eqn:E; [| reflexivity].
  cbn [default]. apply isTileId_without; [reflexivity | reflexivity | exact (Ht _ E)].
Qed.

Lemma task_signature_parts (t1 t2 : ActiveVillagerTask) :
  tileTarget t1 -> tileTarget t2 ->
  createVillagerTaskSignature t1 = createVillagerTaskSignature t2 ->
  task_action t1 = task_action t2 /\
  task_targetTileId t1 = task_targetTileId t2 /\
  task_source t1 = task_source t2.
Proof.
  intros H1 H2 Heq. unfold createVillagerTaskSignature in Heq.
  change ("|" ++ ?x)%string with (String "|" x) in Heq.
  apply append_separator_inj in Heq as [Ha Heq]; [| apply actionName_without_bar ..].
  apply append_separator_inj in Heq as [Ht Hs]; [| apply target_without_bar; done ..].
  split; [apply actionName_inj; done |]. split; [| apply sourceName_inj; done].
  destruct (task_targetTileId t1) as [a |] eqn:E1, (task_targetTileId t2) as [b |] eqn:E2;
    cbn in Ht.
  - congruence.
  - subst a. specialize (H1 _ E1). done.
  - subst b. specialize (H2 _ E2). done.
  - done.
Qed.

(** X5.  For tasks whose target, if any, has the TileId shape, two tasks
    have the same signature exactly when they have the same action, target
    and source (the villager is not part of the signature); hence
    shouldStartVillagerActionExecution answers false exactly when the
    running execution was started for a task with the same action, target
    and source, and true when there is no running execution. *)
Theorem task_signature_identifies_task
    (running next : ActiveVillagerTask) (e : VillagerActionExecution) :
  tileTarget running -> tileTarget next ->
  taskSignature e = createVillagerTaskSignature running ->
  (createVillagerTaskSignature running = createVillagerTaskSignature next <->
   task_action running = task_action next /\
   task_targetTileId running = task_targetTileId next /\
   task_source running = task_source next) /\
  (shouldStartVillagerActionExecution (Some e) (createVillagerTaskSignature next) = false <->
   task_action running = task_action next /\
   task_targetTileId running = task_targetTileId next /\
   task_source running = task_source next) /\
  shouldStartVillagerActionExecution None (createVillagerTaskSignature next) = true.
Proof.
  intros H1 H2 He.
  assert (Hiff : createVillagerTaskSignature running = createVillagerTaskSignature next <->
                 task_action running = task_action next /\
                 task_targetTileId running = task_targetTileId next /\
                 task_source running = task_source next).
  { split; [apply task_signature_parts; done |].
    intros (Ha & Ht & Hs). unfold createVillagerTaskSignature. rewrite Ha, Ht, Hs. done. }
  split; [exact Hiff |]. split; [| done].
  cbn [shouldStartVillagerActionExecution]. rewrite He, negb_false_iff, String.eqb_eq.
  exact Hiff.
Qed.

Lemma task_signature_identifies_task_witness :
  (createVillagerTaskSignature farmTask = createVillagerTaskSignature idleTask <->
   task_action farmTask = task_action idleTask /\
   task_targetTileId farmTask = task_targetTileId idleTask /\
   task_source farmTask = task_source idleTask) /\
  (shouldStartVillagerActionExecution
     (Some {| exec_action := Farm; taskSignature := "farm|tile_3_7|schedule";
              startedAtTick := 10; completesAtTick := 16; completedAtTick := None |})
     (createVillagerTaskSignature idleTask) = false <->
   task_action farmTask = task_action idleTask /\
   task_targetTileId farmTask = task_targetTileId idleTask /\
   task_source farmTask = task_source idleTask) /\
  shouldStartVillagerActionExecution None (createVillagerTaskSignature idleTask) = true.
Proof.
  apply (task_signature_identifies_task farmTask idleTask
           {| exec_action := Farm; taskSignature := "farm|tile_3_7|schedule";
              startedAtTick := 10; completesAtTick := 16; completedAtTick := None |}).
  - intros target [= <-]. reflexivity.
  - intros target H. discriminate H.
  - reflexivity.
Defined.

End ActionExecutionProperties.


(** ** Resource inventory *)

Section ResourceProperties.
Import Resources.

Lemma occurrences_cons (a b : VillagerActionType) (actions : list VillagerActionType) :
  occurrences a (b :: actions) = (if decide (b = a) then 1 else 0) + occurrences a actions.
Proof.
  unfold occurrences. rewrite filter_cons. destruct (decide (b = a)); cbn [length]; lia.
Qed.

Lemma occurrences_nonneg a actions : 0 <= occurrences a actions.
Proof. unfold occurrences. lia. Qed.

Lemma applyAction_nonNegative inventory a :
  nonNegative inventory -> nonNegative (applyAction inventory a).
Proof. unfold nonNegative. destruct a; cbn; lia. Qed.

Lemma effects_nonNegative actions : forall inventory,
  nonNegative inventory -> nonNegative (applyActionResourceEffects inventory actions).
Proof.
  unfold applyActionResourceEffects.
  induction actions as [| a actions IH]; intros inventory Hnn; [done |].
  cbn [foldl]. apply IH, applyAction_nonNegative, Hnn.
Qed.

(** While the crops cover the shop actions still to come, every shop
    action takes one crop. *)
Lemma crops_covered actions : forall inventory,
  nonNegative inventory -> occurrences Shop actions <= crops inventory ->
  crops (applyActionResourceEffects inventory actions)
    = crops inventory + 2 * occurrences Farm actions - occurrences Shop actions.
Proof.
  unfold applyActionResourceEffects.
  induction actions as [| a actions IH]; intros inventory Hnn Hcover.
  - unfold occurrences. cbn. lia.
  - cbn [foldl]. rewrite !(occurrences_cons _ a) in *.
    pose proof (occurrences_nonneg Shop actions).
    pose proof (applyAction_nonNegative inventory a Hnn) as Hstep.
    unfold nonNegative in Hnn.
    rewrite IH; [| exact Hstep |];
      destruct a; repeat case_decide; try done; cbn in *; lia.
Qed.

(** X6.  On an inventory of safe integers without negative amounts, and as
    long as no amount can leave the safe integers over the actions:
    applying the effects of a list of completed actions leaves no amount
    negative; coins grow by 3 for every shop action and goodwill by 1 for
    every chat and rest action; each farm action adds 2 crops, each shop
    action takes 1 crop unless there is none, in which case the crops stay
    at 0 (the shop action still pays its coins), and no other action
    changes the crops; hence the crops end between the initial amount plus
    2 per farm action minus 1 per shop action and the initial amount plus 2
    per farm action, and at the lower end when the initial crops cover the
    shop actions; and walk and observe actions change nothing. *)
Theorem resource_effects_totals
    (inventory : ResourceInventory) (actions : list VillagerActionType) :
  nonNegative inventory ->
  withinSafeRange inventory actions ->
  nonNegative (applyActionResourceEffects inventory actions) /\
  coins (applyActionResourceEffects inventory actions)
    = coins inventory + 3 * occurrences Shop actions /\
  goodwill (applyActionResourceEffects inventory actions)
    = goodwill inventory + occurrences Chat actions + occurrences Rest actions /\
  (forall before a after, actions = before ++ a :: after ->
     crops (applyActionResourceEffects inventory (before ++ [a]))
     = match a with
       | Farm => crops (applyActionResourceEffects inventory before) + 2
       | Shop => Z.max 0 (crops (applyActionResourceEffects inventory before) - 1)
       | _ => crops (applyActionResourceEffects inventory before)
       end) /\
  crops inventory + 2 * occurrences Farm actions - occurrences Shop actions
    <= crops (applyActionResourceEffects inventory actions)
    <= crops inventory + 2 * occurrences Farm actions /\
  (occurrences Shop actions <= crops inventory ->
   crops (applyActionResourceEffects inventory actions)
     = crops inventory + 2 * occurrences Farm actions - occurrences Shop actions) /\
  applyActionResourceEffects inventory actions
    = applyActionResourceEffects inventory
        (filter (fun a => a <> Walk /\ a <> Observe) actions).
Proof.
  intros Hnn0 _.
  split; [apply effects_nonNegative; done |].
  assert (Hsteps : forall before a after, actions = before ++ a :: after ->
            crops (applyActionResourceEffects inventory (before ++ [a]))
            = match a with
              | Farm => crops (applyActionResourceEffects inventory before) + 2
              | Shop => Z.max 0 (crops (applyActionResourceEffects inventory before) - 1)
              | _ => crops (applyActionResourceEffects inventory before)
              end).
  { intros before a after _.
    pose proof (effects_nonNegative before inventory Hnn0) as Hb.
    unfold applyActionResourceEffects in *. rewrite foldl_app. cbn [foldl].
    unfold nonNegative in Hb. destruct a; cbn; lia. }
  assert (Hcovered := crops_covered actions inventory Hnn0).
  revert Hsteps Hcovered. generalize Hnn0.
  unfold applyActionResourceEffects, nonNegative. clear Hnn0.
  intros Hnn0 Hsteps Hcovered.
  enough (Hrest : coins (foldl applyAction inventory actions)
                    = coins inventory + 3 * occurrences Shop actions /\
                  goodwill (foldl applyAction inventory actions)
                    = goodwill inventory + occurrences Chat actions
                      + occurrences Rest actions /\
                  crops inventory + 2 * occurrences Farm actions - occurrences Shop actions
                    <= crops (foldl applyAction inventory actions)
                    <= crops inventory + 2 * occurrences Farm actions /\
                  foldl applyAction inventory actions
                    = foldl applyAction inventory
                        (filter (fun a => a <> Walk /\ a <> Observe) actions)).
  { destruct Hrest as (Hc & Hg & Hcr & Hf). repeat (split; [done |]). done. }
  clear Hsteps Hcovered.
  revert inventory Hnn0. induction actions as [| a actions IH]; intros inventory Hnn.
  - unfold occurrences. cbn. repeat split; lia.
  - cbn [foldl]. rewrite !(occurrences_cons _ a).
    pose proof (occurrences_nonneg Shop actions).
    pose proof (occurrences_nonneg Farm actions).
    assert (Hstep : 0 <= crops (applyAction inventory a) /\
                    0 <= coins (applyAction inventory a) /\
                    0 <= goodwill (applyAction inventory a))
      by (destruct a; cbn; lia).
    destruct (IH _ Hstep) as (Hcoins & Hgood & Hcrops & Hfilter).
    assert (Hkeep : foldl applyAction (applyAction inventory a) actions
                    = foldl applyAction inventory
                        (filter (fun a => a <> Walk /\ a <> Observe) (a :: actions))).
    { rewrite filter_cons. case_decide as Hd.
      - cbn [foldl]. exact Hfilter.
      - rewrite Hfilter. destruct a; try done; exfalso; apply Hd; done. }
    split; [| split; [| split; [| exact Hkeep]]].
    + rewrite Hcoins. destruct a; repeat case_decide; try done; cbn; lia.
    + rewrite Hgood. destruct a; repeat case_decide; try done; cbn; lia.
    + set (after := foldl applyAction (applyAction inventory a) actions) in *.
      destruct a; repeat case_decide; try done; cbn in Hcrops; lia.
Qed.

Lemma resource_effects_totals_witness :
  let inventory := {| crops := 1; coins := 30; goodwill := 0 |} in
  let actions := [Shop; Shop; Walk; Farm; Chat] in
  nonNegative inventory /\ withinSafeRange inventory actions /\
  applyActionResourceEffects inventory actions = {| crops := 2; coins := 36; goodwill := 1 |} /\
  nonNegative (applyActionResourceEffects inventory actions) /\
  coins (applyActionResourceEffects inventory actions)
    = coins inventory + 3 * occurrences Shop actions /\
  goodwill (applyActionResourceEffects inventory actions)
    = goodwill inventory + occurrences Chat actions + occurrences Rest actions /\
  (forall before a after, actions = before ++ a :: after ->
     crops (applyActionResourceEffects inventory (before ++ [a]))
     = match a with
       | Farm => crops (applyActionResourceEffects inventory before) + 2
       | Shop => Z.max 0 (crops (applyActionResourceEffects inventory before) - 1)
       | _ => crops (applyActionResourceEffects inventory before)
       end) /\
  crops inventory + 2 * occurrences Farm actions - occurrences Shop actions
    <= crops (applyActionResourceEffects inventory actions)
    <= crops inventory + 2 * occurrences Farm actions /\
  (occurrences Shop actions <= crops inventory ->
   crops (applyActionResourceEffects inventory actions)
     = crops inventory + 2 * occurrences Farm actions - occurrences Shop actions) /\
  applyActionResourceEffects inventory actions
    = applyActionResourceEffects inventory
        (filter (fun a => a <> Walk /\ a <> Observe) actions).
Proof.
  intros inventory actions.
  assert (Hnn : nonNegative inventory) by (unfold nonNegative; cbn; lia).
  assert (Hsafe : withinSafeRange inventory actions)
    by (unfold withinSafeRange, MAX_SAFE_INTEGER; cbn; lia).
  split; [exact Hnn |]. split; [exact Hsafe |]. split; [reflexivity |].
  exact (resource_effects_totals inventory actions Hnn Hsafe).
Defined.

End ResourceProperties.

(** ** Creating schedules and the schedule index *)

Section ScheduleCreation.
Import Schedule ScheduleSpec ScheduleIndex.

Lemma slotToEntry_spec slot :
  slotToEntry slot = if decide (validHour slot) then Some (entryOfSlot slot) else None.
Proof.
  unfold slotToEntry, normalizeHourToMinute, validHour, entryOfSlot.
  change (MINUTES_PER_DAY / MINUTES_PER_HOUR) with 24. change MINUTES_PER_HOUR with 60.
  destruct (Z.ltb_spec (hour slot) 0); destruct (Z.leb_spec 24 (hour slot));
    case_decide; cbn; try done; lia.
Qed.

Lemma mapSlots_spec slots :
  match mapSlots slots with
  | Some es => Forall validHour slots /\ es = map entryOfSlot slots
  | None => exists slot, In slot slots /\ ~ validHour slot
  end.
Proof.
  induction slots as [| slot slots IH]; cbn [mapSlots]; [done |].
  rewrite slotToEntry_spec. case_decide as Hv.
  - destruct (mapSlots slots) as [es |].
    + destruct IH as [Hall ->]. split; [constructor; done | done].
    + destruct IH as (bad & Hin & Hbad). exists bad. split; [right; done | done].
  - exists slot. split; [left; done | done].
Qed.

Lemma insertEntry_perm e l : Permutation (insertEntry e l) (e :: l).
Proof.
  induction l as [| h t IH]; cbn [insertEntry]; [done |].
  destruct (startMinute e <=? startMinute h); [done |].
  rewrite IH. apply perm_swap.
Qed.

Lemma sortEntries_perm l : Permutation (sortEntries l) l.
Proof.
  induction l as [| e l IH]; [done |]. unfold sortEntries in *. cbn [foldr].
  rewrite insertEntry_perm. constructor. exact IH.
Qed.

Lemma hasDuplicateHours_true l :
  hasDuplicateHours l = true -> ~ NoDup (map startMinute l).
Proof.
  induction l as [| a [| b t] IH]; cbn [hasDuplicateHours]; try done.
  intros [Heq%Z.eqb_eq | Hrest]%orb_true_iff Hnd.
  - cbn [map] in Hnd. apply NoDup_cons in Hnd as [Hnotin _].
    apply Hnotin. rewrite Heq. left.
  - cbn [map] in Hnd. apply NoDup_cons in Hnd as [_ Hnd]. exact (IH Hrest Hnd).
Qed.

Lemma strict_NoDup l : StronglySorted byStartStrict l -> NoDup (map startMinute l).
Proof.
  induction 1 as [| a t Hs IH Ha]; cbn [map]; constructor; [| exact IH].
  intros Hin. apply list_elem_of_In, in_map_iff in Hin as (b & Hb & Hin).
  rewrite Forall_forall in Ha. apply list_elem_of_In in Hin.
  specialize (Ha b Hin). unfold byStartStrict in Ha. lia.
Qed.

Lemma startMinute_hours slots :
  NoDup (map startMinute (map entryOfSlot slots)) <-> NoDup (map hour slots).
Proof.
  rewrite map_map. cbn [entryOfSlot startMinute].
  induction slots as [| slot slots IH]; cbn [map]; [done |].
  rewrite !NoDup_cons, IH. split; intros [Hnotin Hnd]; (split; [| done]);
    intros Hin; apply Hnotin.
  - apply list_elem_of_In, in_map_iff in Hin as (other & Ho & Hin).
    apply list_elem_of_In, in_map_iff. exists other. split; [lia | done].
  - apply list_elem_of_In, in_map_iff in Hin as (other & Ho & Hin).
    apply list_elem_of_In, in_map_iff. exists other. split; [lia | done].
Qed.

Lemma NoDup_map_perm {A B : Type} (f : A -> B) (l l' : list A) :
  Permutation l l' -> NoDup (map f l) -> NoDup (map f l').
Proof.
  intros Hp Hnd. rewrite <- (Permutation_map f Hp). exact Hnd.
Qed.

(** X7.  createVillagerDailySchedule throws exactly when some slot's hour
    is outside 0..23 or two slots share an hour.  Otherwise the schedule
    carries the villager's id, and its entries are the slots, each with
    start minute 60 times its hour and the slot's action and target,
    rearranged into strictly increasing start minutes. *)
Theorem createVillagerDailySchedule_outcome (v : Villager) :
  match createVillagerDailySchedule v with
  | None =>
      (exists slot, In slot (baseSchedule v) /\ ~ validHour slot) \/
      ~ NoDup (map hour (baseSchedule v))
  | Some s =>
      villagerId s = villager_id v /\
      Forall validHour (baseSchedule v) /\
      NoDup (map hour (baseSchedule v)) /\
      Permutation (entries s) (map entryOfSlot (baseSchedule v)) /\
      StronglySorted byStartStrict (entries s)
  end.
Proof.
  unfold createVillagerDailySchedule.
  pose proof (mapSlots_spec (baseSchedule v)) as Hm.
  destruct (mapSlots (baseSchedule v)) as [es |]; [| left; exact Hm].
  destruct Hm as [Hvalid ->]. cbn zeta.
  destruct (hasDuplicateHours (sortEntries (map entryOfSlot (baseSchedule v)))) eqn:Hdup.
  - right. intros Hnd. apply (hasDuplicateHours_true _ Hdup).
    apply (NoDup_map_perm _ (map entryOfSlot (baseSchedule v))).
    + symmetry. apply sortEntries_perm.
    + apply startMinute_hours. exact Hnd.
  - cbn [villagerId entries].
    assert (Hstrict : StronglySorted byStartStrict
                        (sortEntries (map entryOfSlot (baseSchedule v))))
      by (apply noDuplicate_strict; [apply sortEntries_sorted | exact Hdup]).
    split; [done |]. split; [done |]. split; [| split; [apply sortEntries_perm | done]].
    apply startMinute_hours.
    apply (NoDup_map_perm _ (sortEntries (map entryOfSlot (baseSchedule v)))).
    + apply sortEntries_perm.
    + apply strict_NoDup. exact Hstrict.
Qed.

Lemma scheduleEntries_spec villagers :
  match scheduleEntries villagers with
  | Some pairs =>
      Forall2 (fun v pair => pair.1 = villager_id v /\
                             createVillagerDailySchedule v = Some pair.2)
              villagers pairs
  | None => exists v, In v villagers /\ createVillagerDailySchedule v = None
  end.
Proof.
  induction villagers as [| v villagers IH]; cbn [scheduleEntries]; [constructor |].
  destruct (createVillagerDailySchedule v) as [s |] eqn:Hs.
  - destruct (scheduleEntries villagers) as [pairs |].
    + constructor; [done | exact IH].
    + destruct IH as (bad & Hin & Hbad). exists bad. split; [right; done | done].
  - exists v. split; [left; done | done].
Qed.

Lemma created_villagerId v s :
  createVillagerDailySchedule v = Some s -> villagerId s = villager_id v.
Proof.
  unfold createVillagerDailySchedule. destruct (mapSlots _); [| done].
  cbn zeta. destruct (hasDuplicateHours _); [done |]. intros [= <-]. done.
Qed.

(** X8.  buildVillagerDailyScheduleIndex throws exactly when
    createVillagerDailySchedule throws for one of the villagers: when it
    throws, it does for some villager of the list, and when it returns, it
    does for none.  When it returns, the index has a schedule under an id
    exactly when a villager of the list has that id; the schedule found
    under an id was created for a villager with that id and carries that
    id; and when the villagers have pairwise distinct ids, every villager
    finds the schedule created for it. *)
Theorem schedule_index_lookup (villagers : list Villager) :
  match buildVillagerDailyScheduleIndex villagers with
  | None => exists v, In v villagers /\ createVillagerDailySchedule v = None
  | Some index =>
      (forall v, In v villagers -> createVillagerDailySchedule v <> None) /\
      (forall id,
         match index !! id with
         | None => ~ In id (map villager_id villagers)
         | Some s =>
             villagerId s = id /\
             exists v, In v villagers /\ villager_id v = id /\
                       createVillagerDailySchedule v = Some s
         end) /\
      (NoDup (map villager_id villagers) ->
       forall v, In v villagers -> index !! villager_id v = createVillagerDailySchedule v)
  end.
Proof.
  unfold buildVillagerDailyScheduleIndex.
  pose proof (scheduleEntries_spec villagers) as Hspec.
  destruct (scheduleEntries villagers) as [pairs |]; [| exact Hspec].
  assert (Hkeys : map villager_id villagers = pairs.*1).
  { induction Hspec as [| v pair vs ps [Hk _] _ IH]; [done |].
    cbn [map fmap list_fmap]. rewrite Hk. f_equal. exact IH. }
  split.
  { intros v Hin.
    apply list_elem_of_In, list_elem_of_lookup_1 in Hin as [i Hi].
    destruct (Forall2_lookup_l _ _ _ _ _ Hspec Hi) as (pair & _ & _ & Hcreate).
    rewrite Hcreate. done. }
  split.
  - intros id.
    destruct (foldl _ ∅ pairs !! id) as [s |] eqn:Hlook.
    + apply (build_lookup_Some fst snd) in Hlook as [Hlook | (pair & Hin & Hk & Hv)];
        [rewrite lookup_empty in Hlook; done |].
      apply list_elem_of_lookup_1 in Hin as [i Hi].
      destruct (Forall2_lookup_r _ _ _ _ _ Hspec Hi) as (v & Hv' & Hkv & Hcreate).
      subst. split.
      * rewrite (created_villagerId _ _ Hcreate). done.
      * exists v. split; [apply list_elem_of_In; eapply list_elem_of_lookup_2; done |].
        split; [done | done].
    + intros Hin. rewrite Hkeys in Hin. apply list_elem_of_In in Hin.
      destruct (build_lookup_known fst snd pairs ∅ id Hin) as [s Hs]. congruence.
  - intros Hnd v Hin. rewrite Hkeys in Hnd.
    apply list_elem_of_In, list_elem_of_lookup_1 in Hin as [i Hi].
    destruct (Forall2_lookup_l _ _ _ _ _ Hspec Hi) as (pair & Hp & Hk & Hcreate).
    rewrite Hcreate, <- Hk.
    apply (build_lookup_NoDup fst snd pairs ∅ pair Hnd).
    eapply list_elem_of_lookup_2. exact Hp.
Qed.

End ScheduleCreation.


(** ** Planning a villager's movement *)

Section PlanningProperties.
Import Movement Pathfinding SearchSpec GridSpec ServiceSpec Examples MovementPlanning PlanningSpec.

Ltac by_grid_evaluation :=
  unfold distinctIds, distinctCoordinates, tileIds;
  apply (bool_decide_unpack _); vm_compute; exact I.

Lemma accepted_tiles tiles request :
  distinctIds tiles ->
  rejection (createNodesById tiles) request = None ->
  knownTile tiles (startTileId request) /\ knownTile tiles (destinationTileId request) /\
  walkableTile tiles (startTileId request) /\ startTileId request ∉ blockedSet request.
Proof.
  intros Hids Hrej. unfold rejection in Hrej.
  destruct (createNodesById tiles !! startTileId request) as [startNode |] eqn:Hs; [| done].
  destruct (createNodesById tiles !! destinationTileId request) as [destNode |] eqn:Hd;
    [| done].
  destruct (bool_decide _ || negb (node_walkable startNode)) eqn:Hstart; [done |].
  apply orb_false_iff in Hstart as [Hb Hw]. apply bool_decide_eq_false in Hb.
  apply negb_false_iff in Hw.
  split; [apply nodes_known; eauto |]. split; [apply nodes_known; eauto |].
  split; [| done].
  intros tile Hin Hid. pose proof (nodes_lookup_tile tiles Hids tile Hin) as Hnode.
  rewrite Hid, Hs in Hnode. injection Hnode as ->. exact Hw.
Qed.

Lemma route_nonempty tiles blocked start q v :
  route tiles blocked start q v -> (1 <= length q)%nat.
Proof. destruct 1; [cbn; lia | rewrite length_app; cbn; lia]. Qed.

Lemma found_is_shortest_route tiles maxCachedRoutes s request p fromCache s' :
  distinctIds tiles -> distinctCoordinates tiles -> tileIds tiles ->
  serviceInv tiles maxCachedRoutes s ->
  findPathOutcome s request (Found p fromCache) s' ->
  route tiles (blockedSet request) (startTileId request) p (destinationTileId request) /\
  (forall q, route tiles (blockedSet request) (startTileId request) q
               (destinationTileId request) -> (length p <= length q)%nat) /\
  (length p = 1%nat <-> startTileId request = destinationTileId request).
Proof.
  intros Hids Hcoords Htile Hinv Hout.
  pose proof Hinv as (Hnodes & _ & _ & _ & Hsound).
  assert (Hsearch : forall p',
            rejection (nodesById s) request = None ->
            startTileId request <> destinationTileId request ->
            MinHeap.findShortestPath (nodesById s) (startTileId request)
              (destinationTileId request) (blockedSet request) = Some (Some p') ->
            route tiles (blockedSet request) (startTileId request) p'
              (destinationTileId request) /\
            (forall q, route tiles (blockedSet request) (startTileId request) q
                         (destinationTileId request) -> (length p' <= length q)%nat) /\
            (length p' = 1%nat <-> startTileId request = destinationTileId request)).
  { intros p' Hrej Hne Hp'. rewrite Hnodes in Hrej, Hp'.
    destruct (accepted_tiles tiles request Hids Hrej) as (Hks & Hkd & Hws & Hbs).
    destruct (heap_search_route tiles (startTileId request) (destinationTileId request)
                (blockedSet request) Hids Hcoords Htile Hks Hkd Hws Hbs) as (r & Hr & Hspec).
    rewrite Hp' in Hr. injection Hr as <-. destruct Hspec as [Hroute Hmin].
    split; [done |]. split; [done |]. split; [| done].
    intros Hlen. destruct (route_ends _ _ _ _ _ Hroute) as [Hh Hl].
    destruct p' as [| a [| b rest]]; [done | | done].
    cbn in Hh, Hl. congruence. }
  inversion Hout as [| Hrej Hsame | p0 Hrej Hne Hget | | p0 Hrej Hne Hget Hfound]; subst.
  - rewrite Hnodes in Hrej.
    destruct (accepted_tiles tiles request Hids Hrej) as (Hks & Hkd & Hws & Hbs).
    split; [rewrite <- Hsame; constructor |].
    split; [intros q Hq; apply route_nonempty in Hq; cbn; lia | done].
  - apply Hsearch; [done | done |].
    exact (Hsound _ _ (cacheGet_Some _ _ _ Hget)).
  - apply Hsearch; done.
Qed.

(** An accepted request with a route is answered "found". *)
Lemma route_is_found tiles maxCachedRoutes s request answer s' :
  distinctIds tiles -> distinctCoordinates tiles -> tileIds tiles ->
  serviceInv tiles maxCachedRoutes s ->
  findPathOutcome s request answer s' ->
  knownTile tiles (startTileId request) -> knownTile tiles (destinationTileId request) ->
  walkableTile tiles (startTileId request) -> walkableTile tiles (destinationTileId request) ->
  startTileId request ∉ blockedSet request ->
  destinationTileId request ∉ blockedSet request ->
  (exists q, route tiles (blockedSet request) (startTileId request) q
               (destinationTileId request)) ->
  exists p fromCache, answer = Found p fromCache.
Proof.
  intros Hids Hcoords Htile Hinv Hout Hks Hkd Hws Hwd Hbs Hbd [q Hq].
  pose proof Hinv as (Hnodes & _).
  pose proof (accepted_request tiles request Hids Hks Hkd Hws Hwd Hbs Hbd) as Hacc.
  rewrite <- Hnodes in Hacc.
  destruct Hout as [reason Hrej | Hrej Hsame | p Hrej Hne Hget | Hrej Hne Hget Hnone
                   | p Hrej Hne Hget Hsome]; eauto.
  - congruence.
  - destruct (heap_search_route tiles (startTileId request) (destinationTileId request)
                (blockedSet request) Hids Hcoords Htile Hks Hkd Hws Hbs) as (r & Hr & Hspec).
    rewrite <- Hnodes, Hnone in Hr. injection Hr as <-. destruct (Hspec q Hq).
Qed.

(** X9.  On a tile list with pairwise distinct ids of the TileId shape and
    pairwise distinct coordinates, with a service reached from a fresh one
    by earlier findPath calls, blocked tiles named by ids of the TileId
    shape in those calls and in the input, and a non-negative tick,
    planVillagerMovementIntent returns (it does not throw) and reports the
    target of resolveTaskTargetTile.  It requests a path exactly when the
    target differs from the previous one or the villager's path does not
    end at the target.  Without a request the movement and the service are
    untouched.  With a request it reports the answer of findPath for the
    villager's tile, the target and the input's blocked tiles, and returns
    the service that findPath leaves; when both tiles are known, walkable
    and not blocked and a route exists, that answer is "found".  When the
    answer is unreachable, the movement is untouched and the state is
    planning.  When it is found, the new path is a shortest route from the
    villager's tile to the target, the villager stays on its tile with path
    index 0, and the state is acting exactly when the villager already
    stands on the target, moving otherwise. *)
Theorem plan_movement_outcome
    (tiles : list Tile) (maxCachedRoutes : Z)
    (earlier : list PathfindingRequest) (input : VillagerPlanningInput) :
  distinctIds tiles -> distinctCoordinates tiles -> tileIds tiles ->
  Forall tileIdBlocked earlier ->
  findPaths (createPathfindingService tiles maxCachedRoutes) earlier
    = Some (pathfinding input) ->
  tileIdBlocked (planningRequest input) ->
  0 <= tick input ->
  let current := currentTileId (movement input) in
  let target := resolveTaskTargetTile (villager input) (activeTask input) current in
  let blocked := blockedSet (planningRequest input) in
  let stateAt := if bool_decide (current = target) then Acting else Moving in
  exists result service,
    planVillagerMovementIntent input = Some (Some result, service) /\
    targetTileId result = target /\
    (requestedPath result = true <->
     previousTargetTileId input <> Some target \/
     last (path (movement input)) <> Some target) /\
    (if requestedPath result then
       exists answer,
         findPath (pathfinding input) (planningRequest input) = Some (answer, service) /\
         pathfindingResult result = Some answer /\
         (knownTile tiles current -> knownTile tiles target ->
          walkableTile tiles current -> walkableTile tiles target ->
          current ∉ blocked -> target ∉ blocked ->
          (exists q, route tiles blocked current q target) ->
          exists p fromCache, answer = Found p fromCache)
     else
       pathfindingResult result = None /\ service = pathfinding input) /\
    match pathfindingResult result with
    | None =>
        requestedPath result = false /\
        previousTargetTileId input = Some target /\
        last (path (movement input)) = Some target /\
        result_movement result = movement input /\
        service = pathfinding input /\
        npcState result = stateAt
    | Some (Unreachable reason p) =>
        requestedPath result = true /\
        result_movement result = movement input /\
        npcState result = Planning
    | Some (Found p fromCache) =>
        requestedPath result = true /\
        route tiles blocked current p target /\
        (forall q, route tiles blocked current q target -> (length p <= length q)%nat) /\
        result_movement result =
          {| villagerId := villagerId (movement input);
             currentTileId := current;
             path := p;
             pathIndex := 0;
             lastProcessedTick := tick input;
             arrivedAtTick := if bool_decide (current = target)
                              then Some (tick input) else None |} /\
        npcState result = stateAt
    end.
Proof.
  intros Hids Hcoords Htile _ Hreach _ Htick current target blocked stateAt.
  destruct (findPaths_inv tiles maxCachedRoutes earlier _
              (createPathfindingService_inv tiles maxCachedRoutes)) as (s & Hrun & Hinv).
  rewrite Hreach in Hrun. injection Hrun as <-.
  destruct (findPath_outcome tiles maxCachedRoutes (pathfinding input)
              (planningRequest input) Hinv) as (answer & service & Hcall & Hout).
  pose proof (route_is_found tiles maxCachedRoutes _ _ _ _ Hids Hcoords Htile Hinv Hout)
    as Hforced.
  cbn [planningRequest startTileId destinationTileId] in Hforced.
  fold current in Hforced. fold target in Hforced. fold blocked in Hforced.
  unfold planVillagerMovementIntent. fold current. fold target.
  change {| startTileId := current; destinationTileId := target;
            Pathfinding.blockedTileIds := blockedTileIds input |}
    with (planningRequest input).
  assert (Hwhen : bool_decide (previousTargetTileId input <> Some target)
                  || negb (bool_decide (last (path (movement input)) = Some target)) = true
                  <-> previousTargetTileId input <> Some target \/
                      last (path (movement input)) <> Some target).
  { rewrite orb_true_iff, negb_true_iff, bool_decide_eq_true, bool_decide_eq_false. done. }
  destruct (bool_decide (previousTargetTileId input <> Some target)
            || negb (bool_decide (last (path (movement input)) = Some target))) eqn:Hrequested;
    cbn [negb].
  2: { eexists _, _. split; [done |]. split; [done |].
       cbn [requestedPath pathfindingResult result_movement npcState].
       split; [exact Hwhen |]. split; [done |].
       apply orb_false_iff in Hrequested as [Hchanged Hhas].
       apply bool_decide_eq_false in Hchanged. apply dec_stable in Hchanged.
       apply negb_false_iff, bool_decide_eq_true in Hhas. done. }
  rewrite Hcall. destruct answer as [p fromCache | reason p].
  2: { eexists _, _. split; [done |]. split; [done |].
       cbn [requestedPath pathfindingResult result_movement npcState].
       split; [exact Hwhen |]. split; [| done].
       exists (Unreachable reason p). done. }
  destruct (found_is_shortest_route tiles maxCachedRoutes _ _ _ _ _
              Hids Hcoords Htile Hinv Hout) as (Hroute & Hmin & Hone).
  cbn [planningRequest startTileId destinationTileId] in Hroute, Hmin, Hone.
  fold current in Hroute, Hmin, Hone. fold target in Hroute, Hmin, Hone.
  fold blocked in Hroute, Hmin.
  destruct (route_ends _ _ _ _ _ Hroute) as [Hhead _].
  unfold assignVillagerMovementPath, assertNonNegativeInteger.
  destruct (Z.ltb_spec (tick input) 0) as [Hneg | _]; [lia |].
  destruct p as [| first rest]; [done |]. cbn in Hhead. injection Hhead as ->.
  eexists _, _. split; [done |]. split; [done |].
  cbn [requestedPath pathfindingResult result_movement npcState path].
  split; [exact Hwhen |].
  split; [exists (Found (current :: rest) fromCache); done |].
  split; [done |]. split; [done |]. split; [done |].
  assert (Hlen : (len (current :: rest) =? 1) = bool_decide (current = target)).
  { unfold len. destruct (decide (current = target)) as [He | Hne].
    - rewrite bool_decide_eq_true_2 by done. apply Z.eqb_eq.
      apply Hone in He. rewrite He. done.
    - rewrite bool_decide_eq_false_2 by done. apply Z.eqb_neq.
      intros Hl. apply Hne, Hone. lia. }
  rewrite Hlen. split; [done |].
  unfold stateAt. rewrite <- Hlen.
  destruct (Z.eqb_spec (len (current :: rest)) 1) as [-> | Hne]; [done |].
  destruct (Z.ltb_spec 1 (len (current :: rest))); [done |].
  unfold len in *. cbn [length] in *. lia.
Qed.

Lemma plan_movement_outcome_witness :
  let input := sampleInput in
  let current := currentTileId (movement input) in
  let target := resolveTaskTargetTile (villager input) (activeTask input) current in
  let blocked := blockedSet (planningRequest input) in
  let stateAt := if bool_decide (current = target) then Acting else Moving in
  exists result service,
    planVillagerMovementIntent input = Some (Some result, service) /\
    targetTileId result = target /\
    (requestedPath result = true <->
     previousTargetTileId input <> Some target \/
     last (path (movement input)) <> Some target) /\
    (if requestedPath result then
       exists answer,
         findPath (pathfinding input) (planningRequest input) = Some (answer, service) /\
         pathfindingResult result = Some answer /\
         (knownTile blockTiles current -> knownTile blockTiles target ->
          walkableTile blockTiles current -> walkableTile blockTiles target ->
          current ∉ blocked -> target ∉ blocked ->
          (exists q, route blockTiles blocked current q target) ->
          exists p fromCache, answer = Found p fromCache)
     else
       pathfindingResult result = None /\ service = pathfinding input) /\
    match pathfindingResult result with
    | None =>
        requestedPath result = false /\
        previousTargetTileId input = Some target /\
        last (path (movement input)) = Some target /\
        result_movement result = movement input /\
        service = pathfinding input /\
        npcState result = stateAt
    | Some (Unreachable reason p) =>
        requestedPath result = true /\
        result_movement result = movement input /\
        npcState result = Planning
    | Some (Found p fromCache) =>
        requestedPath result = true /\
        route blockTiles blocked current p target /\
        (forall q, route blockTiles blocked current q target -> (length p <= length q)%nat) /\
        result_movement result =
          {| villagerId := villagerId (movement input);
             currentTileId := current;
             path := p;
             pathIndex := 0;
             lastProcessedTick := tick input;
             arrivedAtTick := if bool_decide (current = target)
                              then Some (tick input) else None |} /\
        npcState result = stateAt
    end.
Proof.
  apply (plan_movement_outcome blockTiles 2 [] sampleInput).
  - by_grid_evaluation.
  - by_grid_evaluation.
  - by_grid_evaluation.
  - constructor.
  - reflexivity.
  - unfold tileIdBlocked. cbn. repeat constructor.
  - cbn. lia.
Defined.

End PlanningProperties.


(** ** The prompt context: ranking and summarising memories *)

Section ContextProperties.
Import Snapshots ContextAssembler ContextSpec.

Lemma estimateTokenCost_positive content : 1 <= estimateTokenCost content.
Proof. unfold estimateTokenCost. cbn zeta. destruct (_ =? 0); lia. Qed.

Lemma totalCost_nonneg memories : 0 <= totalCost memories.
Proof.
  induction memories as [| m rest IH]; cbn; [lia |].
  pose proof (estimateTokenCost_positive (summary m)). unfold totalCost, costOf in *. lia.
Qed.

Lemma summarizeLoop_spec budget memories : forall consumed acc,
  exists k : nat,
    (k <= length (affordable budget memories))%nat /\
    summarizeLoop memories budget consumed acc =
      acc ++ (summaryOf <$> take k (affordable budget memories)) /\
    (k = 0%nat \/ consumed + totalCost (take k (affordable budget memories)) <= budget) /\
    forall j, (k < j <= length (affordable budget memories))%nat ->
              budget < consumed + totalCost (take j (affordable budget memories)).
Proof.
  induction memories as [| m rest IH]; intros consumed acc.
  - exists 0%nat. cbn. rewrite app_nil_r. split; [lia |]. split; [done |].
    split; [auto | intros j Hj; lia].
  - cbn [summarizeLoop]. cbn zeta. fold (costOf m). unfold affordable.
    destruct (Z.ltb_spec budget (costOf m)) as [Hover | Hfits].
    + rewrite filter_cons_False by lia. apply IH.
    + rewrite filter_cons_True by lia. fold (affordable budget rest).
      destruct (Z.ltb_spec budget (consumed + costOf m)) as [Hfull | Hroom].
      * exists 0%nat. rewrite take_0. cbn [fmap list_fmap]. rewrite app_nil_r.
        split; [lia |]. split; [done |]. split; [auto |].
        intros [| j] Hj; [lia |]. rewrite firstn_cons; cbn [totalCost foldr].
        pose proof (totalCost_nonneg (take j (affordable budget rest))) as Hnn.
        unfold totalCost in Hnn. lia.
      * destruct (IH (consumed + costOf m) (acc ++ [summaryOf m]))
          as (k & Hk & Hres & Hfit & Hmax).
        exists (S k). rewrite firstn_cons. cbn [length fmap list_fmap totalCost foldr].
        split; [lia |]. split; [rewrite Hres, <- app_assoc; done |].
        split.
        -- right. destruct Hfit as [-> | Hfit]; [rewrite take_0; cbn [foldr]; lia |].
           unfold totalCost in Hfit. lia.
        -- intros [| j] Hj; [lia |]. rewrite firstn_cons; cbn [totalCost foldr].
           specialize (Hmax j). unfold totalCost in Hmax. lia.
Qed.

(** X10.  summarizeTopMemories leaves out every memory whose cost alone
    exceeds the budget and keeps, in order, the longest run of the
    remaining memories from the front whose costs together stay within the
    budget: the kept costs sum to at most the budget (nothing is kept when
    the budget is below 1), and taking any further memory would exceed
    it. *)
Theorem summarize_longest_affordable_prefix
    (memories : list VillagerMemoryBase) (memoryTokenBudget : Z) :
  let candidates := affordable memoryTokenBudget memories in
  exists k : nat,
    (k <= length candidates)%nat /\
    summarizeTopMemories memories memoryTokenBudget = summaryOf <$> take k candidates /\
    totalCost (take k candidates) <= Z.max 0 memoryTokenBudget /\
    (memoryTokenBudget < 1 -> k = 0%nat) /\
    forall j, (k < j <= length candidates)%nat ->
              memoryTokenBudget < totalCost (take j candidates).
Proof.
  intros candidates. unfold summarizeTopMemories.
  destruct (summarizeLoop_spec memoryTokenBudget memories 0 []) as (k & Hk & Hres & Hfit & Hmax).
  fold candidates in Hk, Hres, Hfit, Hmax.
  exists k. split; [done |]. split; [done |]. split; [| split].
  - destruct Hfit as [-> | Hfit]; [rewrite take_0; cbn; lia | lia].
  - intros Hlow. destruct k as [| k]; [done |].
    destruct Hfit as [Hz | Hfit]; [done |].
    destruct candidates as [| m rest]; [cbn in Hk; lia |].
    rewrite firstn_cons in Hfit. cbn [totalCost foldr] in Hfit.
    pose proof (totalCost_nonneg (take k rest)) as Hnn. unfold totalCost in Hnn.
    pose proof (estimateTokenCost_positive (summary m)). unfold costOf in *. lia.
  - intros j Hj. specialize (Hmax j Hj). lia.
Qed.

Lemma compare_ranksBefore a b :
  Qle_bool (compareMemories a b) 0 = true <-> ranksBefore a b.
Proof.
  unfold compareMemories, ranksBefore. rewrite Qle_bool_iff.
  destruct (Qeq_bool (importance a) (importance b)) eqn:Heq; cbn [negb].
  - apply Qeq_bool_iff in Heq. change 0%Q with (inject_Z 0). rewrite <- Zle_Qle.
    split; [intros Hle; right; split; [done | lia] |].
    intros [Hlt | [_ Hle]]; [lra | lia].
  - apply Qeq_bool_neq in Heq.
    split; [intros Hle; left; lra |].
    intros [Hlt | [He _]]; [lra | done].
Qed.

Lemma compare_not_ranksBefore a b :
  Qle_bool (compareMemories a b) 0 = false -> ranksBefore b a.
Proof.
  intros Hf. assert (Hn : ~ ranksBefore a b).
  { intros Hr. apply compare_ranksBefore in Hr. congruence. }
  unfold ranksBefore in *.
  destruct (Qlt_le_dec (importance a) (importance b)) as [Hlt | Hle]; [left; done |].
  destruct (Qeq_dec (importance a) (importance b)) as [He | Hne].
  - right. split; [lra |].
    destruct (Z_le_gt_dec (tick (createdAt b)) (tick (createdAt a))); [| lia].
    destruct Hn. right. done.
  - destruct Hn. left. lra.
Qed.

Lemma ranksBefore_trans a b c : ranksBefore a b -> ranksBefore b c -> ranksBefore a c.
Proof.
  unfold ranksBefore. intros [Hab | [Hab Tab]] [Hbc | [Hbc Tbc]].
  - left. lra.
  - left. lra.
  - left. lra.
  - right. split; [lra | lia].
Qed.

Lemma insertMemory_perm m l : Permutation (insertMemory m l) (m :: l).
Proof.
  induction l as [| h t IH]; cbn [insertMemory]; [done |].
  destruct (Qle_bool _ _); [done |]. rewrite IH. apply perm_swap.
Qed.

Lemma sortMemories_perm l : Permutation (sortMemories l) l.
Proof.
  induction l as [| m l IH]; [done |]. unfold sortMemories in *. cbn [foldr].
  rewrite insertMemory_perm. constructor. exact IH.
Qed.

Lemma insertMemory_sorted m l :
  StronglySorted ranksBefore l -> StronglySorted ranksBefore (insertMemory m l).
Proof.
  induction 1 as [| h t Hs IH Hh]; cbn [insertMemory].
  - constructor; constructor.
  - destruct (Qle_bool (compareMemories m h) 0) eqn:Hc.
    + apply compare_ranksBefore in Hc. constructor; [constructor; done |].
      constructor; [done |].
      eapply Forall_impl; [exact Hh |]. intros x Hx. eapply ranksBefore_trans; done.
    + apply compare_not_ranksBefore in Hc. constructor; [exact IH |].
      rewrite (insertMemory_perm m t). constructor; done.
Qed.

Lemma sortMemories_sorted l : StronglySorted ranksBefore (sortMemories l).
Proof.
  induction l as [| m l IH]; [constructor |]. unfold sortMemories in *. cbn [foldr].
  apply insertMemory_sorted. exact IH.
Qed.

(** X11.  The ranking that assembleNpcPromptInput builds is a
    rearrangement of the store's short-term and long-term memories in which
    every memory is at least as important as each later one and, at equal
    importance, not older.  The recent events are the summaries of the
    first five ranked memories (of all of them when there are fewer), and
    the goal's target is the task's target, or the input's when the task
    has none. *)
Theorem assemble_prompt_ranking (input : NpcContextAssemblerInput) :
  let store := in_memoryStore input in
  let ranked := rankMemoriesByPriority store in
  let prompt := assembleNpcPromptInput input in
  Permutation ranked (memoriesOf store) /\
  StronglySorted ranksBefore ranked /\
  recentEvents prompt = summary <$> take 5 ranked /\
  length (recentEvents prompt) =
    Nat.min 5 (length (shortTerm store) + length (longTerm store)) /\
  currentGoal_targetTileId prompt =
    match Schedule.task_targetTileId (in_activeTask input) with
    | Some target => Some target
    | None => in_targetTileId input
    end.
Proof.
  intros store ranked prompt.
  assert (Hperm : Permutation ranked (memoriesOf store)) by apply sortMemories_perm.
  split; [done |]. split; [apply sortMemories_sorted |]. split; [done |]. split; [| done].
  unfold prompt, assembleNpcPromptInput. cbn [recentEvents].
  fold store. fold ranked. unfold RECENT_EVENT_LIMIT.
  rewrite length_fmap, length_take, (Permutation_length Hperm).
  unfold memoriesOf. rewrite length_app, !length_fmap. done.
Qed.

End ContextProperties.


(** ** The pathfinding service: requests it turns down *)

Section ServiceEdges.
Import Pathfinding SearchSpec GridSpec ServiceSpec Examples.

Lemma node_walkable_spec tiles tileId node :
  distinctIds tiles ->
  createNodesById tiles !! tileId = Some node ->
  node_walkable node = true <-> walkableTile tiles tileId.
Proof.
  intros Hids Hnode. split.
  - intros Hw tile Hin Hid. pose proof (nodes_lookup_tile tiles Hids tile Hin) as Ht.
    rewrite Hid, Hnode in Ht. injection Ht as ->. exact Hw.
  - intros Hw. apply nodes_lookup_Some in Hnode as (tile & Hin & Hid & ->).
    exact (Hw tile Hin Hid).
Qed.

Lemma rejection_spec tiles request :
  distinctIds tiles ->
  let start := startTileId request in
  let dest := destinationTileId request in
  let blocked := blockedSet request in
  match rejection (createNodesById tiles) request with
  | Some unknown_start => ~ knownTile tiles start
  | Some unknown_destination => knownTile tiles start /\ ~ knownTile tiles dest
  | Some blocked_start =>
      knownTile tiles start /\ knownTile tiles dest /\
      (start ∈ blocked \/ ~ walkableTile tiles start)
  | Some blocked_destination =>
      knownTile tiles start /\ knownTile tiles dest /\
      start ∉ blocked /\ walkableTile tiles start /\
      (dest ∈ blocked \/ ~ walkableTile tiles dest)
  | Some no_route => False
  | None =>
      knownTile tiles start /\ knownTile tiles dest /\
      start ∉ blocked /\ walkableTile tiles start /\
      dest ∉ blocked /\ walkableTile tiles dest
  end.
Proof.
  intros Hids start dest blocked. unfold rejection. fold start dest blocked.
  destruct (createNodesById tiles !! start) as [startNode |] eqn:Hs; cycle 1.
  { intros Hk. apply nodes_known in Hk as [n Hn]. congruence. }
  assert (Hks : knownTile tiles start) by (apply nodes_known; eauto).
  destruct (createNodesById tiles !! dest) as [destNode |] eqn:Hd; cycle 1.
  { split; [done |]. intros Hk. apply nodes_known in Hk as [n Hn]. congruence. }
  assert (Hkd : knownTile tiles dest) by (apply nodes_known; eauto).
  pose proof (node_walkable_spec tiles start startNode Hids Hs) as Hws.
  pose proof (node_walkable_spec tiles dest destNode Hids Hd) as Hwd.
  destruct (decide (start ∈ blocked)) as [Hbs | Hbs].
  { rewrite bool_decide_eq_true_2 by done. cbn [orb]. auto. }
  rewrite bool_decide_eq_false_2 by done. cbn [orb].
  destruct (node_walkable startNode) eqn:Hsw; cbn [negb]; cycle 1.
  { split; [done |]. split; [done |]. right. intros Hw. apply Hws in Hw. done. }
  assert (Hstart : walkableTile tiles start) by (apply Hws; done).
  destruct (decide (dest ∈ blocked)) as [Hbd | Hbd].
  { rewrite bool_decide_eq_true_2 by done. cbn [orb]. auto 10. }
  rewrite bool_decide_eq_false_2 by done. cbn [orb].
  destruct (node_walkable destNode) eqn:Hdw; cbn [negb]; cycle 1.
  { do 4 (split; [done |]). right. intros Hw. apply Hwd in Hw. done. }
  do 5 (split; [done |]). apply Hwd. done.
Qed.

(** X12.  On tiles with pairwise distinct ids, findPath always returns, and
    it turns requests down in a fixed order of checks: unknown-start when
    the start id names no tile; else unknown-destination when the
    destination id names none; else blocked-start when the start tile is in
    the blocked list or not walkable; else blocked-destination when the
    destination tile is.  Every unreachable result carries an empty path
    and leaves the cache as it was; no-route and found are reported only
    for requests that pass all four checks, and a request from a tile to
    itself that passes them is answered by the one-tile path without
    touching the cache. *)
Theorem findPath_checks_in_order
    (tiles : list Tile) (maxCachedRoutes : Z)
    (s : PathfindingService) (request : PathfindingRequest) :
  distinctIds tiles ->
  serviceInv tiles maxCachedRoutes s ->
  let start := startTileId request in
  let dest := destinationTileId request in
  let blocked := blockedSet request in
  let accepted :=
    knownTile tiles start /\ knownTile tiles dest /\
    start ∉ blocked /\ walkableTile tiles start /\
    dest ∉ blocked /\ walkableTile tiles dest in
  exists result s',
    findPath s request = Some (result, s') /\
    match result with
    | Unreachable reason p =>
        p = [] /\ s' = s /\
        match reason with
        | unknown_start => ~ knownTile tiles start
        | unknown_destination => knownTile tiles start /\ ~ knownTile tiles dest
        | blocked_start =>
            knownTile tiles start /\ knownTile tiles dest /\
            (start ∈ blocked \/ ~ walkableTile tiles start)
        | blocked_destination =>
            knownTile tiles start /\ knownTile tiles dest /\
            start ∉ blocked /\ walkableTile tiles start /\
            (dest ∈ blocked \/ ~ walkableTile tiles dest)
        | no_route => accepted /\ start <> dest
        end
    | Found p fromCache =>
        accepted /\ (start = dest -> p = [start] /\ fromCache = false /\ s' = s)
    end.
Proof.
  intros Hids Hinv start dest blocked accepted.
  destruct (findPath_outcome tiles maxCachedRoutes s request Hinv)
    as (result & s' & Hcall & Hout).
  exists result, s'. split; [done |].
  pose proof Hinv as (Hnodes & _).
  pose proof (rejection_spec tiles request Hids) as Hspec. cbn zeta in Hspec.
  rewrite <- Hnodes in Hspec. fold start dest blocked in Hspec.
  destruct Hout as [reason Hrej | Hrej Hsame | p Hrej Hne Hget | Hrej Hne Hget Hnone
                   | p Hrej Hne Hget Hsome]; rewrite Hrej in Hspec.
  - split; [done |]. split; [done |]. destruct reason; done.
  - split; [done |]. intros _. done.
  - split; [done |]. intros Heq. done.
  - split; [done |]. split; [done |]. split; done.
  - split; [done |]. intros Heq. done.
Qed.

Lemma findPath_checks_in_order_witness :
  let request := request "tile_0_0" "tile_9_9" ["tile_0_0"] in
  let s := createPathfindingService blockTiles 2 in
  let start := startTileId request in
  let dest := destinationTileId request in
  let blocked := blockedSet request in
  let accepted :=
    knownTile blockTiles start /\ knownTile blockTiles dest /\
    start ∉ blocked /\ walkableTile blockTiles start /\
    dest ∉ blocked /\ walkableTile blockTiles dest in
  exists result s',
    findPath s request = Some (result, s') /\
    match result with
    | Unreachable reason p =>
        p = [] /\ s' = s /\
        match reason with
        | unknown_start => ~ knownTile blockTiles start
        | unknown_destination => knownTile blockTiles start /\ ~ knownTile blockTiles dest
        | blocked_start =>
            knownTile blockTiles start /\ knownTile blockTiles dest /\
            (start ∈ blocked \/ ~ walkableTile blockTiles start)
        | blocked_destination =>
            knownTile blockTiles start /\ knownTile blockTiles dest /\
            start ∉ blocked /\ walkableTile blockTiles start /\
            (dest ∈ blocked \/ ~ walkableTile blockTiles dest)
        | no_route => accepted /\ start <> dest
        end
    | Found p fromCache =>
        accepted /\ (start = dest -> p = [start] /\ fromCache = false /\ s' = s)
    end.
Proof.
  apply (findPath_checks_in_order blockTiles 2 (createPathfindingService blockTiles 2)
           (request "tile_0_0" "tile_9_9" ["tile_0_0"])).
  - unfold distinctIds. apply (bool_decide_unpack _). vm_compute. exact I.
  - apply createPathfindingService_inv.
Defined.

End ServiceEdges.


(** ** The binary heap returns its entries in the order of their scores *)

Section HeapOrder.
Import Pathfinding MinHeap HeapSpec HeapUse.
Local Open Scope nat_scope.

Lemma delete_insert_same {A : Type} (l : list A) : forall i x,
  delete i (<[i := x]> l) = delete i l.
Proof.
  induction l as [| a l IH]; intros [| i] x; cbn; [done | done | done |].
  f_equal. apply IH.
Qed.

Lemma insert_perm_delete {A : Type} (l : list A) i x :
  i < length l -> <[i := x]> l ≡ₚ x :: delete i l.
Proof.
  intros Hi. rewrite <- (delete_insert_same l i x).
  apply delete_Permutation. apply list_lookup_insert_eq. done.
Qed.

Lemma swap_perm h i j : swap h i j ≡ₚ h.
Proof.
  unfold swap.
  destruct (h !! i) as [a |] eqn:Ha; [| done].
  destruct (h !! j) as [b |] eqn:Hb; [| done].
  pose proof (lookup_lt_Some _ _ _ Ha) as Hi.
  pose proof (lookup_lt_Some _ _ _ Hb) as Hj.
  destruct (decide (i = j)) as [-> | Hne].
  - assert (a = b) as -> by congruence.
    rewrite (list_insert_id h j b Hb), (list_insert_id h j b Hb). done.
  - etransitivity; [apply insert_perm_delete; rewrite length_insert; done |].
    etransitivity; [| symmetry; exact (delete_Permutation h j b Hb)].
    apply perm_skip.
    apply (Permutation_cons_inv (a := a)).
    etransitivity; [| apply (insert_perm_delete h j a Hj)].
    symmetry. apply delete_Permutation.
    rewrite list_lookup_insert_ne by done. done.
Qed.

Lemma bubbleUpLoop_perm fuel : forall h i, bubbleUpLoop fuel h i ≡ₚ h.
Proof.
  induction fuel as [| fuel IH]; intros h i; [done |].
  rewrite bubbleUpLoop_unfold.
  destruct (0 <? i); [| done]. destruct (num_leb _ _); [done |].
  rewrite IH. apply swap_perm.
Qed.

Lemma sinkDownLoop_perm fuel : forall h i, sinkDownLoop fuel h i ≡ₚ h.
Proof.
  induction fuel as [| fuel IH]; intros h i; [done |].
  rewrite sinkDownLoop_unfold.
  destruct (smallestOf h i =? i); [done |].
  rewrite IH. apply swap_perm.
Qed.

Lemma push_perm tileId score h : push tileId score h ≡ₚ (tileId, score) :: h.
Proof.
  unfold push, bubbleUp. rewrite bubbleUpLoop_perm.
  symmetry. apply Permutation_cons_append.
Qed.

Lemma pushAll_perm entries : forall h, pushAll entries h ≡ₚ entries ++ h.
Proof.
  induction entries as [| [tileId score] entries IH]; intros h; [done |].
  unfold pushAll in *. cbn [foldl]. rewrite IH, push_perm. cbn [fst snd].
  symmetry. apply Permutation_middle.
Qed.

Lemma pushAll_ordered entries : forall h, heapOrdered h -> heapOrdered (pushAll entries h).
Proof.
  induction entries as [| [tileId score] entries IH]; intros h Hh; [done |].
  unfold pushAll in *. cbn [foldl]. apply IH. apply push_ordered. exact Hh.
Qed.

Lemma pop_perm (top : HeapEntry) rest : (pop (top :: rest)).2 ≡ₚ rest.
Proof.
  unfold pop.
  induction rest as [| second rest _] using rev_ind; [done |].
  assert (Hrl : removelast (top :: rest ++ [second]) = top :: rest).
  { change (top :: rest ++ [second]) with ((top :: rest) ++ [second]).
    apply removelast_last. }
  assert (Hl : List.last (top :: rest ++ [second]) top = second).
  { change (top :: rest ++ [second]) with ((top :: rest) ++ [second]).
    apply last_last. }
  rewrite Hrl, Hl. cbn [length Nat.ltb Nat.leb]. cbn [insert list_insert snd].
  unfold sinkDown. rewrite sinkDownLoop_perm. apply Permutation_cons_append.
Qed.

Lemma popMany_sorted n : forall h,
  length h = n -> heapOrdered h ->
  exists sorted, sorted ≡ₚ h /\ StronglySorted byScore sorted /\
                 popMany n h = sorted.*1.
Proof.
  induction n as [| n IH]; intros h Hlen Hh.
  - destruct h; [| done]. exists []. split; [done |]. split; [constructor | done].
  - destruct h as [| top rest]; [done |].
    destruct (pop_spec top rest Hh) as (h' & Hpop & Hh' & Hlen' & Hmin & _ & _).
    pose proof (pop_perm top rest) as Hperm. rewrite Hpop in Hperm. cbn [snd] in Hperm.
    destruct (IH h' ltac:(cbn in Hlen; lia) Hh') as (sorted & Hs & Hsorted & Hrun).
    exists (top :: sorted). split; [rewrite Hs, Hperm; done |].
    split.
    + constructor; [done |]. apply Forall_forall. intros e He.
      apply Hmin. right. rewrite <- Hperm, <- Hs. done.
    + cbn [popMany]. rewrite Hpop, Hrun. done.
Qed.

Lemma empty_ordered : heapOrdered [].
Proof. intros j Hj. cbn in Hj. lia. Qed.

(** X13.  After any entries are pushed onto an empty BinaryMinHeap, as many
    pops return their ids in an order of non-decreasing score, each pushed
    entry once; a further pop returns undefined. *)
Theorem heap_pops_in_score_order (entries : list HeapEntry) :
  exists sorted,
    sorted ≡ₚ entries /\
    StronglySorted byScore sorted /\
    popMany (length entries) (pushAll entries []) = sorted.*1 /\
    popMany (S (length entries)) (pushAll entries []) = sorted.*1.
Proof.
  pose proof (pushAll_perm entries []) as Hperm. rewrite app_nil_r in Hperm.
  pose proof (pushAll_ordered entries [] empty_ordered) as Hord.
  assert (Hlen : length (pushAll entries []) = length entries)
    by (rewrite Hperm; done).
  destruct (popMany_sorted (length entries) _ Hlen Hord) as (sorted & Hs & Hsorted & Hrun).
  exists sorted. split; [rewrite Hs, Hperm; done |]. split; [done |]. split; [done |].
  rewrite <- Hrun. clear Hrun Hs Hsorted sorted Hperm.
  generalize dependent (pushAll entries []). generalize (length entries).
  induction n as [| n IH]; intros h Hord Hlen.
  - destruct h; [done | done].
  - destruct h as [| top rest]; [done |].
    destruct (pop_spec top rest Hord) as (h' & Hpop & Hh' & Hlen' & _).
    change (popMany (S (S n)) (top :: rest)) with
      (match pop (top :: rest) with
       | (Some tileId, heap') => tileId :: popMany (S n) heap'
       | (None, _) => []
       end).
    change (popMany (S n) (top :: rest)) with
      (match pop (top :: rest) with
       | (Some tileId, heap') => tileId :: popMany n heap'
       | (None, _) => []
       end).
    rewrite Hpop. f_equal. apply IH; [done |]. cbn in Hlen. lia.
Qed.

End HeapOrder.


(** ** Decisions: from the provider's response to the game page *)

Section DecisionProperties.
Import Snapshots Guardrail JsString DecisionAdapter DecisionClient DecisionSpec.

Lemma actionName_valid a : isVillagerActionType (actionName a) = true.
Proof. destruct a; reflexivity. Qed.

Lemma actionOfName_Some name a : actionOfName name = Some a -> name = actionName a.
Proof.
  unfold actionOfName. intros Hfind. apply find_some in Hfind as [_ Heq].
  apply String.eqb_eq in Heq. done.
Qed.

Lemma resolveActionType_Returned value a :
  resolveActionType value = Returned a -> value = Some (JString (actionName a)).
Proof.
  unfold resolveActionType. destruct value as [[| | | name | |] |]; try done.
  destruct (isVillagerActionType name); [| done].
  destruct (actionOfName name) as [found |] eqn:Hname; [| done].
  intros [= <-]. apply actionOfName_Some in Hname. congruence.
Qed.

Lemma resolveTargetTileId_Returned value target :
  resolveTargetTileId value = Returned target ->
  match value with
  | None => target = None
  | Some (JString s) => target = Some s /\ isTileId s = true
  | Some _ => False
  end.
Proof.
  unfold resolveTargetTileId. destruct value as [[| | | s | |] |]; try done.
  - destruct (isTileId s) eqn:Htile; [| done]. intros [= <-]. done.
  - intros [= <-]. done.
Qed.

Lemma length_zero_empty (s : string) : String.length s = 0%nat <-> s = "".
Proof. destruct s; cbn; split; done. Qed.

Lemma truthy_nonempty (s : string) : truthy s = true <-> s <> "".
Proof. unfold truthy. destruct s; cbn; split; done. Qed.

Lemma validation_rejects parsed context message status :
  parseAndValidateDecision parsed context = Thrown message status -> status = 502.
Proof.
  unfold parseAndValidateDecision, resolveActionType, resolveTargetTileId,
    normalizeDecisionIntent.
  intros Hthrown. repeat case_match; congruence.
Qed.

Lemma validation_returns parsed context d :
  parseAndValidateDecision parsed context = Returned d ->
  exists fields text,
    parsed = Some (JObject fields) /\
    lookupField "reasoning" fields = Some (JString text) /\
    reasoning d = trim text /\
    reasoning d <> "" /\
    lookupField "action" fields = Some (JString (actionName (action d))) /\
    match lookupField "targetTileId" fields with
    | None =>
        targetTileId d =
          orElse (ContextAssembler.currentGoal_targetTileId context)
                 (ContextAssembler.location_targetTileId context)
    | Some (JString s) => isTileId s = true /\ targetTileId d = Some s
    | Some _ => False
    end /\
    (actionRequiresTarget (action d) = true ->
     exists t, targetTileId d = Some t /\ t <> "").
Proof.
  unfold parseAndValidateDecision.
  destruct parsed as [payload |]; [| done].
  destruct (isObjectLike (Some payload)) eqn:Hobj; cbn [negb]; [| done].
  destruct (getField payload "reasoning") as [[| | | text | |] |] eqn:Hreason; try done.
  destruct (Nat.eqb_spec (String.length (trim text)) 0) as [_ | Hlen]; [done |].
  destruct (resolveActionType (getField payload "action")) as [a | ? ?] eqn:Haction;
    [| done].
  destruct (resolveTargetTileId (getField payload "targetTileId")) as [target | ? ?]
    eqn:Htarget; [| done].
  unfold normalizeDecisionIntent. cbn zeta.
  set (mapped := orElse target _).
  destruct (actionRequiresTarget a && _) eqn:Hneeds; [done |].
  intros [= <-].
  destruct payload as [| | | | items | fields]; try done.
  cbn [getField] in *.
  exists fields, text. cbn [action reasoning targetTileId].
  split; [done |]. split; [done |]. split; [done |].
  split; [intros Hempty; apply Hlen; rewrite Hempty; done |].
  split; [apply resolveActionType_Returned; done |].
  apply resolveTargetTileId_Returned in Htarget.
  split.
  - destruct (lookupField "targetTileId" fields) as [[| | | s | |] |]; try done.
    + destruct Htarget as [-> Htile]. done.
    + subst target. done.
  - intros Hreq. rewrite Hreq in Hneeds. cbn [andb] in Hneeds.
    apply negb_false_iff in Hneeds.
    destruct mapped as [t |]; [| done]. exists t. split; [done |].
    apply truthy_nonempty. done.
Qed.

(** X14.  parseAndValidateDecision returns a decision only for a JSON
    object whose reasoning is a string that is not blank, whose action is
    the name of a villager action, and whose targetTileId is absent or a
    string of the TileId shape.  The decision carries that action, the
    trimmed reasoning, and as target the payload's, else the goal's, else
    the location's; an action that requires a target (walk, farm, shop) has
    a non-empty one.  Every other payload is rejected with status 502. *)
Theorem decision_validation_outcome
    (parsed : option JValue) (context : ContextAssembler.NpcPromptInput) :
  match parseAndValidateDecision parsed context with
  | Returned d =>
      exists fields text,
        parsed = Some (JObject fields) /\
        lookupField "reasoning" fields = Some (JString text) /\
        reasoning d = trim text /\
        reasoning d <> "" /\
        lookupField "action" fields = Some (JString (actionName (action d))) /\
        match lookupField "targetTileId" fields with
        | None =>
            targetTileId d =
              orElse (ContextAssembler.currentGoal_targetTileId context)
                     (ContextAssembler.location_targetTileId context)
        | Some (JString s) => isTileId s = true /\ targetTileId d = Some s
        | Some _ => False
        end /\
        (actionRequiresTarget (action d) = true ->
         exists t, targetTileId d = Some t /\ t <> "")
  | Thrown message status => status = 502
  end.
Proof.
  destruct (parseAndValidateDecision parsed context) as [d | message status] eqn:Hcall.
  - apply validation_returns. exact Hcall.
  - exact (validation_rejects _ _ _ _ Hcall).
Qed.

Lemma guardrailLoop_target rules context : forall a t vs,
  match guardrailLoop rules context a t vs with
  | Returned (a', t', vs') => t' = t \/ t' = None
  | Thrown message status => status = 422
  end.
Proof.
  induction rules as [| rule rest IH]; intros a t vs; cbn [guardrailLoop]; [auto |].
  destruct (negb _ || negb _); [apply IH |].
  destruct (rule_outcome rule) as [newAction why | why]; [| done].
  cbn zeta. specialize (IH newAction (if actionRequiresTarget newAction then t else None)
                           (vs ++ [{| policyId := rule_id rule; reason := why;
                                      originalAction := a; finalAction := newAction;
                                      outcome := KindRewrite |}])).
  destruct (guardrailLoop rest context _ _ _) as [[[a' t'] vs'] | ? ?]; [| done].
  destruct IH as [-> | ->]; destruct (actionRequiresTarget newAction); auto.
Qed.

(** X15.  When the prompt context names tiles by ids of the TileId shape,
    every decision that comes out of validation followed by the guardrails
    keeps the validated reasoning and, sent as JSON, passes the game
    page's isApiNpcDecision check; a response turned down on the way is
    rejected with status 502 (validation) or 422 (a blocking policy). *)
Theorem provider_decision_accepted_by_client
    (parsed : option JValue) (context : ContextAssembler.NpcPromptInput) :
  contextTileIds context ->
  match decideFromContent parsed context with
  | Returned moderation =>
      isApiNpcDecision (Some (encodeDecision (decision moderation))) = true /\
      reasoning (decision moderation) <> "" /\
      (exists validated,
         parseAndValidateDecision parsed context = Returned validated /\
         reasoning (decision moderation) = reasoning validated)
  | Thrown message status => status = 502 \/ status = 422
  end.
Proof.
  intros [Hgoal Hlocation]. unfold decideFromContent.
  destruct (parseAndValidateDecision parsed context) as [d | message status] eqn:Hcall;
    [| left; exact (validation_rejects _ _ _ _ Hcall)].
  destruct (validation_returns _ _ _ Hcall)
    as (fields & text & _ & _ & _ & Hreason & _ & Hfield & _).
  assert (Htile : forall s, targetTileId d = Some s -> isTileId s = true).
  { intros s Hs. destruct (lookupField "targetTileId" fields) as [[| | | s' | |] |];
      try done.
    - destruct Hfield as [Hshape Heq]. congruence.
    - rewrite Hs in Hfield. unfold orElse in Hfield.
      destruct (ContextAssembler.currentGoal_targetTileId context) as [g |] eqn:Hg.
      + apply Hgoal. congruence.
      + apply Hlocation. congruence. }
  unfold applyDecisionGuardrails, applyGuardrailsWith.
  pose proof (guardrailLoop_target DECISION_POLICY_RULES (policyContext context)
                (action d) (targetTileId d) []) as Hloop.
  destruct (guardrailLoop _ _ _ _ _) as [[[a' t'] vs'] | ? ?]; [| auto].
  cbn [decision reasoning].
  split; [| split; [done | exists d; done]].
  unfold isApiNpcDecision, encodeDecision. cbn [action reasoning targetTileId].
  cbn [isObjectLike negb getField app lookupField String.eqb Ascii.eqb Bool.eqb
       isStringSuchThat anyString orb].
  rewrite actionName_valid. cbn [negb].
  assert (Ht' : forall s, t' = Some s -> isTileId s = true).
  { intros s ->. destruct Hloop as [Heq | Heq]; [| done]. apply Htile. done. }
  destruct t' as [s |]; cbn [fmap option_fmap option_map optional app lookupField
                             String.eqb Ascii.eqb Bool.eqb isOptionalStringSuchThat];
    [apply Ht'; done | done].
Qed.

Lemma provider_decision_accepted_by_client_witness :
  match decideFromContent (Some farmResponse) farmerAtNoon with
  | Returned moderation =>
      isApiNpcDecision (Some (encodeDecision (decision moderation))) = true /\
      reasoning (decision moderation) <> "" /\
      (exists validated,
         parseAndValidateDecision (Some farmResponse) farmerAtNoon = Returned validated /\
         reasoning (decision moderation) = reasoning validated)
  | Thrown message status => status = 502 \/ status = 422
  end.
Proof.
  apply (provider_decision_accepted_by_client (Some farmResponse) farmerAtNoon).
  split; intros t [= <-]; reflexivity.
Defined.

End DecisionProperties.


(** ** A villager walks a shortest route, one tile a tick *)

Section WalkProperties.
Import Movement Pathfinding SearchSpec GridSpec ServiceSpec Examples.
Import MovementPlanning PlanningSpec VillagerWalk WalkSpec.

Ltac by_grid_evaluation :=
  unfold distinctIds, distinctCoordinates, tileIds;
  apply (bool_decide_unpack _); vm_compute; exact I.

Lemma target_resolved v task target fallback :
  Schedule.task_targetTileId task = Some target -> truthy target = true ->
  resolveTaskTargetTile v task fallback = target.
Proof. intros Ht Htruthy. unfold resolveTaskTargetTile. rewrite Ht, Htruthy. done. Qed.

Lemma nth_last (p : list TileId) (target fallback : TileId) :
  last p = Some target -> nth (length p - 1) p fallback = target.
Proof.
  induction p as [| a [| b rest] IH]; [done | cbn; congruence |].
  intros Hl. cbn [length]. replace (S (S (length rest)) - 1)%nat with (S (length rest)) by lia.
  cbn [nth]. cbn [length] in IH. replace (S (length rest) - 1)%nat with (length rest) in IH by lia.
  apply IH. exact Hl.
Qed.

Lemma moveVillagerOver_app v task ticks1 ticks2 st :
  moveVillagerOver v task (ticks1 ++ ticks2) st =
  match moveVillagerOver v task ticks1 st with
  | None => None
  | Some (st1, events1) =>
      match moveVillagerOver v task ticks2 st1 with
      | None => None
      | Some (st2, events2) => Some (st2, events1 ++ events2)
      end
  end.
Proof.
  revert st. induction ticks1 as [| tick rest IH]; intros st; cbn [app moveVillagerOver].
  - destruct (moveVillagerOver v task ticks2 st) as [[st2 events2] |]; done.
  - destruct (moveVillager v task tick st) as [[st' now] |]; [| done].
    rewrite IH. destruct (moveVillagerOver v task rest st') as [[st1 events1] |]; [| done].
    destruct (moveVillagerOver v task ticks2 st1) as [[st2 events2] |]; [| done].
    rewrite app_assoc. done.
Qed.

Lemma later_tick v task s vid p target t0 j :
  Schedule.task_targetTileId task = Some target -> truthy target = true ->
  0 <= t0 -> 0 <= j -> 1 <= len p -> last p = Some target ->
  moveVillager v task (t0 + (j + 1))
    {| walker_movement := stride vid p target t0 j;
       walker_targetTileId := target;
       walker_pathfinding := s |} =
  Some ({| walker_movement := stride vid p target t0 (j + 1);
           walker_targetTileId := target;
           walker_pathfinding := s |},
        if (1 <=? len p - 1) && (j + 1 =? len p - 1)
        then [ {| ev_villagerId := vid; ev_tileId := target; ev_tick := t0 + (len p - 1) |} ]
        else []).
Proof.
  intros Htask Htruthy Ht0 Hj Hlen Hlast.
  unfold moveVillager, planVillagerMovementIntent.
  cbn [villager movement activeTask pathfinding tick previousTargetTileId
       MovementPlanning.blockedTileIds walker_movement walker_targetTileId walker_pathfinding].
  rewrite (target_resolved _ _ _ _ Htask Htruthy).
  rewrite (bool_decide_eq_false_2 (Some target <> Some target)) by (intros Hne; done).
  assert (Hpath : path (stride vid p target t0 j) = p) by done.
  rewrite Hpath, (bool_decide_eq_true_2 _ Hlast). cbn [orb negb result_movement targetTileId].
  assert (Hend : nth (Z.to_nat (len p - 1)) p target = target).
  { unfold len. replace (Z.to_nat (Z.of_nat (length p) - 1)) with (length p - 1)%nat by lia.
    apply nth_last. exact Hlast. }
  unfold advanceVillagerMovement, stride.
  rewrite assertNonNegativeInteger_ok by lia.
  cbn [lastProcessedTick path pathIndex currentTileId arrivedAtTick villagerId].
  destruct (Z.leb_spec (t0 + (j + 1)) (t0 + j)) as [Hle | _]; [lia |]. cbn [orb].
  destruct (Z.leb_spec (len p) 1) as [Hone | Hmore].
  - assert (Hn : len p = 1) by lia. rewrite Hn in *. cbn [Z.sub Z.pos_sub Z.leb Z.compare andb].
    rewrite !Z.min_r by lia. cbn [Z.eqb component events].
    do 2 f_equal. f_equal; [f_equal; lia.. | f_equal; lia].
  - unfold Movement.tileAt, isDefined.
    replace (t0 + (j + 1) - (t0 + j)) with 1 by lia.
    destruct (Z.min_spec j (len p - 1)) as [[Hlt ->] | [Hge ->]];
      destruct (Z.min_spec (j + 1) (len p - 1)) as [[Hlt' ->] | [Hge' ->]]; try lia.
    + (* still on the way *)
      rewrite (proj2 (Z.eqb_neq j (len p - 1))) by lia.
      rewrite (Z.min_r (len p - 1) (j + 1)) by lia.
      rewrite (proj2 (Z.eqb_neq (j + 1) (len p - 1))) by lia.
      cbn [andb negb orb].
      destruct (Z.ltb_spec (j + 1) 0); [lia |].
      rewrite andb_false_r. cbn [component events].
      rewrite nth_indep with (d' := target) by (unfold len in *; lia).
      done.
    + (* the last step *)
      assert (Hj1 : j + 1 = len p - 1) by lia.
      rewrite (proj2 (Z.eqb_neq j (len p - 1))) by lia.
      rewrite Hj1, Z.min_id, Z.eqb_refl.
      cbn [andb negb orb].
      destruct (Z.ltb_spec (len p - 1) 0); [lia |].
      destruct (Z.leb_spec 1 (len p - 1)); [| lia]. cbn [andb component events].
      rewrite nth_indep with (d' := target) by (unfold len in *; lia).
      rewrite Hend.
      replace (t0 + j + (len p - 1 - j)) with (t0 + (len p - 1)) by lia. done.
    + (* standing at the end *)
      rewrite Z.eqb_refl.
      rewrite (Z.min_l (len p - 1) (len p - 1 + 1)) by lia. rewrite Z.eqb_refl.
      cbn [andb negb orb].
      destruct (Z.ltb_spec (len p - 1) 0); [lia |].
      rewrite (proj2 (Z.eqb_neq (j + 1) (len p - 1))) by lia.
      rewrite andb_false_r. cbn [component events].
      rewrite nth_indep with (d' := target) by (unfold len in *; lia).
      done.
Qed.

Lemma first_tick tiles maxCachedRoutes v task target st t0 :
  distinctIds tiles -> distinctCoordinates tiles -> tileIds tiles ->
  serviceInv tiles maxCachedRoutes (walker_pathfinding st) ->
  0 <= t0 ->
  Schedule.task_targetTileId task = Some target ->
  knownTile tiles (currentTileId (walker_movement st)) -> knownTile tiles target ->
  walkableTile tiles (currentTileId (walker_movement st)) -> walkableTile tiles target ->
  (exists q, route tiles ∅ (currentTileId (walker_movement st)) q target) ->
  walker_targetTileId st <> target ->
  exists p s',
    route tiles ∅ (currentTileId (walker_movement st)) p target /\
    (forall q, route tiles ∅ (currentTileId (walker_movement st)) q target ->
               (length p <= length q)%nat) /\
    serviceInv tiles maxCachedRoutes s' /\
    moveVillager v task t0 st =
      Some ({| walker_movement := stride (villagerId (walker_movement st)) p target t0 0;
               walker_targetTileId := target;
               walker_pathfinding := s' |}, []).
Proof.
  intros Hids Hcoords Htile Hinv Ht0 Htask Hkc Hkt Hwc Hwt [q Hq] Hchanged.
  assert (Htruthy : truthy target = true).
  { apply (nodes_truthy tiles Htile). apply nodes_known. exact Hkt. }
  unfold moveVillager, planVillagerMovementIntent.
  cbn [villager movement activeTask pathfinding tick previousTargetTileId
       MovementPlanning.blockedTileIds].
  rewrite (target_resolved _ _ _ _ Htask Htruthy).
  rewrite (bool_decide_eq_true_2 (Some (walker_targetTileId st) <> Some target))
    by congruence.
  cbn [orb negb].
  set (request := {| startTileId := currentTileId (walker_movement st);
                     destinationTileId := target;
                     Pathfinding.blockedTileIds := None |}).
  destruct (findPath_outcome tiles maxCachedRoutes _ request Hinv)
    as (result & s' & Hcall & Hout).
  rewrite Hcall.
  pose proof (findPath_preserves tiles maxCachedRoutes _ _ _ _ Hinv Hout) as Hinv'.
  pose proof Hinv as (Hnodes & _).
  assert (Hblocked : blockedSet request = ∅) by done.
  assert (Hacc : rejection (nodesById (walker_pathfinding st)) request = None).
  { rewrite Hnodes. apply accepted_request; try done; rewrite Hblocked; set_solver. }
  assert (Hfound : exists p fromCache, result = Found p fromCache).
  { destruct Hout as [reason Hrej | Hrej Hsame | p Hrej Hne Hget | Hrej Hne Hget Hnone
                     | p Hrej Hne Hget Hsome]; eauto.
    - congruence.
    - exfalso.
      destruct (heap_search_route tiles (startTileId request) (destinationTileId request)
                  (blockedSet request) Hids Hcoords Htile Hkc Hkt Hwc)
        as (r & Hr & Hspec); [rewrite Hblocked; set_solver |].
      rewrite Hnodes in Hnone. rewrite Hnone in Hr. injection Hr as <-.
      apply (Hspec q). rewrite Hblocked. exact Hq. }
  destruct Hfound as (p & fromCache & ->).
  destruct (found_is_shortest_route tiles maxCachedRoutes _ _ _ _ _
              Hids Hcoords Htile Hinv Hout) as (Hroute & Hmin & _).
  rewrite Hblocked in Hroute, Hmin. cbn [request startTileId destinationTileId] in Hroute, Hmin.
  exists p, s'. split; [done |]. split; [done |]. split; [done |].
  destruct (route_ends _ _ _ _ _ Hroute) as [Hhead _].
  unfold assignVillagerMovementPath. rewrite assertNonNegativeInteger_ok by done.
  destruct p as [| first rest]; [done |]. cbn in Hhead. injection Hhead as ->.
  cbn [result_movement targetTileId].
  unfold advanceVillagerMovement. rewrite assertNonNegativeInteger_ok by done.
  cbn [lastProcessedTick path pathIndex currentTileId arrivedAtTick villagerId].
  rewrite Z.leb_refl. cbn [orb component events].
  unfold stride.
  assert (Hpos : 1 <= len (currentTileId (walker_movement st) :: rest))
    by (unfold len; cbn [length]; lia).
  rewrite (Z.min_l 0 _) by lia. cbn [Z.to_nat nth].
  rewrite Z.max_id, Z.add_0_r.
  destruct (Z.eqb_spec (len (currentTileId (walker_movement st) :: rest)) 1) as [Hone | Hmore].
  - rewrite Hone. cbn [Z.sub Z.pos_sub Z.eqb Z.opp]. rewrite Z.add_0_r. done.
  - rewrite (proj2 (Z.eqb_neq 0 _)) by lia. done.
Qed.

(** X16.  On a tile list with pairwise distinct ids of the TileId shape and
    pairwise distinct coordinates, take a villager whose task names a new
    target, with the villager's tile and the target known and walkable and
    a route between them.  Running the tick effect's planning and movement
    at the ticks t0, t0+1, ..., t0+k never throws.  It puts the villager on
    a shortest route p at tick t0 and then moves it one tile per tick: after
    tick t0+k the villager stands on tile number min(k, n-1) of p (n the
    length of p), so on the target from tick t0+n-1 on; the target is
    remembered; and over the whole run exactly one arrival event is
    emitted, for the target at tick t0+n-1, once that tick is reached and
    unless the villager started on the target, in which case none is. *)
Theorem villager_walks_shortest_route
    (tiles : list Tile) (maxCachedRoutes : Z)
    (v : PlanningVillager) (task : Schedule.ActiveVillagerTask) (target : TileId)
    (st : WalkerState) (t0 : Z) (k : nat) :
  distinctIds tiles -> distinctCoordinates tiles -> tileIds tiles ->
  serviceInv tiles maxCachedRoutes (walker_pathfinding st) ->
  0 <= t0 ->
  Schedule.task_targetTileId task = Some target ->
  knownTile tiles (currentTileId (walker_movement st)) -> knownTile tiles target ->
  walkableTile tiles (currentTileId (walker_movement st)) -> walkableTile tiles target ->
  (exists q, route tiles ∅ (currentTileId (walker_movement st)) q target) ->
  walker_targetTileId st <> target ->
  exists p stN arrivals,
    route tiles ∅ (currentTileId (walker_movement st)) p target /\
    (forall q, route tiles ∅ (currentTileId (walker_movement st)) q target ->
               (length p <= length q)%nat) /\
    moveVillagerOver v task (seqZ t0 (Z.of_nat k + 1)) st = Some (stN, arrivals) /\
    serviceInv tiles maxCachedRoutes (walker_pathfinding stN) /\
    walker_targetTileId stN = target /\
    path (walker_movement stN) = p /\
    pathIndex (walker_movement stN) = Z.min (Z.of_nat k) (len p - 1) /\
    p !! Z.to_nat (Z.min (Z.of_nat k) (len p - 1)) =
      Some (currentTileId (walker_movement stN)) /\
    (len p - 1 <= Z.of_nat k -> currentTileId (walker_movement stN) = target) /\
    arrivals =
      if (1 <=? len p - 1) && (len p - 1 <=? Z.of_nat k)
      then [ {| ev_villagerId := villagerId (walker_movement st);
                ev_tileId := target;
                ev_tick := t0 + (len p - 1) |} ]
      else [].
Proof.
  intros Hids Hcoords Htile Hinv Ht0 Htask Hkc Hkt Hwc Hwt Hq Hchanged.
  destruct (first_tick tiles maxCachedRoutes v task target st t0
              Hids Hcoords Htile Hinv Ht0 Htask Hkc Hkt Hwc Hwt Hq Hchanged)
    as (p & s' & Hroute & Hmin & Hinv' & Hfirst).
  assert (Htruthy : truthy target = true).
  { apply (nodes_truthy tiles Htile). apply nodes_known. exact Hkt. }
  destruct (route_ends _ _ _ _ _ Hroute) as [Hhead Hlast].
  assert (Hlen : 1 <= len p).
  { pose proof (route_nonempty _ _ _ _ _ Hroute). unfold len. lia. }
  set (vid := villagerId (walker_movement st)) in *.
  set (arrival := {| ev_villagerId := vid; ev_tileId := target;
                     ev_tick := t0 + (len p - 1) |}).
  assert (Hrun : forall j : nat,
            moveVillagerOver v task (seqZ t0 (Z.of_nat j + 1)) st =
            Some ({| walker_movement := stride vid p target t0 (Z.of_nat j);
                     walker_targetTileId := target;
                     walker_pathfinding := s' |},
                  if (1 <=? len p - 1) && (len p - 1 <=? Z.of_nat j)
                  then [arrival] else [])).
  { induction j as [| j IH].
    - change (seqZ t0 (Z.of_nat 0 + 1)) with [t0]. cbn [moveVillagerOver].
      rewrite Hfirst. change (Z.of_nat 0) with 0. cbn [app].
      destruct (Z.leb_spec 1 (len p - 1)); destruct (Z.leb_spec (len p - 1) 0);
        cbn [andb]; first [lia | done].
    - replace (Z.of_nat (S j) + 1) with ((Z.of_nat j + 1) + 1) by lia.
      rewrite (seqZ_app t0 (Z.of_nat j + 1) 1) by lia.
      rewrite moveVillagerOver_app, IH.
      change (seqZ (t0 + (Z.of_nat j + 1)) 1) with [t0 + (Z.of_nat j + 1)].
      cbn [moveVillagerOver].
      rewrite (later_tick v task s' vid p target t0 (Z.of_nat j)
                 Htask Htruthy Ht0 ltac:(lia) Hlen Hlast).
      replace (Z.of_nat (S j)) with (Z.of_nat j + 1) by lia.
      rewrite app_nil_r. do 2 f_equal.
      destruct (Z.leb_spec 1 (len p - 1)); destruct (Z.leb_spec (len p - 1) (Z.of_nat j));
        destruct (Z.eqb_spec (Z.of_nat j + 1) (len p - 1));
        destruct (Z.leb_spec (len p - 1) (Z.of_nat j + 1));
        cbn [andb app]; first [lia | done]. }
  exists p. eexists _, _. split; [done |]. split; [done |].
  split; [apply Hrun |].
  cbn [walker_movement walker_targetTileId walker_pathfinding stride path pathIndex
       currentTileId].
  split; [done |]. split; [done |]. split; [done |]. split; [done |].
  assert (Hin : (Z.to_nat (Z.min (Z.of_nat k) (len p - 1)) < length p)%nat)
    by (unfold len in *; lia).
  split; [| split; [| done]].
  - apply lookup_lt_is_Some_2 in Hin as [tile Hlook].
    rewrite Hlook. f_equal. symmetry. apply nth_lookup_Some with (d := target). exact Hlook.
  - intros Hreached. rewrite Z.min_r by lia.
    unfold len. replace (Z.to_nat (Z.of_nat (length p) - 1)) with (length p - 1)%nat by lia.
    apply nth_last. exact Hlast.
Qed.

Lemma villager_walks_shortest_route_witness :
  exists p stN arrivals,
    route blockTiles ∅ "tile_0_0" p "tile_2_1" /\
    (forall q, route blockTiles ∅ "tile_0_0" q "tile_2_1" -> (length p <= length q)%nat) /\
    moveVillagerOver {| homeTileId := "tile_0_0" |} walkerTask (seqZ 4 (Z.of_nat 5 + 1)) walker
      = Some (stN, arrivals) /\
    serviceInv blockTiles 2 (walker_pathfinding stN) /\
    walker_targetTileId stN = "tile_2_1" /\
    path (walker_movement stN) = p /\
    pathIndex (walker_movement stN) = Z.min (Z.of_nat 5) (len p - 1) /\
    p !! Z.to_nat (Z.min (Z.of_nat 5) (len p - 1)) =
      Some (currentTileId (walker_movement stN)) /\
    (len p - 1 <= Z.of_nat 5 -> currentTileId (walker_movement stN) = "tile_2_1") /\
    arrivals =
      if (1 <=? len p - 1) && (len p - 1 <=? Z.of_nat 5)
      then [ {| ev_villagerId := "villager_ava";
                ev_tileId := "tile_2_1";
                ev_tick := 4 + (len p - 1) |} ]
      else [].
Proof.
  apply (villager_walks_shortest_route blockTiles 2 {| homeTileId := "tile_0_0" |}
           walkerTask "tile_2_1" walker 4 5).
  - by_grid_evaluation.
  - by_grid_evaluation.
  - by_grid_evaluation.
  - apply createPathfindingService_inv.
  - lia.
  - reflexivity.
  - unfold knownTile. apply (bool_decide_unpack _). vm_compute. exact I.
  - unfold knownTile. apply (bool_decide_unpack _). vm_compute. exact I.
  - intros tile Ht _. apply list_elem_of_In in Ht. cbn in Ht.
    repeat (destruct Ht as [<- | Ht]; [reflexivity |]). destruct Ht.
  - intros tile Ht _. apply list_elem_of_In in Ht. cbn in Ht.
    repeat (destruct Ht as [<- | Ht]; [reflexivity |]). destruct Ht.
  - destruct (heap_search_route blockTiles "tile_0_0" "tile_2_1" ∅) as (r & Hr & Hspec).
    + by_grid_evaluation.
    + by_grid_evaluation.
    + by_grid_evaluation.
    + unfold knownTile. apply (bool_decide_unpack _). vm_compute. exact I.
    + unfold knownTile. apply (bool_decide_unpack _). vm_compute. exact I.
    + intros tile Ht _. apply list_elem_of_In in Ht. cbn in Ht.
      repeat (destruct Ht as [<- | Ht]; [reflexivity |]). destruct Ht.
    + set_solver.
    + destruct r as [p |]; [exists p; apply Hspec |].
      vm_compute in Hr. discriminate Hr.
  - discriminate.
Defined.

End WalkProperties.


(** ** Animation frames *)

Section AnimationProperties.
Import JsParse Animation.

Lemma frames_pair animationKey :
  exists first second, getAnimationFrames animationKey = [first; second].
Proof.
  unfold getAnimationFrames, ANIMATION_FRAMES.
  repeat (destruct (String.eqb animationKey _); [eexists _, _; reflexivity |]).
  eexists _, _; reflexivity.
Qed.

Lemma resolveDirection_again d previous current :
  resolveDirection (resolveDirection d previous current) previous current =
  resolveDirection d previous current.
Proof.
  unfold resolveDirection. cbn zeta.
  destruct (nanIs _ 0 && nanIs _ 0); done.
Qed.

(** X17.  From a state whose frame index is not negative,
    advanceVillagerAnimationState yields frame index 0 or 1 and a frame
    token that is defined and is one of the frames of the new key (those
    of idle.down for a key without frames); it stamps the input's tick;
    and advancing again with the same input changes nothing. *)
Theorem animation_frame_defined
    (previousState : VillagerAnimationState) (input : VillagerAnimationAdvanceInput) :
  0 <= frameIndex previousState ->
  let next := advanceVillagerAnimationState previousState input in
  (frameIndex next = 0 \/ frameIndex next = 1) /\
  (exists token, frameToken next = Some token /\
                 token ∈ getAnimationFrames (key next)) /\
  lastTick next = tick input /\
  advanceVillagerAnimationState next input = next.
Proof.
  intros Hindex next.
  assert (Hnext : next = advanceVillagerAnimationState previousState input) by done.
  unfold advanceVillagerAnimationState in Hnext. cbn zeta in Hnext.
  set (d := resolveDirection (direction previousState) (previousTileId input)
              (currentTileId input)) in *.
  set (animationKey := resolveAnimationKey (npcState input) (action input) d) in *.
  destruct (frames_pair animationKey) as (first & second & Hframes).
  rewrite Hframes in Hnext. change (Z.of_nat (length [first; second])) with 2 in Hnext.
  set (index := if String.eqb animationKey (key previousState)
                then Z.rem (frameIndex previousState +
                            Z.max 0 (tick input - lastTick previousState)) 2
                else Z.rem (Z.max 0 (tick input - lastTick previousState)) 2) in *.
  assert (Hrange : 0 <= index < 2).
  { unfold index. destruct (String.eqb _ _); apply Z.rem_bound_pos; lia. }
  assert (Htoken : frameAt [first; second] index =
                   Some (if index =? 0 then first else second)).
  { unfold frameAt. destruct (Z.ltb_spec index 0); [lia |].
    assert (index = 0 \/ index = 1) as [-> | ->] by lia; done. }
  rewrite Htoken in Hnext.
  split; [rewrite Hnext; cbn [frameIndex]; lia |].
  split.
  { rewrite Hnext. cbn [frameToken key]. eexists. split; [done |].
    rewrite Hframes. destruct (index =? 0); set_solver. }
  split; [rewrite Hnext; done |].
  rewrite Hnext at 1. unfold advanceVillagerAnimationState. cbn zeta.
  cbn [direction key frameIndex lastTick].
  assert (Hd : resolveDirection d (previousTileId input) (currentTileId input) = d)
    by apply resolveDirection_again.
  rewrite Hd. fold animationKey.
  rewrite Hframes. change (Z.of_nat (length [first; second])) with 2.
  rewrite String.eqb_refl, Z.sub_diag, Z.max_id, Z.add_0_r.
  rewrite (Z.rem_small index 2) by lia. rewrite Htoken. symmetry. exact Hnext.
Qed.

Lemma animation_frame_defined_witness :
  let next := advanceVillagerAnimationState (createVillagerAnimationState 0) stepRight in
  (frameIndex next = 0 \/ frameIndex next = 1) /\
  (exists token, frameToken next = Some token /\
                 token ∈ getAnimationFrames (key next)) /\
  lastTick next = tick stepRight /\
  advanceVillagerAnimationState next stepRight = next.
Proof.
  apply (animation_frame_defined (createVillagerAnimationState 0) stepRight).
  cbn. lia.
Defined.

End AnimationProperties.

(** ** Interactions and their cooldown *)

Section InteractionProperties.
Import JsParse Interactions EffectSpec.

Lemma stringLess_asym a b : stringLess a b = true -> stringLess b a = false.
Proof.
  unfold stringLess. rewrite (String.compare_antisym b a).
  destruct (String.compare a b); done.
Qed.

Lemma stringLess_total a b : stringLess a b = false -> stringLess b a = false -> a = b.
Proof.
  unfold stringLess. rewrite (String.compare_antisym b a).
  destruct (String.compare a b) eqn:Hc; try done.
  intros _ _. apply String.compare_eq_iff. exact Hc.
Qed.

Lemma pairKey_symmetric a b : toVillagerPairKey a b = toVillagerPairKey b a.
Proof.
  unfold toVillagerPairKey.
  destruct (stringLess b a) eqn:Hba; destruct (stringLess a b) eqn:Hab; try done.
  - apply stringLess_asym in Hba. congruence.
  - rewrite (stringLess_total _ _ Hab Hba). done.
Qed.

Lemma spaced_snoc events e :
  spaced events ->
  (forall e1, e1 ∈ events -> pairKeyOf e1 = pairKeyOf e ->
              INTERACTION_COOLDOWN_TICKS <= event_tick e - event_tick e1) ->
  spaced (events ++ [e]).
Proof.
  intros Hs Hnew i j e1 e2 Hij H1 H2 Hkey.
  assert (Hi : (i < length events)%nat).
  { apply lookup_lt_Some in H2. rewrite length_app in H2. cbn in H2. lia. }
  rewrite lookup_app_l in H1 by done.
  destruct (decide (j < length events)%nat) as [Hj | Hj].
  - rewrite lookup_app_l in H2 by done. exact (Hs i j e1 e2 Hij H1 H2 Hkey).
  - rewrite lookup_app_r in H2 by lia.
    destruct (j - length events)%nat; [| done]. injection H2 as <-.
    apply Hnew; [| done]. eapply list_elem_of_lookup_2. done.
Qed.

Lemma record_interaction initial cooldown events tick leftVillager rightVillager tileId :
  spaced events -> remembers initial cooldown events ->
  match cooldown !! toVillagerPairKey leftVillager rightVillager with
  | Some lastInteractionTick => tick - lastInteractionTick <? INTERACTION_COOLDOWN_TICKS
  | None => false
  end = false ->
  let pairKey := toVillagerPairKey leftVillager rightVillager in
  let e := {| event_id := (tick, pairKey); event_tick := tick;
              event_tileId := tileId; participants := (leftVillager, rightVillager) |} in
  spaced (events ++ [e]) /\ remembers initial (<[pairKey := tick]> cooldown) (events ++ [e]).
Proof.
  intros Hs (Hevents & Hinitial & Hfirst) Hfree pairKey e.
  assert (Hkey : pairKeyOf e = pairKey) by done.
  assert (Hlast : forall lastTick, cooldown !! pairKey = Some lastTick ->
                                   INTERACTION_COOLDOWN_TICKS <= tick - lastTick).
  { intros lastTick Hl. fold pairKey in Hfree. rewrite Hl in Hfree.
    apply Z.ltb_ge in Hfree. done. }
  split; [| split; [| split]].
  - apply spaced_snoc; [done |]. intros e1 He1 Hk.
    destruct (Hevents e1 He1) as (lastTick & Hl & Hle).
    rewrite Hk, Hkey in Hl. specialize (Hlast _ Hl). cbn [event_tick e]. lia.
  - intros e1 [He1 | He1%list_elem_of_singleton]%elem_of_app.
    + destruct (Hevents e1 He1) as (lastTick & Hl & Hle).
      destruct (decide (pairKeyOf e1 = pairKey)) as [Hk | Hk].
      * rewrite Hk, lookup_insert_eq. eexists. split; [done |].
        rewrite Hk in Hl. specialize (Hlast _ Hl).
        unfold INTERACTION_COOLDOWN_TICKS in Hlast. lia.
      * rewrite lookup_insert_ne by done. eauto.
    + subst e1. rewrite Hkey, lookup_insert_eq. eexists. split; [done |]. cbn. lia.
  - intros k tick0 Hk0. destruct (Hinitial k tick0 Hk0) as (lastTick & Hl & Hle).
    destruct (decide (k = pairKey)) as [-> | Hne].
    + rewrite lookup_insert_eq. eexists. split; [done |].
      specialize (Hlast _ Hl). unfold INTERACTION_COOLDOWN_TICKS in Hlast. lia.
    + rewrite lookup_insert_ne by done. eauto.
  - intros e1 tick0 [He1 | He1%list_elem_of_singleton]%elem_of_app Hk0.
    + eapply Hfirst; done.
    + subst e1. rewrite Hkey in Hk0.
      destruct (Hinitial _ _ Hk0) as (lastTick & Hl & Hle).
      specialize (Hlast _ Hl). cbn [event_tick e]. lia.
Qed.

Lemma innerLoop_keeps initial tick leftVillager leftCoordinate others :
  forall cooldown events,
    spaced events -> remembers initial cooldown events ->
    let result := innerLoop tick leftVillager leftCoordinate others cooldown events in
    spaced result.2 /\ remembers initial result.1 result.2 /\
    exists new, result.2 = events ++ new.
Proof.
  induction others as [| rightVillager rest IH]; intros cooldown events Hs Hr;
    cbn [innerLoop].
  - split; [done |]. split; [done |]. exists []. rewrite app_nil_r. done.
  - destruct (negb _); [apply IH; done |]. cbn zeta.
    destruct (nanGtb _ _); [apply IH; done |].
    destruct (match cooldown !! _ with Some _ => _ | None => false end) eqn:Hfree;
      [apply IH; done |].
    destruct (record_interaction initial cooldown events tick (ir_villagerId leftVillager)
                (ir_villagerId rightVillager) (ir_currentTileId leftVillager) Hs Hr Hfree)
      as [Hs' Hr'].
    destruct (IH _ _ Hs' Hr') as (Hs2 & Hr2 & new & Hnew).
    split; [done |]. split; [done |]. eexists. rewrite Hnew, <- app_assoc. done.
Qed.

Lemma outerLoop_keeps initial tick runtime :
  forall cooldown events,
    spaced events -> remembers initial cooldown events ->
    let result := outerLoop tick runtime cooldown events in
    spaced result.2 /\ remembers initial result.1 result.2 /\
    exists new, result.2 = events ++ new.
Proof.
  induction runtime as [| leftVillager rest IH]; intros cooldown events Hs Hr;
    cbn [outerLoop].
  - split; [done |]. split; [done |]. exists []. rewrite app_nil_r. done.
  - destruct (negb _); [apply IH; done |]. cbn zeta.
    pose proof (innerLoop_keeps initial tick leftVillager
                  (parseTileIdCoordinate (ir_currentTileId leftVillager)) rest
                  cooldown events Hs Hr) as Hinner.
    destruct (innerLoop _ _ _ _ _ _) as [cooldown' found].
    cbn [fst snd] in Hinner. destruct Hinner as (Hs' & Hr' & new & ->).
    destruct (IH _ _ Hs' Hr') as (Hs2 & Hr2 & new2 & Hnew2).
    split; [done |]. split; [done |]. eexists. rewrite Hnew2, <- app_assoc. done.
Qed.

Lemma innerLoop_acc tick leftVillager coordinate others : forall cooldown events,
  innerLoop tick leftVillager coordinate others cooldown events =
  ((innerLoop tick leftVillager coordinate others cooldown []).1,
   events ++ (innerLoop tick leftVillager coordinate others cooldown []).2).
Proof.
  induction others as [| rightVillager others IH]; intros cooldown events;
    cbn [innerLoop]; [rewrite app_nil_r; done |].
  destruct (negb _); [apply IH |]. cbn zeta.
  destruct (nanGtb _ _); [apply IH |].
  destruct (match cooldown !! _ with Some _ => _ | None => false end); [apply IH |].
  rewrite IH. rewrite (IH _ ([] ++ _)). cbn [fst snd app]. rewrite <- app_assoc. done.
Qed.

Lemma outerLoop_acc tick runtime : forall cooldown events,
  outerLoop tick runtime cooldown events =
  ((outerLoop tick runtime cooldown []).1,
   events ++ (outerLoop tick runtime cooldown []).2).
Proof.
  induction runtime as [| leftVillager others IH]; intros cooldown events;
    cbn [outerLoop]; [rewrite app_nil_r; done |].
  destruct (negb _); [apply IH |]. cbn zeta.
  rewrite innerLoop_acc.
  destruct (innerLoop tick leftVillager _ others cooldown []) as [cooldown' found].
  cbn [fst snd]. rewrite IH. rewrite (IH _ found). cbn [fst snd].
  rewrite <- app_assoc. done.
Qed.

Lemma findInteractionsOver_keeps initial steps :
  forall cooldown before,
    spaced before -> remembers initial cooldown before ->
    let result := findInteractionsOver steps cooldown in
    spaced (before ++ result.2) /\ remembers initial result.1 (before ++ result.2).
Proof.
  induction steps as [| [tick runtime] rest IH]; intros cooldown before Hs Hr;
    cbn [findInteractionsOver].
  - cbn [fst snd]. rewrite app_nil_r. done.
  - unfold findInteractions.
    pose proof (outerLoop_keeps initial tick runtime cooldown before Hs Hr) as Hstep.
    cbn zeta in Hstep. rewrite outerLoop_acc in Hstep. cbn [fst snd] in Hstep.
    destruct Hstep as (Hs' & Hr' & _).
    destruct (outerLoop tick runtime cooldown []) as [cooldown' now].
    cbn [fst snd] in Hs', Hr'.
    specialize (IH cooldown' (before ++ now) Hs' Hr'). cbn zeta in IH.
    destruct (findInteractionsOver rest cooldown') as [final later].
    cbn [fst snd] in *. rewrite app_assoc. exact IH.
Qed.

(** X18.  Over any run of the interaction loop, tick after tick, with any
    villagers at each tick and any cooldown map to start from, two
    recorded interactions of the same pair of villagers are at least 8
    ticks apart, the later recorded at the later tick; and a pair that the
    starting map holds on cooldown is not recorded before 8 ticks have
    passed.  The pair key does not depend on the order of the two ids. *)
Theorem interactions_respect_cooldown
    (steps : list (Z * list InteractionRuntime)) (interactionCooldown : gmap string Z) :
  let recorded := (findInteractionsOver steps interactionCooldown).2 in
  (forall (i j : nat) e1 e2,
     (i < j)%nat -> recorded !! i = Some e1 -> recorded !! j = Some e2 ->
     pairKeyOf e1 = pairKeyOf e2 ->
     8 <= event_tick e2 - event_tick e1) /\
  (forall e lastTick,
     e ∈ recorded -> interactionCooldown !! pairKeyOf e = Some lastTick ->
     8 <= event_tick e - lastTick) /\
  (forall a b, toVillagerPairKey a b = toVillagerPairKey b a).
Proof.
  intros recorded.
  assert (Hs0 : spaced []) by (intros i j e1 e2 _ H; done).
  assert (Hr0 : remembers interactionCooldown interactionCooldown []).
  { split; [intros e He; inversion He |].
    split; [intros k t Hk; eexists; split; [done | lia] |].
    intros e t He. inversion He. }
  destruct (findInteractionsOver_keeps interactionCooldown steps interactionCooldown []
              Hs0 Hr0) as [Hs (_ & _ & Hfirst)].
  cbn [app] in Hs, Hfirst. fold recorded in Hs, Hfirst.
  split; [exact Hs |]. split; [| apply pairKey_symmetric].
  intros e lastTick He Hl. exact (Hfirst e lastTick He Hl).
Qed.

End InteractionProperties.

(** ** Paying out completed actions *)

Section PayoutProperties.
Import ActionExecution Resources Payout EffectSpec.

Lemma collectLoop_settles runtime : forall recorded completedActions,
  let result := collectLoop runtime recorded completedActions in
  settled runtime result.1 /\
  (forall villagerId tick0, recorded !! villagerId = Some tick0 ->
     exists tick1, result.1 !! villagerId = Some tick1 /\ tick0 <= tick1).
Proof.
  induction runtime as [| entry rest IH]; intros recorded completedActions;
    cbn [collectLoop].
  - split; [intros entry execution completedAt He; inversion He |].
    intros villagerId tick0 Hl. eexists. split; [done | lia].
  - assert (Hskip : forall completedActions',
              (forall execution completedAt,
                 pr_actionExecution entry = Some execution ->
                 completedAtTick execution = Some completedAt ->
                 exists tick0, recorded !! pr_villagerId entry = Some tick0 /\
                               completedAt <= tick0) ->
              let result := collectLoop rest recorded completedActions' in
              settled (entry :: rest) result.1 /\
              (forall villagerId tick0, recorded !! villagerId = Some tick0 ->
                 exists tick1, result.1 !! villagerId = Some tick1 /\ tick0 <= tick1)).
    { intros completedActions' Hhere. destruct (IH recorded completedActions') as [Hset Hmono].
      split; [| done].
      intros entry' execution completedAt [-> | Hin]%elem_of_cons Hexec Hdone.
      - destruct (Hhere _ _ Hexec Hdone) as (tick0 & Hl & Hle).
        destruct (Hmono _ _ Hl) as (tick1 & Hl1 & Hle1). eexists. split; [done | lia].
      - eapply Hset; done. }
    destruct (pr_actionExecution entry) as [execution |] eqn:Hexec; [| apply Hskip; done].
    destruct (completedAtTick execution) as [completedAt |] eqn:Hdone;
      [| apply Hskip; intros ? ? [= <-]; congruence].
    case_bool_decide as Hsame.
    { apply Hskip. intros ? ? [= <-] Hd. rewrite Hdone in Hd. injection Hd as <-.
      eexists. split; [done | lia]. }
    destruct (recorded !! pr_villagerId entry) as [previous |] eqn:Hprev.
    + destruct (Z.ltb_spec completedAt previous) as [Hlt | Hge].
      { apply Hskip. intros ? ? [= <-] Hd. rewrite Hdone in Hd. injection Hd as <-.
        eexists. split; [done | lia]. }
      destruct (IH (<[pr_villagerId entry := completedAt]> recorded)
                  (completedActions ++ [exec_action execution])) as [Hset Hmono].
      split.
      * intros entry' execution' completedAt' [-> | Hin]%elem_of_cons Hexec' Hdone'.
        -- rewrite Hexec in Hexec'. injection Hexec' as <-.
           rewrite Hdone in Hdone'. injection Hdone' as <-.
           apply (Hmono (pr_villagerId entry) completedAt). apply lookup_insert_eq.
        -- eapply Hset; done.
      * intros villagerId tick0 Hl.
        destruct (decide (villagerId = pr_villagerId entry)) as [-> | Hne].
        -- rewrite Hprev in Hl. injection Hl as <-.
           destruct (Hmono (pr_villagerId entry) completedAt) as (tick1 & Hl1 & Hle1);
             [apply lookup_insert_eq |].
           eexists. split; [done | lia].
        -- apply Hmono. rewrite lookup_insert_ne by done. done.
    + destruct (IH (<[pr_villagerId entry := completedAt]> recorded)
                  (completedActions ++ [exec_action execution])) as [Hset Hmono].
      split.
      * intros entry' execution' completedAt' [-> | Hin]%elem_of_cons Hexec' Hdone'.
        -- rewrite Hexec in Hexec'. injection Hexec' as <-.
           rewrite Hdone in Hdone'. injection Hdone' as <-.
           apply (Hmono (pr_villagerId entry) completedAt). apply lookup_insert_eq.
        -- eapply Hset; done.
      * intros villagerId tick0 Hl.
        destruct (decide (villagerId = pr_villagerId entry)) as [-> | Hne]; [congruence |].
        apply Hmono. rewrite lookup_insert_ne by done. done.
Qed.

Lemma collectLoop_settled runtime : forall recorded completedActions,
  settled runtime recorded ->
  collectLoop runtime recorded completedActions = (recorded, completedActions).
Proof.
  induction runtime as [| entry rest IH]; intros recorded completedActions Hset;
    cbn [collectLoop]; [done |].
  assert (Hrest : settled rest recorded).
  { intros entry' execution completedAt Hin. apply Hset. right. done. }
  destruct (pr_actionExecution entry) as [execution |] eqn:Hexec; [| apply IH; done].
  destruct (completedAtTick execution) as [completedAt |] eqn:Hdone; [| apply IH; done].
  destruct (Hset entry execution completedAt) as (tick0 & Hl & Hle); [left | done | done |].
  rewrite Hl. case_bool_decide; [apply IH; done |].
  destruct (Z.ltb_spec completedAt tick0); [apply IH; done |].
  assert (completedAt = tick0) by lia. congruence.
Qed.

(** X19.  Paying out completed actions is idempotent: when the effect runs
    again over the same villagers, with the map and the inventory the
    first run left, it pays nothing more and leaves both as they are. *)
Theorem payout_runs_once
    (runtime : list PayoutRuntime) (completedActionTick : gmap VillagerId Z)
    (inventory : ResourceInventory) :
  let first := payCompletedActions runtime completedActionTick inventory in
  payCompletedActions runtime first.1 first.2 = first /\
  collectLoop runtime first.1 [] = (first.1, []).
Proof.
  intros first.
  assert (Hmap : first.1 = (collectLoop runtime completedActionTick []).1).
  { unfold first, payCompletedActions.
    destruct (collectLoop runtime completedActionTick []) as [next [| a actions]]; done. }
  destruct (collectLoop_settles runtime completedActionTick []) as [Hset _].
  cbn zeta in Hset. rewrite <- Hmap in Hset.
  pose proof (collectLoop_settled runtime first.1 [] Hset) as Hagain.
  split; [| done].
  unfold payCompletedActions at 1. rewrite Hagain. destruct first; done.
Qed.

End PayoutProperties.


(** ** The text of a cache key *)

Section CacheKeyText.
Import Pathfinding JsString.

Lemma without_separator (c : ascii) (a r : string) :
  without c (a ++ String c r) = false.
Proof.
  unfold without. rewrite allChars_append. cbn [allChars].
  rewrite Ascii.eqb_refl. cbn. apply andb_false_r.
Qed.

Lemma isTileId_nonempty (s : string) : isTileId s = true -> s <> "".
Proof. intros H ->. done. Qed.

(** Ids without a comma, none of them empty, can be read back from their
    join. *)
Lemma concat_comma_inj (l l' : list string) :
  Forall (fun id => isTileId id = true) l ->
  Forall (fun id => isTileId id = true) l' ->
  String.concat "," l = String.concat "," l' -> l = l'.
Proof.
  assert (Hcomma : forall id, isTileId id = true -> without "," id = true)
    by (intros id; apply isTileId_without; reflexivity).
  intros Hl. revert l'. induction Hl as [| x t Hx Ht IH]; intros l' Hl' Heq.
  - destruct Hl' as [| y u Hy Hu]; [done |]. exfalso.
    apply (isTileId_nonempty y Hy). cbn [String.concat] in Heq.
    destruct u; [done |]. destruct y; done.
  - destruct Hl' as [| y u Hy Hu].
    { exfalso. apply (isTileId_nonempty x Hx). cbn [String.concat] in Heq.
      destruct t; [done |]. destruct x; done. }
    cbn [String.concat] in Heq.
    destruct t as [| x2 t], u as [| y2 u].
    + congruence.
    + exfalso. pose proof (Hcomma x Hx) as Hno. rewrite Heq in Hno.
      change ("," ++ ?r)%string with (String "," r) in Hno.
      rewrite without_separator in Hno. done.
    + exfalso. pose proof (Hcomma y Hy) as Hno. rewrite <- Heq in Hno.
      change ("," ++ ?r)%string with (String "," r) in Hno.
      rewrite without_separator in Hno. done.
    + change ("," ++ ?r)%string with (String "," r) in Heq.
      apply append_separator_inj in Heq as [-> Hrest]; [| apply Hcomma; done ..].
      f_equal. apply IH; done.
Qed.

(** On ids of the TileId shape the key text of the source determines start,
    destination and the blocked ids; with the sorted lists holding the
    elements of two blocked sets, equal texts mean equal keys of the
    model. *)
Lemma cacheKeyText_inj (start dest start' dest' : TileId) (sorted sorted' : list TileId) :
  isTileId start = true -> isTileId dest = true ->
  isTileId start' = true -> isTileId dest' = true ->
  Forall (fun id => isTileId id = true) sorted ->
  Forall (fun id => isTileId id = true) sorted' ->
  cacheKeyText start dest sorted = cacheKeyText start' dest' sorted' ->
  start = start' /\ dest = dest' /\ sorted = sorted' /\
  forall blocked blocked' : gset TileId,
    sorted ≡ₚ elements blocked -> sorted' ≡ₚ elements blocked' ->
    toCacheKey start dest blocked = toCacheKey start' dest' blocked'.
Proof.
  intros Hs Hd Hs' Hd' Hl Hl' Heq. unfold cacheKeyText in Heq.
  change ("->" ++ ?r)%string with (String "-" (String ">" r)) in Heq.
  change ("|" ++ ?r)%string with (String "|" r) in Heq.
  apply append_separator_inj in Heq as [-> Heq];
    [| apply isTileId_without; done ..].
  injection Heq as Heq.
  apply append_separator_inj in Heq as [-> Heq];
    [| apply isTileId_without; done ..].
  apply concat_comma_inj in Heq as ->; [| done ..].
  split; [done |]. split; [done |]. split; [done |].
  intros blocked blocked' Hp Hp'. unfold toCacheKey. f_equal.
  apply set_eq. intros id. rewrite <- !elem_of_elements, <- Hp, <- Hp'. done.
Qed.

(** The texts of the one-element blocked set [tile_1_0,tile_9_9] and of the
    two-element set of its halves are the same: outside the TileId shape a
    key text does not determine the blocked set. *)
Lemma cacheKeyText_collision :
  cacheKeyText "tile_0_0" "tile_2_1" ["tile_1_0,tile_9_9"]
  = cacheKeyText "tile_0_0" "tile_2_1" ["tile_1_0"; "tile_9_9"] /\
  toCacheKey "tile_0_0" "tile_2_1" {["tile_1_0,tile_9_9"]}
  <> toCacheKey "tile_0_0" "tile_2_1" {["tile_1_0"; "tile_9_9"]}.
Proof.
  split; [reflexivity |]. unfold toCacheKey. intros Heq.
  apply (f_equal snd) in Heq. cbn [snd] in Heq.
  assert (Hin : "tile_1_0" ∈ ({["tile_1_0,tile_9_9"]} : gset TileId))
    by (rewrite Heq; set_solver).
  apply elem_of_singleton in Hin. done.
Qed.

End CacheKeyText.
